(* ===== verification/_CoqProject ===== *)
-Q . S2P
Prelude.v
PyDict.v
CanopyIndex.v
Predicates.v
Blocker.v
BlockerCall.v
Convenience.v
Clustering.v
AffineGap.v
DataModel.v
Scoring.v
Pipeline.v
Sampling.v
Lifecycle.v
Logging.v
