(* ===== verification/Prelude.v ===== *)
(** * A verification development of dedupe's blocking stage

    The repository (open-city/dedupe) performs probabilistic entity
    resolution.  Its pipeline is: records -> [Blocker] (predicates and
    shared canopy indices) -> candidate blocks -> field distances and
    scores (DataModel) -> clustering.  The sources under [src/] are
    [src/dedupe/blocking.py] (the [Blocker] class and [extractIndices]),
    [src/dedupe/convenience.py] ([dataSample], [blockData]) and the test
    suite [src/test/test_dedupe.py].  The predicates and the TF-IDF
    canopy index the Blocker drives are not under [src/]: they are
    modelled from the specification (section 4.1) and marked so in the
    manifest.  The DataModel constructor (spec sections 4.3 and 7), the
    affine-gap comparator (4.5) and clustering (4.7) are modelled from
    the specification, and checked against the test suite's
    [DataModelTest], [AffineGapTest] and [ClusteringTest], whose test
    methods are modelled as executable checks with Python's equality.
    The pair samplers [dedupe.core.randomPairs] and [randomPairsMatch]
    that [dataSample] calls are modelled from spec sections 6-8.

    ** Files, in dependency order

    - [Prelude] (this file): the scope [dedupe_scope]; Python's
      exceptions as the inductive [exn]; the state-and-exception monad
      [PyM] in which every mutating Python method is written (a raised
      exception keeps the mutations made before it, as in Python); the
      [for] loop [pfor] and its laws; the tactics [pysimpl] and
      [destruct_run]; the hint database [dedupe]; list lemmas.
    - [PyDict]: Python's insertion-ordered [dict], [defaultdict] and
      [OrderedDict] as association lists ([dget], [dset], [dmodify],
      [dget_default], [dkeys], [dvalues]) with their lookup and key-order
      lemmas.
    - [CanopyIndex]: the calls the Blocker makes on a canopy index, as
      the typeclass [CanopyIndex], and what it relies on, as the laws
      [CanopyIndexLaws] ([index]/[unindex] invalidate search readiness,
      [initSearch] restores it, documents form a multiset, a query
      answers exactly on a search-ready index); Module [TfIdf] implements
      it by a term-frequency cosine index.  The Blocker's theorems are
      proved against the interface.
    - [Predicates]: the predicate objects ([Pred]: field, kind, mutable
      [index]), the atomic predicates (whole field, tokens, n-grams,
      initials, integers, near integers, canopy query) and the compound
      predicate as the cartesian product of its members' keys; checked
      against [PredicatesTest].
    - [Blocker]: [Blocker.__init__] ([blocker_init], [register], with
      [index_list] the factory of the defaultdict [index_fields]),
      [resetIndices], [index], [unindex], [indexAll] and [extractIndices]
      of [blocking.py].  The objects live in a heap [St]: predicate
      objects at locations of [st_preds], index objects at locations of
      [st_idx], the Blocker's three fields in [st_bl]; the methods are
      [PyM (St I)] programs whose phases ([read_field],
      [extractIndices], [feed_docs], [publish]) are those of the code,
      so the one index object shared by a (field, type) bucket is the
      aliasing the code has.  Module [Scenario] is a concrete Blocker
      over the records [DATA] of the test suite.
    - [BlockerCall]: [Blocker.__call__]: the block-key encoding
      ([pred_id], [tag]), the trace of a run ([blocker_call]), and the
      generator as a step function [gen_step] on its suspended states
      [Gen], with [gen_next] (one [next()]) and [gen_run] (a whole run).
      A compound predicate is applied in the heap of the moment it is
      reached, as the lazy generator does.
    - [Convenience]: [dataSample] (split on [record['dataset'] == 0],
      then records at sampled index pairs) with the samplers of
      [dedupe.core] as parameters, and [blockData] (an [OrderedDict] of
      blocks built with [setdefault(...).update(...)]) over a blocker
      object with an optional [tfIdfBlocks]; [blocker_obj] is the
      [Blocker] of [blocking.py] as [blockData] calls it; Module
      [Fixtures] holds the test fixtures.
    - [Clustering]: the three clustering operations of spec 4.7 on an
      edge list [((idA, idB), score)] with rational scores:
      [greedyMatching] (sort by descending score, ties in input order,
      commit when both ends are free), [clusterConstrained] (the first
      maximum-weight matching of the edges [≥ τ] in a fixed enumeration)
      and [cluster] (complete-linkage merging of clusters, from
      singletons, while a permissible merge remains), each also behind
      the input validation of spec 7 ([validated]); Module
      [ClusteringTest] holds the fixtures of the test suite.
    - [AffineGap]: the affine-gap distance of spec 4.5 with rational
      weights: the cost [acost] of an alignment (a list of columns), the
      three-state recurrence [T] on suffixes, the row-by-row dynamic
      program [dp_rows] that computes it, [affineGapDistance] (the
      sentinel [None], Python's [nan], on an empty operand) and
      [normalizedAffineGapDistance]; Module [AffineGapTest] holds the
      test's weights.
    - [DataModel]: [DataModel(fields)] as a function from the spec dict
      (an association list of Python values [SVal] in declaration order)
      to an exception or the model's ordered fields and bias:
      [field_entry] validates one field, [field_entries] all of them in
      order, [inherit] gives interactions their components' [Has
      Missing], [columns] adds the indicator after its field; lemmas
      [DataModel_layout] and [DataModel_raises] state the layout and
      the first failing field's exception.  Module [DataModelTest] holds
      the test's specs and expected fields.
    - [Scoring]: [fieldDistances] (spec 4.4) over a DataModel, one row
      per record pair and one value per column: comparator columns with
      the sentinel replaced by 0 (the String comparator is
      [normalizedAffineGapDistance] of [AffineGap]), indicator columns,
      interaction products; and [scoreDuplicates] (spec 4.6), a
      lockstep pass over id pairs and record pairs giving
      [σ (w · row + bias)] with the logistic [σ] a parameter.  Module
      [ScoringTest] holds the fixtures of [test_score_duplicates] and
      of the first [CoreTest.setUp], which the second [CoreTest] class
      of the test module shadows.
    - [Pipeline]: the stages composed: [block_pairs] lists the
      unordered pairs of distinct records of a block, [candidate_pairs]
      those of all blocks [blockData] returns, and [block_edges] scores
      them (the scorer a parameter) for the clustering operations.
    - [Sampling]: the pair samplers.  [random.sample] is the class
      [Sampler] (an operation on the generator state with its laws:
      [k] distinct indices below [m]); the interpreter state [SampSt]
      holds the generator and the warnings emitted.  [tri n] is the
      number of pairs [n(n-1)/2], [pair_of_index] decodes a pair index
      in closed form with [N.sqrt], [sample_indices] draws, truncates
      with [truncation_warning] or raises [ValueError], and
      [randomPairs]/[randomPairsMatch] decode the draw.  [dataSampleM]
      is [dataSample] run in that state, calling the samplers as lines
      28 and 32 do ([rp_py], [rpm_py]).  Module [SamplingTest] holds
      [test_random_pair], [test_data_sample] and a sampler instance
      for the witnesses.
    - [Lifecycle]: a Blocker object's life after [__init__] as a state
      machine: [op] is a call of [index], [unindex], [indexAll] or
      [resetIndices], [run_op] runs it, and [step] relates the states
      before and after a call that returns or raises (the mutations
      made before an exception stay, as in Python); the reachable
      states are [rtc step], and [evolves] is what one call keeps.
    - [Logging]: the console output of [Blocker.__call__] (lines
      44-62) as a list of events in emission order ([log_event]: the
      banner, the predicate list, each record, each predicate's keys,
      each yielded pair, and the [logger.info] progress entry
      [progress_log] when [progress_due]), built by [record_trace] and
      [trace_records] as [BlockerCall]'s loops are, and [call_trace] the
      whole run; [yields_of], [progress_of] and [records_of] project it.

    ** Theorems (claim ids of the manifest)

    - Invariant [wf_state] (shape of [index_fields] and
      [index_predicates]; every named object allocated; one index per
      bucket, never shared across buckets): established by [__init__]
      (C1), kept by [index], [unindex], [resetIndices], [indexAll].
      By rule induction over [step], every state reachable from
      [__init__] by any sequence of these calls, returning or raising,
      keeps it, together with the compound predicates (so the ordinals
      of block keys are stable), the index predicates and the shape of
      every predicate object; from each such state [indexAll] on
      complete data restores search-readiness, after which [__call__]
      never raises (C27).
    - Functional behaviour: [index] (C2), the [index]/[unindex] round
      trip on the multiset of documents (C3), [indexAll] (C4),
      [resetIndices] (C10); errors: [indexAll] raises exactly [KeyError]
      of a missing field (C9), and [index] on an unregistered field makes
      a later [indexAll] raise (C8, a defect of the code).
    - [__call__]: after [indexAll] it never raises (C5: every canopy
      query is on a search-ready index); the key [k ++ ":" ++ str i] is
      decoded at its last colon, so keys of different compound
      predicates never collide (C6); the yielded pairs are characterised
      (C7) and so are its exceptions (C11).  The generator
      refines the trace given enough fuel ([gen_run_refines]), every
      [next()] returns within [gen_measure] steps ([gen_next_total]),
      and it is single-pass ([gen_exhausted]).  Its console output and
      progress log (C13): erased to its yielded pairs it is
      [blocker_call]'s trace with the same ending; a stream of [n]
      records that ends normally logs the ordinals [10000 * k] for
      [1 <= k <= (n - 1) / 10000], so a stream of exactly 10000 records
      logs nothing; each entry [i] follows exactly [i + 1] records.
    - [dataSample]: its output (C12), the dataset split
      ([dataSample_constrained]), and all its exceptions (C14).
      [blockData]: [AttributeError] when the data has no [constrained]
      attribute, and otherwise, for a blocker that has [tfIdfBlocks],
      its blocks (C15); with the [Blocker] of [blocking.py] it raises
      [AttributeError], and the tuple call of line 46 would raise
      [TypeError] ([blockData_Blocker], defects of the code).  The
      predicates reproduce [PredicatesTest]
      ([predicates_test_correctness]).
    - Composition ([Pipeline]): the candidate pairs of the blocks
      [blockData] returns are exactly the pairs of distinct records for
      which the blocker yields a common key (C16).
    - Clustering: [test_hierarchical] ([test_hierarchical_holds]),
      [test_greedy_matching] ([test_greedy_matching_holds]) and
      [test_hungarian] at 0, 0.8 and 1 ([test_hungarian_holds]) hold of
      the model; the assertion of [test_hungarian] at 0.5 names a
      matching lighter than the maximum the spec asks for (C19).  For
      every threshold: greedy weighs at least half of every matching of
      the edges above it, the maximum-weight one included (C20, by a
      charging argument on the descending order), it is a maximal
      matching ([greedy_bipartite_maximal]), and hierarchical
      clustering ends, within its fuel, at a partition with no
      permissible merge (C21).  At threshold 0, complete linkage
      does not collapse a connected component that is not complete
      ([cluster_tau0_path]), which spec 4.7 asserts it does.
    - Affine gap, with the test's weights: the assertions the spec
      determines hold ([test_affine_gap_holds]); five assertions expect
      less than any alignment costs (C22, the test assumes a
      trailing-gap discount the spec does not describe); the sentinel is
      returned exactly on an empty operand (C23).  Under the spec's
      recurrence the distance is the least cost of an alignment
      ([affineGap_optimal]) and the dynamic program equals the
      exhaustive minimum ([dp_equals_exhaustive]); the normalized
      distance lies in [[-5/2, 6]] ([normalized_bounds]).  The general
      lemmas ([dp_value_spec], [T_optimal], [dp_brute], [V_bounds]) hold
      for any weights with a non-negative gap opening.
    - DataModel: in every model it builds, each indicator column comes
      right after its field, so no spec gives the order
      [test_data_model] expects (C25); validation raises only
      [ValueError], so an interaction over undeclared fields raises it
      and not the test's [KeyError], and [test_data_model] fails (C26);
      its other assertions hold ([test_data_model_holds]).
    - Field distances and scoring, composing DataModel and AffineGap:
      [fieldDistances] is total and gives one value per column on every
      model [DataModel] builds without [Categorical] or [Source] fields
      ([score_model_rows]); [scoreDuplicates] keeps the id pairs in
      order ([test_score_duplicates_pairs]); the model of an
      interaction over a field with missing data lays each row out as
      distance, indicator, distance, product, indicator
      ([interaction_missing_row]).
    - Sampling: [randomPairs] and [randomPairsMatch] raise [ValueError]
      exactly when there is no pair and pairs are requested, and
      otherwise return [min(k, m)] distinct pairs in range with the
      truncation warning exactly when [k > m] (C18), for every generator
      keeping [random.sample]'s laws; the index decoding and
      [index_of_pair] are inverse ([pair_index_roundtrip]) and decoding
      the indices in order is the reference enumeration [all_pairs]
      ([pair_of_index_enumeration]).  Composed with [dataSample]: on
      unconstrained data it never raises [IndexError] and returns pairs
      of records at distinct positions [i < j] (C17), on constrained
      data pairs of a dataset-0 record and another (C24); the
      seed-independent assertions of [test_random_pair] hold,
      [test_data_sample] fails on the plain [dict] [DATA], and with
      [constrained = False] it records exactly the expected warning
      (C28); with [DATA] in declaration order the tuple the test
      expects is unreachable ([expected_sample_unreachable]).
    Theorems named in brackets rather than by a claim id are proved
    and kept as library lemmas.  Every claim with a hypothesis has a
    witness applying it to the test fixtures.

    ** Fuel and bounds

    Loops over Python lists are structural recursions.  The one
    unbounded loop, [next()] on the generator, is [gen_next] with fuel:
    [gen_measure] (two steps per compound predicate and two per record
    left) bounds the internal steps before an event, and
    [gen_next_total] shows any larger fuel suffices; [gen_run_refines]
    shows some fuel runs the whole generator and any larger fuel gives
    the same result.

    ** Choices and what is not modelled

    - Strings are [String.string]; a Blocker record is a
      [gmap string string] and a value is truthy iff non-empty;
      [convenience.py] compares [record['dataset'] == 0], so its records
      map fields to Python values [PyVal].
    - Python sets ([indexAll]'s set comprehension) are duplicate-free
      lists in first-occurrence order; statements about them are up to
      permutation ([≡ₚ]).
    - [unindex]'s [index._index.initSearch()] is the law
      [ci_inner_initSearch_eq]; IDF weights of the TF-IDF index are not
      modelled.
    - [blockData] reads [data_d.iteritems()] as the data's items
      (Python 2, as [dataSample] reads [data.values()] as a list); a
      blocker object is its optional [tfIdfBlocks] and what its call on
      the tuple [(record_id, record)] yields.  [blocker_obj] is the
      [Blocker] for integer ids, whose call on that tuple raises
      [TypeError] when [__call__] unpacks the id.
    - The preprocessing of a canopy predicate is one function
      [preprocess] for every canopy predicate, where [extractIndices]
      reads it from the first predicate of each bucket (line 118).
      The predicates of a bucket share their type, so this is exact
      when every canopy type preprocesses alike; types that
      preprocess differently are not distinguished.
    - Console output: [__call__]'s prints and progress log are events
      of [Logging] with structured payloads; the text Python's [repr]
      gives them and the elapsed time the log reports are not modelled.
      The print of [__init__] and the [logger.debug] calls of [index]
      and [unindex] (one per published predicate, its [str]) are not
      modelled: they change no state.  The samplers' truncation
      warning, which the tests observe, is recorded in [SampSt].
    - Sampling: [random.sample] is an interface with laws, not Python's
      Mersenne Twister, so the literal samples of a seeded generator
      ([test_random_pair]'s last assertion, [test_data_sample]'s first)
      are not computed; the index-to-pair decoding is exact integer
      arithmetic where numpy uses floating point; numbers are [N]
      (Python integers), so [randomPairs(10 * 1000000000, 10)] is
      modelled without overflow.  The stateful run [dataSampleM] and
      [dataSample] with the samplers fixed at its starting state give
      the same result ([dataSampleM_result]).
    - Python floats in the clustering fixtures are exact rationals
      ([.86] is [86#100]); the test compares lists of Python sets, the
      theorems compare lists of lists, which is stronger.
      [clusterConstrained] is specified by its result, not by the
      Hungarian method; validation (spec 7) is [validated]: a threshold
      or an edge score outside [0, 1] fails with [ValueError].
    - The affine-gap comparator ignores the seventh argument of the
      Python signature (a trailing-gap discount), which the spec does
      not describe.
    - DataModel: the derived columns of [Categorical] and [Source]
      fields depend on the levels observed in the data and are not
      modelled; a [Has Missing] value that is not a bool is taken as
      invalid.
    - The lat-long and Jaccard comparators are parameters of
      [fieldDistances]; models with [Categorical] or [Source] fields
      give [None] there.  The logistic function of [scoreDuplicates] is
      a parameter, so the test's two-decimal score values are not
      checked. *)

From stdpp Require Export base list gmap strings pretty.
From Stdlib Require Import QArith.

Declare Scope dedupe_scope.
Delimit Scope dedupe_scope with dd.
Open Scope string_scope.
Open Scope nat_scope.
Open Scope list_scope.

Create HintDb dedupe.

(** Rationals model Python's floats; their order is decidable, so that
    [decide] and [filter] compute on scores and thresholds. *)
#[export] Instance Qle_decision (x y : Q) : Decision (x <= y)%Q :=
  match Qlt_le_dec y x with left H => right (Qlt_not_le _ _ H) | right H => left H end.
#[export] Instance Qlt_decision (x y : Q) : Decision (x < y)%Q :=
  match Qlt_le_dec x y with left H => left H | right H => right (Qle_not_lt _ _ H) end.
#[export] Instance Qeq_decision (x y : Q) : Decision (x == y)%Q := Qeq_dec x y.

(** ** Python exceptions *)

Inductive exn :=
  | KeyError (key : string)
  | IndexError
  | AttributeError (what : string)
  | TypeError (what : string)
  | ValueError (what : string)
  | RuntimeError (what : string).

#[export] Instance exn_eq_dec : EqDecision exn.
Proof. solve_decision. Defined.

(** ** The state-and-exception monad

    A Python method that mutates objects and may raise is a function
    from the heap to the heap after it ran, paired with its result or
    the exception it raised.  The heap of an exception is the heap at
    the point of the [raise]: mutations already made are kept. *)

Definition PyM (S A : Type) : Type := S → S * (exn + A).

Definition pret {S A} (a : A) : PyM S A := λ s, (s, inr a).
Definition praise {S A} (e : exn) : PyM S A := λ s, (s, inl e).
Definition pbind {S A B} (m : PyM S A) (k : A → PyM S B) : PyM S B :=
  λ s, match m s with
       | (s', inr a) => k a s'
       | (s', inl e) => (s', inl e)
       end.
Definition pget {S} : PyM S S := λ s, (s, inr s).
Definition pmodify {S} (f : S → S) : PyM S unit := λ s, (f s, inr tt).
Definition plift {S A} (r : exn + A) : PyM S A := λ s, (s, r).

Notation "x <- m ;; k" := (pbind m (λ x, k))
  (at level 100, m at next level, right associativity) : dedupe_scope.
Notation "m ;;; k" := (pbind m (λ _ : unit, k))
  (at level 100, right associativity) : dedupe_scope.

Local Open Scope dedupe_scope.

(** Python's [for x in l: body]. *)
Fixpoint pfor {S A} (l : list A) (body : A → PyM S unit) : PyM S unit :=
  match l with
  | [] => pret tt
  | x :: l' => body x ;;; pfor l' body
  end.

(** A sum value's success part. *)
Definition is_ok {A} (r : exn + A) : bool :=
  match r with inr _ => true | inl _ => false end.

(** ** Monad laws and loop lemmas *)

Lemma pbind_ret {S A B} (a : A) (k : A → PyM S B) s :
  pbind (pret a) k s = k a s.
Proof. reflexivity. Qed.

Lemma pbind_assoc {S A B C} (m : PyM S A) (k : A → PyM S B) (h : B → PyM S C) s :
  pbind (pbind m k) h s = pbind m (λ a, pbind (k a) h) s.
Proof. unfold pbind. destruct (m s) as [s' [e|a]]; reflexivity. Qed.

Lemma pfor_app {S A} (l1 l2 : list A) (body : A → PyM S unit) s :
  pfor (l1 ++ l2) body s = (pfor l1 body ;;; pfor l2 body) s.
Proof.
  revert s. induction l1 as [|x l1 IH]; intros s; [reflexivity|].
  simpl. unfold pbind in *. destruct (body x s) as [s' [e|[]]]; [reflexivity|].
  apply IH.
Qed.

(** A loop whose body never raises runs as a left fold. *)
Lemma pfor_pmodify {S A} (l : list A) (f : A → S → S) s :
  pfor l (λ x, pmodify (f x)) s = (foldl (λ s x, f x s) s l, inr tt).
Proof. revert s. induction l as [|x l IH]; intros s; [reflexivity|]. apply IH. Qed.

Lemma pfor_total {S A} (l : list A) (body : A → PyM S unit) (f : A → S → S) s :
  (∀ x s, x ∈ l → body x s = (f x s, inr tt)) →
  pfor l body s = (foldl (λ s x, f x s) s l, inr tt).
Proof.
  revert s. induction l as [|x l IH]; intros s Hb; [reflexivity|].
  simpl. unfold pbind. rewrite Hb by set_solver. apply IH. set_solver.
Qed.

(** An invariant of the state kept by every iteration of a loop body is
    kept by the loop, whether it ends normally or by an exception. *)
Lemma pfor_invariant {S A} (P : S → Prop) (l : list A) (body : A → PyM S unit) s :
  (∀ x s, x ∈ l → P s → P (body x s).1) → P s → P (pfor l body s).1.
Proof.
  revert s. induction l as [|x l IH]; intros s Hb Hs; simpl; [done|].
  unfold pbind. pose proof (Hb x s ltac:(set_solver) Hs) as Hx.
  destruct (body x s) as [s' [e|[]]]; [done|]. apply IH; [|done].
  intros; apply Hb; [set_solver|done].
Qed.

(** ** Lists *)

(** Python's [list.remove]-like deletion of the first occurrence, used by
    multiset-style containers; absent elements leave the list as is. *)
Fixpoint delete_first `{EqDecision A} (x : A) (l : list A) : list A :=
  match l with
  | [] => []
  | y :: l' => if decide (x = y) then l' else y :: delete_first x l'
  end.

Lemma delete_first_cons `{EqDecision A} (x : A) (l : list A) :
  delete_first x (x :: l) = l.
Proof. simpl. by rewrite decide_True. Qed.

Lemma delete_first_perm `{EqDecision A} (x : A) (l : list A) :
  x ∈ l → x :: delete_first x l ≡ₚ l.
Proof.
  induction l as [|y l IH]; simpl; [set_solver|].
  intros Hin. case_decide as Hxy; [by subst|].
  rewrite Permutation_swap. f_equiv. apply IH. set_solver.
Qed.

#[export] Instance delete_first_proper `{EqDecision A} (x : A) :
  Proper ((≡ₚ) ==> (≡ₚ)) (delete_first x).
Proof.
  intros l1 l2 Hp. induction Hp as [|y l1 l2 Hp IH|y z l|l1 l2 l3 _ IH1 _ IH2];
    simpl; [done| |  |by etrans].
  - case_decide; [done|]. by f_equiv.
  - repeat case_decide; subst; try done. apply Permutation_swap.
Qed.

Lemma delete_first_app_l `{EqDecision A} (x : A) (l1 l2 : list A) :
  x ∈ l1 → delete_first x (l1 ++ l2) = delete_first x l1 ++ l2.
Proof.
  induction l1 as [|y l1 IH]; simpl; [set_solver|]. intros Hin.
  case_decide; [done|]. rewrite IH; [done|set_solver].
Qed.

Lemma Forall2_elem_r {A B} (P : A → B → Prop) l k y :
  Forall2 P l k → y ∈ k → ∃ x, x ∈ l ∧ P x y.
Proof.
  intros HF Hy. apply list_elem_of_lookup in Hy as [i Hi].
  destruct (Forall2_lookup_r _ _ _ _ _ HF Hi) as (x & Hx & HP).
  exists x. split; [by eapply list_elem_of_lookup_2|done].
Qed.

Lemma Forall2_elem_l {A B} (P : A → B → Prop) l k x :
  Forall2 P l k → x ∈ l → ∃ y, y ∈ k ∧ P x y.
Proof.
  intros HF Hx. apply list_elem_of_lookup in Hx as [i Hi].
  destruct (Forall2_lookup_l _ _ _ _ _ HF Hi) as (y & Hy & HP).
  exists y. split; [by eapply list_elem_of_lookup_2|done].
Qed.

(** [omap] of a list whose elements are told apart by a key is
    duplicate-free when equal images come from elements with one key. *)
Lemma NoDup_omap_key {A B K} (g : A → option B) (key : A → K) (l : list A) :
  NoDup (map key l) →
  (∀ x y z, x ∈ l → y ∈ l → g x = Some z → g y = Some z → key x = key y) →
  NoDup (omap g l).
Proof.
  induction l as [|x l IH]; intros Hnd Hinj; simpl; [constructor|].
  apply NoDup_cons in Hnd as [Hn Hnd].
  assert (NoDup (omap g l)) by (apply IH; [done|]; intros; eapply Hinj; set_solver).
  destruct (g x) as [z|] eqn:Hg; [|done]. constructor; [|done].
  intros Hz. apply list_elem_of_omap in Hz as (y & Hy & Hgy).
  apply Hn. apply list_elem_of_fmap. exists y. split; [|done].
  symmetry. eapply Hinj; [set_solver|set_solver|done|done].
Qed.

Lemma Forall2_map_fst {A B C} (P : A * B → A * C → Prop) l k :
  Forall2 (λ x y, x.1 = y.1 ∧ P x y) l k → map fst l = map fst k.
Proof. induction 1 as [|[] [] ? ? [? _] _ IH]; simpl in *; by f_equal. Qed.

(** A list of pairs whose first (second) components are distinct is a
    function of its first (second) components. *)
Lemma NoDup_fst_functional {A B} (l : list (A * B)) a b1 b2 :
  NoDup (map fst l) → (a, b1) ∈ l → (a, b2) ∈ l → b1 = b2.
Proof.
  induction l as [|[a' b'] l IH]; simpl; [set_solver|].
  intros Hnd H1 H2. apply NoDup_cons in Hnd as [Hn Hnd].
  rewrite elem_of_cons in H1, H2.
  destruct H1 as [H1|H1], H2 as [H2|H2]; simplify_eq; auto;
    exfalso; apply Hn; apply list_elem_of_fmap; eexists; (split; [|eassumption]); reflexivity.
Qed.

Lemma NoDup_snd_functional {A B} (l : list (A * B)) a1 a2 b :
  NoDup (map snd l) → (a1, b) ∈ l → (a2, b) ∈ l → a1 = a2.
Proof.
  induction l as [|[a' b'] l IH]; simpl; [set_solver|].
  intros Hnd H1 H2. apply NoDup_cons in Hnd as [Hn Hnd].
  rewrite elem_of_cons in H1, H2.
  destruct H1 as [H1|H1], H2 as [H2|H2]; simplify_eq; auto;
    exfalso; apply Hn; apply list_elem_of_fmap; eexists; (split; [|eassumption]); reflexivity.
Qed.

Lemma foldl_delete_first_perm `{EqDecision A} (xs L1 L2 : list A) :
  L1 ≡ₚ L2 → foldl (λ l x, delete_first x l) L1 xs ≡ₚ foldl (λ l x, delete_first x l) L2 xs.
Proof.
  revert L1 L2. induction xs as [|x xs IH]; intros L1 L2 HL; simpl; [done|].
  apply IH. by rewrite HL.
Qed.

(** Deleting, one by one, the elements of [xs] from a list that holds
    them and [old] leaves [old]. *)
Lemma foldl_delete_first_app `{EqDecision A} (xs old L : list A) :
  L ≡ₚ xs ++ old → foldl (λ l x, delete_first x l) L xs ≡ₚ old.
Proof.
  revert L. induction xs as [|x xs IH]; intros L HL; simpl; [done|].
  apply IH. rewrite HL. change ((x :: xs) ++ old) with (x :: (xs ++ old)).
  by rewrite delete_first_cons.
Qed.

Lemma filter_all {A} (P : A → Prop) `{∀ x, Decision (P x)} (l : list A) :
  (∀ x, x ∈ l → P x) → filter P l = l.
Proof.
  induction l as [|x l IH]; intros Hall; [done|].
  rewrite filter_cons_True by set_solver. f_equal. apply IH. set_solver.
Qed.

Lemma last_fmap {A B} (f : A → B) (l : list A) : last (f <$> l) = f <$> last l.
Proof.
  induction l as [|x l IH]; [done|]. destruct l as [|y l]; [done|].
  rewrite !fmap_cons, !last_cons_cons, <-fmap_cons. exact IH.
Qed.

#[export] Instance concat_Permutation {A} : Proper ((≡ₚ) ==> (≡ₚ)) (@concat A).
Proof.
  intros l1 l2 Hp. induction Hp as [|x l1 l2 _ IH|x y l|l1 l2 l3 _ IH1 _ IH2]; simpl.
  - done.
  - by rewrite IH.
  - by rewrite !app_assoc, (Permutation_app_comm x y).
  - by rewrite IH1.
Qed.

(** Updating position [i] of a list is, up to order, replacing the
    element there. *)
Lemma delete_insert_same {A} (l : list A) i y : delete i (<[i:=y]> l) = delete i l.
Proof. revert i. induction l as [|x l IH]; intros [|i]; simpl; try done. by rewrite IH. Qed.

Lemma insert_Permutation {A} (l : list A) i x y : l !! i = Some x → <[i:=y]> l ≡ₚ y :: delete i l.
Proof.
  intros Hi. rewrite <-(delete_insert_same l i y). apply delete_Permutation.
  apply list_lookup_insert_eq. by eapply lookup_lt_Some.
Qed.

#[export] Hint Resolve delete_first_cons : dedupe.

(** ** Tactics *)

(** Unfold the monad's combinators and compute the sequencing. *)
Ltac pysimpl :=
  repeat (unfold pbind, pret, praise, pget, pmodify, plift in *; simpl in *).

(** Split the result of a monadic run into its state and outcome. *)
Ltac destruct_run H :=
  match type of H with
  | context [ match ?m with (_, _) => _ end ] =>
      let s := fresh "s" in let r := fresh "r" in let E := fresh "Erun" in
      destruct m as [s r] eqn:E
  end.
