(* ===== verification/PyDict.v ===== *)
(** * Python dictionaries with insertion order

    Python's [dict], [collections.defaultdict] and [OrderedDict] iterate
    in insertion order, and assigning to a present key keeps its place.
    They are modelled as association lists whose keys are distinct:
    [dget] is [d[k]] on a present key, [dset] is [d[k] = v], [dmodify k
    f dflt] is [defaultdict]'s [d[k]] followed by an in-place mutation
    [f] of the value (the default is inserted at the end when the key
    is absent), [dkeys]/[dvalues] are [d.keys()]/[d.values()]. *)

From S2P Require Import Prelude.

Section PyDict.
Context {K V : Type} {EqK : EqDecision K}.

Definition dict := list (K * V).

Fixpoint dget (k : K) (d : dict) : option V :=
  match d with
  | [] => None
  | (k', v) :: d' => if decide (k = k') then Some v else dget k d'
  end.

(** [d[k] = v]: in place when present, appended when absent. *)
Fixpoint dset (k : K) (v : V) (d : dict) : dict :=
  match d with
  | [] => [(k, v)]
  | (k', v') :: d' =>
      if decide (k = k') then (k', v) :: d' else (k', v') :: dset k v d'
  end.

(** [defaultdict(factory)[k]] mutated by [f]: the value of a present
    key is replaced by [f] of it; an absent key gets [f dflt], appended. *)
Definition dmodify (k : K) (f : V → V) (dflt : V) (d : dict) : dict :=
  dset k (f (default dflt (dget k d))) d.

(** [defaultdict(factory)[k]] read: the value, or the default after
    inserting it (the read mutates the dictionary). *)
Definition dget_default (k : K) (dflt : V) (d : dict) : V * dict :=
  match dget k d with
  | Some v => (v, d)
  | None => (dflt, d ++ [(k, dflt)])
  end.

Definition dkeys (d : dict) : list K := map fst d.
Definition dvalues (d : dict) : list V := map snd d.

(** ** Lemmas *)

Lemma dget_dset_eq k v d : dget k (dset k v d) = Some v.
Proof.
  induction d as [|[k' v'] d IH]; simpl; [by rewrite decide_True|].
  case_decide; simpl; [by rewrite decide_True|]. by rewrite decide_False.
Qed.

Lemma dget_dset_ne k k' v d : k ≠ k' → dget k' (dset k v d) = dget k' d.
Proof.
  intros Hne. induction d as [|[k'' v'] d IH]; simpl.
  - by rewrite decide_False.
  - repeat case_decide; simplify_eq/=; try done.
    + by rewrite decide_False.
    + by rewrite decide_True.
    + rewrite decide_False; done.
Qed.

Lemma dget_Some_elem k v d : dget k d = Some v → (k, v) ∈ d.
Proof.
  induction d as [|[k' v'] d IH]; simpl; [done|].
  case_decide; [intros; simplify_eq; set_solver|]. intros Hg; specialize (IH Hg); set_solver.
Qed.

Lemma dget_None k d : dget k d = None ↔ k ∉ dkeys d.
Proof.
  induction d as [|[k' v'] d IH]; simpl; [set_solver|].
  case_decide; subst; [set_solver|]. rewrite IH. set_solver.
Qed.

Lemma dget_In_dkeys k d : is_Some (dget k d) ↔ k ∈ dkeys d.
Proof.
  rewrite <-not_eq_None_Some, dget_None. split.
  - intros H. destruct (decide (k ∈ dkeys d)); [done|]. by contradict H.
  - intros Hk Hn. by apply Hn.
Qed.

Lemma dkeys_dset k v d :
  dkeys (dset k v d) = if decide (k ∈ dkeys d) then dkeys d else dkeys d ++ [k].
Proof.
  unfold dkeys. induction d as [|[k' v'] d IH]; simpl; [done|].
  destruct (decide (k = k')) as [->|Hk]; simpl.
  - rewrite decide_True; [done|set_solver].
  - rewrite IH. destruct (decide (k ∈ map fst d));
      [rewrite decide_True | rewrite decide_False]; set_solver.
Qed.

Lemma dkeys_dset_elem k k' v d : k' ∈ dkeys (dset k v d) ↔ k' = k ∨ k' ∈ dkeys d.
Proof. rewrite dkeys_dset. case_decide; set_solver. Qed.

Lemma dset_NoDup k v d : NoDup (dkeys d) → NoDup (dkeys (dset k v d)).
Proof.
  rewrite dkeys_dset. case_decide; [done|]. intros Hnd.
  apply NoDup_app. split; [done|]. split; [set_solver|]. apply NoDup_singleton.
Qed.

Lemma dget_dmodify_eq k f dflt d :
  dget k (dmodify k f dflt d) = Some (f (default dflt (dget k d))).
Proof. apply dget_dset_eq. Qed.

Lemma dget_dmodify_ne k k' f dflt d :
  k ≠ k' → dget k' (dmodify k f dflt d) = dget k' d.
Proof. apply dget_dset_ne. Qed.

Lemma dget_default_spec k dflt d :
  dget k (dget_default k dflt d).2 = Some (dget_default k dflt d).1.
Proof.
  unfold dget_default. destruct (dget k d) eqn:E; simpl; [done|].
  induction d as [|[k' v'] d IH]; simpl in *; [by rewrite decide_True|].
  case_decide; [done|]. by apply IH.
Qed.

Lemma dget_default_other k k' dflt d :
  k ≠ k' → dget k' (dget_default k dflt d).2 = dget k' d.
Proof.
  intros Hne. unfold dget_default. destruct (dget k d); simpl; [done|].
  induction d as [|[k'' v'] d IH]; simpl; [by rewrite decide_False|].
  by case_decide.
Qed.

Lemma dkeys_dget_default k dflt d :
  dkeys (dget_default k dflt d).2
  = if decide (k ∈ dkeys d) then dkeys d else dkeys d ++ [k].
Proof.
  unfold dget_default. destruct (dget k d) eqn:E.
  - rewrite decide_True; [done|]. apply dget_In_dkeys. eauto.
  - rewrite decide_False by (by apply dget_None). simpl.
    unfold dkeys. by rewrite map_app.
Qed.

Lemma dset_id k v d : dget k d = Some v → dset k v d = d.
Proof.
  induction d as [|[k' v'] d IH]; simpl; [done|].
  case_decide; [by intros [= ->]; subst|]. intros Hg. by rewrite IH.
Qed.

Lemma dget_default_fst k dflt d : (dget_default k dflt d).1 = default dflt (dget k d).
Proof. unfold dget_default. by destruct (dget k d). Qed.

Lemma dget_default_Some k dflt d v : dget k d = Some v → dget_default k dflt d = (v, d).
Proof. unfold dget_default. by intros ->. Qed.
Lemma dget_elem_NoDup k v d : NoDup (dkeys d) → (k, v) ∈ d → dget k d = Some v.
Proof.
  induction d as [|[k' v'] d IH]; simpl; [set_solver|].
  intros Hnd Hin. apply NoDup_cons in Hnd as [Hn Hnd].
  apply elem_of_cons in Hin as [[= -> ->]|Hin]; [by rewrite decide_True|].
  rewrite decide_False; [by apply IH|]. intros <-. apply Hn.
  apply list_elem_of_fmap. by exists (k, v).
Qed.

Lemma dset_elem k v d k' v' : (k', v') ∈ dset k v d → (k' = k ∧ v' = v) ∨ (k', v') ∈ d.
Proof.
  induction d as [|[k'' v''] d IH]; simpl.
  - intros [[= -> ->]|Hin]%elem_of_cons; [by left|set_solver].
  - case_decide as Hk; subst.
    + intros [[= -> ->]|Hin]%elem_of_cons; [by left|set_solver].
    + intros [[= -> ->]|Hin]%elem_of_cons; [set_solver|]. destruct (IH Hin); set_solver.
Qed.
End PyDict.

Arguments dict : clear implicits.

#[export] Hint Rewrite @dget_dset_eq @dget_dmodify_eq @dget_default_spec : dedupe.
#[export] Hint Resolve dset_NoDup : dedupe.
