(* ===== verification/CanopyIndex.v ===== *)
(** * The canopy index (spec §4.1)

    The Blocker drives the index of its canopy predicates through six
    calls: [predicate.initIndex()] (a new, empty index), [index.index(doc)],
    [index.unindex(doc)], [index.initSearch()], [index._index.initSearch()]
    (the wrapped canopy index of a TF-IDF index) and the query made by a
    canopy predicate.  The typeclass [CanopyIndex] names these calls and
    [CanopyIndexLaws] states what the Blocker relies on: documents form a
    multiset, [index]/[unindex] invalidate search readiness, the two
    [initSearch] calls restore it, and a query answers exactly when the
    index is search-ready (a query on an index that is not is the
    spec's fatal programming error).

    [TfIndex] implements the interface: a list of documents (token
    lists) and a readiness flag; its query returns the positions of the
    documents whose term-frequency cosine similarity to the query is
    above the threshold, decided exactly on rationals by comparing
    squares.  The inverse-document-frequency weights of the spec's
    TF-IDF are not modelled (all terms weigh the same). *)

From S2P Require Import Prelude.
From Stdlib Require Import QArith.
Local Open Scope nat_scope.

(** A document after the predicate's preprocessing: its tokens. *)
Definition Doc := list string.

Class CanopyIndex (I : Type) := {
  ci_new : I;
  ci_index : Doc → I → I;
  ci_unindex : Doc → I → I;
  ci_initSearch : I → I;
  ci_inner_initSearch : I → I;
  ci_ready : I → bool;
  ci_docs : I → list Doc;
  ci_search : I → Doc → Q → option (list nat)
}.

Class CanopyIndexLaws (I : Type) `{!CanopyIndex I} := {
  ci_docs_new : ci_docs ci_new = [];
  ci_ready_new : ci_ready ci_new = false;
  ci_docs_index d i : ci_docs (ci_index d i) ≡ₚ d :: ci_docs i;
  ci_ready_index d i : ci_ready (ci_index d i) = false;
  ci_docs_unindex d i : ci_docs (ci_unindex d i) ≡ₚ delete_first d (ci_docs i);
  ci_ready_unindex d i : ci_ready (ci_unindex d i) = false;
  ci_docs_initSearch i : ci_docs (ci_initSearch i) = ci_docs i;
  ci_ready_initSearch i : ci_ready (ci_initSearch i) = true;
  ci_inner_initSearch_eq i : ci_inner_initSearch i = ci_initSearch i;
  ci_search_ready i d t : is_Some (ci_search i d t) ↔ ci_ready i = true
}.

(** ** The term-frequency cosine index *)

Module TfIdf.

Record TfIndex := mkTfIndex { tf_docs : list Doc; tf_ready : bool }.

(** The frequency of a term in a document, and the product of two
    term-frequency vectors: [dot a b] is Σ_w tf_a(w)·tf_b(w). *)
Definition tf (b : Doc) (w : string) : nat := length (filter (λ x, x = w) b).
Definition dot (a b : Doc) : nat := sum_list (map (tf b) a).

(** cos(a, b) > t, decided without square roots: for t ≥ 0 it is
    dot² > t²·|a|²·|b|²; for t < 0 every pair qualifies (cos ≥ 0). *)
Definition cos_above (a b : Doc) (t : Q) : bool :=
  if Qle_bool 0 t then
    let d := inject_Z (Z.of_nat (dot a b)) in
    let na := inject_Z (Z.of_nat (dot a a)) in
    let nb := inject_Z (Z.of_nat (dot b b)) in
    negb (Qle_bool (d * d) (t * t * na * nb))%Q
  else true.

(** The positions (document ids, from [j]) of the documents similar
    to [q]. *)
Fixpoint neighbours_from (j : nat) (docs : list Doc) (q : Doc) (t : Q) : list nat :=
  match docs with
  | [] => []
  | d :: docs' =>
      (if cos_above q d t then [j] else []) ++ neighbours_from (S j) docs' q t
  end.

Definition neighbours (docs : list Doc) (q : Doc) (t : Q) : list nat :=
  neighbours_from 0 docs q t.

Definition tf_search (i : TfIndex) (q : Doc) (t : Q) : option (list nat) :=
  if tf_ready i then Some (neighbours (tf_docs i) q t) else None.

#[export] Instance tf_canopy : CanopyIndex TfIndex := {
  ci_new := mkTfIndex [] false;
  ci_index d i := mkTfIndex (d :: tf_docs i) false;
  ci_unindex d i := mkTfIndex (delete_first d (tf_docs i)) false;
  ci_initSearch i := mkTfIndex (tf_docs i) true;
  ci_inner_initSearch i := mkTfIndex (tf_docs i) true;
  ci_ready := tf_ready;
  ci_docs := tf_docs;
  ci_search := tf_search
}.

#[export] Instance tf_canopy_laws : CanopyIndexLaws TfIndex.
Proof.
  split; try done. intros [docs []] d t; unfold tf_search; simpl; split;
    intros H; try done; by destruct H.
Qed.

Lemma neighbours_from_spec k docs q t j :
  j ∈ neighbours_from k docs q t ↔
  k ≤ j ∧ ∃ d, docs !! (j - k) = Some d ∧ cos_above q d t = true.
Proof.
  revert k. induction docs as [|d docs IH]; intros k; simpl.
  - split; [set_solver|]. intros (_ & d & Hd & _). done.
  - rewrite elem_of_app, IH. split.
    + intros [Hj|(Hle & d' & Hd' & Hc)].
      * destruct (cos_above q d t) eqn:E; [|set_solver].
        apply list_elem_of_singleton in Hj as ->.
        split; [lia|]. exists d. by rewrite Nat.sub_diag.
      * split; [lia|]. exists d'. by replace (j - k) with (S (j - S k)) by lia.
    + intros (Hle & d' & Hd' & Hc).
      destruct (decide (j = k)) as [->|Hne].
      * left. rewrite Nat.sub_diag in Hd'. simplify_eq/=. rewrite Hc. set_solver.
      * right. split; [lia|]. exists d'.
        by replace (j - k) with (S (j - S k)) in Hd' by lia.
Qed.

(** The query answers the ids of exactly the documents whose cosine
    similarity to the query is above the threshold. *)
Lemma tf_search_spec i q t ids j :
  tf_search i q t = Some ids →
  j ∈ ids ↔ ∃ d, tf_docs i !! j = Some d ∧ cos_above q d t = true.
Proof.
  unfold tf_search. destruct (tf_ready i); intros [= <-].
  unfold neighbours. rewrite neighbours_from_spec, Nat.sub_0_r. naive_solver lia.
Qed.
End TfIdf.
