(* ===== verification/Predicates.v ===== *)
(** * Blocking predicates (spec §3, §4.1)

    A predicate object has a field, a kind and, for the index kinds, the
    mutable attribute [index] (a location of the index heap, or Python's
    [None]).  The atomic predicates map one field value to block keys:
    the whole value, its whitespace tokens, its n-grams, its first n
    characters, its integers and their neighbours, or (canopy kinds) the
    ids of the indexed documents similar to it.  An empty or absent value
    gives no key.  A compound predicate applies its members in order and
    joins every combination of their keys with [":"] (the cartesian
    product, in [itertools.product] order), so it gives no key when one
    member gives none.  Modelled from the specification; the expected
    values of [src/test/test_dedupe.py]'s [PredicatesTest] are checked
    at the end. *)

From S2P Require Import Prelude CanopyIndex.
From stdpp Require Import sorting.
From Stdlib Require Import QArith Ascii.
Local Open Scope nat_scope.

Abbreviation loc := nat.

Inductive PredKind :=
  | WholeField
  | TokenField
  | NGrams (n : nat)
  | Initials (n : nat)
  | CommonInteger
  | NearIntegers
  | Canopy (ptype : string) (threshold : Q).

Record Pred := mkPred { p_field : string; p_kind : PredKind; p_index : option loc }.

(** A record: field name to value. *)
Abbreviation Rec := (gmap string string).

(** [hasattr(predicate, 'index')]: the canopy kinds. *)
Definition kind_has_index (k : PredKind) : bool :=
  match k with Canopy _ _ => true | _ => false end.
Definition has_index (p : Pred) : bool := kind_has_index (p_kind p).

(** [predicate.type]: the index kind shared by a bucket. *)
Definition kind_type (k : PredKind) : string :=
  match k with Canopy ty _ => ty | _ => "" end.
Definition p_type (p : Pred) : string := kind_type (p_kind p).

(** [predicate.preprocess]: a value's tokens. *)
Definition preprocess (v : string) : Doc := String.words v.

(** ** Atomic predicates on a value *)

Definition ngrams (v : string) (n : nat) : list string :=
  map (λ pos, String.substring pos n v) (seq 0 (S (String.length v) - n)).

Definition initials (v : string) (n : nat) : list string :=
  if decide (n ≤ String.length v) then [String.substring 0 n v] else [].

Definition is_digit (c : ascii) : bool := bool_decide (is_Some (Ascii.is_nat c)).

(** A finished run of digits (accumulated in reverse). *)
Definition flush (cur : list ascii) : list (list ascii) :=
  match cur with [] => [] | _ => [reverse cur] end.

(** The maximal runs of digits, [re.findall(r'\d+', v)]. *)
Fixpoint digit_runs_go (cur : list ascii) (cs : list ascii) : list (list ascii) :=
  match cs with
  | [] => flush cur
  | c :: cs' =>
      if is_digit c then digit_runs_go (c :: cur) cs'
      else flush cur ++ digit_runs_go [] cs'
  end.

Definition digit_runs (v : string) : list (list ascii) :=
  digit_runs_go [] (Stdlib.Strings.String.list_ascii_of_string v).

(** [int(run)]. *)
Definition digits_value (ds : list ascii) : N :=
  foldl (λ n c, 10 * n + N.of_nat (default 0%nat (Ascii.is_nat c)))%N 0%N ds.

Definition common_integer (v : string) : list string :=
  map (λ ds, pretty (digits_value ds)) (digit_runs v).

Definition near_integers (v : string) : list string :=
  let ints := merge_sort (≤)%Z (map (λ ds, Z.of_N (digits_value ds)) (digit_runs v)) in
  ints ≫= (λ j, map pretty [(j - 1)%Z; j; (j + 1)%Z]).

(** The keys of a non-index predicate on a non-empty value. *)
Definition kind_keys (k : PredKind) (v : string) : list string :=
  match k with
  | WholeField => [v]
  | TokenField => String.words v
  | NGrams n => ngrams v n
  | Initials n => initials v n
  | CommonInteger => common_integer v
  | NearIntegers => near_integers v
  | Canopy _ _ => []
  end.

Section Apply.
Context {I : Type} `{!CanopyIndex I}.

(** [predicate(record, target=target)] for an atomic predicate.  A
    canopy predicate whose [index] is [None] raises [AttributeError]
    (it was never indexed); one whose index is not search-ready raises
    the spec's fatal error. *)
Definition atomic_keys (idx : gmap loc I) (p : Pred) (r : Rec) (target : bool)
  : exn + list string :=
  match r !! p_field p with
  | None | Some "" => inr []
  | Some v =>
      match p_kind p with
      | Canopy _ t =>
          match p_index p with
          | None => inl (AttributeError "index")
          | Some l =>
              match idx !! l with
              | None => inl (AttributeError "index")
              | Some ix =>
                  match ci_search ix (preprocess v) t with
                  | None => inl (RuntimeError "index is not search-ready")
                  | Some ids => inr (map pretty ids)
                  end
              end
          end
      | k => inr (kind_keys k v)
      end
  end.

(** [itertools.product]: the first component varies slowest. *)
Fixpoint product (kss : list (list string)) : list (list string) :=
  match kss with
  | [] => [[]]
  | ks :: kss' => ks ≫= (λ k, map (cons k) (product kss'))
  end.

(** The members' keys, in order; the first exception is raised. *)
Fixpoint members_keys (preds : gmap loc Pred) (idx : gmap loc I) (cp : list loc)
    (r : Rec) (target : bool) : exn + list (list string) :=
  match cp with
  | [] => inr []
  | l :: cp' =>
      match preds !! l with
      | None => inl (AttributeError "predicate")
      | Some p =>
          match atomic_keys idx p r target with
          | inl e => inl e
          | inr ks =>
              match members_keys preds idx cp' r target with
              | inl e => inl e
              | inr kss => inr (ks :: kss)
              end
          end
      end
  end.

(** [full_predicate(record, target=target)] for a compound predicate. *)
Definition compound_keys (preds : gmap loc Pred) (idx : gmap loc I) (cp : list loc)
    (r : Rec) (target : bool) : exn + list string :=
  match members_keys preds idx cp r target with
  | inl e => inl e
  | inr kss => inr (map (String.concat ":") (product kss))
  end.
End Apply.

(** ** [PredicatesTest] of [src/test/test_dedupe.py] (lines 495-509) *)

(** The value the test applies every predicate to. *)
Definition test_field : string := "123 16th st".

(** The predicates give the keys [test_predicates_correctness]
    expects of ['123 16th st']: the whole value, its tokens, its
    integers, its first 3, 5 and 7 characters (none for 12), the
    neighbours of its integers (the test compares them as ints, the
    model as their decimal strings) and its 3-, 4- and 6-grams. *)
Theorem predicates_test_correctness :
  kind_keys WholeField test_field = ["123 16th st"] ∧
  kind_keys TokenField test_field = ["123"; "16th"; "st"] ∧
  kind_keys CommonInteger test_field = ["123"; "16"] ∧
  kind_keys (Initials 3) test_field = ["123"] ∧
  kind_keys (Initials 5) test_field = ["123 1"] ∧
  kind_keys (Initials 7) test_field = ["123 16t"] ∧
  kind_keys NearIntegers test_field = ["15"; "16"; "17"; "122"; "123"; "124"] ∧
  kind_keys (NGrams 4) test_field = ["123 "; "23 1"; "3 16"; " 16t"; "16th"; "6th "; "th s"; "h st"] ∧
  kind_keys (NGrams 6) test_field = ["123 16"; "23 16t"; "3 16th"; " 16th "; "16th s"; "6th st"] ∧
  initials test_field 12 = [] ∧ initials test_field 7 = ["123 16t"] ∧
  ngrams test_field 3 = ["123"; "23 "; "3 1"; " 16"; "16t"; "6th"; "th "; "h s"; " st"].
Proof. split_and!; vm_compute; reflexivity. Qed.
