(* ===== verification/Blocker.v ===== *)
(** * The Blocker: [src/dedupe/blocking.py]

    The program's objects live in a heap [St]: predicate objects at
    locations of [st_preds], index objects at locations of [st_idx]
    ([st_next] is the next free index location), and the one [Blocker]
    object [st_bl] with its three fields.  Python methods that mutate
    objects are [PyM St] programs; the predicates of one (field, type)
    bucket hold the location of one shared index object, so mutating
    the index through one predicate is seen through all of them, as in
    the code.

    This file holds the state, the methods that change it
    ([blocker_init], [index], [unindex], [resetIndices], [indexAll],
    [extractIndices]), the well-formedness invariant [wf_state] and the
    theorems about them.  [Blocker.__call__] is in [BlockerCall]. *)

From S2P Require Import Prelude PyDict CanopyIndex Predicates.
From Stdlib Require QArith.
Local Open Scope dedupe_scope.

(** ** State *)

Record Blocker := mkBlocker {
  predicates : list (list loc);
  index_fields : dict string (dict string (list loc));
  index_predicates : list loc
}.

Section State.
Context {I : Type}.

Record St := mkSt {
  st_bl : Blocker;
  st_preds : gmap loc Pred;
  st_idx : gmap loc I;
  st_next : loc
}.

Definition set_bl (b : Blocker) (s : St) : St := mkSt b (st_preds s) (st_idx s) (st_next s).
Definition set_preds (m : gmap loc Pred) (s : St) : St := mkSt (st_bl s) m (st_idx s) (st_next s).
Definition set_idx (m : gmap loc I) (s : St) : St := mkSt (st_bl s) (st_preds s) m (st_next s).
End State.
Arguments St : clear implicits.

Definition set_index_field (f : dict string (dict string (list loc))) (b : Blocker) : Blocker :=
  mkBlocker (predicates b) f (index_predicates b).

Definition with_index (o : option loc) (p : Pred) : Pred := mkPred (p_field p) (p_kind p) o.

(** [index_list()] (lines 12-13), the factory of the defaultdict
    [index_fields]: a new, empty [defaultdict(list)]. *)
Definition index_list : dict string (list loc) := [].

(** ** [Blocker.__init__] (lines 19-35) *)

(** The body of the inner loop: an index predicate is appended to
    [index_fields[field][type]] (both defaultdicts insert their default
    first) and to [index_predicates]. *)
Definition register (b : Blocker) (l : loc) (p : Pred) : Blocker :=
  if has_index p then
    mkBlocker (predicates b)
      (dmodify (p_field p) (dmodify (p_type p) (λ ps, ps ++ [l]) []) index_list (index_fields b))
      (index_predicates b ++ [l])
  else b.

Definition blocker_init (preds : gmap loc Pred) (cps : list (list loc)) : exn + Blocker :=
  foldl (λ acc l,
           match acc with
           | inl e => inl e
           | inr b =>
               match preds !! l with
               | None => inl (AttributeError "predicate")
               | Some p => inr (register b l p)
               end
           end)
        (inr (mkBlocker cps [] [])) (concat cps).

(** The members of the compound predicates are allocated predicate
    objects none of which has been indexed yet. *)
Definition fresh_preds (preds : gmap loc Pred) (cps : list (list loc)) : bool :=
  forallb (λ l, match preds !! l with Some p => bool_decide (p_index p = None) | None => false end)
    (concat cps).

Section Methods.
Context {I : Type} `{!CanopyIndex I}.

(** ** Primitive heap operations *)

Definition read_pred (l : loc) : PyM (St I) Pred := λ s,
  match st_preds s !! l with
  | Some p => (s, inr p)
  | None => (s, inl (AttributeError "predicate"))
  end.

(** [predicate.index = o] (and [predicate.reset()], which sets it to
    [None]). *)
Definition set_pred_index (o : option loc) (l : loc) : PyM (St I) unit := λ s,
  match st_preds s !! l with
  | Some p => (set_preds (<[l := with_index o p]> (st_preds s)) s, inr tt)
  | None => (s, inl (AttributeError "predicate"))
  end.

(** A method call that mutates the index object at [ix]. *)
Definition modify_index (g : I → I) (ix : loc) : PyM (St I) unit := λ s,
  match st_idx s !! ix with
  | Some i => (set_idx (<[ix := g i]> (st_idx s)) s, inr tt)
  | None => (s, inl (AttributeError "index"))
  end.

(** [predicate.initIndex()]: a new empty index object. *)
Definition alloc_index : PyM (St I) loc := λ s,
  (mkSt (st_bl s) (st_preds s) (<[st_next s := ci_new]> (st_idx s)) (S (st_next s)),
   inr (st_next s)).

(** [self.index_fields[field]]: the defaultdict read inserts [{}]. *)
Definition read_field (f : string) : PyM (St I) (dict string (list loc)) := λ s,
  let '(v, d) := dget_default f index_list (index_fields (st_bl s)) in
  (set_bl (set_index_field d (st_bl s)) s, inr v).

(** [self.index_fields[field][index_type]]. *)
Definition read_bucket (f ty : string) : PyM (St I) (list loc) := λ s,
  let '(bk, d) := dget_default f index_list (index_fields (st_bl s)) in
  let '(v, bk') := dget_default ty [] bk in
  (set_bl (set_index_field (dset f bk' d) (st_bl s)) s, inr v).

(** ** [extractIndices] (lines 112-123) *)

(** For each type of the field's buckets, in order: the index of the
    bucket's first predicate, or a new one when it is [None].  The
    preprocessing function is the same for every canopy predicate
    ([preprocess]), so the triples of the code are pairs here. *)
Fixpoint extractIndices (buckets : dict string (list loc)) : PyM (St I) (list (string * loc)) :=
  match buckets with
  | [] => pret []
  | (ty, ps) :: rest =>
      match ps with
      | [] => praise IndexError
      | l :: _ =>
          p <- read_pred l ;;
          ix <- (match p_index p with Some ix => pret ix | None => alloc_index end) ;;
          others <- extractIndices rest ;;
          pret ((ty, ix) :: others)
      end
  end.

(** ** [Blocker.index] (lines 69-84) and [Blocker.unindex] (86-101) *)

(** [for doc in data: if doc: for _, index, preprocess in indices:
    index.<op>(preprocess(doc))]. *)
Definition feed_docs (op : Doc → I → I) (data : list string)
    (indices : list (string * loc)) : PyM (St I) unit :=
  pfor data (λ doc,
    if decide (doc = "") then pret tt
    else pfor indices (λ '(_, ix), modify_index (op (preprocess doc)) ix)).

(** [for index_type, index, _ in indices: <finish>; for predicate in
    self.index_fields[field][index_type]: predicate.index = index]. *)
Definition publish (finish : I → I) (field : string)
    (indices : list (string * loc)) : PyM (St I) unit :=
  pfor indices (λ '(ty, ix),
    modify_index finish ix ;;;
    ps <- read_bucket field ty ;;
    pfor ps (set_pred_index (Some ix))).

Definition index (data : list string) (field : string) : PyM (St I) unit :=
  bk <- read_field field ;;
  indices <- extractIndices bk ;;
  feed_docs ci_index data indices ;;;
  publish ci_initSearch field indices.

(** [unindex] finishes with [index._index.initSearch()]. *)
Definition unindex (data : list string) (field : string) : PyM (St I) unit :=
  bk <- read_field field ;;
  indices <- extractIndices bk ;;
  feed_docs ci_unindex data indices ;;;
  publish ci_inner_initSearch field indices.

(** ** [Blocker.resetIndices] (lines 64-67) *)

(** [predicate.reset()] drops the predicate's index (spec §4.2). *)
Definition resetIndices : PyM (St I) unit :=
  s <- pget ;;
  pfor (index_predicates (st_bl s)) (set_pred_index None).

(** ** [Blocker.indexAll] (lines 103-109) *)

Section IndexAll.
Context {Id : Type}.

(** [record[field]], raising [KeyError] when absent. *)
Definition get_field (field : string) (r : Rec) : exn + string :=
  match r !! field with Some v => inr v | None => inl (KeyError field) end.

Fixpoint field_values (field : string) (rs : list Rec) : exn + list string :=
  match rs with
  | [] => inr []
  | r :: rs' =>
      match get_field field r with
      | inl e => inl e
      | inr v =>
          match field_values field rs' with
          | inl e => inl e
          | inr vs => inr (v :: vs)
          end
      end
  end.

(** [{record[field] for record in data_d.values() if record[field]}]. *)
Definition unique_fields (field : string) (data_d : dict Id Rec) : exn + list string :=
  match field_values field (dvalues data_d) with
  | inl e => inl e
  | inr vs => inr (remove_dups (filter (λ v, v ≠ "") vs))
  end.

(** The fields iterated are the keys of [index_fields] when the loop
    starts; [index] only reads keys that are present, so the
    dictionary does not change size during the loop. *)
Definition indexAll (data_d : dict Id Rec) : PyM (St I) unit :=
  s <- pget ;;
  pfor (dkeys (index_fields (st_bl s))) (λ field,
    uf <- plift (unique_fields field data_d) ;;
    index uf field).
End IndexAll.
End Methods.

(** ** The invariant *)

(** The immutable part of a predicate object: its field and kind. *)
Definition pred_shape (p : Pred) : string * PredKind := (p_field p, p_kind p).

Definition shape_index (sm : gmap loc (string * PredKind)) (l : loc) : bool :=
  match sm !! l with Some (_, k) => kind_has_index k | None => false end.

(** [self.index_fields[f][ty]], or [[]] when either key is absent. *)
Definition bucket (b : Blocker) (f ty : string) : list loc :=
  default [] (dget f (index_fields b) ≫= dget ty).

(** The Blocker's fields agree with the predicates it was built from,
    [ls] being the members of its compound predicates in order. *)
Record shape_inv (b : Blocker) (sm : gmap loc (string * PredKind)) (ls : list loc) : Prop := {
  si_alloc : ∀ l, l ∈ ls → is_Some (sm !! l);
  si_ipreds : index_predicates b = filter (λ l, shape_index sm l = true) ls;
  si_bucket : ∀ f ty l, l ∈ bucket b f ty ↔
      l ∈ index_predicates b ∧ ∃ k, sm !! l = Some (f, k) ∧ kind_type k = ty;
  si_nonempty : ∀ f bk ty ps,
      dget f (index_fields b) = Some bk → dget ty bk = Some ps → ps ≠ [];
  si_nodup_fields : NoDup (dkeys (index_fields b));
  si_nodup_types : ∀ f bk, dget f (index_fields b) = Some bk → NoDup (dkeys bk)
}.

Section Invariant.
Context {I : Type} `{!CanopyIndex I}.

Definition shape_map (s : St I) : gmap loc (string * PredKind) := pred_shape <$> st_preds s.

(** [l] is an index predicate of the Blocker, stored as [p]. *)
Definition ipred (s : St I) (l : loc) (p : Pred) : Prop :=
  l ∈ index_predicates (st_bl s) ∧ st_preds s !! l = Some p.

(** Index objects: allocated below [st_next]; every index predicate
    names an allocated index or none; the predicates of a (field,
    type) bucket name the same one; different buckets never share. *)
Record index_inv (s : St I) : Prop := {
  ii_next : ∀ ix, is_Some (st_idx s !! ix) → ix < st_next s;
  ii_refs : ∀ l p ix, ipred s l p → p_index p = Some ix → is_Some (st_idx s !! ix);
  ii_coherent : ∀ l1 l2 p1 p2, ipred s l1 p1 → ipred s l2 p2 →
      p_field p1 = p_field p2 → p_type p1 = p_type p2 → p_index p1 = p_index p2;
  ii_disjoint : ∀ l1 l2 p1 p2 ix, ipred s l1 p1 → ipred s l2 p2 →
      p_index p1 = Some ix → p_index p2 = Some ix →
      p_field p1 = p_field p2 ∧ p_type p1 = p_type p2
}.

Definition wf_state (s : St I) : Prop :=
  shape_inv (st_bl s) (shape_map s) (concat (predicates (st_bl s))) ∧ index_inv s.
End Invariant.

(** ** [__init__] establishes the shape invariant *)

Lemma bucket_register b l p f ty :
  bucket (register b l p) f ty =
  if has_index p && bool_decide (f = p_field p) && bool_decide (ty = p_type p)
  then bucket b f ty ++ [l] else bucket b f ty.
Proof.
  unfold register, bucket. destruct (has_index p); simpl; [|done].
  destruct (decide (f = p_field p)) as [->|Hf].
  - rewrite bool_decide_true, dget_dmodify_eq by done. simpl.
    destruct (decide (ty = p_type p)) as [->|Ht].
    + rewrite bool_decide_true, dget_dmodify_eq by done.
      by destruct (dget (p_field p) (index_fields b)).
    + rewrite bool_decide_false, dget_dmodify_ne by done.
      by destruct (dget (p_field p) (index_fields b)).
  - rewrite bool_decide_false, dget_dmodify_ne by done. done.
Qed.

Lemma register_shape b l p ls sm :
  shape_inv b sm ls → sm !! l = Some (pred_shape p) →
  shape_inv (register b l p) sm (ls ++ [l]).
Proof.
  intros [Halloc Hip Hbk Hne Hnf Hnt] Hl. unfold pred_shape in Hl.
  assert (shape_index sm l = has_index p) as Hsi by (unfold shape_index; by rewrite Hl).
  split.
  - intros l'. rewrite elem_of_app, list_elem_of_singleton. intros [?| ->]; eauto.
  - rewrite filter_app, <-Hip. unfold register.
    destruct (has_index p) eqn:Hh; simpl.
    + rewrite filter_cons_True by (by rewrite Hsi). by rewrite filter_nil.
    + rewrite filter_cons_False by (by rewrite Hsi). by rewrite filter_nil, app_nil_r.
  - intros f ty l'. rewrite bucket_register. unfold register, p_type.
    destruct (has_index p) eqn:Hh; simpl; [|apply Hbk].
    repeat case_bool_decide; subst; simpl;
      rewrite ?elem_of_app, ?list_elem_of_singleton, ?Hbk; naive_solver.
  - unfold register. destruct (has_index p); [|done]. simpl. intros f bk ty ps.
    destruct (decide (f = p_field p)) as [->|Hf].
    + rewrite dget_dmodify_eq. intros [= <-].
      destruct (decide (ty = p_type p)) as [->|Ht].
      * rewrite dget_dmodify_eq. intros [= <-] Hnil.
        apply (f_equal length) in Hnil. rewrite length_app in Hnil. simpl in Hnil. lia.
      * rewrite dget_dmodify_ne by done. intros Hps.
        destruct (dget (p_field p) (index_fields b)) eqn:E; simpl in Hps; [eauto|done].
    + rewrite dget_dmodify_ne by done. eauto.
  - unfold register. destruct (has_index p); [|done]. by apply dset_NoDup.
  - unfold register. destruct (has_index p); [|done]. simpl. intros f bk.
    destruct (decide (f = p_field p)) as [->|Hf].
    + rewrite dget_dmodify_eq. intros [= <-]. apply dset_NoDup.
      destruct (dget _ _) eqn:E; simpl; [eauto|constructor].
    + rewrite dget_dmodify_ne by done. eauto.
Qed.

Lemma shape_inv_empty cps sm : shape_inv (mkBlocker cps [] []) sm [].
Proof.
  split; try done; unfold bucket; simpl; [set_solver| |constructor].
  intros f ty l. split; [set_solver|]. intros [Hl _]. set_solver.
Qed.

Lemma blocker_init_loop preds xs b ls :
  shape_inv b (pred_shape <$> preds) ls → (∀ l, l ∈ xs → is_Some (preds !! l)) →
  ∃ b', foldl (λ acc l, match acc with
                        | inl e => inl e
                        | inr b => match preds !! l with
                                   | None => inl (AttributeError "predicate")
                                   | Some p => inr (register b l p)
                                   end
                        end) (inr b) xs = inr b'
        ∧ shape_inv b' (pred_shape <$> preds) (ls ++ xs) ∧ predicates b' = predicates b.
Proof.
  revert b ls. induction xs as [|l xs IH]; intros b ls Hsh Hxs; simpl.
  - exists b. by rewrite app_nil_r.
  - destruct (Hxs l ltac:(set_solver)) as [p Hp]. rewrite Hp.
    destruct (IH (register b l p) (ls ++ [l])) as (b' & -> & Hsh' & Hpr).
    + apply register_shape; [done|]. by rewrite lookup_fmap, Hp.
    + intros; apply Hxs; set_solver.
    + exists b'. rewrite <-app_assoc in Hsh'. split; [done|]. split; [done|].
      rewrite Hpr. unfold register. by destruct (has_index p).
Qed.

Lemma ipred_member {I} (s : St I) l p :
  shape_inv (st_bl s) (shape_map s) (concat (predicates (st_bl s))) →
  ipred s l p → l ∈ concat (predicates (st_bl s)).
Proof.
  intros Hsh [Hl _]. rewrite (si_ipreds _ _ _ Hsh) in Hl.
  by apply list_elem_of_filter in Hl as [_ ?].
Qed.

(** [__init__] from allocated, not yet indexed predicate objects. *)
Lemma blocker_init_ok {I} `{!CanopyIndex I} (preds : gmap loc Pred) cps :
  (∀ l, l ∈ concat cps → ∃ p, preds !! l = Some p ∧ p_index p = None) →
  ∃ b, blocker_init preds cps = inr b ∧ predicates b = cps ∧
       wf_state (mkSt (I:=I) b preds ∅ 0).
Proof.
  intros Hps. destruct (blocker_init_loop preds (concat cps) (mkBlocker cps [] []) [])
    as (b & Hb & Hsh & Hpr).
  { apply shape_inv_empty. }
  { intros l Hl. destruct (Hps l Hl) as (p & -> & _). eauto. }
  exists b. split; [done|]. split; [done|]. simpl in Hpr.
  assert (Hsh' : shape_inv (st_bl (mkSt (I:=I) b preds ∅ 0)) (shape_map (mkSt (I:=I) b preds ∅ 0))
                   (concat (predicates (st_bl (mkSt (I:=I) b preds ∅ 0))))) by (simpl; by rewrite Hpr).
  assert (Hm : ∀ l p, ipred (mkSt (I:=I) b preds ∅ 0) l p → preds !! l = Some p ∧ p_index p = None).
  { intros l p Hl. destruct (Hps l) as (p' & Hp' & Hn).
    { rewrite <-Hpr. exact (ipred_member (mkSt (I:=I) b preds ∅ 0) l p Hsh' Hl). }
    destruct Hl as [_ Hl]. simpl in Hl. split; congruence. }
  split; [done|]. split.
  - intros ix [i Hi]. simpl in Hi. by rewrite lookup_empty in Hi.
  - intros l p ix Hl. rewrite (proj2 (Hm l p Hl)). done.
  - intros l1 l2 p1 p2 H1 H2 _ _. by rewrite (proj2 (Hm _ _ H1)), (proj2 (Hm _ _ H2)).
  - intros l1 l2 p1 p2 ix H1 _ Hi _. by rewrite (proj2 (Hm _ _ H1)) in Hi.
Qed.

Lemma fresh_preds_spec preds cps :
  fresh_preds preds cps = true → ∀ l, l ∈ concat cps → ∃ p, preds !! l = Some p ∧ p_index p = None.
Proof.
  unfold fresh_preds. rewrite forallb_forall. intros Hf l Hl.
  specialize (Hf l (proj1 (list_elem_of_In _ _) Hl)).
  destruct (preds !! l) as [p|]; [|done]. apply bool_decide_eq_true in Hf. eauto.
Qed.

(** C1: [Blocker.__init__] over predicate objects that are allocated and
    not yet indexed succeeds and establishes the invariant: the Blocker
    keeps the compound predicates, [index_predicates] lists the index
    members in order, and [index_fields[f][ty]] lists exactly the index
    members with field [f] and type [ty]. *)
Theorem blocker_init_wf {I} `{!CanopyIndex I} (preds : gmap loc Pred) cps :
  fresh_preds preds cps = true →
  ∃ b, blocker_init preds cps = inr b ∧ predicates b = cps ∧
       wf_state (mkSt (I:=I) b preds ∅ 0).
Proof. intros Hf. by apply blocker_init_ok, fresh_preds_spec. Qed.

(** ** Phases of [index] and [unindex] *)

Section Phases.
Context {I : Type} `{!CanopyIndex I}.
Implicit Types s : St I.

(** The index of a bucket: that of its first predicate. *)
Definition bix (m : gmap loc Pred) (ps : list loc) : option loc :=
  match ps with l :: _ => m !! l ≫= p_index | [] => None end.

Lemma read_bucket_present f ty bk ps s :
  dget f (index_fields (st_bl s)) = Some bk → dget ty bk = Some ps →
  read_bucket f ty s = (s, inr ps).
Proof.
  intros Hf Ht. unfold read_bucket. rewrite (dget_default_Some _ _ _ _ Hf).
  rewrite (dget_default_Some _ _ _ _ Ht). rewrite (dset_id _ _ _ Hf).
  by destruct s as [[] ? ? ?].
Qed.

Lemma bucket_read_field f b f' ty :
  bucket (set_index_field (dget_default f index_list (index_fields b)).2 b) f' ty = bucket b f' ty.
Proof.
  unfold bucket; simpl. destruct (decide (f = f')) as [->|Hne].
  - rewrite dget_default_spec. unfold dget_default.
    by destruct (dget f' (index_fields b)).
  - by rewrite dget_default_other.
Qed.

Lemma shape_read_field f b sm :
  shape_inv b sm (concat (predicates b)) →
  shape_inv (set_index_field (dget_default f index_list (index_fields b)).2 b) sm
            (concat (predicates b)).
Proof.
  intros [Ha Hip Hbk Hne Hnf Hnt]. split; simpl; try done.
  - intros f' ty l. rewrite bucket_read_field. apply Hbk.
  - intros f' bk ty ps. destruct (decide (f = f')) as [->|Hn].
    + rewrite dget_default_spec. unfold dget_default.
      destruct (dget f' (index_fields b)) eqn:E; simpl; [intros [= <-]; eauto|].
      by intros [= <-].
    + rewrite dget_default_other by done. eauto.
  - rewrite dkeys_dget_default. case_decide; [done|].
    apply NoDup_app. split; [done|]. split; [set_solver|]. apply NoDup_singleton.
  - intros f' bk. destruct (decide (f = f')) as [->|Hn].
    + rewrite dget_default_spec. unfold dget_default.
      destruct (dget f' (index_fields b)) eqn:E; simpl; [intros [= <-]; eauto|].
      intros [= <-]. constructor.
    + rewrite dget_default_other by done. eauto.
Qed.

Definition bixs (m : gmap loc Pred) (bk : dict string (list loc)) : list loc :=
  omap (λ tp, bix m tp.2) bk.

(** [s2] is [s] with new, empty index objects allocated. *)
Record extends s s2 : Prop := {
  ext_bl : st_bl s2 = st_bl s;
  ext_preds : st_preds s2 = st_preds s;
  ext_next : st_next s ≤ st_next s2;
  ext_old : ∀ j, j < st_next s → st_idx s2 !! j = st_idx s !! j;
  ext_new : ∀ j, st_next s ≤ j < st_next s2 → st_idx s2 !! j = Some ci_new;
  ext_above : ∀ j, st_next s2 ≤ j → st_idx s2 !! j = st_idx s !! j
}.

Lemma extends_refl s : extends s s.
Proof. split; intros; done || lia. Qed.

Lemma extends_trans s1 s2 s3 : extends s1 s2 → extends s2 s3 → extends s1 s3.
Proof.
  intros [B1 P1 N1 O1 W1 A1] [B2 P2 N2 O2 W2 A2]. split; try congruence; [lia| | |].
  - intros j Hj. rewrite O2, O1 by lia. done.
  - intros j Hj. destruct (decide (j < st_next s2)).
    + rewrite O2 by lia. apply W1; lia.
    + apply W2; lia.
  - intros j Hj. rewrite A2, A1 by lia. done.
Qed.

Lemma alloc_extends s : extends s (alloc_index s).1.
Proof.
  split; simpl; try done; [lia|..]; intros j Hj.
  - rewrite lookup_insert_ne by lia. done.
  - assert (j = st_next s) as -> by lia. by rewrite lookup_insert_eq.
  - rewrite lookup_insert_ne by lia. done.
Qed.


(** What [extractIndices] returns for one bucket: the bucket's index,
    or a new one allocated during the call. *)
Definition extracted s s2 (tp : string * list loc) (ti : string * loc) : Prop :=
  tp.1 = ti.1 ∧
  (bix (st_preds s) tp.2 = Some ti.2 ∨
   (bix (st_preds s) tp.2 = None ∧ st_next s ≤ ti.2 < st_next s2)).

Lemma extractIndices_spec bk s :
  (∀ ty ps, (ty, ps) ∈ bk → ps ≠ []) →
  (∀ ty l ps, (ty, l :: ps) ∈ bk → is_Some (st_preds s !! l)) →
  (∀ ix, ix ∈ bixs (st_preds s) bk → ix < st_next s) →
  NoDup (bixs (st_preds s) bk) →
  ∃ s2 indices, extractIndices bk s = (s2, inr indices) ∧ extends s s2 ∧
    Forall2 (extracted s s2) bk indices ∧ NoDup (map snd indices) ∧
    (∀ j, st_next s ≤ j < st_next s2 → j ∈ map snd indices).
Proof.
  revert s. induction bk as [|[ty ps] bk IH]; intros s Hne Hal Hlt Hnd.
  { exists s, []. split; [done|]. split; [apply extends_refl|]. split_and!; [constructor..|lia]. }
  destruct ps as [|l ps]; [by destruct (Hne ty [] ltac:(set_solver))|].
  destruct (Hal ty l ps ltac:(set_solver)) as [p Hp].
  unfold bixs in Hlt, Hnd. simpl in Hlt, Hnd. rewrite Hp in Hlt, Hnd. simpl in Hlt, Hnd.
  simpl. unfold read_pred, pbind at 1. rewrite Hp. unfold pbind.
  destruct (p_index p) as [ix|] eqn:Hix; simpl.
  - apply NoDup_cons in Hnd as [Hnin Hnd].
    destruct (IH s) as (s2 & ids & -> & Hext & Hf & Hnd2 & Hfr); [set_solver..|done|].
    exists s2, ((ty, ix) :: ids). split; [done|]. split; [done|].
    split_and!; [| |intros j Hj; right; by apply Hfr].
    + constructor; [|done]. split; [done|]. left. simpl. by rewrite Hp.
    + simpl. constructor; [|done]. intros Hin. apply list_elem_of_fmap in Hin as ([ty' ix'] & -> & Hin).
      destruct (Forall2_elem_r _ _ _ _ Hf Hin) as ([ty'' ps''] & Hin' & _ & [Hb|[_ Hb]]);
        simpl in *.
      * apply Hnin. apply list_elem_of_omap. exists (ty'', ps''). done.
      * specialize (Hlt ix' ltac:(set_solver)). lia.
  - pose proof (alloc_extends s) as Hext1.
    destruct (IH (alloc_index s).1) as (s2 & ids & Hrun & Hext & Hf & Hnd2 & Hfr);
      [set_solver|by rewrite (ext_preds _ _ Hext1); set_solver|..].
    { rewrite (ext_preds _ _ Hext1). intros ix Hin. simpl. specialize (Hlt ix Hin). lia. }
    { by rewrite (ext_preds _ _ Hext1). }
    simpl in Hrun. rewrite Hrun.
    exists s2, ((ty, st_next s) :: ids). split; [done|].
    split; [by eapply extends_trans|]. pose proof (ext_next _ _ Hext) as Hn2. simpl in Hn2.
    split_and!; [| |intros j Hj; destruct (decide (j = st_next s)) as [->|Hjn];
                    [by left|right; apply Hfr; simpl; lia]].
    + constructor.
      * split; [done|]. right. simpl. rewrite Hp. simpl. rewrite ?Hix. split; [done|]. lia.
      * eapply Forall2_impl; [done|]. intros [ty' ps'] [ty'' ix'] [Hty [Hb|[Hb Hr]]];
          split; [done| |done|]; rewrite (ext_preds _ _ Hext1) in Hb; simpl in *; [by left|].
        right. split; [done|]. lia.
    + simpl. constructor; [|done]. intros Hin.
      apply list_elem_of_fmap in Hin as ([ty' ix'] & Heq & Hin). simpl in Heq. subst ix'.
      destruct (Forall2_elem_r _ _ _ _ Hf Hin) as ([ty'' ps''] & Hin' & _ & [Hb|[_ Hb]]);
        simpl in *.
      * assert (st_next s < st_next s); [|lia]. apply Hlt. apply list_elem_of_omap.
        exists (ty'', ps''). split; [set_solver|]. done.
      * lia.
Qed.

(** An index object after [data] went through [op]. *)
Definition fed (op : Doc → I → I) (data : list string) (i : I) : I :=
  foldl (λ i doc, op (preprocess doc) i) i (filter (λ d, d ≠ "") data).

(** [s'] is [s] with the index objects at [ixs] mapped by [g]. *)
Definition idx_mapped (g : I → I) (ixs : list loc) s s' : Prop :=
  st_bl s' = st_bl s ∧ st_preds s' = st_preds s ∧ st_next s' = st_next s ∧
  ∀ j, st_idx s' !! j = if decide (j ∈ ixs) then g <$> st_idx s !! j else st_idx s !! j.

Lemma idx_mapped_alloc g ixs s s' ix :
  idx_mapped g ixs s s' → is_Some (st_idx s !! ix) → is_Some (st_idx s' !! ix).
Proof. intros (_ & _ & _ & Hj) [i Hi]. rewrite Hj, Hi. case_decide; eauto. Qed.

Lemma modify_index_spec g ix s i :
  st_idx s !! ix = Some i →
  modify_index g ix s = (set_idx (<[ix := g i]> (st_idx s)) s, inr tt).
Proof. unfold modify_index. by intros ->. Qed.

Lemma feed_one_spec g (indices : list (string * loc)) s :
  NoDup (map snd indices) →
  (∀ ty ix, (ty, ix) ∈ indices → is_Some (st_idx s !! ix)) →
  ∃ s', pfor indices (λ '(_, ix), modify_index g ix) s = (s', inr tt) ∧
        idx_mapped g (map snd indices) s s'.
Proof.
  revert s. induction indices as [|[ty ix] indices IH]; intros s Hnd Hal; simpl.
  { exists s. split; [done|]. split_and!; try done; intros j; by rewrite decide_False by set_solver. }
  apply NoDup_cons in Hnd as [Hnin Hnd].
  destruct (Hal ty ix ltac:(set_solver)) as [i Hi].
  unfold pbind. rewrite (modify_index_spec _ _ _ _ Hi).
  destruct (IH (set_idx (<[ix := g i]> (st_idx s)) s)) as (s' & Hrun & Hb & Hp & Hn & Hj);
    [done| |].
  { intros ty' ix' Hin. simpl. rewrite lookup_insert_is_Some'. right. apply (Hal ty'). set_solver. }
  exists s'. split; [done|]. split_and!; try done. intros j. rewrite Hj. simpl.
  destruct (decide (j = ix)) as [->|Hne].
  - rewrite decide_False by done. rewrite lookup_insert_eq, Hi.
    by rewrite decide_True by set_solver.
  - rewrite lookup_insert_ne by done. repeat case_decide; set_solver.
Qed.

Lemma feed_docs_spec op data indices s :
  NoDup (map snd indices) →
  (∀ ty ix, (ty, ix) ∈ indices → is_Some (st_idx s !! ix)) →
  ∃ s', feed_docs op data indices s = (s', inr tt) ∧
        idx_mapped (fed op data) (map snd indices) s s'.
Proof.
  unfold feed_docs. revert s. induction data as [|doc data IH]; intros s Hnd Hal; simpl.
  { exists s. split; [done|]. split_and!; try done; intros j;
    unfold fed; simpl; case_decide; [|done]; by destruct (st_idx s !! j). }
  unfold pbind. destruct (decide (doc = "")) as [->|Hne]; simpl.
  - destruct (IH s Hnd Hal) as (s' & Hrun & Hm). exists s'. split; [done|].
    destruct Hm as (? & ? & ? & Hj). split_and!; try done; intros j; rewrite Hj;
    unfold fed; rewrite filter_cons_False by (by intros []); done.
  - destruct (feed_one_spec (op (preprocess doc)) indices s Hnd Hal) as (s1 & -> & Hm1).
    destruct (IH s1 Hnd) as (s' & Hrun & Hm).
    { intros ty ix Hin. eapply idx_mapped_alloc; eauto. }
    exists s'. split; [done|].
    destruct Hm1 as (? & ? & ? & Hj1), Hm as (? & ? & ? & Hj). split_and!; try congruence;
    intros j; rewrite Hj, Hj1; unfold fed; rewrite filter_cons_True by done; simpl;
    case_decide; [|done]; by destruct (st_idx s !! j).
Qed.

Lemma with_index_idem o o' p : with_index o (with_index o' p) = with_index o p.
Proof. done. Qed.

Lemma set_pred_index_spec o l s p :
  st_preds s !! l = Some p →
  set_pred_index o l s = (set_preds (<[l := with_index o p]> (st_preds s)) s, inr tt).
Proof. unfold set_pred_index. by intros ->. Qed.

(** [for predicate in ps: predicate.index = o]. *)
Lemma set_all_spec o ps s :
  (∀ l, l ∈ ps → is_Some (st_preds s !! l)) →
  ∃ s', pfor ps (set_pred_index o) s = (s', inr tt) ∧
    st_bl s' = st_bl s ∧ st_idx s' = st_idx s ∧ st_next s' = st_next s ∧
    ∀ l, st_preds s' !! l =
         if decide (l ∈ ps) then with_index o <$> st_preds s !! l else st_preds s !! l.
Proof.
  revert s. induction ps as [|l ps IH]; intros s Hal; simpl.
  { exists s. split; [done|]. split_and!; try done; intros l; by rewrite decide_False by set_solver. }
  destruct (Hal l ltac:(set_solver)) as [p Hp]. unfold pbind.
  rewrite (set_pred_index_spec _ _ _ _ Hp).
  destruct (IH (set_preds (<[l := with_index o p]> (st_preds s)) s)) as (s' & -> & Hb & Hi & Hn & Hl).
  { intros l' Hin. simpl. rewrite lookup_insert_is_Some'. right. apply Hal. set_solver. }
  exists s'. split; [done|]. split_and!; try done. intros l'. rewrite Hl. simpl.
  destruct (decide (l' = l)) as [->|Hne].
  - rewrite lookup_insert_eq. destruct (decide (l ∈ l :: ps)); [|set_solver].
    rewrite Hp. by case_decide.
  - rewrite lookup_insert_ne by done. repeat case_decide; set_solver.
Qed.

Lemma publish_spec finish f (indices : list (string * loc)) s :
  NoDup (map fst indices) → NoDup (map snd indices) →
  (∀ ty ix, (ty, ix) ∈ indices → is_Some (st_idx s !! ix) ∧
      ∃ bk ps, dget f (index_fields (st_bl s)) = Some bk ∧ dget ty bk = Some ps) →
  (∀ ty l, l ∈ bucket (st_bl s) f ty → is_Some (st_preds s !! l)) →
  (∀ ty1 ty2 l, l ∈ bucket (st_bl s) f ty1 → l ∈ bucket (st_bl s) f ty2 → ty1 = ty2) →
  ∃ s', publish finish f indices s = (s', inr tt) ∧
    st_bl s' = st_bl s ∧ st_next s' = st_next s ∧
    (∀ j, st_idx s' !! j =
          if decide (j ∈ map snd indices) then finish <$> st_idx s !! j else st_idx s !! j) ∧
    (∀ ty ix l, (ty, ix) ∈ indices → l ∈ bucket (st_bl s) f ty →
          st_preds s' !! l = with_index (Some ix) <$> st_preds s !! l) ∧
    (∀ l, (∀ ty ix, (ty, ix) ∈ indices → l ∉ bucket (st_bl s) f ty) →
          st_preds s' !! l = st_preds s !! l).
Proof.
  unfold publish. revert s.
  induction indices as [|[ty ix] indices IH]; intros s Hnt Hni Hin Hal Hdis; simpl.
  { exists s. split; [done|].
    split_and!; try done; try set_solver; intros j; by rewrite decide_False by set_solver. }
  apply NoDup_cons in Hnt as [Hnt1 Hnt], Hni as [Hni1 Hni].
  destruct (Hin ty ix ltac:(set_solver)) as [[i Hi] (bk & ps & Hbk & Hps)].
  assert (Hb : bucket (st_bl s) f ty = ps) by (unfold bucket; by rewrite Hbk; simpl; rewrite Hps).
  unfold pbind at 1. unfold pbind at 1. rewrite (modify_index_spec _ _ _ _ Hi).
  set (s1 := set_idx (<[ix:=finish i]> (st_idx s)) s).
  assert (Hbk1 : dget f (index_fields (st_bl s1)) = Some bk) by done.
  unfold pbind at 1. rewrite (read_bucket_present _ _ _ _ _ Hbk1 Hps).
  destruct (set_all_spec (Some ix) ps s1) as (s2 & -> & Hb2 & Hi2 & Hn2 & Hl2).
  { intros l Hl. apply (Hal ty). by rewrite Hb. }
  destruct (IH s2) as (s' & Hrun & Hb' & Hn' & Hj' & Hp1 & Hp2); [done|done| | | |].
  { intros ty' ix' Hin'. rewrite Hi2, Hb2. simpl. rewrite lookup_insert_is_Some'.
    destruct (Hin ty' ix' ltac:(set_solver)) as [? ?]. eauto. }
  { intros ty' l Hl. rewrite Hb2 in Hl. rewrite Hl2. simpl.
    destruct (Hal ty' l Hl) as [p Hp]. rewrite Hp. case_decide; eauto. }
  { rewrite Hb2. exact Hdis. }
  exists s'. split; [exact Hrun|]. rewrite Hb2 in Hp1, Hp2. split_and!.
  - by rewrite Hb', Hb2.
  - rewrite Hn', Hn2. done.
  - intros j. rewrite Hj', Hi2. simpl. destruct (decide (j = ix)) as [->|Hne].
    + rewrite decide_False by done. rewrite lookup_insert_eq, Hi.
      by rewrite decide_True by set_solver.
    + rewrite lookup_insert_ne by done. repeat case_decide; set_solver.
  - intros ty' ix' l Hin' Hl. apply elem_of_cons in Hin' as [[= -> ->]|Hin'].
    + rewrite Hp2, Hl2; [by rewrite decide_True by (by rewrite <-Hb)|].
      intros ty'' ix'' Hin'' Hl''. assert (ty'' = ty) as -> by eauto.
      apply Hnt1. apply list_elem_of_fmap. by exists (ty, ix'').
    + rewrite (Hp1 ty' ix' l Hin' Hl), Hl2. simpl.
      rewrite decide_False; [done|]. rewrite <-Hb. intros Hl'.
      assert (ty' = ty) as -> by eauto.
      apply Hnt1. apply list_elem_of_fmap. by exists (ty, ix').
  - intros l Hnone. rewrite Hp2 by (intros ty' ix' Hin'; apply (Hnone ty' ix'); set_solver).
    rewrite Hl2, decide_False; [done|]. rewrite <-Hb. apply (Hnone ty ix). set_solver.
Qed.
End Phases.

(** ** Facts of the invariant *)

Section WfFacts.
Context {I : Type} `{!CanopyIndex I}.
Implicit Types s : St I.

(** [self.index_fields[f]] without inserting: the buckets of [f]. *)
Definition field_buckets (b : Blocker) (f : string) : dict string (list loc) :=
  default index_list (dget f (index_fields b)).

Lemma read_field_spec f s :
  read_field f s =
  (set_bl (set_index_field (dget_default f index_list (index_fields (st_bl s))).2 (st_bl s)) s,
   inr (field_buckets (st_bl s) f)).
Proof.
  unfold read_field, field_buckets. rewrite <-dget_default_fst.
  by destruct (dget_default f index_list (index_fields (st_bl s))).
Qed.

Lemma bucket_ipred s f ty l :
  wf_state s → l ∈ bucket (st_bl s) f ty →
  ∃ p, ipred s l p ∧ p_field p = f ∧ p_type p = ty.
Proof.
  intros [Hsh _] Hl. apply (si_bucket _ _ _ Hsh) in Hl as (Hip & k & Hk & Hty).
  unfold shape_map in Hk. rewrite lookup_fmap in Hk.
  destruct (st_preds s !! l) as [p|] eqn:Hp; [|done]. simplify_eq/=.
  exists p. unfold pred_shape in Hk. simplify_eq. done.
Qed.

Lemma ipred_bucket s l p :
  wf_state s → ipred s l p → l ∈ bucket (st_bl s) (p_field p) (p_type p).
Proof.
  intros [Hsh _] [Hip Hp]. apply (si_bucket _ _ _ Hsh). split; [done|].
  exists (p_kind p). unfold shape_map. rewrite lookup_fmap, Hp. done.
Qed.

Lemma field_buckets_spec s f :
  wf_state s →
  NoDup (dkeys (field_buckets (st_bl s) f)) ∧
  ∀ ty ps, (ty, ps) ∈ field_buckets (st_bl s) f → ps = bucket (st_bl s) f ty ∧ ps ≠ [].
Proof.
  intros [Hsh _]. unfold field_buckets, bucket.
  destruct (dget f (index_fields (st_bl s))) as [bk|] eqn:Hf; simpl; [|split; [constructor|set_solver]].
  pose proof (si_nodup_types _ _ _ Hsh f bk Hf) as Hnd. split; [done|].
  intros ty ps Hin. rewrite (dget_elem_NoDup _ _ _ Hnd Hin). split; [done|].
  eapply (si_nonempty _ _ _ Hsh); [done|]. by apply dget_elem_NoDup.
Qed.

(** All predicates of a bucket name the bucket's index. *)
Lemma bix_bucket s f ty l p :
  wf_state s → l ∈ bucket (st_bl s) f ty → st_preds s !! l = Some p →
  bix (st_preds s) (bucket (st_bl s) f ty) = p_index p.
Proof.
  intros Hwf Hl Hp.
  destruct (bucket_ipred s f ty l Hwf Hl) as (p' & [Hi Hp'] & Hf & Ht).
  rewrite Hp in Hp'. injection Hp' as <-.
  destruct (bucket (st_bl s) f ty) as [|l0 ps] eqn:Hb; [set_solver|]. simpl.
  assert (l0 ∈ bucket (st_bl s) f ty) as Hl0 by (rewrite Hb; set_solver).
  destruct (bucket_ipred s f ty l0 Hwf Hl0) as (p0 & [Hi0 Hp0] & Hf0 & Ht0).
  rewrite Hp0. simpl.
  apply (ii_coherent _ (proj2 Hwf) l0 l p0 p); [by split|by split|congruence|congruence].
Qed.
End WfFacts.

(** ** A run of [index] or [unindex] *)

Section Update.
Context {I : Type} `{!CanopyIndex I}.
Implicit Types s : St I.

(** The body shared by [index] ([op] = [ci_index], [finish] =
    [ci_initSearch]) and [unindex] ([ci_unindex],
    [ci_inner_initSearch]). *)
Definition update (op : Doc → I → I) (finish : I → I) (data : list string) (f : string)
  : PyM (St I) unit :=
  bk <- read_field f ;;
  indices <- extractIndices bk ;;
  feed_docs op data indices ;;;
  publish finish f indices.

Lemma index_update data f : index (I:=I) data f = update ci_index ci_initSearch data f.
Proof. done. Qed.
Lemma unindex_update data f : unindex (I:=I) data f = update ci_unindex ci_inner_initSearch data f.
Proof. done. Qed.

(** What a run leaves: the buckets of [f] each got an index [ix]
    (theirs, or a new one), holding [finish (fed op data _)] of what it
    held, and their predicates point at it; nothing else changed. *)
Record updated op finish data f s s' (indices : list (string * loc)) : Prop := {
  up_bl : st_bl s' = set_index_field (dget_default f index_list (index_fields (st_bl s))).2 (st_bl s);
  up_next : st_next s ≤ st_next s';
  up_types : map fst indices = dkeys (field_buckets (st_bl s) f);
  up_nodup : NoDup (map snd indices);
  up_origin : ∀ ty ix, (ty, ix) ∈ indices →
      bix (st_preds s) (bucket (st_bl s) f ty) = Some ix ∨
      (bix (st_preds s) (bucket (st_bl s) f ty) = None ∧ st_next s ≤ ix);
  up_below : ∀ ix, ix ∈ map snd indices → ix < st_next s';
  up_idx : ∀ j, st_idx s' !! j =
      if decide (j ∈ map snd indices)
      then Some (finish (fed op data (default ci_new (st_idx s !! j))))
      else st_idx s !! j;
  up_bucket : ∀ ty ix l, (ty, ix) ∈ indices → l ∈ bucket (st_bl s) f ty →
      st_preds s' !! l = with_index (Some ix) <$> st_preds s !! l;
  up_other : ∀ l, (∀ ty, l ∉ bucket (st_bl s) f ty) → st_preds s' !! l = st_preds s !! l
}.

Lemma wf_index_alloc s l p ix :
  wf_state s → ipred s l p → p_index p = Some ix → is_Some (st_idx s !! ix) ∧ ix < st_next s.
Proof.
  intros Hwf Hip Hix. pose proof (ii_refs _ (proj2 Hwf) l p ix Hip Hix) as Hal.
  split; [done|]. by apply (ii_next _ (proj2 Hwf)).
Qed.

Lemma bix_alloc s f ty ix :
  wf_state s → bix (st_preds s) (bucket (st_bl s) f ty) = Some ix →
  is_Some (st_idx s !! ix) ∧ ix < st_next s.
Proof.
  intros Hwf Hb. destruct (bucket (st_bl s) f ty) as [|l0 ps] eqn:E; [done|].
  assert (l0 ∈ bucket (st_bl s) f ty) as Hl0 by (rewrite E; set_solver).
  destruct (bucket_ipred s f ty l0 Hwf Hl0) as (p0 & [Hi0 Hp0] & _ & _).
  simpl in Hb. rewrite Hp0 in Hb. simpl in Hb. by eapply (wf_index_alloc s l0 p0).
Qed.

Lemma bix_witness s f ty ix :
  wf_state s → bix (st_preds s) (bucket (st_bl s) f ty) = Some ix →
  ∃ l p, ipred s l p ∧ p_field p = f ∧ p_type p = ty ∧ p_index p = Some ix.
Proof.
  intros Hwf Hb. destruct (bucket (st_bl s) f ty) as [|l0 ps] eqn:E; [done|].
  assert (l0 ∈ bucket (st_bl s) f ty) as Hl0 by (rewrite E; set_solver).
  destruct (bucket_ipred s f ty l0 Hwf Hl0) as (p0 & [Hi0 Hp0] & Hf & Ht).
  simpl in Hb. rewrite Hp0 in Hb. simpl in Hb. exists l0, p0. by repeat split.
Qed.

Lemma update_run op finish data f s :
  wf_state s →
  ∃ s' indices, update op finish data f s = (s', inr tt) ∧
                updated op finish data f s s' indices.
Proof.
  intros Hwf. destruct (field_buckets_spec s f Hwf) as [Hnd Hbk].
  set (bk := field_buckets (st_bl s) f) in *.
  set (s1 := set_bl (set_index_field (dget_default f index_list (index_fields (st_bl s))).2 (st_bl s)) s).
  assert (Hf1 : dget f (index_fields (st_bl s1)) = Some bk).
  { simpl. by rewrite dget_default_spec, dget_default_fst. }
  destruct (extractIndices_spec bk s1) as (s2 & indices & Hrun2 & Hext & Hfa & Hnd2 & Hfr).
  { intros ty ps Hin. by apply (Hbk ty ps Hin). }
  { intros ty l ps Hin. destruct (Hbk ty _ Hin) as [Hb _].
    assert (l ∈ bucket (st_bl s) f ty) as Hl by (rewrite <-Hb; set_solver).
    destruct (bucket_ipred s f ty l Hwf Hl) as (p & [_ Hp] & _). simpl. eauto. }
  { intros ix Hin. apply list_elem_of_omap in Hin as ([ty ps] & Hin & Hb). simpl in Hb.
    destruct (Hbk ty ps Hin) as [-> _]. by apply (bix_alloc s f ty ix Hwf). }
  { apply (NoDup_omap_key _ fst); [done|].
    intros [ty1 ps1] [ty2 ps2] ix Hin1 Hin2 Hb1 Hb2. simpl in *.
    destruct (Hbk _ _ Hin1) as [-> _], (Hbk _ _ Hin2) as [-> _].
    destruct (bix_witness s f ty1 ix Hwf Hb1) as (l1 & p1 & Hi1 & _ & <- & Hx1).
    destruct (bix_witness s f ty2 ix Hwf Hb2) as (l2 & p2 & Hi2 & _ & <- & Hx2).
    apply (ii_disjoint _ (proj2 Hwf) l1 l2 p1 p2 ix); done. }
  pose proof (Forall2_map_fst _ _ _ Hfa) as Hfst.
  assert (Hin_bk : ∀ ty ix, (ty, ix) ∈ indices →
            (ty, bucket (st_bl s) f ty) ∈ bk ∧
            (bix (st_preds s) (bucket (st_bl s) f ty) = Some ix ∨
             (bix (st_preds s) (bucket (st_bl s) f ty) = None ∧ st_next s ≤ ix < st_next s2))).
  { intros ty ix Hin. destruct (Forall2_elem_r _ _ _ _ Hfa Hin) as ([ty' ps] & Hin' & Heq & Hor).
    simpl in Heq, Hor. subst ty'. destruct (Hbk _ _ Hin') as [Hps _]. rewrite <-Hps. done. }
  assert (Hal2 : ∀ ty ix, (ty, ix) ∈ indices → is_Some (st_idx s2 !! ix)).
  { intros ty ix Hin. destruct (Hin_bk ty ix Hin) as [_ [Hb|[_ Hr]]].
    - destruct (bix_alloc s f ty ix Hwf Hb) as [Ha Hlt]. by rewrite (ext_old _ _ Hext).
    - rewrite (ext_new _ _ Hext) by done. eauto. }
  destruct (feed_docs_spec op data indices s2 Hnd2 Hal2) as (s3 & Hrun3 & Hb3 & Hp3 & Hn3 & Hj3).
  destruct (publish_spec finish f indices s3) as (s4 & Hrun4 & Hb4 & Hn4 & Hj4 & Hq1 & Hq2).
  { rewrite <-Hfst. done. }
  { done. }
  { intros ty ix Hin. split.
    - eapply (idx_mapped_alloc _ _ s2 s3); [by split_and!|]. eauto.
    - rewrite Hb3, (ext_bl _ _ Hext). exists bk, (bucket (st_bl s) f ty). split; [done|].
      apply dget_elem_NoDup; [done|]. by apply (Hin_bk ty ix). }
  { intros ty l Hl. rewrite Hb3, (ext_bl _ _ Hext) in Hl. simpl in Hl.
    rewrite bucket_read_field in Hl. destruct (bucket_ipred s f ty l Hwf Hl) as (p & [_ Hp] & _).
    rewrite Hp3, (ext_preds _ _ Hext). simpl. eauto. }
  { intros ty1 ty2 l. rewrite Hb3, (ext_bl _ _ Hext). simpl. rewrite !bucket_read_field.
    intros H1 H2. destruct (bucket_ipred s f ty1 l Hwf H1) as (p1 & [_ Hp1] & _ & Ht1).
    destruct (bucket_ipred s f ty2 l Hwf H2) as (p2 & [_ Hp2] & _ & Ht2). congruence. }
  exists s4, indices. split.
  { unfold update, pbind at 1. rewrite read_field_spec. fold s1.
    change (field_buckets (st_bl s) f) with bk. unfold pbind at 1. rewrite Hrun2. unfold pbind at 1. rewrite Hrun3. exact Hrun4. }
  pose proof (ext_next _ _ Hext) as Hnx. simpl in Hnx.
  split.
  - rewrite Hb4, Hb3, (ext_bl _ _ Hext). done.
  - rewrite Hn4, Hn3. done.
  - rewrite <-Hfst. done.
  - done.
  - intros ty ix Hin. destruct (Hin_bk ty ix Hin) as [_ [Hb|[Hb Hr]]]; [by left|right; split; [done|lia]].
  - intros ix Hin. apply list_elem_of_fmap in Hin as ([ty ix'] & Heq & Hin). simpl in Heq. subst ix'.
    rewrite Hn4, Hn3. destruct (Hin_bk ty ix Hin) as [_ [Hb|[_ Hr]]]; [|lia].
    destruct (bix_alloc s f ty ix Hwf Hb). lia.
  - intros j. rewrite Hj4, Hj3. destruct (decide (j ∈ map snd indices)) as [Hj|Hj].
    + pose proof Hj as Hj'. apply list_elem_of_fmap in Hj' as ([ty ix] & Heq & Hin).
      simpl in Heq. subst ix. destruct (Hal2 _ _ Hin) as [i Hi].
      destruct (decide (j < st_next s)).
      * rewrite (ext_old _ _ Hext) in Hi |- * by (simpl; lia).
        change (st_idx s1) with (st_idx s) in Hi |- *. by rewrite Hi.
      * assert (st_idx s !! j = None) as Hnone.
        { destruct (st_idx s !! j) eqn:E; [|done].
          pose proof (ii_next _ (proj2 Hwf) j ltac:(by rewrite E)). lia. }
        rewrite Hnone. destruct (decide (j < st_next s2)).
        -- rewrite (ext_new _ _ Hext) by (simpl; lia). done.
        -- rewrite (ext_above _ _ Hext) in Hi by lia. simpl in Hi. congruence.
    + destruct (decide (j < st_next s)); [by rewrite (ext_old _ _ Hext) by (simpl; lia)|].
      destruct (decide (j < st_next s2)); [exfalso; apply Hj, Hfr; simpl; lia|].
      by rewrite (ext_above _ _ Hext) by lia.
  - intros ty ix l Hin Hl. rewrite (Hq1 ty ix l Hin).
    + rewrite Hp3, (ext_preds _ _ Hext). done.
    + rewrite Hb3, (ext_bl _ _ Hext). simpl. by rewrite bucket_read_field.
  - intros l Hl. rewrite Hq2; [by rewrite Hp3, (ext_preds _ _ Hext)|].
    intros ty ix _. rewrite Hb3, (ext_bl _ _ Hext). simpl. by rewrite bucket_read_field.
Qed.
End Update.

(** ** [index] and [unindex] preserve the invariant *)

Section UpdateWf.
Context {I : Type} `{!CanopyIndex I}.
Implicit Types s : St I.

Lemma updated_types s f op finish data s' indices ty l :
  wf_state s → updated op finish data f s s' indices →
  l ∈ bucket (st_bl s) f ty → ∃ ix, (ty, ix) ∈ indices.
Proof.
  intros Hwf Hup Hl. assert (ty ∈ map fst indices) as Hty.
  { rewrite (up_types _ _ _ _ _ _ _ Hup). unfold bucket in Hl. unfold field_buckets.
    destruct (dget f (index_fields (st_bl s))) as [bk|]; simpl in *; [|set_solver].
    destruct (dget ty bk) as [ps|] eqn:E; simpl in Hl; [|set_solver].
    apply dget_Some_elem in E. apply list_elem_of_fmap. by exists (ty, ps). }
  apply list_elem_of_fmap in Hty as ([ty' ix] & Heq & Hin). simpl in Heq. subst. eauto.
Qed.

(** A predicate after the run: pointed at its bucket's index, or
    untouched when it is in no bucket of [f]. *)
Lemma updated_pred s f op finish data s' indices l p' :
  wf_state s → updated op finish data f s s' indices → st_preds s' !! l = Some p' →
  ∃ p, st_preds s !! l = Some p ∧
    ((∃ ty ix, (ty, ix) ∈ indices ∧ l ∈ bucket (st_bl s) f ty ∧ p' = with_index (Some ix) p) ∨
     ((∀ ty, l ∉ bucket (st_bl s) f ty) ∧ p' = p)).
Proof.
  intros Hwf Hup Hl'.
  assert (Hno : ∀ ty, l ∈ bucket (st_bl s) f ty → ∃ p, st_preds s !! l = Some p ∧ p_type p = ty).
  { intros ty Hl. destruct (bucket_ipred s f ty l Hwf Hl) as (p & [_ Hp] & _ & Ht). eauto. }
  destruct (st_preds s !! l) as [p|] eqn:Hp.
  - destruct (decide (l ∈ bucket (st_bl s) f (p_type p))) as [Hl|Hl].
    + destruct (updated_types _ _ _ _ _ _ _ _ l Hwf Hup Hl) as [ix Hin].
      rewrite (up_bucket _ _ _ _ _ _ _ Hup _ ix l Hin Hl), Hp in Hl'. simplify_eq/=.
      exists p. split; [done|]. left. eauto.
    + assert (∀ ty, l ∉ bucket (st_bl s) f ty) as Hnot.
      { intros ty Hl2. destruct (Hno ty Hl2) as (p2 & Hp2 & <-). congruence. }
      rewrite (up_other _ _ _ _ _ _ _ Hup l Hnot), Hp in Hl'. simplify_eq.
      exists p'. split; [done|]. by right.
  - assert (∀ ty, l ∉ bucket (st_bl s) f ty) as Hnot.
    { intros ty Hl2. destruct (Hno ty Hl2) as (p2 & Hp2 & _). congruence. }
    rewrite (up_other _ _ _ _ _ _ _ Hup l Hnot), Hp in Hl'. done.
Qed.

Lemma updated_ipred s f op finish data s' indices l p' :
  wf_state s → updated op finish data f s s' indices → ipred s' l p' →
  ∃ p, ipred s l p ∧
    ((∃ ty ix, (ty, ix) ∈ indices ∧ l ∈ bucket (st_bl s) f ty ∧ p' = with_index (Some ix) p) ∨
     ((∀ ty, l ∉ bucket (st_bl s) f ty) ∧ p' = p)).
Proof.
  intros Hwf Hup [Hi Hl]. destruct (updated_pred _ _ _ _ _ _ _ _ _ Hwf Hup Hl) as (p & Hp & Hc).
  exists p. split; [|done]. split; [|done]. by rewrite (up_bl _ _ _ _ _ _ _ Hup) in Hi.
Qed.

Lemma updated_shape s f op finish data s' indices :
  wf_state s → updated op finish data f s s' indices → shape_map s' = shape_map s.
Proof.
  intros Hwf Hup. apply map_eq. intros l. unfold shape_map. rewrite !lookup_fmap.
  destruct (st_preds s' !! l) as [p'|] eqn:Hl'.
  - destruct (updated_pred _ _ _ _ _ _ _ _ _ Hwf Hup Hl') as (p & -> & [(? & ? & _ & _ & ->)|[_ ->]]);
      done.
  - destruct (st_preds s !! l) as [p|] eqn:Hl; [|done]. exfalso.
    destruct (decide (l ∈ bucket (st_bl s) f (p_type p))) as [Hb|Hb].
    + destruct (updated_types _ _ _ _ _ _ _ _ l Hwf Hup Hb) as [ix Hin].
      rewrite (up_bucket _ _ _ _ _ _ _ Hup _ ix l Hin Hb), Hl in Hl'. done.
    + rewrite (up_other _ _ _ _ _ _ _ Hup l), Hl in Hl'; [done|].
      intros ty Hb2. destruct (bucket_ipred s f ty l Hwf Hb2) as (p2 & [_ Hp2] & _ & Ht).
      rewrite Hl in Hp2. simplify_eq. done.
Qed.

(** A predicate that already named an index handed to a bucket of [f]
    is in that bucket: the index was the bucket's own (buckets do not
    share) or new (no predicate named it). *)
Lemma updated_owner s f op finish data s' indices ty ix l p :
  wf_state s → updated op finish data f s s' indices → (ty, ix) ∈ indices →
  ipred s l p → p_index p = Some ix → l ∈ bucket (st_bl s) f ty.
Proof.
  intros Hwf Hup Hin Hip Hix. destruct (up_origin _ _ _ _ _ _ _ Hup ty ix Hin) as [Hb|[_ Hge]].
  - destruct (bix_witness s f ty ix Hwf Hb) as (l0 & p0 & Hip0 & Hf0 & Ht0 & Hx0).
    destruct (ii_disjoint _ (proj2 Hwf) l0 l p0 p ix Hip0 Hip Hx0 Hix) as [Hf Ht].
    rewrite <-Hf0, <-Ht0, Hf, Ht. by apply ipred_bucket.
  - destruct (wf_index_alloc s l p ix Hwf Hip Hix). lia.
Qed.

Lemma update_wf s f op finish data s' indices :
  wf_state s → updated op finish data f s s' indices → wf_state s'.
Proof.
  intros Hwf Hup. pose proof Hwf as [Hsh Hii].
  split.
  { rewrite (updated_shape _ _ _ _ _ _ _ Hwf Hup), (up_bl _ _ _ _ _ _ _ Hup).
    exact (shape_read_field f (st_bl s) (shape_map s) Hsh). }
  split.
  - intros j Hj. rewrite (up_idx _ _ _ _ _ _ _ Hup) in Hj. case_decide as Hin.
    + by apply (up_below _ _ _ _ _ _ _ Hup).
    + pose proof (ii_next _ Hii j Hj). pose proof (up_next _ _ _ _ _ _ _ Hup). lia.
  - intros l p' ix Hip Hix. rewrite (up_idx _ _ _ _ _ _ _ Hup). case_decide as Hin; [done|].
    destruct (updated_ipred _ _ _ _ _ _ _ _ _ Hwf Hup Hip)
      as (p & Hp & [(ty & ix' & Hin' & _ & ->)|[_ ->]]).
    + simpl in Hix. injection Hix as ->. destruct Hin.
      apply list_elem_of_fmap. by exists (ty, ix).
    + by apply (ii_refs _ Hii l p).
  - intros l1 l2 p1' p2' H1 H2 Hf Ht.
    destruct (updated_ipred _ _ _ _ _ _ _ _ _ Hwf Hup H1)
      as (p1 & Hp1 & [(ty1 & ix1 & Hin1 & Hb1 & ->)|[Hn1 ->]]);
    destruct (updated_ipred _ _ _ _ _ _ _ _ _ Hwf Hup H2)
      as (p2 & Hp2 & [(ty2 & ix2 & Hin2 & Hb2 & ->)|[Hn2 ->]]); simpl in Hf, Ht |- *.
    + destruct (bucket_ipred s f ty1 l1 Hwf Hb1) as (q1 & [_ Hq1] & _ & Ht1).
      destruct (bucket_ipred s f ty2 l2 Hwf Hb2) as (q2 & [_ Hq2] & _ & Ht2).
      rewrite (proj2 Hp1) in Hq1. rewrite (proj2 Hp2) in Hq2.
      injection Hq1 as <-. injection Hq2 as <-.
      f_equal. eapply NoDup_fst_functional; [|done|].
      * rewrite (up_types _ _ _ _ _ _ _ Hup). apply field_buckets_spec. done.
      * replace ty1 with ty2; [done|]. unfold p_type in *. simpl in Ht. congruence.
    + exfalso. destruct (bucket_ipred s f ty1 l1 Hwf Hb1) as (q1 & [_ Hq1] & Hf1 & _).
      rewrite (proj2 Hp1) in Hq1. injection Hq1 as <-.
      apply (Hn2 (p_type p2)). rewrite <-Hf1, Hf. by apply ipred_bucket.
    + exfalso. destruct (bucket_ipred s f ty2 l2 Hwf Hb2) as (q2 & [_ Hq2] & Hf2 & _).
      rewrite (proj2 Hp2) in Hq2. injection Hq2 as <-.
      apply (Hn1 (p_type p1)). rewrite <-Hf2, <-Hf. by apply ipred_bucket.
    + by apply (ii_coherent _ Hii l1 l2).
  - intros l1 l2 p1' p2' ix H1 H2 Hx1 Hx2.
    destruct (updated_ipred _ _ _ _ _ _ _ _ _ Hwf Hup H1)
      as (p1 & Hp1 & [(ty1 & ix1 & Hin1 & Hb1 & ->)|[Hn1 ->]]);
    destruct (updated_ipred _ _ _ _ _ _ _ _ _ Hwf Hup H2)
      as (p2 & Hp2 & [(ty2 & ix2 & Hin2 & Hb2 & ->)|[Hn2 ->]]); simpl in Hx1, Hx2 |- *.
    + injection Hx1 as ->. injection Hx2 as ->.
      assert (ty1 = ty2) as <-.
      { eapply NoDup_snd_functional; [apply (up_nodup _ _ _ _ _ _ _ Hup)|done|done]. }
      destruct (bucket_ipred s f ty1 l1 Hwf Hb1) as (q1 & [_ Hq1] & Hf1 & Ht1).
      destruct (bucket_ipred s f ty1 l2 Hwf Hb2) as (q2 & [_ Hq2] & Hf2 & Ht2).
      rewrite (proj2 Hp1) in Hq1. rewrite (proj2 Hp2) in Hq2.
      injection Hq1 as <-. injection Hq2 as <-. unfold p_type in *. simpl. split; congruence.
    + exfalso. injection Hx1 as ->.
      apply (Hn2 ty1). by apply (updated_owner s f op finish data s' indices ty1 ix l2 p2).
    + exfalso. injection Hx2 as ->.
      apply (Hn1 ty2). by apply (updated_owner s f op finish data s' indices ty2 ix l1 p1).
    + by apply (ii_disjoint _ Hii l1 l2 p1 p2 ix).
Qed.
End UpdateWf.

(** ** The functional behaviour of [index], [unindex] and their round trip *)

Section IndexTheorems.
Context {I : Type} `{!CanopyIndex I} `{!CanopyIndexLaws I}.
Implicit Types s : St I.

(** The documents of the index a predicate names ([[]] for none). *)
Definition old_docs s (p : Pred) : list Doc :=
  match p_index p ≫= (λ ix, st_idx s !! ix) with Some i => ci_docs i | None => [] end.

Definition nonempty (data : list string) : list string := filter (λ d, d ≠ "") data.

Lemma fed_index_docs data i :
  ci_docs (fed ci_index data i) ≡ₚ map preprocess (nonempty data) ++ ci_docs i.
Proof.
  unfold fed, nonempty. generalize (filter (λ d, d ≠ "") data) as ds. intros ds.
  revert i. induction ds as [|d ds IH]; intros i; simpl; [done|].
  rewrite IH, ci_docs_index. by rewrite Permutation_middle.
Qed.

Lemma fed_unindex_docs data i :
  ci_docs (fed ci_unindex data i) ≡ₚ
    foldl (λ ds d, delete_first d ds) (ci_docs i) (map preprocess (nonempty data)).
Proof.
  unfold fed, nonempty. generalize (filter (λ d, d ≠ "") data) as ds. intros ds.
  revert i. induction ds as [|d ds IH]; intros i; simpl; [done|].
  rewrite IH. apply foldl_delete_first_perm, ci_docs_unindex.
Qed.

(** The index object a predicate names, or a new one. *)
Definition old_index s (p : Pred) : I := default ci_new (p_index p ≫= (λ ix, st_idx s !! ix)).

Lemma old_docs_index s p : old_docs s p = ci_docs (old_index s p).
Proof.
  unfold old_docs, old_index. destruct (p_index p ≫= _); simpl; [done|].
  by rewrite ci_docs_new.
Qed.

(** After a run, an index predicate of [f] points at an index holding
    [finish (fed op data _)] of the index it named before. *)
Lemma update_bucket_pred op finish data f s s' indices l p :
  wf_state s → updated op finish data f s s' indices → ipred s l p → p_field p = f →
  ∃ ix, ipred s' l (with_index (Some ix) p) ∧
        st_idx s' !! ix = Some (finish (fed op data (old_index s p))).
Proof.
  intros Hwf Hup Hip Hf. pose proof (ipred_bucket s l p Hwf Hip) as Hb. rewrite Hf in Hb.
  destruct (updated_types _ _ _ _ _ _ _ _ _ Hwf Hup Hb) as [ix Hin].
  exists ix. split.
  - split.
    + rewrite (up_bl _ _ _ _ _ _ _ Hup). apply Hip.
    + rewrite (up_bucket _ _ _ _ _ _ _ Hup _ ix l Hin Hb), (proj2 Hip). done.
  - rewrite (up_idx _ _ _ _ _ _ _ Hup). rewrite decide_True; last first.
    { apply list_elem_of_fmap. by exists (p_type p, ix). }
    do 3 f_equal. unfold old_index.
    rewrite <-(bix_bucket s f (p_type p) l p Hwf Hb (proj2 Hip)).
    destruct (up_origin _ _ _ _ _ _ _ Hup _ ix Hin) as [-> | [-> Hge]]; [done|].
    simpl. destruct (st_idx s !! ix) eqn:E; [|done].
    pose proof (ii_next _ (proj2 Hwf) ix ltac:(by rewrite E)). lia.
Qed.

(** A run of [index] or [unindex] from a well-formed state. *)
Lemma update_spec op finish data f s :
  wf_state s →
  ∃ s', update op finish data f s = (s', inr tt) ∧ wf_state s' ∧
    ∀ l p, ipred s l p → p_field p = f →
      ∃ ix, ipred s' l (with_index (Some ix) p) ∧
            st_idx s' !! ix = Some (finish (fed op data (old_index s p))).
Proof.
  intros Hwf. destruct (update_run op finish data f s Hwf) as (s' & ids & Hrun & Hup).
  exists s'. split_and!; [done|by eapply update_wf|]. intros l p Hip Hf.
  by apply (update_bucket_pred _ _ _ _ _ _ _ l p Hwf Hup Hip Hf).
Qed.

(** C2: [Blocker.index data f] from a well-formed state returns
    normally and keeps the invariant; afterwards every index predicate
    of field [f] names a search-ready index whose documents are, as a
    multiset, the preprocessed non-empty values of [data] added to
    those of the index it named before (none if it named none). *)
Theorem index_spec s data f :
  wf_state s →
  ∃ s', index data f s = (s', inr tt) ∧ wf_state s' ∧
    ∀ l p, ipred s l p → p_field p = f →
      ∃ ix i, ipred s' l (with_index (Some ix) p) ∧ st_idx s' !! ix = Some i ∧
              ci_ready i = true ∧
              ci_docs i ≡ₚ map preprocess (nonempty data) ++ old_docs s p.
Proof.
  intros Hwf. destruct (update_spec ci_index ci_initSearch data f s Hwf) as (s' & Hrun & Hwf' & H).
  exists s'. split_and!; [done|done|]. intros l p Hip Hf.
  destruct (H l p Hip Hf) as (ix & Hip' & Hix). eexists ix, _. split_and!; [done|done| |].
  - apply ci_ready_initSearch.
  - by rewrite ci_docs_initSearch, fed_index_docs, old_docs_index.
Qed.

(** [Blocker.unindex data f] from a well-formed state returns normally
    and keeps the invariant; afterwards every index predicate of field
    [f] names a search-ready index from which one occurrence of each
    preprocessed non-empty value of [data] was removed. *)
Lemma unindex_spec s data f :
  wf_state s →
  ∃ s', unindex data f s = (s', inr tt) ∧ wf_state s' ∧
    ∀ l p, ipred s l p → p_field p = f →
      ∃ ix i, ipred s' l (with_index (Some ix) p) ∧ st_idx s' !! ix = Some i ∧
              ci_ready i = true ∧
              ci_docs i ≡ₚ foldl (λ ds d, delete_first d ds) (old_docs s p)
                                 (map preprocess (nonempty data)).
Proof.
  intros Hwf.
  destruct (update_run ci_unindex ci_inner_initSearch data f s Hwf) as (s' & ids & Hrun & Hup).
  exists s'. split; [done|]. split; [by eapply update_wf|].
  intros l p Hip Hf.
  destruct (update_bucket_pred _ _ _ _ _ _ _ l p Hwf Hup Hip Hf) as (ix & Hip' & Hix).
  eexists ix, _. split; [done|]. split; [done|].
  rewrite ci_inner_initSearch_eq, ci_ready_initSearch, ci_docs_initSearch, fed_unindex_docs,
    old_docs_index. done.
Qed.

(** C3: [unindex data f] after [index data f] gives every index
    predicate of field [f] back the documents it had, as a multiset,
    with a search-ready index. *)
Theorem index_unindex_roundtrip s data f :
  wf_state s →
  ∃ s1 s2, index data f s = (s1, inr tt) ∧ unindex data f s1 = (s2, inr tt) ∧
    wf_state s2 ∧
    ∀ l p, ipred s l p → p_field p = f →
      ∃ ix i, ipred s2 l (with_index (Some ix) p) ∧ st_idx s2 !! ix = Some i ∧
              ci_ready i = true ∧ ci_docs i ≡ₚ old_docs s p.
Proof.
  intros Hwf. destruct (update_spec ci_index ci_initSearch data f s Hwf) as (s1 & Hrun1 & Hwf1 & H1).
  destruct (unindex_spec s1 data f Hwf1) as (s2 & Hrun2 & Hwf2 & H2).
  exists s1, s2. split_and!; [done..|]. intros l p Hip Hf.
  destruct (H1 l p Hip Hf) as (ix1 & Hip1 & Hi1).
  destruct (H2 l _ Hip1 Hf) as (ix2 & i2 & Hip2 & Hi2 & Hr2 & Hd2).
  exists ix2, i2. split_and!; [done|done|done|].
  rewrite Hd2. unfold old_docs at 1. simpl. rewrite Hi1. simpl.
  apply foldl_delete_first_app.
  by rewrite ci_docs_initSearch, fed_index_docs, old_docs_index.
Qed.
End IndexTheorems.

(** ** [resetIndices] *)

Section Reset.
Context {I : Type} `{!CanopyIndex I}.
Implicit Types s : St I.

Lemma ipreds_alloc s l : wf_state s → l ∈ index_predicates (st_bl s) → is_Some (st_preds s !! l).
Proof.
  intros [Hsh _] Hl. rewrite (si_ipreds _ _ _ Hsh) in Hl.
  apply list_elem_of_filter in Hl as [_ Hl]. apply (si_alloc _ _ _ Hsh) in Hl.
  unfold shape_map in Hl. rewrite lookup_fmap in Hl. destruct (st_preds s !! l); [eauto|by destruct Hl].
Qed.

(** What a run of [resetIndices] does, from a well-formed state. *)
Lemma resetIndices_run s :
  wf_state s →
  ∃ s', resetIndices s = (s', inr tt) ∧ wf_state s' ∧
    st_bl s' = st_bl s ∧ st_idx s' = st_idx s ∧
    (∀ l p, ipred s' l p → p_index p = None) ∧
    (∀ l p, ipred s l p → ipred s' l (with_index None p)) ∧
    (∀ l, l ∉ index_predicates (st_bl s) → st_preds s' !! l = st_preds s !! l).
Proof.
  intros Hwf. unfold resetIndices, pbind, pget.
  destruct (set_all_spec None (index_predicates (st_bl s)) s) as (s' & Hrun & Hb & Hi & Hn & Hl).
  { intros l Hin. by apply ipreds_alloc. }
  assert (Hip : ∀ l p', ipred s' l p' → ∃ p, ipred s l p ∧ p' = with_index None p).
  { intros l p' [Hin Hp']. rewrite Hb in Hin. rewrite Hl, decide_True in Hp' by done.
    destruct (st_preds s !! l) as [p|] eqn:Hp; simplify_eq/=. exists p. done. }
  exists s'. split; [done|]. split_and!.
  - split.
    + assert (shape_map s' = shape_map s) as ->.
      { apply map_eq. intros l. unfold shape_map. rewrite !lookup_fmap, Hl.
        case_decide; by destruct (st_preds s !! l). }
      rewrite Hb. apply Hwf.
    + split.
      * intros j. rewrite Hi, Hn. apply (ii_next _ (proj2 Hwf)).
      * intros l p' ix Hp' Hix. destruct (Hip l p' Hp') as (p & _ & ->). done.
      * intros l1 l2 p1' p2' H1 H2 _ _.
        destruct (Hip l1 p1' H1) as (? & _ & ->), (Hip l2 p2' H2) as (? & _ & ->). done.
      * intros l1 l2 p1' p2' ix H1 _ Hx _. destruct (Hip l1 p1' H1) as (? & _ & ->). done.
  - done.
  - done.
  - intros l p' Hp'. destruct (Hip l p' Hp') as (? & _ & ->). done.
  - intros l p [Hin Hp]. split; [by rewrite Hb|]. rewrite Hl, decide_True, Hp by done. done.
  - intros l Hl'. rewrite Hl, decide_False by done. done.
Qed.
(** C10: [Blocker.resetIndices] from a well-formed state returns
    normally and keeps the invariant; afterwards no index predicate
    names an index, and every other predicate and every index object is
    as it was. *)
Theorem resetIndices_spec s :
  wf_state s →
  ∃ s', resetIndices s = (s', inr tt) ∧ wf_state s' ∧
    st_bl s' = st_bl s ∧ st_idx s' = st_idx s ∧
    (∀ l p, ipred s' l p → p_index p = None) ∧
    (∀ l p, ipred s l p → ipred s' l (with_index None p)) ∧
    (∀ l, l ∉ index_predicates (st_bl s) → st_preds s' !! l = st_preds s !! l).
Proof. apply resetIndices_run. Qed.

End Reset.

(** ** [indexAll] *)

Section IndexAllTheorems.
Context {I : Type} `{!CanopyIndex I} `{!CanopyIndexLaws I} {Id : Type}.
Implicit Types s : St I.
Implicit Types data_d : dict Id Rec.

(** The distinct non-empty values of [f] over the records. *)
Definition index_values (f : string) data_d : list string :=
  remove_dups (filter (λ v, v ≠ "") (omap (λ r : Rec, r !! f) (dvalues data_d))).

(** Every record has field [f]. *)
Definition has_field (f : string) data_d : Prop := Forall (λ r : Rec, is_Some (r !! f)) (dvalues data_d).

Lemma field_values_ok f (rs : list Rec) :
  (∀ r, r ∈ rs → is_Some (r !! f)) → field_values f rs = inr (omap (λ r : Rec, r !! f) rs).
Proof.
  induction rs as [|r rs IH]; intros Hall; simpl; [done|].
  destruct (Hall r ltac:(set_solver)) as [v Hv]. unfold get_field. rewrite Hv.
  rewrite IH by set_solver. done.
Qed.

Lemma field_values_err f (rs : list Rec) e :
  field_values f rs = inl e → e = KeyError f ∧ ∃ r, r ∈ rs ∧ r !! f = None.
Proof.
  induction rs as [|r rs IH]; simpl; [done|]. unfold get_field.
  destruct (r !! f) eqn:Hr; [|intros [= <-]; split; [done|exists r; set_solver]].
  destruct (field_values f rs) eqn:E; intros [= <-].
  destruct (IH eq_refl) as [-> (r' & ? & ?)]. split; [done|]. exists r'. set_solver.
Qed.

(** The body of [indexAll]'s loop for one field. *)
Definition indexAll_body data_d (field : string) : PyM (St I) unit :=
  uf <- plift (unique_fields field data_d) ;; index uf field.

Lemma indexAll_body_ok data_d f s :
  wf_state s → has_field f data_d →
  ∃ s' ids, indexAll_body data_d f s = (s', inr tt) ∧
            updated ci_index ci_initSearch (index_values f data_d) f s s' ids.
Proof.
  intros Hwf Hf. unfold indexAll_body, unique_fields, pbind, plift.
  rewrite field_values_ok by (by apply Forall_forall). apply (update_run _ _ _ _ _ Hwf).
Qed.

Lemma field_values_inr f (rs : list Rec) vs :
  field_values f rs = inr vs → ∀ r, r ∈ rs → is_Some (r !! f).
Proof.
  revert vs. induction rs as [|r' rs IH]; intros vs; simpl; [set_solver|]. unfold get_field.
  destruct (r' !! f) eqn:Hr'; [|done]. destruct (field_values f rs) eqn:E; [done|].
  intros _ r Hr. apply elem_of_cons in Hr as [->|Hr]; [by rewrite Hr'|]. by eapply IH.
Qed.

Lemma indexAll_body_err data_d f s :
  ¬ has_field f data_d → indexAll_body data_d f s = (s, inl (KeyError f)).
Proof.
  intros Hf. unfold indexAll_body, unique_fields, pbind, plift.
  destruct (field_values f (dvalues data_d)) as [e|vs] eqn:E.
  - by apply field_values_err in E as [-> _].
  - exfalso. apply Hf, Forall_forall. intros r Hr. by eapply field_values_inr.
Qed.

Lemma nonempty_index_values f data_d : nonempty (index_values f data_d) = index_values f data_d.
Proof.
  unfold nonempty, index_values. apply filter_all. intros v Hv.
  apply elem_of_remove_dups, list_elem_of_filter in Hv. tauto.
Qed.

Lemma ipred_field_key s l p :
  wf_state s → ipred s l p → p_field p ∈ dkeys (index_fields (st_bl s)).
Proof.
  intros Hwf Hip. pose proof (ipred_bucket s l p Hwf Hip) as Hb. unfold bucket in Hb.
  apply dget_In_dkeys. destruct (dget (p_field p) (index_fields (st_bl s))); [eauto|set_solver].
Qed.
(** A run on field [f] leaves the index predicates of other fields,
    and the index objects they name, as they were. *)
Lemma update_frame op finish data f s s' ids l p :
  wf_state s → updated op finish data f s s' ids → ipred s l p → p_field p ≠ f →
  ipred s' l p ∧ ∀ ix, p_index p = Some ix → st_idx s' !! ix = st_idx s !! ix.
Proof.
  intros Hwf Hup Hip Hf.
  assert (Hnb : ∀ ty, l ∉ bucket (st_bl s) f ty).
  { intros ty Hb. destruct (bucket_ipred s f ty l Hwf Hb) as (p' & [_ Hp'] & Hf' & _).
    rewrite (proj2 Hip) in Hp'. by injection Hp' as ->. }
  split.
  - split; [rewrite (up_bl _ _ _ _ _ _ _ Hup); apply Hip|].
    rewrite (up_other _ _ _ _ _ _ _ Hup l Hnb). apply Hip.
  - intros ix Hix. rewrite (up_idx _ _ _ _ _ _ _ Hup). case_decide as Hin; [|done].
    apply list_elem_of_fmap in Hin as ([ty ix'] & Heq & Hin). simpl in Heq. subst ix'.
    destruct (Hnb ty). by apply (updated_owner s f op finish data s' ids ty ix l p).
Qed.

Lemma old_docs_frame s s' p :
  (∀ ix, p_index p = Some ix → st_idx s' !! ix = st_idx s !! ix) → old_docs s' p = old_docs s p.
Proof. intros H. unfold old_docs. destruct (p_index p) as [ix|]; simpl; [by rewrite H|done]. Qed.

Lemma indexAll_loop data_d fs s :
  wf_state s → NoDup fs → (∀ f, f ∈ fs → has_field f data_d) →
  ∃ s', pfor fs (indexAll_body data_d) s = (s', inr tt) ∧ wf_state s' ∧
    (∀ l p, ipred s l p → p_field p ∈ fs →
       ∃ ix i, ipred s' l (with_index (Some ix) p) ∧ st_idx s' !! ix = Some i ∧
               ci_ready i = true ∧
               ci_docs i ≡ₚ map preprocess (index_values (p_field p) data_d) ++ old_docs s p) ∧
    (∀ l p, ipred s l p → p_field p ∉ fs →
       ipred s' l p ∧ ∀ ix, p_index p = Some ix → st_idx s' !! ix = st_idx s !! ix) ∧
    index_predicates (st_bl s') = index_predicates (st_bl s).
Proof.
  revert s. induction fs as [|f fs IH]; intros s Hwf Hnd Hall; simpl.
  { exists s. split_and!; [done|done|set_solver|done|done]. }
  apply NoDup_cons in Hnd as [Hnin Hnd].
  destruct (indexAll_body_ok data_d f s Hwf (Hall f ltac:(set_solver))) as (s1 & ids & Hrun1 & Hup).
  pose proof (update_wf _ _ _ _ _ _ _ Hwf Hup) as Hwf1.
  destruct (IH s1 Hwf1 Hnd) as (s' & Hrun & Hwf' & Hin & Hout & Hips); [set_solver|].
  exists s'. unfold pbind. rewrite Hrun1. split_and!; [done|done| | |].
  - intros l p Hip Hf. destruct (decide (p_field p = f)) as [Heq|Hne].
    + destruct (update_bucket_pred _ _ _ _ _ _ _ l p Hwf Hup Hip Heq) as (ix & Hip1 & Hix).
      destruct (Hout l _ Hip1) as [Hip' Hix']; [simpl; by rewrite Heq|].
      eexists ix, _. split; [done|]. rewrite (Hix' ix eq_refl), Hix. split; [done|].
      rewrite ci_ready_initSearch, ci_docs_initSearch, fed_index_docs, old_docs_index.
      rewrite nonempty_index_values, Heq. done.
    + destruct (update_frame _ _ _ _ _ _ _ l p Hwf Hup Hip Hne) as [Hip1 Hfr].
      destruct (Hin l p Hip1) as (ix & i & Hip' & Hi & Hr & Hd); [set_solver|].
      exists ix, i. split_and!; [done..|]. by rewrite Hd, (old_docs_frame s s1 p Hfr).
  - intros l p Hip Hf. destruct (update_frame _ _ _ _ _ _ _ l p Hwf Hup Hip) as [Hip1 Hfr];
      [set_solver|].
    destruct (Hout l p Hip1) as [Hip' Hfr']; [set_solver|]. split; [done|].
    intros ix Hix. by rewrite Hfr', Hfr.
  - by rewrite Hips, (up_bl _ _ _ _ _ _ _ Hup).
Qed.

Lemma indexAll_loop_err data_d fs s e :
  wf_state s → (pfor fs (indexAll_body data_d) s).2 = inl e →
  ∃ f, e = KeyError f ∧ f ∈ fs ∧ ¬ has_field f data_d.
Proof.
  revert s. induction fs as [|f fs IH]; intros s Hwf; simpl; [done|].
  unfold pbind at 1. destruct (decide (has_field f data_d)) as [Hf|Hf].
  - destruct (indexAll_body_ok data_d f s Hwf Hf) as (s1 & ids & -> & Hup).
    intros He. destruct (IH s1 (update_wf _ _ _ _ _ _ _ Hwf Hup) He) as (f' & -> & ? & ?).
    exists f'. split_and!; [done|set_solver|done].
  - rewrite (indexAll_body_err data_d f s Hf). intros [= <-]. exists f. set_solver.
Qed.

Lemma indexAll_loop_missing data_d fs s :
  wf_state s → (∃ f, f ∈ fs ∧ ¬ has_field f data_d) →
  ∃ f, (pfor fs (indexAll_body data_d) s).2 = inl (KeyError f).
Proof.
  revert s. induction fs as [|f fs IH]; intros s Hwf Hm; simpl; [set_solver|].
  unfold pbind at 1. destruct (decide (has_field f data_d)) as [Hf|Hf].
  - destruct (indexAll_body_ok data_d f s Hwf Hf) as (s1 & ids & -> & Hup).
    apply IH; [by eapply update_wf|]. destruct Hm as (f' & Hin & Hf').
    exists f'. split; [|done]. apply elem_of_cons in Hin as [->|]; done.
  - rewrite (indexAll_body_err data_d f s Hf). eauto.
Qed.

(** Every index predicate names an allocated, search-ready index: the
    state in which the canopy predicates may be queried. *)
Definition search_ready s : Prop :=
  ∀ l p, ipred s l p → ∃ ix i, p_index p = Some ix ∧ st_idx s !! ix = Some i ∧ ci_ready i = true.

Lemma indexAll_ready s data_d :
  wf_state s → (∀ f, f ∈ dkeys (index_fields (st_bl s)) → has_field f data_d) →
  ∃ s', indexAll data_d s = (s', inr tt) ∧ wf_state s' ∧ search_ready s'.
Proof.
  intros Hwf Hall.
  destruct (indexAll_loop data_d _ s Hwf (si_nodup_fields _ _ _ (proj1 Hwf)) Hall)
    as (s' & Hrun & Hwf' & Hin & _ & Hips).
  exists s'. split_and!; [exact Hrun|done|]. intros l p' [Hl Hp'].
  rewrite Hips in Hl. destruct (ipreds_alloc s l Hwf Hl) as [p Hp].
  destruct (Hin l p) as (ix & i & [_ Hp1] & Hi & Hr & _);
    [done|by apply (ipred_field_key s l p)|].
  rewrite Hp' in Hp1. injection Hp1 as ->. eauto.
Qed.

(** C4: [Blocker.indexAll data_d] from a well-formed state in which
    every record has every indexed field returns normally and keeps the
    invariant; afterwards every index predicate names a search-ready
    index holding, as a multiset, the preprocessed distinct non-empty
    values of its field added to what its index held before. *)
Theorem indexAll_spec s data_d :
  wf_state s → (∀ f, f ∈ dkeys (index_fields (st_bl s)) → has_field f data_d) →
  ∃ s', indexAll data_d s = (s', inr tt) ∧ wf_state s' ∧
    ∀ l p, ipred s l p →
      ∃ ix i, ipred s' l (with_index (Some ix) p) ∧ st_idx s' !! ix = Some i ∧
              ci_ready i = true ∧
              ci_docs i ≡ₚ map preprocess (index_values (p_field p) data_d) ++ old_docs s p.
Proof.
  intros Hwf Hall.
  destruct (indexAll_loop data_d _ s Hwf (si_nodup_fields _ _ _ (proj1 Hwf)) Hall)
    as (s' & Hrun & Hwf' & Hin & _).
  exists s'. split; [exact Hrun|]. split; [done|].
  intros l p Hip. apply (Hin l p Hip). by apply (ipred_field_key s l p).
Qed.

(** C9: [Blocker.indexAll data_d] raises, from a well-formed state,
    exactly when some indexed field is missing from some record, and
    what it raises is [KeyError] of such a field. *)
Theorem indexAll_raises s data_d :
  wf_state s →
  (∀ e, (indexAll data_d s).2 = inl e →
     ∃ f, e = KeyError f ∧ f ∈ dkeys (index_fields (st_bl s)) ∧ ¬ has_field f data_d) ∧
  ((∃ f, f ∈ dkeys (index_fields (st_bl s)) ∧ ¬ has_field f data_d) →
     ∃ f, (indexAll data_d s).2 = inl (KeyError f)).
Proof.
  intros Hwf. split.
  - intros e He. exact (indexAll_loop_err data_d _ s e Hwf He).
  - intros Hm. exact (indexAll_loop_missing data_d _ s Hwf Hm).
Qed.

(** C8: [self.index_fields[field]] in [index] inserts an unregistered
    field into the defaultdict: from a state in which [indexAll] would
    succeed, indexing any data on a field with no index predicate makes
    the next [indexAll] raise [KeyError] of that field as soon as a
    record lacks it. *)
Theorem index_unregistered_breaks_indexAll s data f data_d :
  wf_state s → f ∉ dkeys (index_fields (st_bl s)) → ¬ has_field f data_d →
  (∀ g, g ∈ dkeys (index_fields (st_bl s)) → has_field g data_d) →
  is_ok (indexAll data_d s).2 = true ∧
  ∃ s1, index data f s = (s1, inr tt) ∧ (indexAll data_d s1).2 = inl (KeyError f).
Proof.
  intros Hwf Hnf Hmiss Hall. split.
  { destruct (indexAll_loop data_d _ s Hwf (si_nodup_fields _ _ _ (proj1 Hwf)) Hall)
      as (s' & Hrun & _).
    change (indexAll data_d s) with (pfor (dkeys (index_fields (st_bl s))) (indexAll_body data_d) s).
    by rewrite Hrun. }
  destruct (update_run ci_index ci_initSearch data f s Hwf) as (s1 & ids & Hrun & Hup).
  pose proof (update_wf _ _ _ _ _ _ _ Hwf Hup) as Hwf1.
  assert (Hk : dkeys (index_fields (st_bl s1)) = dkeys (index_fields (st_bl s)) ++ [f]).
  { rewrite (up_bl _ _ _ _ _ _ _ Hup). simpl. rewrite dkeys_dget_default. by case_decide. }
  exists s1. split; [exact Hrun|].
  destruct (indexAll_loop_missing data_d (dkeys (index_fields (st_bl s1))) s1 Hwf1) as [f' Hf'].
  { exists f. rewrite Hk. set_solver. }
  destruct (indexAll_loop_err data_d _ s1 _ Hwf1 Hf') as (g & [= <-] & Hg & Hng).
  rewrite Hk in Hg. apply elem_of_app in Hg as [Hg|Hg].
  - by destruct (Hng (Hall f' Hg)).
  - apply list_elem_of_singleton in Hg as ->. done.
Qed.
End IndexAllTheorems.

(** ** A concrete Blocker over the records of [DATA]

    [DATA] of [src/test/test_dedupe.py] (lines 10-20), blocked by a
    whole-field predicate on [name] and three TF-IDF canopy predicates,
    two on [name] (thresholds 0.8 and 0.6, one shared index) and one on
    [age]. *)

Module Scenario.
Import TfIdf.

Definition preds : gmap loc Pred := list_to_map [
  (0, mkPred "name" WholeField None);
  (1, mkPred "name" (Canopy "TfidfTextSearch" (QArith_base.Qmake 8 10)) None);
  (2, mkPred "name" (Canopy "TfidfTextSearch" (QArith_base.Qmake 6 10)) None);
  (3, mkPred "age" (Canopy "TfidfTextSearch" (QArith_base.Qmake 8 10)) None)].

Definition cps : list (list loc) := [[0; 1]; [2]; [1; 3]].

Definition bl : Blocker :=
  match blocker_init preds cps with inr b => b | inl _ => mkBlocker cps [] [] end.

Definition st0 : St TfIndex := mkSt bl preds ∅ 0.

Definition rec (name age : string) : Rec := <["name" := name]> (<["age" := age]> ∅).

Definition DATA : dict nat Rec := [
  (100, rec "Bob" "50"); (105, rec "Charlie" "75"); (110, rec "Meredith" "40");
  (115, rec "Sue" "10"); (120, rec "Jimmy" "20"); (125, rec "Jimbo" "21");
  (130, rec "Willy" "35"); (135, rec "William" "35"); (140, rec "Martha" "19");
  (145, rec "Kyle" "27")].

Lemma st0_wf : wf_state st0.
Proof.
  destruct (blocker_init_ok (I:=TfIndex) preds cps) as (b & Hb & _ & Hwf).
  { apply fresh_preds_spec. by vm_compute. }
  unfold st0, bl. rewrite Hb. exact Hwf.
Qed.

Lemma st0_fields : dkeys (index_fields (st_bl st0)) = ["name"; "age"].
Proof. by vm_compute. Qed.

Lemma DATA_fields f : f ∈ dkeys (index_fields (st_bl st0)) → has_field f DATA.
Proof.
  rewrite st0_fields. intros Hf.
  repeat (apply elem_of_cons in Hf as [->|Hf];
            [unfold has_field; apply (bool_decide_unpack _); by vm_compute|]).
  by apply elem_of_nil in Hf.
Qed.

(** The state after [indexAll(DATA)]. *)
Definition st1 : St TfIndex := (indexAll DATA st0).1.

Lemma st1_wf : wf_state st1.
Proof.
  destruct (indexAll_ready st0 DATA st0_wf DATA_fields) as (s' & Hrun & Hwf & _).
  unfold st1. by rewrite Hrun.
Qed.

Lemma DATA_no_dataset : ¬ has_field "dataset" DATA.
Proof.
  unfold has_field. intros H.
  assert (Hb : bool_decide (Forall (λ r : Rec, is_Some (r !! "dataset")) (dvalues DATA)) = true)
    by (by apply bool_decide_eq_true_2).
  by vm_compute in Hb.
Qed.
End Scenario.

(** ** Witnesses: the theorems applied to the scenario *)

Import TfIdf.

Lemma blocker_init_wf_witness :
  fresh_preds Scenario.preds Scenario.cps = true ∧
  ∃ b, blocker_init Scenario.preds Scenario.cps = inr b ∧ predicates b = Scenario.cps ∧
       wf_state (mkSt (I:=TfIndex) b Scenario.preds ∅ 0).
Proof. split; [by vm_compute|]. apply blocker_init_wf. by vm_compute. Defined.

Lemma index_spec_witness :
  ∃ s', index ["Bob"; ""; "Sue"] "name" Scenario.st0 = (s', inr tt) ∧ wf_state s' ∧
    ∀ l p, ipred Scenario.st0 l p → p_field p = "name" →
      ∃ ix i, ipred s' l (with_index (Some ix) p) ∧ st_idx s' !! ix = Some i ∧
              ci_ready i = true ∧
              ci_docs i ≡ₚ map preprocess (nonempty ["Bob"; ""; "Sue"]) ++ old_docs Scenario.st0 p.
Proof. apply index_spec. exact Scenario.st0_wf. Defined.

Lemma index_unindex_roundtrip_witness :
  ∃ s1 s2, index ["Jimmy"; "Jimbo"] "name" Scenario.st1 = (s1, inr tt) ∧
    unindex ["Jimmy"; "Jimbo"] "name" s1 = (s2, inr tt) ∧ wf_state s2 ∧
    ∀ l p, ipred Scenario.st1 l p → p_field p = "name" →
      ∃ ix i, ipred s2 l (with_index (Some ix) p) ∧ st_idx s2 !! ix = Some i ∧
              ci_ready i = true ∧ ci_docs i ≡ₚ old_docs Scenario.st1 p.
Proof. apply index_unindex_roundtrip. exact Scenario.st1_wf. Defined.

Lemma resetIndices_spec_witness :
  ∃ s', resetIndices Scenario.st1 = (s', inr tt) ∧ wf_state s' ∧
    st_bl s' = st_bl Scenario.st1 ∧ st_idx s' = st_idx Scenario.st1 ∧
    (∀ l p, ipred s' l p → p_index p = None) ∧
    (∀ l p, ipred Scenario.st1 l p → ipred s' l (with_index None p)) ∧
    (∀ l, l ∉ index_predicates (st_bl Scenario.st1) →
          st_preds s' !! l = st_preds Scenario.st1 !! l).
Proof. apply resetIndices_spec. exact Scenario.st1_wf. Defined.

Lemma indexAll_spec_witness :
  ∃ s', indexAll Scenario.DATA Scenario.st0 = (s', inr tt) ∧ wf_state s' ∧
    ∀ l p, ipred Scenario.st0 l p →
      ∃ ix i, ipred s' l (with_index (Some ix) p) ∧ st_idx s' !! ix = Some i ∧
              ci_ready i = true ∧
              ci_docs i ≡ₚ map preprocess (index_values (p_field p) Scenario.DATA)
                            ++ old_docs Scenario.st0 p.
Proof. apply indexAll_spec; [exact Scenario.st0_wf|exact Scenario.DATA_fields]. Defined.

Lemma indexAll_raises_witness :
  (∀ e, (indexAll Scenario.DATA Scenario.st1).2 = inl e →
     ∃ f, e = KeyError f ∧ f ∈ dkeys (index_fields (st_bl Scenario.st1)) ∧
          ¬ has_field f Scenario.DATA) ∧
  ((∃ f, f ∈ dkeys (index_fields (st_bl Scenario.st1)) ∧ ¬ has_field f Scenario.DATA) →
     ∃ f, (indexAll Scenario.DATA Scenario.st1).2 = inl (KeyError f)).
Proof. apply indexAll_raises. exact Scenario.st1_wf. Defined.

Lemma index_unregistered_breaks_indexAll_witness :
  is_ok (indexAll Scenario.DATA Scenario.st0).2 = true ∧
  ∃ s1, index ["x"] "dataset" Scenario.st0 = (s1, inr tt) ∧
        (indexAll Scenario.DATA s1).2 = inl (KeyError "dataset").
Proof.
  apply index_unregistered_breaks_indexAll.
  - exact Scenario.st0_wf.
  - rewrite Scenario.st0_fields. set_solver.
  - exact Scenario.DATA_no_dataset.
  - exact Scenario.DATA_fields.
Defined.
