(* ===== verification/BlockerCall.v ===== *)
(** * [Blocker.__call__]: block keys of a record stream

    [src/dedupe/blocking.py] lines 37-62.  The generator enumerates the
    compound predicates once ([':' + str(i)] is the ordinal suffix of
    predicate [i]), then, record by record and predicate by predicate,
    computes the predicate's keys and yields [(block_key + pred_id,
    record_id)] for each.  A predicate that raises ends the generator
    with that exception after what was already yielded.

    [blocker_call] is the generator's whole trace (the yielded pairs and
    how it ended); [gen_step] is one step of the generator as a state
    machine, and [gen_run] runs it with fuel.  The theorems: the suffix
    is decoded by splitting at the last colon, so keys of different
    compound predicates never collide; membership of the trace is
    characterised by the compound predicates' keys; the trace has no
    exception after [indexAll]; the generator terminates, its run is the
    trace, and it is single-pass. *)

From S2P Require Import Prelude PyDict CanopyIndex Predicates Blocker.
From Stdlib Require Import Ascii.
Local Open Scope dedupe_scope.

(** ** Block keys *)

(** [':' + str(i)]. *)
Definition pred_id (i : nat) : string := ":" +:+ pretty i.

(** [block_key + pred_id]. *)
Definition tag (k : string) (i : nat) : string := k +:+ pred_id i.

Fixpoint no_colon (s : string) : bool :=
  match s with
  | EmptyString => true
  | String c s' => negb (Ascii.eqb c ":") && no_colon s'
  end.

(** [s.rsplit(':', 1)] when [s] has a colon. *)
Fixpoint rsplit_colon (s : string) : option (string * string) :=
  match s with
  | EmptyString => None
  | String c s' =>
      match rsplit_colon s' with
      | Some (a, b) => Some (String c a, b)
      | None => if Ascii.eqb c ":" then Some ("", s') else None
      end
  end.

Lemma rsplit_colon_none s : no_colon s = true → rsplit_colon s = None.
Proof.
  induction s as [|c s IH]; simpl; [done|].
  intros [Hc Hs]%andb_prop. rewrite IH by done. by destruct (Ascii.eqb c ":").
Qed.

Lemma rsplit_colon_app k p : no_colon p = true → rsplit_colon (k +:+ ":" +:+ p) = Some (k, p).
Proof.
  intros Hp. induction k as [|c k IH]; simpl.
  - by rewrite rsplit_colon_none.
  - by rewrite IH.
Qed.

Lemma no_colon_pretty_N_go x s : no_colon s = true → no_colon (pretty_N_go x s) = true.
Proof.
  revert s. induction (N.lt_wf_0 x) as [x _ IH]; intros s Hs.
  destruct (decide (x = 0%N)) as [->|Hx]; [by rewrite pretty_N_go_0|].
  rewrite pretty_N_go_step by lia. apply IH; [apply N.div_lt; lia|].
  simpl. rewrite Hs, andb_true_r.
  assert (N.modulo x 10 < 10)%N as Hlt by (apply N.mod_lt; lia).
  destruct (N.modulo x 10) as [|p]; [done|].
  repeat (destruct p as [p|p|]; try done); simpl in Hlt; lia.
Qed.

Lemma no_colon_pretty (i : nat) : no_colon (pretty i) = true.
Proof.
  change (pretty i) with (pretty (N.of_nat i)). unfold pretty, pretty_N.
  case_decide; [done|]. by apply no_colon_pretty_N_go.
Qed.

Section Call.
Context {I : Type} `{!CanopyIndex I} {Id : Type}.
Implicit Types s : St I.

(** [[(':' + str(i), predicate) for i, predicate in enumerate(self.predicates)]]. *)
Definition enum_preds (cps : list (list loc)) : list (string * list loc) :=
  imap (λ i cp, (pred_id i, cp)) cps.

(** The inner loop for one record: the yielded pairs, and the
    exception that stopped it, if any. *)
Fixpoint record_keys s (inst : Rec) (rid : Id) (target : bool)
    (ps : list (string * list loc)) : list (string * Id) * option exn :=
  match ps with
  | [] => ([], None)
  | (pid, cp) :: ps' =>
      match compound_keys (st_preds s) (st_idx s) cp inst target with
      | inl e => ([], Some e)
      | inr ks =>
          let '(out, stop) := record_keys s inst rid target ps' in
          (map (λ k, (k +:+ pid, rid)) ks ++ out, stop)
      end
  end.

Fixpoint call_records s (target : bool) (ps : list (string * list loc))
    (recs : list (Id * Rec)) : list (string * Id) * option exn :=
  match recs with
  | [] => ([], None)
  | (rid, inst) :: recs' =>
      let '(o1, st1) := record_keys s inst rid target ps in
      match st1 with
      | Some e => (o1, Some e)
      | None => let '(o2, st2) := call_records s target ps recs' in (o1 ++ o2, st2)
      end
  end.

(** The trace of [blocker(records, target)] run to its end. *)
Definition blocker_call s (records : list (Id * Rec)) (target : bool)
  : list (string * Id) * option exn :=
  call_records s target (enum_preds (predicates (st_bl s))) records.

(** ** The trace *)

Definition keys_ok s (inst : Rec) (target : bool) (cp : list loc) (k : string) : Prop :=
  ∃ ks, compound_keys (st_preds s) (st_idx s) cp inst target = inr ks ∧ k ∈ ks.

Definition raises s (inst : Rec) (target : bool) (cp : list loc) (e : exn) : Prop :=
  compound_keys (st_preds s) (st_idx s) cp inst target = inl e.

Lemma record_keys_ok s inst rid target ps out :
  (record_keys s inst rid target ps) = (out, None) →
  ∀ x, x ∈ out ↔ ∃ pid cp k, (pid, cp) ∈ ps ∧ keys_ok s inst target cp k ∧ x = (k +:+ pid, rid).
Proof.
  unfold keys_ok. revert out. induction ps as [|[pid cp] ps IH]; intros out; simpl.
  - intros [= <-] x. set_solver.
  - destruct (compound_keys _ _ cp inst target) as [e|ks] eqn:Ec; [done|].
    destruct (record_keys s inst rid target ps) as [o st] eqn:Er. intros [= <- ->] x.
    rewrite elem_of_app, list_elem_of_fmap, (IH o) by done. split.
    + intros [(k & -> & Hk)|(pid' & cp' & k & Hin & Hok & ->)].
      * exists pid, cp, k. split; [set_solver|eauto].
      * exists pid', cp', k. split; [set_solver|eauto].
    + intros (pid' & cp' & k & [[= <- <-]|Hin]%elem_of_cons & (ks' & Hks' & Hk) & ->).
      * rewrite Ec in Hks'. simplify_eq. left. eauto.
      * right. exists pid', cp', k. eauto.
Qed.

Lemma record_keys_stop s inst rid target ps e :
  (record_keys s inst rid target ps).2 = Some e →
  ∃ pid cp, (pid, cp) ∈ ps ∧ raises s inst target cp e.
Proof.
  unfold raises. induction ps as [|[pid cp] ps IH]; simpl; [done|].
  destruct (compound_keys _ _ cp inst target) eqn:Ec.
  - intros [= ->]. exists pid, cp. split; [set_solver|done].
  - destruct (record_keys s inst rid target ps) eqn:Er. simpl.
    intros (pid' & cp' & Hin & Hr)%IH. exists pid', cp'. split; [set_solver|done].
Qed.

Lemma record_keys_total s inst rid target ps :
  (∀ pid cp, (pid, cp) ∈ ps → ∃ ks, compound_keys (st_preds s) (st_idx s) cp inst target = inr ks) →
  (record_keys s inst rid target ps).2 = None.
Proof.
  induction ps as [|[pid cp] ps IH]; simpl; intros Hall; [done|].
  destruct (Hall pid cp) as [ks ->]; [set_solver|].
  rewrite (surjective_pairing (record_keys _ _ _ _ ps)). simpl.
  apply IH. intros pid' cp' Hin. apply (Hall pid' cp'). set_solver.
Qed.

Lemma call_records_ok s target ps recs out :
  call_records s target ps recs = (out, None) →
  ∀ x, x ∈ out ↔ ∃ rid inst pid cp k, (rid, inst) ∈ recs ∧ (pid, cp) ∈ ps ∧
    keys_ok s inst target cp k ∧ x = (k +:+ pid, rid).
Proof.
  revert out. induction recs as [|[rid inst] recs IH]; intros out; simpl.
  - intros [= <-] x. set_solver.
  - destruct (record_keys s inst rid target ps) as [o1 [e|]] eqn:E1; [done|].
    destruct (call_records s target ps recs) as [o2 st2] eqn:E2. intros [= <- ->] x.
    rewrite elem_of_app, (record_keys_ok _ _ _ _ _ _ E1), (IH o2) by done. split.
    + intros [(pid & cp & k & ?)|(rid' & inst' & pid & cp & k & Hr & ?)];
        [exists rid, inst|exists rid', inst']; exists pid, cp, k; set_solver.
    + intros (rid' & inst' & pid & cp & k & [[= <- <-]|Hr]%elem_of_cons & Hrest).
      * left. eauto 10.
      * right. eauto 10.
Qed.

Lemma call_records_stop s target ps recs e :
  (call_records s target ps recs).2 = Some e →
  ∃ rid inst pid cp, (rid, inst) ∈ recs ∧ (pid, cp) ∈ ps ∧ raises s inst target cp e.
Proof.
  induction recs as [|[rid inst] recs IH]; simpl; [done|].
  destruct (record_keys s inst rid target ps) as [o1 [e1|]] eqn:E1; simpl.
  - intros [= ->]. destruct (record_keys_stop s inst rid target ps e) as (pid & cp & ?);
      [by rewrite E1|]. exists rid, inst, pid, cp. set_solver.
  - rewrite (surjective_pairing (call_records _ _ _ recs)). simpl.
    intros (rid' & inst' & pid & cp & ?)%IH. exists rid', inst', pid, cp. set_solver.
Qed.

Lemma call_records_total s target ps recs :
  (∀ rid inst pid cp, (rid, inst) ∈ recs → (pid, cp) ∈ ps →
     ∃ ks, compound_keys (st_preds s) (st_idx s) cp inst target = inr ks) →
  (call_records s target ps recs).2 = None.
Proof.
  induction recs as [|[rid inst] recs IH]; simpl; intros Hall; [done|].
  rewrite (surjective_pairing (record_keys _ _ _ _ ps)),
    record_keys_total by (intros pid cp Hp; apply (Hall rid inst pid cp); [set_solver|done]).
  rewrite (surjective_pairing (call_records _ _ _ recs)). simpl.
  apply IH. intros rid' inst' pid cp Hr Hp. apply (Hall rid' inst' pid cp); [set_solver|done].
Qed.

Lemma enum_preds_elem cps pid cp :
  (pid, cp) ∈ enum_preds cps ↔ ∃ i, cps !! i = Some cp ∧ pid = pred_id i.
Proof.
  unfold enum_preds. rewrite list_elem_of_lookup. setoid_rewrite list_lookup_imap.
  split.
  - intros (i & Hi). destruct (cps !! i) eqn:E; simplify_eq/=. eauto.
  - intros (i & Hi & ->). exists i. by rewrite Hi.
Qed.
End Call.

(** ** No query on an index that is not search-ready *)

Section Ready.
Context {I : Type} `{!CanopyIndex I} `{!CanopyIndexLaws I} {Id : Type}.
Implicit Types s : St I.

Definition pred_ready (idx : gmap loc I) (p : Pred) : Prop :=
  has_index p = true → ∃ ix i, p_index p = Some ix ∧ idx !! ix = Some i ∧ ci_ready i = true.

Lemma atomic_keys_ok idx p r target :
  pred_ready idx p → ∃ ks, atomic_keys idx p r target = inr ks.
Proof.
  intros Hp. unfold atomic_keys.
  destruct (r !! p_field p) as [[|c v]|]; [eauto| |eauto].
  unfold pred_ready, has_index in Hp. destruct (p_kind p); eauto.
  destruct Hp as (ix & i & -> & -> & Hr); [done|].
  destruct (proj2 (ci_search_ready i (preprocess (String c v)) threshold) Hr) as [ids ->]. eauto.
Qed.

Lemma members_keys_ok preds idx cp r target :
  (∀ l, l ∈ cp → ∃ p, preds !! l = Some p ∧ pred_ready idx p) →
  ∃ kss, members_keys preds idx cp r target = inr kss.
Proof.
  induction cp as [|l cp IH]; simpl; intros Hall; [eauto|].
  destruct (Hall l) as (p & -> & Hp); [set_solver|].
  destruct (atomic_keys_ok idx p r target Hp) as [ks ->].
  destruct IH as [kss ->]; [intros; apply Hall; set_solver|]. eauto.
Qed.

Lemma wf_member_ready s cp l :
  wf_state s → search_ready s → cp ∈ predicates (st_bl s) → l ∈ cp →
  ∃ p, st_preds s !! l = Some p ∧ pred_ready (st_idx s) p.
Proof.
  intros [Hsh Hii] Hrd Hcp Hl.
  assert (Hlc : l ∈ concat (predicates (st_bl s))) by (apply list_elem_of_In, in_concat; exists cp; split; by apply list_elem_of_In).
  destruct (si_alloc _ _ _ Hsh l Hlc) as [sh Hsm].
  unfold shape_map in Hsm. rewrite lookup_fmap in Hsm.
  destruct (st_preds s !! l) as [p|] eqn:Hp; [|done]. exists p. split; [done|].
  intros Hh. apply (Hrd l p). split; [|done].
  rewrite (si_ipreds _ _ _ Hsh). apply list_elem_of_filter. split; [|done].
  unfold shape_index, shape_map. by rewrite lookup_fmap, Hp.
Qed.

Lemma call_total s (recs : list (Id * Rec)) target :
  wf_state s → search_ready s → (blocker_call s recs target).2 = None.
Proof.
  intros Hwf Hrd. apply call_records_total. intros rid inst pid cp _ Hin.
  apply enum_preds_elem in Hin as (i & Hi & _).
  unfold compound_keys. destruct (members_keys_ok (st_preds s) (st_idx s) cp inst target)
    as [kss ->]; [|eauto].
  intros l Hl. apply (wf_member_ready s cp l Hwf Hrd); [|done]. by eapply list_elem_of_lookup_2.
Qed.
End Ready.

(** ** Theorems *)

(** C6: the block key yielded for key [k] of compound predicate [i],
    [k + ':' + str(i)], is split back into [k] and [str(i)] by
    [rsplit(':', 1)], so two keys of different compound predicates never
    collide, whatever the raw keys are (they may contain colons). *)
Theorem tag_rsplit_inj k i :
  rsplit_colon (tag k i) = Some (k, pretty i) ∧
  ∀ k' j, tag k' j = tag k i → k' = k ∧ j = i.
Proof.
  assert (Hs : ∀ k i, rsplit_colon (tag k i) = Some (k, pretty i)).
  { intros. apply rsplit_colon_app, no_colon_pretty. }
  split; [done|]. intros k' j Heq.
  pose proof (Hs k' j) as H1. rewrite Heq, Hs in H1. injection H1 as -> Hp.
  split; [done|]. by apply (inj pretty).
Qed.

Section CallTheorems.
Context {I : Type} `{!CanopyIndex I} `{!CanopyIndexLaws I} {Id : Type}.
Implicit Types s : St I.

(** C7: a run of [blocker(records)] that ends normally yields the pair
    [(key, rid)] exactly when [key] is [k + ':' + str(i)] for a key [k]
    of compound predicate [i] on a record [rid] of the stream. *)
Theorem blocker_call_keys s (recs : list (Id * Rec)) target out :
  blocker_call s recs target = (out, None) →
  ∀ key rid, (key, rid) ∈ out ↔
    ∃ inst i cp k, (rid, inst) ∈ recs ∧ predicates (st_bl s) !! i = Some cp ∧
      keys_ok s inst target cp k ∧ key = tag k i.
Proof.
  intros Hc key rid. rewrite (call_records_ok _ _ _ _ _ Hc). split.
  - intros (rid' & inst & pid & cp & k & Hr & (i & Hi & ->)%enum_preds_elem & Hk & [= -> ->]).
    eauto 10.
  - intros (inst & i & cp & k & Hr & Hi & Hk & ->). exists rid, inst, (pred_id i), cp, k.
    split_and!; try done. apply enum_preds_elem. eauto.
Qed.

(** C11: a run of [blocker(records)] ends in an exception only when
    some compound predicate raises it on some record of the stream. *)
Theorem blocker_call_raises s (recs : list (Id * Rec)) target e :
  (blocker_call s recs target).2 = Some e →
  ∃ rid inst i cp, (rid, inst) ∈ recs ∧ predicates (st_bl s) !! i = Some cp ∧
    raises s inst target cp e.
Proof.
  intros (rid & inst & pid & cp & Hr & (i & Hi & _)%enum_preds_elem & He)%call_records_stop.
  eauto 10.
Qed.

(** C5: after [indexAll] (from a well-formed state whose records have
    every indexed field) every canopy predicate queries a search-ready
    index, so [blocker(records)] never raises, on any stream. *)
Theorem blocker_call_after_indexAll s (data_d : dict Id Rec) :
  wf_state s → (∀ f, f ∈ dkeys (index_fields (st_bl s)) → has_field f data_d) →
  ∃ s', indexAll data_d s = (s', inr tt) ∧
    ∀ (recs : list (Id * Rec)) target, (blocker_call s' recs target).2 = None.
Proof.
  intros Hwf Hall. destruct (indexAll_ready s data_d Hwf Hall) as (s' & Hrun & Hwf' & Hrd).
  exists s'. split; [done|]. intros. by apply call_total.
Qed.
End CallTheorems.

(** ** The generator *)

Section Generator.
Context {I : Type} `{!CanopyIndex I} {Id : Type}.
Implicit Types s : St I.

(** Where the body of [__call__] is suspended: not started, at the top
    of the record loop, in the predicate loop of a record, in the key
    loop of a predicate, or finished (returned or raised). *)
Inductive Gen :=
  | GNew (recs : list (Id * Rec)) (target : bool)
  | GRecs (ps : list (string * list loc)) (target : bool) (recs : list (Id * Rec))
  | GPreds (ps : list (string * list loc)) (target : bool) (rid : Id) (inst : Rec)
      (todo : list (string * list loc)) (recs : list (Id * Rec))
  | GKeys (ps : list (string * list loc)) (target : bool) (rid : Id) (inst : Rec)
      (pid : string) (ks : list string) (todo : list (string * list loc))
      (recs : list (Id * Rec))
  | GDone.

(** What [next()] observes: a yielded pair, a raised exception or
    [StopIteration]. *)
Inductive event := EYield (x : string * Id) | ERaise (e : exn) | EStop.

(** One step of the body in heap [s]; [None] is an internal step.
    The compound predicate is applied when its turn comes, in the heap
    of that moment. *)
Definition gen_step s (g : Gen) : Gen * option event :=
  match g with
  | GNew recs target => (GRecs (enum_preds (predicates (st_bl s))) target recs, None)
  | GRecs ps target [] => (GDone, Some EStop)
  | GRecs ps target ((rid, inst) :: recs) => (GPreds ps target rid inst ps recs, None)
  | GPreds ps target rid inst [] recs => (GRecs ps target recs, None)
  | GPreds ps target rid inst ((pid, cp) :: todo) recs =>
      match compound_keys (st_preds s) (st_idx s) cp inst target with
      | inl e => (GDone, Some (ERaise e))
      | inr ks => (GKeys ps target rid inst pid ks todo recs, None)
      end
  | GKeys ps target rid inst pid [] todo recs => (GPreds ps target rid inst todo recs, None)
  | GKeys ps target rid inst pid (k :: ks) todo recs =>
      (GKeys ps target rid inst pid ks todo recs, Some (EYield (k +:+ pid, rid)))
  | GDone => (GDone, Some EStop)
  end.

(** [next(gen)]: internal steps until an event, with fuel. *)
Fixpoint gen_next (fuel : nat) s (g : Gen) : Gen * option event :=
  match fuel with
  | 0 => (g, None)
  | S n =>
      match gen_step s g with
      | (g', None) => gen_next n s g'
      | (g', Some ev) => (g', Some ev)
      end
  end.

(** The internal steps left before the next event.  Each record costs
    two per compound predicate and two of its own. *)
Definition recs_measure (n : nat) (recs : list (Id * Rec)) : nat :=
  length recs * (2 * n + 2).

Definition gen_measure s (g : Gen) : nat :=
  match g with
  | GNew recs _ => 2 + recs_measure (length (predicates (st_bl s))) recs
  | GRecs ps _ recs => recs_measure (length ps) recs
  | GPreds ps _ _ _ todo recs => 2 * length todo + 1 + recs_measure (length ps) recs
  | GKeys ps _ _ _ _ _ todo recs => 2 * length todo + 2 + recs_measure (length ps) recs
  | GDone => 0
  end.

(** A whole run: every event until [StopIteration] or an exception,
    with no mutation of the heap in between. *)
Fixpoint gen_run (fuel : nat) s (g : Gen) : option (list (string * Id) * option exn) :=
  match fuel with
  | 0 => None
  | S n =>
      match gen_step s g with
      | (g', None) => gen_run n s g'
      | (g', Some (EYield x)) => (λ r, (x :: r.1, r.2)) <$> gen_run n s g'
      | (_, Some (ERaise e)) => Some ([], Some e)
      | (_, Some EStop) => Some ([], None)
      end
  end.
End Generator.

Arguments Gen : clear implicits.
Arguments event : clear implicits.

Section GeneratorFacts.
Context {I : Type} `{!CanopyIndex I} {Id : Type}.
Implicit Types s : St I.
Implicit Types g : Gen Id.

Lemma gen_step_internal s g g' : gen_step s g = (g', None) → gen_measure s g' < gen_measure s g.
Proof.
  unfold recs_measure.
  destruct g as [recs t|ps t [|[rid inst] recs]|ps t rid inst [|[pid cp] todo] recs
                |ps t rid inst pid [|k ks] todo recs|]; intros Hs; simpl in Hs;
    repeat match type of Hs with
    | context [compound_keys ?a ?b ?c ?d ?e] => destruct (compound_keys a b c d e)
    end; simplify_eq/=; unfold enum_preds; rewrite ?length_imap; unfold recs_measure; simpl; lia.
Qed.

Lemma gen_run_mono n m s g r : gen_run n s g = Some r → n ≤ m → gen_run m s g = Some r.
Proof.
  revert m g r. induction n as [|n IH]; intros m g r Hr Hle; [done|].
  destruct m as [|m]; [lia|]. simpl in *.
  destruct (gen_step s g) as [g' [[x|e|]|]]; try done.
  - destruct (gen_run n s g') eqn:E; [|done]. by rewrite (IH m g' p E) by lia.
  - by apply IH; [|lia].
Qed.

(** The rest of a record after its current predicate's keys. *)
Definition then_run (r1 r2 : list (string * Id) * option exn) : list (string * Id) * option exn :=
  match r1.2 with Some e => (r1.1, Some e) | None => (r1.1 ++ r2.1, r2.2) end.

Lemma gen_run_keys s ps t rid inst pid ks todo recs n (r : list (string * Id) * option exn) :
  gen_run n s (GPreds ps t rid inst todo recs) = Some r →
  gen_run (length ks + S n) s (GKeys ps t rid inst pid ks todo recs)
  = Some (map (λ k, (k +:+ pid, rid)) ks ++ r.1, r.2).
Proof.
  intros Hr. induction ks as [|k ks IH]; simpl; [by rewrite Hr; destruct r|].
  by rewrite IH.
Qed.

Lemma gen_run_preds s ps t rid inst recs R :
  (∃ n, gen_run n s (GRecs ps t recs) = Some R) →
  ∀ todo, ∃ n, gen_run n s (GPreds ps t rid inst todo recs)
               = Some (then_run (record_keys s inst rid t todo) R).
Proof.
  intros [n0 Hn0] todo. induction todo as [|[pid cp] todo [n IH]].
  { exists (S n0). simpl. rewrite Hn0. unfold then_run. by destruct R. }
  simpl. destruct (compound_keys _ _ cp inst t) as [e|ks] eqn:Ec.
  - exists 1. simpl. by rewrite Ec.
  - exists (S (length ks + S n)). simpl. rewrite Ec, (gen_run_keys _ _ _ _ _ _ _ _ _ _ _ IH).
    unfold then_run. destruct (record_keys s inst rid t todo) as [o [e|]]; simpl;
      [done|by rewrite app_assoc].
Qed.

Lemma gen_run_recs s ps t (recs : list (Id * Rec)) : ∃ n, gen_run n s (GRecs ps t recs) = Some (call_records (Id:=Id) s t ps recs).
Proof.
  induction recs as [|[rid inst] recs IH]; [by exists 1|].
  destruct (gen_run_preds s ps t rid inst recs _ IH ps) as [n Hn].
  exists (S n). simpl. rewrite Hn. unfold then_run.
  destruct (record_keys s inst rid t ps) as [o [e|]]; simpl; [done|].
  by destruct (call_records s t ps recs).
Qed.
End GeneratorFacts.

Section GeneratorTheorems.
Context {I : Type} `{!CanopyIndex I} {Id : Type}.
Implicit Types s : St I.
Implicit Types g : Gen Id.

Lemma gen_step_final s g g' ev :
  gen_step s g = (g', Some ev) → (∀ x, ev ≠ EYield x) → g' = GDone.
Proof.
  destruct g as [| |ps t rid inst [|[pid cp] todo] recs|ps t rid inst pid [|k ks] todo recs|];
    simpl; try (destruct recs as [|[]]); intros Hs Hy; simplify_eq/=; try done.
  all: try (destruct (compound_keys _ _ cp inst t); by simplify_eq).
  all: by destruct (Hy _ eq_refl).
Qed.

(** [next()] on the generator, in any heap, returns an event (a
    pair, an exception or [StopIteration]) within [gen_measure] internal
    steps: the body never loops without yielding. *)
Theorem gen_next_total s g fuel :
  gen_measure s g < fuel → ∃ g' ev, gen_next fuel s g = (g', Some ev).
Proof.
  revert g. induction fuel as [|fuel IH]; intros g Hlt; [lia|]. simpl.
  destruct (gen_step s g) as [g' [ev|]] eqn:Hs; [eauto|].
  apply IH. pose proof (gen_step_internal s g g' Hs). lia.
Qed.

(** Run to its end in a heap no one mutates meanwhile, the
    generator of [blocker(records, target)] yields exactly the trace
    [blocker_call] and ends the way it does, given enough fuel. *)
Theorem gen_run_refines s (recs : list (Id * Rec)) target :
  ∃ N, ∀ fuel, N ≤ fuel → gen_run fuel s (GNew recs target) = Some (blocker_call s recs target).
Proof.
  destruct (gen_run_recs s (enum_preds (predicates (st_bl s))) target recs) as [n Hn].
  exists (S n). intros fuel Hle. apply (gen_run_mono (S n)); [|done]. done.
Qed.

(** The generator is not restartable: once [next()] has raised or
    answered [StopIteration], it is finished, and every later [next()],
    whatever the heap has become, answers [StopIteration]. *)
Theorem gen_exhausted s g fuel g' ev :
  gen_next fuel s g = (g', Some ev) → (∀ x, ev ≠ EYield x) →
  g' = GDone ∧ ∀ s' fuel', 0 < fuel' → gen_next fuel' s' g' = (GDone, Some EStop).
Proof.
  revert g. induction fuel as [|fuel IH]; intros g; simpl; [done|].
  destruct (gen_step s g) as [g1 [ev1|]] eqn:Hs; [|apply IH].
  intros [= <- <-] Hy. rewrite (gen_step_final s g g1 ev1 Hs Hy).
  split; [done|]. intros s' [|f] ?; [lia|done].
Qed.
End GeneratorTheorems.

(** ** Witnesses: the theorems applied to [Blocker.Scenario] *)

Import TfIdf.

(** Three records of [DATA], the last with its age changed to share a
    canopy with the second. *)
Definition scenario_recs : list (nat * Rec) :=
  [(100, Scenario.rec "Bob" "50"); (125, Scenario.rec "Jimbo" "21");
   (120, Scenario.rec "Jimmy" "21")].

Lemma tag_rsplit_inj_witness :
  rsplit_colon (tag "9:8" 2) = Some ("9:8", "2") ∧ tag "9:8" 2 = "9:8:2".
Proof. split; [apply tag_rsplit_inj|reflexivity]. Defined.

Lemma blocker_call_keys_witness :
  blocker_call Scenario.st1 scenario_recs false
  = ((blocker_call Scenario.st1 scenario_recs false).1, None) ∧
  ∀ key rid, (key, rid) ∈ (blocker_call Scenario.st1 scenario_recs false).1 ↔
    ∃ inst i cp k, (rid, inst) ∈ scenario_recs ∧ predicates (st_bl Scenario.st1) !! i = Some cp ∧
      keys_ok Scenario.st1 inst false cp k ∧ key = tag k i.
Proof.
  assert (H : blocker_call Scenario.st1 scenario_recs false
              = ((blocker_call Scenario.st1 scenario_recs false).1, None)) by (by vm_compute).
  split; [exact H|]. apply blocker_call_keys. exact H.
Defined.

Lemma blocker_call_raises_witness :
  (blocker_call Scenario.st0 scenario_recs false).2 = Some (AttributeError "index") ∧
  ∃ rid inst i cp, (rid, inst) ∈ scenario_recs ∧ predicates (st_bl Scenario.st0) !! i = Some cp ∧
    raises Scenario.st0 inst false cp (AttributeError "index").
Proof.
  assert (H : (blocker_call Scenario.st0 scenario_recs false).2 = Some (AttributeError "index"))
    by (by vm_compute).
  split; [exact H|]. apply blocker_call_raises. exact H.
Defined.

Lemma blocker_call_after_indexAll_witness :
  ∃ s', indexAll Scenario.DATA Scenario.st0 = (s', inr tt) ∧
    ∀ (recs : list (nat * Rec)) target, (blocker_call s' recs target).2 = None.
Proof. apply blocker_call_after_indexAll; [exact Scenario.st0_wf|exact Scenario.DATA_fields]. Defined.

Lemma gen_next_total_witness :
  gen_measure Scenario.st1 (GNew scenario_recs false) < 30 ∧
  ∃ g' ev, gen_next 30 Scenario.st1 (GNew scenario_recs false) = (g', Some ev).
Proof.
  assert (H : gen_measure Scenario.st1 (GNew scenario_recs false) < 30) by (vm_compute; lia).
  split; [exact H|]. by apply gen_next_total.
Defined.

Lemma gen_exhausted_witness :
  gen_next 10 Scenario.st0 (GNew scenario_recs false) = (GDone, Some (ERaise (AttributeError "index"))) ∧
  ∀ s' fuel', 0 < fuel' → gen_next fuel' s' (GDone (Id:=nat)) = (GDone, Some EStop).
Proof.
  assert (H : gen_next 10 Scenario.st0 (GNew scenario_recs false)
              = (GDone, Some (ERaise (AttributeError "index")))) by (by vm_compute).
  split; [exact H|]. apply (gen_exhausted _ _ _ _ _ H). by intros x.
Defined.
