(* ===== verification/Convenience.v ===== *)
(** * [src/dedupe/convenience.py]: [dataSample] and [blockData]

    [dataSample(data, sample_size)] draws index pairs from
    [dedupe.core.randomPairs] (or [randomPairsMatch] when [data.constrained])
    and returns the records at those positions of [data.values()]; in the
    constrained case the records are first split on [record['dataset'] == 0].
    [dedupe.core] is not part of the sources: the two samplers are
    parameters (any function of the counts may be plugged in).

    [blockData(data_d, blocker)] calls [blocker.tfIdfBlocks(items,
    data_d.constrained)] (raising [AttributeError] when the blocker has
    no [tfIdfBlocks] or the data no [constrained]), then for each
    record collects the keys the blocker yields for the tuple
    [(record_id, record)] into an [OrderedDict] of blocks
    ([blocks.setdefault(key, {}).update({id: record})]) and returns the
    blocks.  The blocker is an object with an optional [tfIdfBlocks]
    method and a call; [Blocker] of [blocking.py] has no
    [tfIdfBlocks], and its call on such a tuple raises [TypeError].

    Records carry Python values ([PyVal]); a data dictionary carries its
    [constrained] attribute, which a plain [dict] does not have. *)

From S2P Require Import Prelude PyDict CanopyIndex Predicates Blocker BlockerCall.
Local Open Scope dedupe_scope.

(** A field value as [dataSample] compares it. *)
Inductive PyVal := PInt (z : Z) | PStr (s : string).

#[export] Instance PyVal_eq_dec : EqDecision PyVal.
Proof. solve_decision. Defined.

Abbreviation PRec := (gmap string PyVal).

(** A data dictionary: its items in order, and its [constrained]
    attribute ([None] when the object has none, as for a [dict]). *)
Record DataD (Id V : Type) := mkDataD { dd_items : dict Id V; dd_constrained : option bool }.
Arguments mkDataD {Id V}.
Arguments dd_items {Id V}.
Arguments dd_constrained {Id V}.

(** ** [dataSample] *)

Section DataSample.
Context {Id : Type}.

(** [record['dataset'] == 0]. *)
Definition in_dataset_A (r : PRec) : exn + bool :=
  match r !! "dataset" with
  | None => inl (KeyError "dataset")
  | Some v => inr (bool_decide (v = PInt 0))
  end.

(** The loop of lines 22-26: records of dataset 0 to [A], the others
    to [B], in order. *)
Fixpoint split_datasets (rs : list PRec) : exn + (list PRec * list PRec) :=
  match rs with
  | [] => inr ([], [])
  | r :: rs' =>
      match in_dataset_A r with
      | inl e => inl e
      | inr isA =>
          match split_datasets rs' with
          | inl e => inl e
          | inr (a, b) => inr (if isA then (r :: a, b) else (a, r :: b))
          end
      end
  end.

(** [tuple((xs[int(k1)], ys[int(k2)]) for k1, k2 in random_pairs)]. *)
Fixpoint pair_up {V} (xs ys : list V) (ps : list (nat * nat)) : exn + list (V * V) :=
  match ps with
  | [] => inr []
  | (k1, k2) :: ps' =>
      match xs !! k1, ys !! k2 with
      | Some a, Some b =>
          match pair_up xs ys ps' with
          | inl e => inl e
          | inr out => inr ((a, b) :: out)
          end
      | _, _ => inl IndexError
      end
  end.

Context (randomPairs : nat → nat → exn + list (nat * nat))
        (randomPairsMatch : nat → nat → nat → exn + list (nat * nat)).

Definition dataSample (data : DataD Id PRec) (sample_size : nat) : exn + list (PRec * PRec) :=
  let data_list := dvalues (dd_items data) in
  match dd_constrained data with
  | None => inl (AttributeError "constrained")
  | Some true =>
      match split_datasets data_list with
      | inl e => inl e
      | inr (a, b) =>
          match randomPairsMatch (length a) (length b) sample_size with
          | inl e => inl e
          | inr ps => pair_up a b ps
          end
      end
  | Some false =>
      match randomPairs (length data_list) sample_size with
      | inl e => inl e
      | inr ps => pair_up data_list data_list ps
      end
  end.
End DataSample.

(** ** [blockData] *)

(** What [blockData] uses of a blocker: [tfIdfBlocks] if it has one, and
    the keys its call yields for one record (with the exception that
    ended the call, if any). *)
Record BlockerObj (K Id V : Type) := mkBlockerObj {
  bo_tfIdfBlocks : option (list (Id * V) → bool → exn + unit);
  bo_call : Id * V → list K * option exn
}.
Arguments mkBlockerObj {K Id V}.
Arguments bo_tfIdfBlocks {K Id V}.
Arguments bo_call {K Id V}.

Section BlockData.
Context {K Id V : Type} {EqK : EqDecision K} {EqId : EqDecision Id}.

(** [blocks.setdefault(key, {}).update({record_id : record})] for each
    key, in order. *)
Definition add_keys (rid : Id) (r : V) (keys : list K) (blocks : dict K (dict Id V))
  : dict K (dict Id V) :=
  foldl (λ bs k, dmodify k (dset rid r) [] bs) blocks keys.

(** The loop of lines 45-47; the first exception is raised. *)
Fixpoint block_loop (call : Id * V → list K * option exn) (items : list (Id * V))
    (blocks : dict K (dict Id V)) : exn + dict K (dict Id V) :=
  match items with
  | [] => inr blocks
  | (rid, r) :: items' =>
      let '(keys, stop) := call (rid, r) in
      match stop with
      | Some e => inl e
      | None => block_loop call items' (add_keys rid r keys blocks)
      end
  end.

(** Line 43 evaluates [blocker.tfIdfBlocks], then [data_d.iteritems()]
    and [data_d.constrained], then makes the call. *)
Definition blockData (data_d : DataD Id V) (blocker : BlockerObj K Id V)
  : exn + list (dict Id V) :=
  match bo_tfIdfBlocks blocker with
  | None => inl (AttributeError "tfIdfBlocks")
  | Some tf =>
      match dd_constrained data_d with
      | None => inl (AttributeError "constrained")
      | Some c =>
          match tf (dd_items data_d) c with
          | inl e => inl e
          | inr _ =>
              match block_loop (bo_call blocker) (dd_items data_d) [] with
              | inl e => inl e
              | inr blocks => inr (dvalues blocks)
              end
          end
      end
  end.
End BlockData.

(** The [Blocker] of [blocking.py] as [blockData] sees it, over
    integer record ids: it has no [tfIdfBlocks]; line 46 calls it on the
    tuple [(record_id, record)], so [__call__]'s loop (lines 50-51)
    takes [record_id] as its first record and the unpacking
    [record_id, instance = record] of an [int] raises [TypeError]
    before any predicate is applied or any key yielded, whatever the
    heap [s]. *)
Definition blocker_obj {I} `{!CanopyIndex I} (s : St I) : BlockerObj (string * nat) nat Rec :=
  mkBlockerObj None (λ _, ([], Some (TypeError "cannot unpack non-iterable int object"))).

(** ** Lemmas on [dataSample] *)

Section DataSampleFacts.
Context {Id : Type}.

Definition is_A (r : PRec) : Prop := r !! "dataset" = Some (PInt 0).

Lemma split_datasets_ok rs a b :
  split_datasets rs = inr (a, b) →
  a = filter is_A rs ∧ b = filter (λ r, ¬ is_A r) rs ∧ Forall (λ r, is_Some (r !! "dataset")) rs.
Proof.
  unfold is_A. revert a b. induction rs as [|r rs IH]; intros a b; simpl; [by intros [= <- <-]|].
  unfold in_dataset_A. destruct (r !! "dataset") as [v|] eqn:Hv; [|done].
  destruct (split_datasets rs) as [e|[a' b']]; [done|].
  destruct (IH a' b' eq_refl) as (-> & -> & Hall).
  rewrite !filter_cons. case_bool_decide as Hz; intros [= <- <-].
  - subst v. rewrite decide_True, decide_False by auto. eauto.
  - rewrite decide_False, decide_True by congruence. eauto.
Qed.

Lemma split_datasets_err rs e :
  split_datasets rs = inl e → e = KeyError "dataset" ∧ ∃ r, r ∈ rs ∧ r !! "dataset" = None.
Proof.
  induction rs as [|r rs IH]; simpl; [done|]. unfold in_dataset_A.
  destruct (r !! "dataset") eqn:Hv; [|intros [= <-]; split; [done|exists r; set_solver]].
  destruct (split_datasets rs) as [e'|[]]; [|done]. intros [= <-].
  destruct (IH eq_refl) as [-> (r' & ? & ?)]. split; [done|]. exists r'. set_solver.
Qed.

Lemma pair_up_ok {V} (xs ys : list V) ps out :
  pair_up xs ys ps = inr out →
  length out = length ps ∧
  ∀ n i j, ps !! n = Some (i, j) → ∃ a b, out !! n = Some (a, b) ∧ xs !! i = Some a ∧ ys !! j = Some b.
Proof.
  revert out. induction ps as [|[k1 k2] ps IH]; intros out; simpl; [intros [= <-]; split; [done|by intros []]|].
  destruct (xs !! k1) as [a|] eqn:Ha, (ys !! k2) as [b|] eqn:Hb; try done.
  destruct (pair_up xs ys ps) as [e|out'] eqn:E; [done|]. intros [= <-].
  destruct (IH out' eq_refl) as [Hl Hn]. split; [simpl; lia|].
  intros [|n] i j; simpl; [intros [= <- <-]; eauto|apply Hn].
Qed.

Lemma pair_up_total {V} (xs ys : list V) ps :
  (∀ i j, (i, j) ∈ ps → i < length xs ∧ j < length ys) → ∃ out, pair_up xs ys ps = inr out.
Proof.
  induction ps as [|[k1 k2] ps IH]; simpl; intros Hr; [eauto|].
  destruct (Hr k1 k2) as [H1 H2]; [set_solver|].
  destruct (lookup_lt_is_Some_2 xs k1 H1) as [a ->], (lookup_lt_is_Some_2 ys k2 H2) as [b ->].
  destruct IH as [out ->]; [intros; apply Hr; set_solver|]. eauto.
Qed.

Lemma pair_up_err {V} (xs ys : list V) ps e :
  pair_up xs ys ps = inl e → e = IndexError ∧ ∃ i j, (i, j) ∈ ps ∧ (length xs ≤ i ∨ length ys ≤ j).
Proof.
  induction ps as [|[k1 k2] ps IH]; simpl; [done|].
  destruct (xs !! k1) as [a|] eqn:Ha, (ys !! k2) as [b|] eqn:Hb.
  - destruct (pair_up xs ys ps); [|done]. intros He. destruct (IH He) as [-> (i & j & ? & ?)].
    split; [done|]. exists i, j. set_solver.
  - intros [= <-]. split; [done|]. exists k1, k2. apply lookup_ge_None in Hb. set_solver.
  - intros [= <-]. split; [done|]. exists k1, k2. apply lookup_ge_None in Ha. set_solver.
  - intros [= <-]. split; [done|]. exists k1, k2. apply lookup_ge_None in Ha. set_solver.
Qed.

Lemma pair_up_elem {V} (xs ys : list V) ps out a b :
  pair_up xs ys ps = inr out → (a, b) ∈ out → a ∈ xs ∧ b ∈ ys.
Proof.
  intros Hp Hin. destruct (pair_up_ok xs ys ps out Hp) as [Hl Hn].
  apply list_elem_of_lookup in Hin as [n Hn'].
  destruct (lookup_lt_is_Some_2 ps n) as [[i j] Hij].
  { rewrite <-Hl. apply lookup_lt_is_Some_1. eauto. }
  destruct (Hn n i j Hij) as (a' & b' & Ho & Ha & Hb). rewrite Hn' in Ho. simplify_eq.
  split; by eapply list_elem_of_lookup_2.
Qed.
End DataSampleFacts.

Section DataSampleTheorems.
Context {Id : Type} (randomPairs : nat → nat → exn + list (nat * nat))
        (randomPairsMatch : nat → nat → nat → exn + list (nat * nat)).
Implicit Types data : DataD Id PRec.

(** C12: unconstrained [dataSample], when the sampler's index pairs are
    below the number of records, returns one pair per sampled index
    pair: at position [n] the records at the two indices of [data.values()]. *)
Theorem dataSample_unconstrained data k ps :
  dd_constrained data = Some false →
  randomPairs (length (dvalues (dd_items data))) k = inr ps →
  (∀ i j, (i, j) ∈ ps → i < length (dvalues (dd_items data)) ∧ j < length (dvalues (dd_items data))) →
  ∃ out, dataSample randomPairs randomPairsMatch data k = inr out ∧ length out = length ps ∧
    ∀ n i j, ps !! n = Some (i, j) →
      ∃ a b, out !! n = Some (a, b) ∧ dvalues (dd_items data) !! i = Some a ∧
             dvalues (dd_items data) !! j = Some b.
Proof.
  intros Hc Hr Hin. unfold dataSample. rewrite Hc, Hr.
  destruct (pair_up_total _ _ ps Hin) as [out Hout]. rewrite Hout.
  exists out. split; [done|]. by apply pair_up_ok.
Qed.

(** Constrained [dataSample] pairs a record of dataset 0 with a
    record of another dataset, both records of [data]. *)
Theorem dataSample_constrained data k out :
  dd_constrained data = Some true → dataSample randomPairs randomPairsMatch data k = inr out →
  ∀ a b, (a, b) ∈ out →
    a ∈ dvalues (dd_items data) ∧ b ∈ dvalues (dd_items data) ∧
    a !! "dataset" = Some (PInt 0) ∧ is_Some (b !! "dataset") ∧ b !! "dataset" ≠ Some (PInt 0).
Proof.
  intros Hc. unfold dataSample. rewrite Hc.
  destruct (split_datasets _) as [e|[xa xb]] eqn:Hs; [done|].
  destruct (split_datasets_ok _ _ _ Hs) as (-> & -> & Hall).
  destruct (randomPairsMatch _ _ k) as [e|ps]; [done|].
  intros Hp a b Hab. destruct (pair_up_elem _ _ _ _ a b Hp Hab) as [Ha Hb].
  apply list_elem_of_filter in Ha as [HA Ha], Hb as [HB Hb].
  rewrite Forall_forall in Hall. unfold is_A in *. split_and!; auto.
Qed.

(** C14: [dataSample] raises only: [AttributeError] when [data] has no
    [constrained] attribute (a plain [dict]); [KeyError 'dataset'] when
    constrained and a record has no [dataset] field; what the sampler
    raises; [IndexError] when the sampler returned an index not below
    the count it was given. *)
Theorem dataSample_raises data k e :
  dataSample randomPairs randomPairsMatch data k = inl e →
  (dd_constrained data = None ∧ e = AttributeError "constrained") ∨
  (dd_constrained data = Some true ∧ e = KeyError "dataset" ∧
     ∃ r, r ∈ dvalues (dd_items data) ∧ r !! "dataset" = None) ∨
  (∃ n, randomPairs n k = inl e) ∨ (∃ na nb, randomPairsMatch na nb k = inl e) ∨
  (e = IndexError ∧
     ((∃ n ps i j, randomPairs n k = inr ps ∧ (i, j) ∈ ps ∧ (n ≤ i ∨ n ≤ j)) ∨
      (∃ na nb ps i j, randomPairsMatch na nb k = inr ps ∧ (i, j) ∈ ps ∧ (na ≤ i ∨ nb ≤ j)))).
Proof.
  unfold dataSample. destruct (dd_constrained data) as [[]|]; [| |intros [= <-]; by left].
  - destruct (split_datasets _) as [e'|[xa xb]] eqn:Hs.
    + intros [= <-]. apply split_datasets_err in Hs as [-> ?]. right; left. done.
    + destruct (randomPairsMatch _ _ k) as [e'|ps] eqn:Hr; [intros [= <-]; eauto 10|].
      intros (-> & i & j & ? & ?)%pair_up_err. do 4 right. split; [done|]. right. eauto 10.
  - destruct (randomPairs _ k) as [e'|ps] eqn:Hr; [intros [= <-]; eauto 10|].
    intros (-> & i & j & ? & ?)%pair_up_err. do 4 right. split; [done|]. left. eauto 10.
Qed.
End DataSampleTheorems.

(** ** Lemmas on [blockData] *)

Section BlockDataFacts.
Context {K Id V : Type} {EqK : EqDecision K} {EqId : EqDecision Id}.
Implicit Types bs : dict K (dict Id V).

(** Record [rid] is in the block of key [k], as [r]. *)
Definition in_blocks (k : K) (rid : Id) (r : V) bs : Prop :=
  ∃ b, dget k bs = Some b ∧ dget rid b = Some r.

Lemma dmodify_in k0 rid r bs k rid' r' :
  in_blocks k rid' r' (dmodify k0 (dset rid r) [] bs) ↔
  (k = k0 ∧ rid' = rid ∧ r' = r) ∨ (in_blocks k rid' r' bs ∧ ¬ (k = k0 ∧ rid' = rid)).
Proof.
  unfold in_blocks. destruct (decide (k = k0)) as [->|Hne].
  - rewrite dget_dmodify_eq.
    assert (Hx : ∀ X : dict Id V, (∃ b, Some X = Some b ∧ dget rid' b = Some r') ↔ dget rid' X = Some r')
      by naive_solver.
    rewrite Hx. destruct (decide (rid' = rid)) as [->|Hr].
    + rewrite dget_dset_eq. naive_solver.
    + rewrite dget_dset_ne by congruence.
      destruct (dget k0 bs) as [b0|]; simpl; naive_solver.
  - rewrite dget_dmodify_ne by congruence. naive_solver.
Qed.

Lemma add_keys_in rid r keys bs k rid' r' :
  in_blocks k rid' r' (add_keys rid r keys bs) ↔
  (k ∈ keys ∧ rid' = rid ∧ r' = r) ∨ (in_blocks k rid' r' bs ∧ ¬ (k ∈ keys ∧ rid' = rid)).
Proof.
  unfold add_keys. revert bs. induction keys as [|k0 keys IH]; intros bs; simpl.
  - set_solver.
  - rewrite (IH (dmodify k0 (dset rid r) [] bs)).
    pose proof (dmodify_in k0 rid r bs k rid' r') as Hd.
    rewrite Hd, elem_of_cons.
    destruct (decide (k ∈ keys)), (decide (k = k0)), (decide (rid' = rid)); naive_solver.
Qed.

Lemma add_keys_NoDup rid r keys bs : NoDup (dkeys bs) → NoDup (dkeys (add_keys rid r keys bs)).
Proof.
  unfold add_keys. revert bs. induction keys as [|k0 keys IH]; intros bs Hnd; simpl; [done|].
  apply IH. by apply dset_NoDup.
Qed.

Lemma block_loop_in call (items : list (Id * V)) bs :
  NoDup (map fst items) → (∀ x, x ∈ items → (call x).2 = None) →
  (∀ k rid r, in_blocks k rid r bs → rid ∉ map fst items) → NoDup (dkeys bs) →
  ∃ bs', block_loop call items bs = inr bs' ∧ NoDup (dkeys bs') ∧
    ∀ k rid r, in_blocks k rid r bs' ↔ ((rid, r) ∈ items ∧ k ∈ (call (rid, r)).1) ∨ in_blocks k rid r bs.
Proof.
  revert bs. induction items as [|[rid0 r0] items IH]; intros bs Hnd Hok Hfresh Hndk; simpl.
  { exists bs. split_and!; [done|done|]. set_solver. }
  apply NoDup_cons in Hnd as [Hn0 Hnd].
  destruct (call (rid0, r0)) as [keys stop] eqn:Ec.
  assert (stop = None) as -> by (specialize (Hok (rid0, r0)); rewrite Ec in Hok; apply Hok; set_solver).
  destruct (IH (add_keys rid0 r0 keys bs)) as (bs' & Hrun & Hnd' & Hin); [done|set_solver| |by apply add_keys_NoDup|].
  { intros k rid r [(_ & -> & _)|[Hb _]]%add_keys_in; [done|].
    specialize (Hfresh _ _ _ Hb). set_solver. }
  exists bs'. split_and!; [done|done|]. intros k rid r. rewrite Hin, add_keys_in.
  split.
  - intros [[Hi Hk]|[(Hk & -> & ->)|[Hb _]]]; [left; set_solver|left; rewrite Ec; set_solver|by right].
  - intros [[[[= -> ->]|Hi]%elem_of_cons Hk]|Hb].
    + right; left. rewrite Ec in Hk. done.
    + left. done.
    + right; right. split; [done|]. intros [_ ->]. specialize (Hfresh _ _ _ Hb). set_solver.
Qed.

(** Every block is a [dict] with distinct record ids. *)
Definition blocks_wf bs : Prop := ∀ k b, (k, b) ∈ bs → NoDup (dkeys b).

Lemma add_keys_wf rid r keys bs : blocks_wf bs → blocks_wf (add_keys rid r keys bs).
Proof.
  unfold add_keys. revert bs. induction keys as [|k0 keys IH]; intros bs Hwf; simpl; [done|].
  apply IH. intros k b [[-> ->]|Hin]%dset_elem; [|by eapply Hwf].
  apply dset_NoDup. destruct (dget k0 bs) as [b0|] eqn:Hb; simpl; [|constructor].
  by eapply Hwf, dget_Some_elem.
Qed.

Lemma block_loop_wf call (items : list (Id * V)) bs bs' :
  blocks_wf bs → block_loop call items bs = inr bs' → blocks_wf bs'.
Proof.
  revert bs. induction items as [|[rid r] items IH]; intros bs Hwf; simpl; [by intros [= <-]|].
  destruct (call (rid, r)) as [keys [e|]]; [done|]. apply IH. by apply add_keys_wf.
Qed.
End BlockDataFacts.

(** ** Theorems on [blockData] *)

Section BlockDataTheorems.
Context {K Id V : Type} {EqK : EqDecision K} {EqId : EqDecision Id}.

Lemma blockData_run (data_d : DataD Id V) (blocker : BlockerObj K Id V) tf c :
  bo_tfIdfBlocks blocker = Some tf → dd_constrained data_d = Some c →
  is_ok (tf (dd_items data_d) c) = true →
  NoDup (dkeys (dd_items data_d)) → (∀ x, x ∈ dd_items data_d → (bo_call blocker x).2 = None) →
  ∃ blocks, blockData data_d blocker = inr (dvalues blocks) ∧ NoDup (dkeys blocks) ∧
    blocks_wf blocks ∧
    ∀ k rid r, in_blocks k rid r blocks ↔
      (rid, r) ∈ dd_items data_d ∧ k ∈ (bo_call blocker (rid, r)).1.
Proof.
  intros Htf Hc Hok Hnd Hcall. unfold blockData. rewrite Htf, Hc.
  destruct (tf _ _) as [e|u]; [done|].
  destruct (block_loop_in (bo_call blocker) (dd_items data_d) [])
    as (bs & Hrun & Hnd' & Hin); [done|done| |constructor|].
  { intros k rid r (b & Hb & _). done. }
  exists bs. rewrite Hrun. split_and!; [done|done| |].
  - eapply block_loop_wf; [|exact Hrun]. intros k b Hkb. by apply elem_of_nil in Hkb.
  - intros k rid r. rewrite Hin. split; [intros [?|(b & Hb & _)]; [done|done]|by left].
Qed.

(** C15: when the blocker has a [tfIdfBlocks] that returns on the
    data's items and its [constrained] attribute, the record ids are
    distinct and no call of the blocker raises, [blockData] returns the
    blocks of an [OrderedDict] with distinct keys, each block a [dict]
    with distinct ids, in which record [rid] is in the block of key
    [k], as [r], exactly when [(rid, r)] is an item of [data_d] and the
    blocker yields [k] for it. *)
Theorem blockData_spec (data_d : DataD Id V) (blocker : BlockerObj K Id V) tf c :
  bo_tfIdfBlocks blocker = Some tf → dd_constrained data_d = Some c →
  is_ok (tf (dd_items data_d) c) = true →
  NoDup (dkeys (dd_items data_d)) → (∀ x, x ∈ dd_items data_d → (bo_call blocker x).2 = None) →
  ∃ blocks, blockData data_d blocker = inr (dvalues blocks) ∧ NoDup (dkeys blocks) ∧
    blocks_wf blocks ∧
    ∀ k rid r, in_blocks k rid r blocks ↔
      (rid, r) ∈ dd_items data_d ∧ k ∈ (bo_call blocker (rid, r)).1.
Proof. apply blockData_run. Qed.

(** What [blockData] does with the [Blocker] of [blocking.py]: it has
    no [tfIdfBlocks], so line 43 raises [AttributeError]; a blocker
    that had one but called like [Blocker.__call__] on the tuple of
    line 46 would raise [TypeError] on the first record. *)
Lemma blockData_Blocker {I} `{!CanopyIndex I} (s : St I) (data_d : DataD nat Rec) tf c rid r items :
  blockData data_d (blocker_obj s) = inl (AttributeError "tfIdfBlocks") ∧
  (dd_constrained data_d = Some c → tf (dd_items data_d) c = inr tt → dd_items data_d = (rid, r) :: items →
   blockData data_d (mkBlockerObj (Some tf) (bo_call (blocker_obj s)))
     = inl (TypeError "cannot unpack non-iterable int object")).
Proof.
  split; [done|]. intros Hc Ht Hi. unfold blockData. simpl. rewrite Hc, Ht, Hi. done.
Qed.
End BlockDataTheorems.

(** ** The test fixtures and witnesses *)

Import TfIdf.

Module Fixtures.
(** A record of [DATA] with Python values. *)
Definition prec (name age : string) : PRec := <["name" := PStr name]> (<["age" := PStr age]> ∅).

(** [DATA] of [src/test/test_dedupe.py] (lines 10-20), a plain [dict]. *)
Definition DATA_P : DataD nat PRec := mkDataD [
  (100, prec "Bob" "50"); (105, prec "Charlie" "75"); (110, prec "Meredith" "40");
  (115, prec "Sue" "10"); (120, prec "Jimmy" "20"); (125, prec "Jimbo" "21");
  (130, prec "Willy" "35"); (135, prec "William" "35"); (140, prec "Martha" "19");
  (145, prec "Kyle" "27")] None.

(** [self.data_d] of [TfidfTest] (lines 439-450): records with a
    [dataset] field, as a constrained data dictionary. *)
Definition drec (name age : string) (ds : Z) : PRec := <["dataset" := PInt ds]> (prec name age).
Definition DATA_D : DataD nat PRec := mkDataD [
  (100, drec "Bob" "50" 0); (105, drec "Charlie" "75" 1); (110, drec "Meredith" "40" 1);
  (115, drec "Sue" "10" 0); (120, drec "Jimbo" "21" 1); (125, drec "Jimbo" "21" 0);
  (130, drec "Willy" "35" 0); (135, drec "Willy" "35" 1); (140, drec "Martha" "19" 1);
  (145, drec "Kyle" "27" 0)] (Some true).

(** [randomPairs(10, 5)] with [random.seed(123)] (lines 55-59). *)
Definition random_pairs_10_5 (n k : nat) : exn + list (nat * nat) :=
  inr [(1, 8); (5, 7); (1, 2); (3, 7); (2, 9)].

Definition match_pairs (na nb k : nat) : exn + list (nat * nat) := inr [(0, 1); (4, 4); (2, 0)].

(** A blocker with [tfIdfBlocks] whose call yields a record's name. *)
Definition name_blocker : BlockerObj string nat Rec :=
  mkBlockerObj (Some (λ _ _, inr tt)) (λ '(_, r), ([default "" (r !! "name")], None)).
End Fixtures.

Lemma dataSample_unconstrained_witness :
  ∃ out, dataSample Fixtures.random_pairs_10_5 Fixtures.match_pairs
           (mkDataD (dd_items Fixtures.DATA_P) (Some false)) 5 = inr out ∧ length out = 5 ∧
    ∀ n i j, [(1, 8); (5, 7); (1, 2); (3, 7); (2, 9)] !! n = Some (i, j) →
      ∃ a b, out !! n = Some (a, b) ∧ dvalues (dd_items Fixtures.DATA_P) !! i = Some a ∧
             dvalues (dd_items Fixtures.DATA_P) !! j = Some b.
Proof.
  apply (dataSample_unconstrained _ _ (mkDataD (dd_items Fixtures.DATA_P) (Some false)) 5
           [(1, 8); (5, 7); (1, 2); (3, 7); (2, 9)]); [done|done|].
  intros i j Hin. repeat (apply elem_of_cons in Hin as [[= -> ->]|Hin]; [vm_compute; lia|]).
  by apply elem_of_nil in Hin.
Defined.

Lemma dataSample_constrained_witness :
  ∃ out, dataSample Fixtures.random_pairs_10_5 Fixtures.match_pairs Fixtures.DATA_D 3 = inr out ∧
    ∀ a b, (a, b) ∈ out →
      a ∈ dvalues (dd_items Fixtures.DATA_D) ∧ b ∈ dvalues (dd_items Fixtures.DATA_D) ∧
      a !! "dataset" = Some (PInt 0) ∧ is_Some (b !! "dataset") ∧ b !! "dataset" ≠ Some (PInt 0).
Proof.
  set (out := match dataSample Fixtures.random_pairs_10_5 Fixtures.match_pairs Fixtures.DATA_D 3 with
              | inr o => o | inl _ => [] end).
  assert (H : dataSample Fixtures.random_pairs_10_5 Fixtures.match_pairs Fixtures.DATA_D 3 = inr out)
    by (unfold out; vm_compute; reflexivity).
  exists out. split; [exact H|].
  exact (dataSample_constrained Fixtures.random_pairs_10_5 Fixtures.match_pairs Fixtures.DATA_D 3 out eq_refl H).
Defined.

Lemma dataSample_raises_witness :
  dataSample Fixtures.random_pairs_10_5 Fixtures.match_pairs Fixtures.DATA_P 5
    = inl (AttributeError "constrained") ∧
  ((dd_constrained Fixtures.DATA_P = None ∧ AttributeError "constrained" = AttributeError "constrained") ∨
   (dd_constrained Fixtures.DATA_P = Some true ∧ AttributeError "constrained" = KeyError "dataset" ∧
      ∃ r, r ∈ dvalues (dd_items Fixtures.DATA_P) ∧ r !! "dataset" = None) ∨
   (∃ n, Fixtures.random_pairs_10_5 n 5 = inl (AttributeError "constrained")) ∨
   (∃ na nb, Fixtures.match_pairs na nb 5 = inl (AttributeError "constrained")) ∨
   (AttributeError "constrained" = IndexError ∧
      ((∃ n ps i j, Fixtures.random_pairs_10_5 n 5 = inr ps ∧ (i, j) ∈ ps ∧ (n ≤ i ∨ n ≤ j)) ∨
       (∃ na nb ps i j, Fixtures.match_pairs na nb 5 = inr ps ∧ (i, j) ∈ ps ∧ (na ≤ i ∨ nb ≤ j))))).
Proof.
  assert (H : dataSample Fixtures.random_pairs_10_5 Fixtures.match_pairs Fixtures.DATA_P 5
                = inl (AttributeError "constrained")) by reflexivity.
  split; [exact H|]. exact (dataSample_raises _ _ _ _ _ H).
Defined.

Lemma blockData_spec_witness :
  ∃ blocks, blockData (mkDataD Scenario.DATA (Some false)) Fixtures.name_blocker = inr (dvalues blocks) ∧
    NoDup (dkeys blocks) ∧ blocks_wf blocks ∧
    ∀ k rid r, in_blocks k rid r blocks ↔
      (rid, r) ∈ Scenario.DATA ∧ k ∈ (bo_call Fixtures.name_blocker (rid, r)).1.
Proof.
  apply (blockData_spec (mkDataD Scenario.DATA (Some false)) _ (λ _ _, inr tt) false);
    [done|done|done| |].
  - apply (bool_decide_unpack _). by vm_compute.
  - intros [rid r] _. reflexivity.
Defined.
