(* ===== verification/Clustering.v ===== *)
(** * Clustering (spec section 4.7): [greedyMatching], [clusterConstrained], [cluster]

    The clustering code ([dedupe.clustering]) is not under [src/]: the
    three operations are modelled from the specification, on an edge
    list [((idA, idB), score)] with scores and the threshold [τ] in [Q].

    - [greedyMatching]: the edges with score [≥ τ], sorted by descending
      score (ties in input order), committed in that order when neither
      endpoint is matched yet.
    - [clusterConstrained]: a maximum-weight matching of the edges with
      score [≥ τ]; the first of maximum weight in a fixed enumeration
      order (the spec leaves the tie order to the solver).
    - [cluster]: complete-linkage agglomerative clustering: starting from
      singletons, repeatedly merge the two clusters whose least pairwise
      score is largest, as long as every pairwise score between them is
      [≥ τ] (a missing edge forbids the merge); clusters of at least two
      members are returned.
    - [validated]: each operation behind the input validation of spec
      section 7 (threshold and edge scores in [[0, 1]]).

    The fixtures of [ClusteringTest] ([src/test/test_dedupe.py] lines
    328-404) are the witnesses; the theorems show what each operation
    returns on them for every threshold and compare with the test's
    expected values. *)

From S2P Require Import Prelude.
From stdpp Require Import sorting.
From Stdlib Require Import QArith Qminmax Lqa.
Local Open Scope nat_scope.

Section Edges.
Context {Id : Type} {EqId : EqDecision Id}.

(** An edge [((idA, idB), score)]. *)
Definition Edge : Type := ((Id * Id) * Q)%type.

Definition e_ids (e : Edge) : Id * Id := e.1.
Definition e_score (e : Edge) : Q := e.2.

(** The edges at or above the threshold. *)
Definition above (τ : Q) (es : list Edge) : list Edge := filter (λ e, (τ <= e_score e)%Q) es.

(** Both ends of each pair. *)
Definition endpoints (m : list (Id * Id)) : list Id := m ≫= (λ '(a, b), [a; b]).

(** A matching: no id is an end of two pairs (nor both ends of one). *)
Definition is_matching (m : list (Id * Id)) : Prop := NoDup (endpoints m).

(** The pairs of a matching are edges of [es]. *)
Definition pairs_of (es : list Edge) (m : list (Id * Id)) : Prop :=
  ∀ p, p ∈ m → ∃ s, (p, s) ∈ es.

Definition no_loops (es : list Edge) : Prop := ∀ a b s, ((a, b), s) ∈ es → a ≠ b.

(** ** [greedyMatching] *)

(** Edge [x] (with its input position) goes before [y]: higher score
    first, ties in input order. *)
Definition edge_before (x y : nat * Edge) : Prop :=
  (e_score y.2 < e_score x.2)%Q ∨ (e_score x.2 == e_score y.2)%Q ∧ x.1 ≤ y.1.

#[global] Instance edge_before_dec : RelDecision edge_before.
Proof.
  intros x y. unfold edge_before.
  apply or_dec; [apply _|apply and_dec; apply _].
Defined.

(** The weight of an edge list: the sum of its scores. *)
Definition weight (m : list Edge) : Q := foldr Qplus 0%Q (e_score <$> m).

(** An edge list is a matching none of whose ends is in [used]. *)
Definition avoids (used : list Id) (m : list Edge) : Prop := NoDup (endpoints (e_ids <$> m) ++ used).

(** The commit loop: [matched] are the ids already matched; the result
    is the committed edges. *)
Fixpoint greedy_loop (matched : list Id) (es : list Edge) : list Edge :=
  match es with
  | [] => []
  | ((a, b), s) :: es' =>
      if decide (a ∈ matched ∨ b ∈ matched) then greedy_loop matched es'
      else ((a, b), s) :: greedy_loop (a :: b :: matched) es'
  end.

(** The edges [≥ τ] in the order [greedyMatching] commits them. *)
Definition greedy_order (dupes : list Edge) (τ : Q) : list Edge :=
  snd <$> merge_sort edge_before (imap pair (above τ dupes)).

Definition greedy_edges (dupes : list Edge) (τ : Q) : list Edge :=
  greedy_loop [] (greedy_order dupes τ).

Definition greedyMatching (dupes : list Edge) (τ : Q) : list (Id * Id) :=
  e_ids <$> greedy_edges dupes τ.

(** ** Lemmas *)

Lemma endpoints_cons a b m : endpoints ((a, b) :: m) = a :: b :: endpoints m.
Proof. done. Qed.

Lemma avoids_cons used a b s m :
  avoids used (((a, b), s) :: m) ↔ avoids (a :: b :: used) m.
Proof.
  unfold avoids. simpl. rewrite (Permutation_app_comm (endpoints _) (a :: b :: used)).
  change ((a :: b :: endpoints (e_ids <$> m)) ++ used) with (a :: b :: (endpoints (e_ids <$> m) ++ used)).
  by rewrite (Permutation_app_comm (endpoints _) used).
Qed.

Lemma avoids_head used a b m : avoids (a :: b :: used) m → a ∉ used ∧ b ∉ used ∧ a ≠ b.
Proof.
  unfold avoids. intros (_ & _ & Hnd)%NoDup_app.
  apply NoDup_cons in Hnd as [Ha [Hb _]%NoDup_cons]. set_solver.
Qed.

Lemma avoids_elem used m a b s : avoids used m → ((a, b), s) ∈ m → a ∉ used ∧ b ∉ used.
Proof.
  unfold avoids. intros (_ & Hdis & _)%NoDup_app Hin.
  assert (a ∈ endpoints (e_ids <$> m) ∧ b ∈ endpoints (e_ids <$> m)) as [Ha Hb].
  { unfold endpoints. split; apply list_elem_of_bind; exists (a, b);
      (split; [set_solver|apply list_elem_of_fmap; by exists ((a, b), s)]). }
  split; intros ?; [by apply (Hdis a)|by apply (Hdis b)].
Qed.

Lemma avoids_sublist used m1 m2 : m1 `sublist_of` m2 → avoids used m2 → avoids used m1.
Proof.
  intros Hsub. revert used. induction Hsub as [|[[a b] s] l1 l2 _ IH|[[a b] s] l1 l2 _ IH];
    intros used Hav.
  - done.
  - rewrite avoids_cons in Hav |- *. by apply IH.
  - apply IH. apply avoids_cons in Hav. unfold avoids in *.
    rewrite (Permutation_app_comm _ (a :: b :: used)) in Hav. simpl in Hav.
    apply NoDup_cons in Hav as [_ [_ Hav]%NoDup_cons]. by rewrite Permutation_app_comm.
Qed.

Lemma greedy_order_perm dupes τ : greedy_order dupes τ ≡ₚ above τ dupes.
Proof.
  unfold greedy_order. rewrite merge_sort_Permutation.
  assert (H : ∀ (g : nat → nat) (l : list Edge), snd <$> imap (λ i x, (g i, x)) l = l).
  { intros g l. revert g. induction l as [|x l IH]; intros g; [done|].
    rewrite imap_cons. simpl. f_equal. apply (IH (λ i, g (S i))). }
  by rewrite (H id).
Qed.

Lemma greedy_loop_sub matched es : greedy_loop matched es `sublist_of` es.
Proof.
  revert matched. induction es as [|[[a b] s] es IH]; intros matched; simpl; [done|].
  case_decide; [by apply sublist_cons|by apply sublist_skip].
Qed.

Lemma greedy_loop_matching matched es :
  NoDup matched → no_loops es → avoids matched (greedy_loop matched es).
Proof.
  revert matched. induction es as [|[[a b] s] es IH]; intros matched Hnd Hnl; simpl.
  - unfold avoids. by rewrite app_nil_l.
  - assert (no_loops es) as Hnl' by (intros a' b' s' Hin; apply (Hnl a' b' s'); set_solver).
    case_decide as Hm; [by apply IH|].
    assert (a ≠ b) by (apply (Hnl a b s); set_solver).
    apply avoids_cons, IH; [repeat constructor; set_solver|done].
Qed.

(** Every edge of [es] has an end matched in the end. *)
Lemma greedy_loop_maximal matched es a b s :
  ((a, b), s) ∈ es → a ∈ endpoints (e_ids <$> greedy_loop matched es) ++ matched ∨
                     b ∈ endpoints (e_ids <$> greedy_loop matched es) ++ matched.
Proof.
  revert matched. induction es as [|[[a' b'] s'] es IH]; intros matched; simpl; [set_solver|].
  intros [[= -> -> ->]|Hin]%elem_of_cons.
  - case_decide as Hm.
    + destruct Hm; [left|right]; set_solver.
    + left. set_solver.
  - case_decide; [by apply IH|].
    destruct (IH (a' :: b' :: matched) Hin); [left|right]; set_solver.
Qed.
End Edges.

Arguments Edge : clear implicits.

Section Greedy.
Context {Id : Type} {EqId : EqDecision Id}.
Implicit Types dupes : list (Edge Id).

(** What [greedyMatching] returns: a matching of edges [≥ τ] that is
    maximal (every edge [≥ τ] has a matched end). *)
Lemma greedyMatching_spec dupes τ :
  no_loops dupes →
  is_matching (greedyMatching dupes τ) ∧ pairs_of (above τ dupes) (greedyMatching dupes τ) ∧
  ∀ a b s, ((a, b), s) ∈ above τ dupes →
    a ∈ endpoints (greedyMatching dupes τ) ∨ b ∈ endpoints (greedyMatching dupes τ).
Proof.
  intros Hnl. pose proof (greedy_order_perm dupes τ) as Hp.
  assert (Hnl' : no_loops (greedy_order dupes τ)).
  { intros a b s Hin. apply (Hnl a b s). rewrite Hp in Hin. by apply list_elem_of_filter in Hin as [_ ?]. }
  unfold greedyMatching, greedy_edges. split_and!.
  - pose proof (greedy_loop_matching [] _ NoDup_nil_2 Hnl') as H.
    unfold avoids in H. by rewrite app_nil_r in H.
  - intros p ([p' s] & -> & Hin)%list_elem_of_fmap. exists s. rewrite <-Hp.
    eapply elem_of_sublist; [exact Hin|apply greedy_loop_sub].
  - intros a b s Hin. rewrite <-Hp in Hin.
    destruct (greedy_loop_maximal [] _ a b s Hin); [left|right]; by rewrite app_nil_r in *.
Qed.
End Greedy.

(** ** [clusterConstrained]: a maximum-weight matching *)

Section Constrained.
Context {Id : Type} {EqId : EqDecision Id}.
Implicit Types es dupes m : list (Edge Id).

(** Every matching made of edges of [es], in the order of [es], none
    touching [used]: those with the first edge, then those without. *)
Fixpoint matchings (used : list Id) es : list (list (Edge Id)) :=
  match es with
  | [] => [[]]
  | e :: es' =>
      let '((a, b), _) := e in
      (if decide (a ∈ used ∨ b ∈ used ∨ a = b) then []
       else cons e <$> matchings (a :: b :: used) es') ++ matchings used es'
  end.

(** The first of greatest weight. *)
Fixpoint best (cur : list (Edge Id)) (ms : list (list (Edge Id))) : list (Edge Id) :=
  match ms with
  | [] => cur
  | m :: ms' => best (if decide (weight cur < weight m)%Q then m else cur) ms'
  end.

Definition clusterConstrained dupes (τ : Q) : list (Id * Id) :=
  e_ids <$> best [] (matchings [] (above τ dupes)).

Lemma matchings_sound used es m :
  m ∈ matchings used es → NoDup used → m `sublist_of` es ∧ avoids used m.
Proof.
  revert used m. induction es as [|[[a b] s] es IH]; intros used m; simpl.
  - intros ->%list_elem_of_singleton Hnd. split; [done|]. done.
  - intros [Hin|Hin]%elem_of_app Hnd.
    + case_decide as Hc; [set_solver|].
      apply list_elem_of_fmap in Hin as (m' & -> & Hin).
      destruct (IH _ _ Hin) as [Hsub Hav]; [repeat constructor; set_solver|].
      split; [by apply sublist_skip|]. by apply avoids_cons.
    + destruct (IH _ _ Hin Hnd) as [Hsub Hav]. split; [by apply sublist_cons|done].
Qed.

Lemma matchings_complete used es m :
  m `sublist_of` es → avoids used m → m ∈ matchings used es.
Proof.
  revert used m. induction es as [|[[a b] s] es IH]; intros used m Hsub Hav; simpl.
  - apply sublist_nil_r in Hsub as ->. set_solver.
  - apply sublist_cons_r in Hsub as [Hsub|(m' & -> & Hsub)]; apply elem_of_app.
    + right. by apply IH.
    + left. apply avoids_cons in Hav. destruct (avoids_head _ _ _ _ Hav) as (? & ? & ?).
      rewrite decide_False by tauto. apply list_elem_of_fmap. exists m'. split; [done|]. by apply IH.
Qed.

Lemma best_elem cur ms : best cur ms ∈ cur :: ms.
Proof.
  revert cur. induction ms as [|m ms IH]; intros cur; simpl; [set_solver|].
  case_decide; [pose proof (IH m)|pose proof (IH cur)]; set_solver.
Qed.

Lemma best_max cur ms m : m ∈ cur :: ms → (weight m <= weight (best cur ms))%Q.
Proof.
  revert cur m. induction ms as [|m' ms IH]; intros cur m Hin; simpl.
  - apply list_elem_of_singleton in Hin as ->. apply Qle_refl.
  - apply elem_of_cons in Hin as [Heq|[Heq|Hin]%elem_of_cons]; case_decide as Hlt; subst;
      try (apply IH; set_solver).
    + eapply Qle_trans; [apply Qlt_le_weak, Hlt|]. apply IH. set_solver.
    + eapply Qle_trans; [apply Qnot_lt_le, Hlt|]. apply IH. set_solver.
Qed.

Lemma best_matchings_sound es :
  best [] (matchings [] es) `sublist_of` es ∧ is_matching (e_ids <$> best [] (matchings [] es)).
Proof.
  destruct (proj1 (elem_of_cons _ _ _) (best_elem [] (matchings [] es))) as [->|Hin].
  - split; [apply sublist_nil_l|apply NoDup_nil_2].
  - destruct (matchings_sound [] _ _ Hin NoDup_nil_2) as [? Hav]. split; [done|].
    unfold avoids, is_matching in *. by rewrite app_nil_r in Hav.
Qed.

Lemma best_matchings_max es m :
  m `sublist_of` es → is_matching (e_ids <$> m) → (weight m <= weight (best [] (matchings [] es)))%Q.
Proof.
  intros Hsub Hm. apply best_max. right. apply matchings_complete; [done|].
  unfold avoids, is_matching in *. by rewrite app_nil_r.
Qed.

(** What [clusterConstrained] returns: the pairs of a matching [mb] of
    edges [≥ τ] whose weight no such matching exceeds. *)
Lemma clusterConstrained_spec dupes τ :
  ∃ mb, clusterConstrained dupes τ = e_ids <$> mb ∧
    mb `sublist_of` above τ dupes ∧ is_matching (e_ids <$> mb) ∧
    ∀ m, m `sublist_of` above τ dupes → is_matching (e_ids <$> m) → (weight m <= weight mb)%Q.
Proof.
  exists (best [] (matchings [] (above τ dupes))). split; [done|].
  split; [apply best_matchings_sound|split; [apply best_matchings_sound|]].
  apply best_matchings_max.
Qed.
End Constrained.

(** ** The greedy matching weighs at least half the maximum *)

Section GreedyBound.
Context {Id : Type} {EqId : EqDecision Id}.
Implicit Types es m : list (Edge Id).

(** Edge [x] scores at least as much as edge [y]. *)
Definition by_score (x y : Edge Id) : Prop := (e_score y <= e_score x)%Q.

Definition touches (ab : list Id) (x : Edge Id) : Prop := x.1.1 ∈ ab ∨ x.1.2 ∈ ab.

#[local] Instance touches_dec ab x : Decision (touches ab x).
Proof. unfold touches. apply _. Defined.

#[local] Instance edge_before_total : Total (@edge_before Id).
Proof.
  intros [i x] [j y]. unfold edge_before; simpl.
  destruct (Q_dec (e_score x) (e_score y)) as [[Hlt|Hlt]|Heq]; [by right; left|by left; left|].
  destruct (Nat.le_total i j); [left|right]; right; split; [done|done|by apply Qeq_sym|done].
Qed.

Lemma greedy_order_sorted dupes τ : StronglySorted by_score (greedy_order dupes τ).
Proof.
  apply Sorted_StronglySorted; [intros x y z ? ?; unfold by_score in *; eapply Qle_trans; eauto|].
  apply (Sorted_fmap _ edge_before); [|apply Sorted_merge_sort; apply _].
  intros [i x] [j y] [Hlt|[Heq _]]; unfold by_score; simpl in *; [by apply Qlt_le_weak|].
  rewrite Heq. apply Qle_refl.
Qed.

Lemma endpoints_elem y m : y ∈ endpoints (e_ids <$> m) ↔ ∃ x, x ∈ m ∧ (y = x.1.1 ∨ y = x.1.2).
Proof.
  unfold endpoints. rewrite list_elem_of_bind. split.
  - intros ([u v] & Hy & ([[u' v'] s] & [= -> ->] & Hx)%list_elem_of_fmap).
    exists ((u', v'), s). set_solver.
  - intros ([[u v] s] & Hx & Hy). exists (u, v). split; [set_solver|].
    apply list_elem_of_fmap. by exists ((u, v), s).
Qed.

(** One touched end of each touching edge: the ends so picked are in
    order among the matching's ends, hence distinct. *)
Definition pick (ab : list Id) (x : Edge Id) : Id := if decide (x.1.1 ∈ ab) then x.1.1 else x.1.2.

Lemma pick_sublist ab m : pick ab <$> m `sublist_of` endpoints (e_ids <$> m).
Proof.
  induction m as [|[[u v] s] m IH]; simpl; [done|]. unfold pick at 1; simpl.
  case_decide; [by apply sublist_skip, sublist_cons|by apply sublist_cons, sublist_skip].
Qed.

(** A matching has at most [length ab] edges touching [ab]. *)
Lemma touching_length ab m :
  NoDup (endpoints (e_ids <$> m)) → length (filter (touches ab) m) ≤ length ab.
Proof.
  intros Hnd. set (T := filter (touches ab) m).
  assert (HT : NoDup (endpoints (e_ids <$> T))).
  { pose proof (avoids_sublist [] T m (sublist_filter _ m)) as H. unfold avoids in H.
    rewrite !app_nil_r in H. by apply H. }
  rewrite <-(length_fmap (pick ab) T). apply NoDup_incl_length.
  - apply NoDup_ListNoDup. by eapply sublist_NoDup; [|apply pick_sublist].
  - intros y (x & -> & Hx)%list_elem_of_In%list_elem_of_fmap. apply list_elem_of_In.
    apply list_elem_of_filter in Hx as [Ht _]. unfold pick, touches in *. case_decide; tauto.
Qed.

Lemma weight_cons x m : weight (x :: m) = (e_score x + weight m)%Q.
Proof. done. Qed.

Lemma weight_filter (P : Edge Id → Prop) `{∀ x, Decision (P x)} m :
  (weight m == weight (filter P m) + weight (filter (λ x, ¬ P x) m))%Q.
Proof.
  induction m as [|x m IH]; [done|]. rewrite !filter_cons.
  case_decide; case_decide; try tauto; rewrite !weight_cons; lra.
Qed.

Lemma weight_two w m :
  length m ≤ 2 → (0 <= w)%Q → (∀ x, x ∈ m → e_score x <= w)%Q → (weight m <= 2 * w)%Q.
Proof.
  intros Hl Hw Hle. unfold weight.
  destruct m as [|x [|y [|z m]]]; simpl in *; try lia.
  - lra.
  - pose proof (Hle x ltac:(set_solver)). lra.
  - pose proof (Hle x ltac:(set_solver)). pose proof (Hle y ltac:(set_solver)). lra.
Qed.

(** In a matching whose edges weigh at most [w], the edges touching
    [a] or [b] weigh at most [2 * w]. *)
Lemma touching_weight a b w m :
  NoDup (endpoints (e_ids <$> m)) → (0 <= w)%Q → (∀ x, x ∈ m → e_score x <= w)%Q →
  (weight m <= weight (filter (λ x, ¬ touches [a; b] x) m) + 2 * w)%Q.
Proof.
  intros Hnd Hw Hle. rewrite (weight_filter (touches [a; b]) m).
  pose proof (weight_two w (filter (touches [a; b]) m) (touching_length [a; b] m Hnd) Hw
    (λ x Hx, Hle x (proj2 (proj1 (list_elem_of_filter _ _ _) Hx)))).
  lra.
Qed.

Lemma avoids_untouched matched a b m :
  avoids matched m → a ∉ matched → b ∉ matched → a ≠ b →
  avoids (a :: b :: matched) (filter (λ x, ¬ touches [a; b] x) m).
Proof.
  intros Hav Ha Hb Hab.
  pose proof (avoids_sublist _ _ _ (sublist_filter (λ x, ¬ touches [a; b] x) m) Hav) as H'.
  assert (Hna : ∀ y, y ∈ endpoints (e_ids <$> filter (λ x, ¬ touches [a; b] x) m) → y ≠ a ∧ y ≠ b).
  { intros y ([[u v] s] & [Hnt _]%list_elem_of_filter & Hy)%endpoints_elem.
    unfold touches in Hnt. simpl in *. set_solver. }
  unfold avoids in *. rewrite (Permutation_app_comm _ (a :: b :: matched)). simpl.
  rewrite (Permutation_app_comm matched). apply NoDup_cons_2; [|apply NoDup_cons_2; [|done]].
  - intros [->|[Hy%Hna|Hy]%elem_of_app]%elem_of_cons; [done|tauto|done].
  - intros [Hy%Hna|Hy]%elem_of_app; [tauto|done].
Qed.

(** Greedy on a list sorted by descending non-negative scores weighs at
    least half of any matching of its edges that avoids [matched]: each
    committed edge outweighs the at most two edges of the matching it
    blocks. *)
Lemma greedy_loop_half matched es m :
  StronglySorted by_score es → no_loops es → (∀ x, x ∈ es → 0 <= e_score x)%Q →
  (∀ x, x ∈ m → x ∈ es) → avoids matched m →
  (weight m <= 2 * weight (greedy_loop matched es))%Q.
Proof.
  revert matched m. induction es as [|[[a b] s] es IH]; intros matched m Hs Hnl Hpos Hm Hav.
  - destruct m as [|x m]; [unfold weight; simpl; lra|]. exfalso. by apply (not_elem_of_nil x), Hm, list_elem_of_here.
  - apply StronglySorted_inv in Hs as [Hs Hhd].
    assert (Hnl' : no_loops es) by (intros a' b' s' ?; apply (Hnl a' b' s'); set_solver).
    assert (Hpos' : ∀ x, x ∈ es → (0 <= e_score x)%Q) by (intros; apply Hpos; set_solver).
    simpl. case_decide as Hab.
    + apply IH; [done|done|done| |done]. intros [[u v] t] Hx.
      destruct (proj1 (elem_of_cons _ _ _) (Hm _ Hx)) as [[= -> -> ->]|?]; [|done].
      exfalso. destruct (avoids_elem _ _ _ _ _ Hav Hx). tauto.
    + assert (Hle : ∀ x, x ∈ m → (e_score x <= s)%Q).
      { intros x Hx. destruct (proj1 (elem_of_cons _ _ _) (Hm x Hx)) as [->|Hx']; [apply Qle_refl|].
        by apply (proj1 (Forall_forall _ _) Hhd x Hx'). }
      assert (Hs0 : (0 <= s)%Q) by (apply (Hpos ((a, b), s)); set_solver).
      assert (a ≠ b) by (apply (Hnl a b s); set_solver).
      assert (Hnd : NoDup (endpoints (e_ids <$> m))) by (by apply NoDup_app in Hav as [? _]).
      pose proof (touching_weight a b s m Hnd Hs0 Hle) as Ht.
      assert (IH' : (weight (filter (λ x, ¬ touches [a; b] x) m)
                      <= 2 * weight (greedy_loop (a :: b :: matched) es))%Q).
      { apply IH; [done|done|done| |apply avoids_untouched; tauto].
        intros x (Hnt & Hx)%list_elem_of_filter.
        destruct (proj1 (elem_of_cons _ _ _) (Hm x Hx)) as [->|?]; [|done].
        exfalso. apply Hnt. left. simpl. set_solver. }
      rewrite weight_cons. change (e_score ((a, b), s)) with s. lra.
Qed.

(** On any edge list without loops and a threshold [τ ≥ 0]: every
    matching of the edges [≥ τ] weighs at most twice [greedy_edges]. *)
Lemma greedy_half dupes τ m :
  (0 <= τ)%Q → no_loops dupes → m `sublist_of` above τ dupes → is_matching (e_ids <$> m) →
  (weight m <= 2 * weight (greedy_edges dupes τ))%Q.
Proof.
  intros Hτ Hnl Hsub Hm. pose proof (greedy_order_perm dupes τ) as Hp.
  apply greedy_loop_half.
  - apply greedy_order_sorted.
  - intros a b s Hin. apply (Hnl a b s). rewrite Hp in Hin. by apply list_elem_of_filter in Hin as [_ ?].
  - intros x Hin. rewrite Hp in Hin. apply list_elem_of_filter in Hin as [? _]. by eapply Qle_trans.
  - intros x Hx. rewrite Hp. by eapply elem_of_sublist.
  - unfold avoids. by rewrite app_nil_r.
Qed.
End GreedyBound.

(** ** [cluster]: complete-linkage hierarchical clustering *)

Section Hierarchical.
Context {Id : Type} {EqId : EqDecision Id}.
Implicit Types es : list (Edge Id).
Implicit Types cs : list (list Id).

(** The score of the edge between [a] and [b], either way round. *)
Fixpoint score_of es (a b : Id) : option Q :=
  match es with
  | [] => None
  | ((x, y), s) :: es' =>
      if decide ((x = a ∧ y = b) ∨ (x = b ∧ y = a)) then Some s else score_of es' a b
  end.

Fixpoint all_some (l : list (option Q)) : option (list Q) :=
  match l with
  | [] => Some []
  | o :: l' => o ≫= (λ x, (cons x) <$> all_some l')
  end.

(** The least score between a member of [c1] and a member of [c2];
    [None] when some pair has no edge. *)
Definition linkage es (c1 c2 : list Id) : option Q :=
  match all_some (c1 ≫= (λ a, score_of es a <$> c2)) with
  | Some (s :: ss) => Some (foldr Qmin s ss)
  | _ => None
  end.

(** The candidate merges [(i, j)], [i < j < n], in lexicographic order. *)
Definition candidates (n : nat) : list (nat * nat) :=
  seq 0 n ≫= (λ i, pair i <$> seq (S i) (n - S i)).

(** The permissible candidate with the greatest linkage, the first
    such in [ps] (with [acc] the best so far). *)
Fixpoint best_pair es (τ : Q) cs (acc : option (nat * nat * Q)) (ps : list (nat * nat))
  : option (nat * nat * Q) :=
  match ps with
  | [] => acc
  | (i, j) :: ps' =>
      let acc' :=
        match cs !! i, cs !! j with
        | Some ci, Some cj =>
            match linkage es ci cj with
            | Some l =>
                if decide (τ <= l)%Q then
                  match acc with
                  | Some (_, _, l0) => if decide (l0 < l)%Q then Some (i, j, l) else acc
                  | None => Some (i, j, l)
                  end
                else acc
            | None => acc
            end
        | _, _ => acc
        end in
      best_pair es τ cs acc' ps'
  end.

Definition best_merge es τ cs : option (nat * nat) :=
  (λ '(i, j, _), (i, j)) <$> best_pair es τ cs None (candidates (length cs)).

(** Cluster [j] joins cluster [i] ([i < j]), in its place. *)
Definition merge_at (i j : nat) cs : list (list Id) :=
  match cs !! i, cs !! j with
  | Some ci, Some cj => <[i := ci ++ cj]> (delete j cs)
  | _, _ => cs
  end.

(** At most [fuel] merges; [length cs] is enough ([hier_loop_spec]). *)
Fixpoint hier_loop (fuel : nat) es τ cs : list (list Id) :=
  match fuel with
  | 0 => cs
  | S n =>
      match best_merge es τ cs with
      | None => cs
      | Some (i, j) => hier_loop n es τ (merge_at i j cs)
      end
  end.

(** The ids of the edges, each once, as singleton clusters. *)
Definition edge_ids es : list Id := remove_dups (endpoints (e_ids <$> es)).
Definition initial es : list (list Id) := (λ x, [x]) <$> edge_ids es.

Definition hier_partition es τ : list (list Id) := hier_loop (length (initial es)) es τ (initial es).

(** The clusters of at least two members. *)
Definition cluster es τ : list (list Id) := filter (λ c, 2 ≤ length c) (hier_partition es τ).
End Hierarchical.

Section HierarchicalFacts.
Context {Id : Type} {EqId : EqDecision Id}.
Implicit Types es : list (Edge Id).
Implicit Types cs : list (list Id).

(** Every two distinct members of [c] are joined by an edge [≥ τ]. *)
Definition complete es (τ : Q) (c : list Id) : Prop :=
  ∀ a b, a ∈ c → b ∈ c → a ≠ b → ∃ s, score_of es a b = Some s ∧ (τ <= s)%Q.

(** Clusters [ci] and [cj] may merge. *)
Definition mergeable es (τ : Q) (ci cj : list Id) : Prop :=
  ∃ l, linkage es ci cj = Some l ∧ (τ <= l)%Q.

(** The state of the merge loop: disjoint, non-empty, complete clusters. *)
Definition hier_inv es τ cs : Prop :=
  NoDup (concat cs) ∧ (∀ c, c ∈ cs → complete es τ c) ∧ (∀ c, c ∈ cs → c ≠ []).

Lemma score_of_sym es a b : score_of es a b = score_of es b a.
Proof.
  induction es as [|[[x y] s] es IH]; simpl; [done|].
  do 2 case_decide; naive_solver.
Qed.

Lemma all_some_elem l xs o : all_some l = Some xs → o ∈ l → ∃ x, o = Some x ∧ x ∈ xs.
Proof.
  revert xs. induction l as [|o' l IH]; intros xs; simpl; [set_solver|].
  destruct o' as [x|]; simpl; [|done].
  destruct (all_some l) as [xs'|] eqn:E; simpl; [|done]. intros [= <-].
  intros [->|Hin]%elem_of_cons; [exists x; set_solver|].
  destruct (IH xs' eq_refl Hin) as (y & -> & ?). exists y. set_solver.
Qed.

Lemma foldr_Qmin_le s ss x : x ∈ s :: ss → (foldr Qmin s ss <= x)%Q.
Proof.
  induction ss as [|y ss IH]; simpl.
  - intros ->%list_elem_of_singleton. apply Qle_refl.
  - intros [->|[->|Hin]%elem_of_cons]%elem_of_cons.
    + eapply Qle_trans; [apply Q.le_min_r|]. apply IH. set_solver.
    + apply Q.le_min_l.
    + eapply Qle_trans; [apply Q.le_min_r|]. apply IH. set_solver.
Qed.

Lemma linkage_spec es c1 c2 l a b :
  linkage es c1 c2 = Some l → a ∈ c1 → b ∈ c2 → ∃ s, score_of es a b = Some s ∧ (l <= s)%Q.
Proof.
  unfold linkage. destruct (all_some _) as [[|s ss]|] eqn:E; intros Hl Ha Hb; try done.
  injection Hl as <-.
  destruct (all_some_elem _ _ (score_of es a b) E) as (x & Hx & Hin).
  { apply list_elem_of_bind. exists a. split; [|done]. apply list_elem_of_fmap. eauto. }
  exists x. split; [done|]. by apply foldr_Qmin_le.
Qed.

Lemma candidates_spec n i j : (i, j) ∈ candidates n ↔ i < j ∧ j < n.
Proof.
  unfold candidates. rewrite list_elem_of_bind. split.
  - intros (i' & (j' & [= <- <-] & Hj)%list_elem_of_fmap & Hi).
    apply elem_of_seq in Hi, Hj. lia.
  - intros [??]. exists i. split; [|apply elem_of_seq; lia].
    apply list_elem_of_fmap. exists j. split; [done|]. apply elem_of_seq. lia.
Qed.

Lemma best_pair_some es τ cs acc ps i j l :
  best_pair es τ cs acc ps = Some (i, j, l) →
  acc = Some (i, j, l) ∨
  ((i, j) ∈ ps ∧ ∃ ci cj, cs !! i = Some ci ∧ cs !! j = Some cj ∧ linkage es ci cj = Some l ∧ (τ <= l)%Q).
Proof.
  revert acc. induction ps as [|[i0 j0] ps IH]; intros acc; simpl; [by left|].
  intros [Hacc|[Hin Hex]]%IH; [|right; split; [set_solver|done]].
  repeat case_match; simplify_eq; try by left.
  all: right; split; [set_solver|eauto 10].
Qed.

Lemma best_pair_none es τ cs acc ps :
  best_pair es τ cs acc ps = None →
  acc = None ∧ ∀ i j ci cj, (i, j) ∈ ps → cs !! i = Some ci → cs !! j = Some cj →
    ¬ mergeable es τ ci cj.
Proof.
  revert acc. induction ps as [|[i0 j0] ps IH]; intros acc; simpl; [split; [done|set_solver]|].
  intros [Hacc Hall]%IH. split.
  - repeat case_match; simplify_eq; done.
  - intros i j ci cj [[= -> ->]|Hin]%elem_of_cons Hi Hj; [|by apply (Hall i j)].
    rewrite Hi, Hj in Hacc. intros (l & Hl & Hτ). rewrite Hl in Hacc.
    rewrite decide_True in Hacc by done. repeat case_match; simplify_eq.
Qed.

Lemma best_merge_some es τ cs i j :
  best_merge es τ cs = Some (i, j) →
  i < j ∧ j < length cs ∧ ∃ ci cj, cs !! i = Some ci ∧ cs !! j = Some cj ∧ mergeable es τ ci cj.
Proof.
  unfold best_merge. destruct (best_pair _ _ _ _ _) as [[[i' j'] l]|] eqn:E; [|done].
  intros [= -> ->]. apply best_pair_some in E as [?|[Hin (ci & cj & ? & ? & ? & ?)]]; [done|].
  apply candidates_spec in Hin. split_and!; [lia|lia|]. exists ci, cj. unfold mergeable. eauto.
Qed.

Lemma best_merge_none es τ cs :
  best_merge es τ cs = None →
  ∀ i j ci cj, i < j → cs !! i = Some ci → cs !! j = Some cj → ¬ mergeable es τ ci cj.
Proof.
  unfold best_merge. destruct (best_pair _ _ _ _ _) eqn:E; [done|]. intros _ i j ci cj Hij Hi Hj.
  apply (proj2 (best_pair_none _ _ _ _ _ E) i j ci cj); [|done|done].
  apply candidates_spec. split; [done|]. apply lookup_lt_Some in Hj. done.
Qed.
End HierarchicalFacts.

Lemma concat_singletons {A} (l : list A) : concat ((λ x, [x]) <$> l) = l.
Proof. induction l as [|x l IH]; simpl; [done|]. by f_equal. Qed.

Section Merging.
Context {Id : Type} {EqId : EqDecision Id}.
Implicit Types es : list (Edge Id).
Implicit Types cs : list (list Id).

Lemma merge_at_spec i j cs ci cj :
  i < j → cs !! i = Some ci → cs !! j = Some cj →
  length (merge_at i j cs) = length cs - 1 ∧
  concat (merge_at i j cs) ≡ₚ concat cs ∧
  ∀ c, c ∈ merge_at i j cs → c ∈ cs ∨ c = ci ++ cj.
Proof.
  intros Hij Hi Hj. unfold merge_at. rewrite Hi, Hj.
  assert (HD : delete j cs !! i = Some ci) by (by rewrite list_lookup_delete_lt).
  split_and!.
  - rewrite length_insert, length_delete by eauto. done.
  - rewrite (insert_Permutation _ _ _ _ HD). simpl.
    etrans; [|symmetry; apply concat_Permutation, (delete_Permutation cs j cj Hj)]. simpl.
    etrans; [|apply Permutation_app;
              [done|symmetry; apply concat_Permutation, (delete_Permutation _ i ci HD)]].
    simpl. by rewrite !app_assoc, (Permutation_app_comm ci cj).
  - intros c Hc. rewrite (insert_Permutation _ _ _ _ HD) in Hc.
    apply elem_of_cons in Hc as [->|Hc]; [by right|left].
    by apply list_elem_of_delete_inv, list_elem_of_delete_inv in Hc.
Qed.

Lemma merge_inv es τ cs i j ci cj :
  hier_inv es τ cs → i < j → cs !! i = Some ci → cs !! j = Some cj → mergeable es τ ci cj →
  hier_inv es τ (merge_at i j cs).
Proof.
  intros (Hnd & Hc & Hne) Hij Hi Hj (l & Hl & Hτ).
  destruct (merge_at_spec i j cs ci cj Hij Hi Hj) as (_ & Hp & Hel).
  assert (Hci : ci ∈ cs) by (by eapply list_elem_of_lookup_2).
  assert (Hcj : cj ∈ cs) by (by eapply list_elem_of_lookup_2).
  split_and!.
  - by rewrite Hp.
  - intros c [Hin| ->]%Hel; [by apply Hc|].
    intros a b [Ha|Ha]%elem_of_app [Hb|Hb]%elem_of_app Hab.
    + by apply (Hc ci).
    + destruct (linkage_spec es ci cj l a b Hl Ha Hb) as (s & ? & ?).
      exists s. split; [done|]. by eapply Qle_trans.
    + destruct (linkage_spec es ci cj l b a Hl Hb Ha) as (s & ? & ?).
      exists s. rewrite score_of_sym. split; [done|]. by eapply Qle_trans.
    + by apply (Hc cj).
  - intros c [Hin| ->]%Hel; [by apply Hne|]. specialize (Hne ci Hci). by destruct ci.
Qed.

(** The loop keeps the invariant and the multiset of ids, and with
    enough fuel ends with no permissible merge left. *)
Lemma hier_loop_spec es τ n cs :
  hier_inv es τ cs →
  hier_inv es τ (hier_loop n es τ cs) ∧ concat (hier_loop n es τ cs) ≡ₚ concat cs ∧
  (length cs ≤ n → best_merge es τ (hier_loop n es τ cs) = None).
Proof.
  revert cs. induction n as [|n IH]; intros cs Hinv; simpl.
  - split_and!; [done|done|]. intros Hl. destruct cs; [done|simpl in Hl; lia].
  - destruct (best_merge es τ cs) as [[i j]|] eqn:E; [|done].
    destruct (best_merge_some _ _ _ _ _ E) as (Hij & Hjn & ci & cj & Hi & Hj & Hm).
    destruct (merge_at_spec i j cs ci cj Hij Hi Hj) as (Hlen & Hp & _).
    destruct (IH _ (merge_inv es τ cs i j ci cj Hinv Hij Hi Hj Hm)) as (Hinv' & Hp' & Hend).
    split_and!; [done|by rewrite Hp'|]. intros Hl. apply Hend. lia.
Qed.

Lemma initial_inv es τ : hier_inv es τ (initial es).
Proof.
  unfold initial. split_and!.
  - rewrite concat_singletons. apply NoDup_remove_dups.
  - intros c (x & -> & _)%list_elem_of_fmap a b ->%list_elem_of_singleton ->%list_elem_of_singleton. done.
  - by intros c (x & -> & _)%list_elem_of_fmap.
Qed.

(** What [cluster] computes: a partition of the edges' ids into
    complete-linkage clusters [≥ τ] no two of which may merge; [cluster]
    returns those with at least two members. *)
Lemma hier_partition_spec es τ :
  let P := hier_partition es τ in
  concat P ≡ₚ edge_ids es ∧ hier_inv es τ P ∧ best_merge es τ P = None ∧
  (∀ i j ci cj, i < j → P !! i = Some ci → P !! j = Some cj → ¬ mergeable es τ ci cj) ∧
  cluster es τ = filter (λ c, 2 ≤ length c) P.
Proof.
  destruct (hier_loop_spec es τ (length (initial es)) (initial es) (initial_inv es τ)) as (Hinv & Hp & Hend).
  simpl. unfold hier_partition. specialize (Hend (le_n _)). split_and!; [|done|done| |done].
  - by rewrite Hp; unfold initial; rewrite concat_singletons.
  - by apply best_merge_none.
Qed.
End Merging.

(** ** Validation (spec section 7)

    A threshold outside [[0, 1]] or an edge whose score is outside
    [[0, 1]] (scores are probabilities, spec section 3) makes each
    clustering operation fail at once with a validation error. *)

Section Validation.
Context {Id : Type} {EqId : EqDecision Id}.

Definition valid_input (es : list (Edge Id)) (τ : Q) : option exn :=
  if decide (0 <= τ <= 1)%Q then
    if forallb (λ e, bool_decide (0 <= e_score e <= 1)%Q) es then None
    else Some (ValueError "edge score")
  else Some (ValueError "threshold").

(** An operation behind the validation. *)
Definition validated {A} (run : list (Edge Id) → Q → A) (es : list (Edge Id)) (τ : Q) : exn + A :=
  match valid_input es τ with Some e => inl e | None => inr (run es τ) end.

Lemma valid_scores (es : list (Edge Id)) :
  forallb (λ e, bool_decide (0 <= e_score e <= 1)%Q) es = true ↔ Forall (λ e, (0 <= e_score e <= 1)%Q) es.
Proof.
  rewrite forallb_forall, Forall_forall. setoid_rewrite <-list_elem_of_In.
  by setoid_rewrite bool_decide_eq_true.
Qed.

Lemma validated_spec {A} (run : list (Edge Id) → Q → A) (es : list (Edge Id)) τ :
  (validated run es τ = inr (run es τ) ↔ (0 <= τ <= 1)%Q ∧ Forall (λ e, (0 <= e_score e <= 1)%Q) es) ∧
  (∀ e, validated run es τ = inl e →
     (¬ (0 <= τ <= 1)%Q ∧ e = ValueError "threshold") ∨
     ((0 <= τ <= 1)%Q ∧ e = ValueError "edge score" ∧ ∃ x, x ∈ es ∧ ¬ (0 <= e_score x <= 1)%Q)).
Proof.
  unfold validated, valid_input. case_decide as Hτ; [|split; [split; [done|tauto]|]].
  - destruct (forallb _ es) eqn:Hf.
    + apply valid_scores in Hf. done.
    + assert (Hn : ¬ Forall (λ e, (0 <= e_score e <= 1)%Q) es) by (rewrite <-valid_scores; congruence).
      split; [split; [done|tauto]|]. intros e [= <-]. right. split; [done|split; [done|]].
      apply not_Forall_Exists in Hn; [|apply _]. apply Exists_exists in Hn as (x & ? & ?). eauto.
  - intros e [= <-]. by left.
Qed.
End Validation.

Lemma no_loops_Forall {Id} (es : list (Edge Id)) : Forall (λ e, e.1.1 ≠ e.1.2) es → no_loops es.
Proof. intros Hf a b s Hin. by apply (proj1 (Forall_forall _ _) Hf _ Hin). Qed.

(** ** The fixtures of [ClusteringTest] *)

Module ClusteringTest.

(** [self.dupes]: a fully connected graph on five ids (scores as exact
    rationals: [.86] is [86#100]). *)
Definition dupes : list (Edge nat) :=
  [((1, 2), 86#100); ((1, 3), 72#100); ((1, 4), 2#10); ((1, 5), 6#10); ((2, 3), 86#100);
   ((2, 4), 2#10); ((2, 5), 72#100); ((3, 4), 3#10); ((3, 5), 5#10); ((4, 5), 72#100)].

(** [self.str_dupes]: the same graph with string ids. *)
Definition str_dupes : list (Edge string) :=
  [(("1", "2"), 86#100); (("1", "3"), 72#100); (("1", "4"), 2#10); (("1", "5"), 6#10);
   (("2", "3"), 86#100); (("2", "4"), 2#10); (("2", "5"), 72#100); (("3", "4"), 3#10);
   (("3", "5"), 5#10); (("4", "5"), 72#100)].

(** [self.bipartite_dupes]: ids 1-4 against ids 5-8. *)
Definition bipartite_dupes : list (Edge nat) :=
  [((1, 5), 1#10); ((1, 6), 72#100); ((1, 7), 2#10); ((1, 8), 6#10);
   ((2, 5), 2#10); ((2, 6), 2#10); ((2, 7), 72#100); ((2, 8), 3#10);
   ((3, 5), 24#100); ((3, 6), 72#100); ((3, 7), 24#100); ((3, 8), 65#100);
   ((4, 5), 63#100); ((4, 6), 96#100); ((4, 7), 23#100); ((4, 8), 74#100)].

(** The matching [test_hungarian] expects at [τ = 0.5]. *)
Definition hungarian_half_expected : list (nat * nat) := [(3, 8); (4, 6); (2, 7)].

Lemma bipartite_no_loops : no_loops bipartite_dupes.
Proof. apply no_loops_Forall. repeat constructor; simpl; lia. Qed.

Lemma dupes_no_loops : no_loops dupes.
Proof. apply no_loops_Forall. repeat constructor; simpl; lia. Qed.

(** Python's [==] on lists of sets: same length, equal sets pairwise. *)
Fixpoint sets_eq {A} `{EqDecision A} (l1 l2 : list (list A)) : bool :=
  match l1, l2 with
  | [], [] => true
  | x :: l1', y :: l2' => bool_decide (x ⊆ y ∧ y ⊆ x) && sets_eq l1' l2'
  | _, _ => false
  end.

(** A matched pair as the set the test compares it with. *)
Definition pair_set {A} (p : A * A) : list A := [p.1; p.2].

(** [test_hierarchical]: its six assertions. *)
Definition test_hierarchical : bool :=
  sets_eq (cluster dupes 1) [] && sets_eq (cluster dupes (1#2)) [[1; 2; 3]; [4; 5]] &&
  sets_eq (cluster dupes 0) [[1; 2; 3; 4; 5]] && sets_eq (cluster str_dupes 1) [] &&
  sets_eq (cluster str_dupes (1#2)) [["1"; "2"; "3"]; ["4"; "5"]] &&
  sets_eq (cluster str_dupes 0) [["1"; "2"; "3"; "4"; "5"]].

(** [test_hungarian]: its four assertions. *)
Definition test_hungarian : bool :=
  sets_eq (pair_set <$> clusterConstrained bipartite_dupes (1#2)) [[3; 8]; [4; 6]; [2; 7]] &&
  sets_eq (pair_set <$> clusterConstrained bipartite_dupes 0) [[1; 6]; [2; 7]; [3; 8]; [4; 5]] &&
  sets_eq (pair_set <$> clusterConstrained bipartite_dupes (8#10)) [[4; 6]] &&
  sets_eq (pair_set <$> clusterConstrained bipartite_dupes 1) [].

(** [test_greedy_matching]: its four assertions. *)
Definition test_greedy_matching : bool :=
  sets_eq (pair_set <$> greedyMatching bipartite_dupes (1#2)) [[4; 6]; [2; 7]; [3; 8]] &&
  sets_eq (pair_set <$> greedyMatching bipartite_dupes 0) [[4; 6]; [2; 7]; [8; 3]; [1; 5]] &&
  sets_eq (pair_set <$> greedyMatching bipartite_dupes (8#10)) [[4; 6]] &&
  sets_eq (pair_set <$> greedyMatching bipartite_dupes 1) [].

(** [test_hierarchical] holds of the model: on [self.dupes] and on
    [self.str_dupes], [cluster] returns no cluster at [τ = 1], the
    clusters {1,2,3} and {4,5} at [τ = 0.5], and one cluster of all
    five ids at [τ = 0] (as lists in the order the test's sets list),
    so the test passes. *)
Theorem test_hierarchical_holds :
  cluster dupes 1 = [] ∧ cluster dupes (1#2) = [[1; 2; 3]; [4; 5]] ∧
  cluster dupes 0 = [[1; 2; 3; 4; 5]] ∧
  cluster str_dupes 1 = [] ∧ cluster str_dupes (1#2) = [["1"; "2"; "3"]; ["4"; "5"]] ∧
  cluster str_dupes 0 = [["1"; "2"; "3"; "4"; "5"]] ∧ test_hierarchical = true.
Proof. split_and!; by vm_compute. Qed.

(** [test_greedy_matching] holds of the model: on
    [self.bipartite_dupes], [greedyMatching] returns {4,6}, {2,7}, {3,8}
    at [τ = 0.5], adds {1,5} at [τ = 0], returns {4,6} alone at
    [τ = 0.8] and nothing at [τ = 1]; the test passes. *)
Theorem test_greedy_matching_holds :
  greedyMatching bipartite_dupes (1#2) = [(4, 6); (2, 7); (3, 8)] ∧
  greedyMatching bipartite_dupes 0 = [(4, 6); (2, 7); (3, 8); (1, 5)] ∧
  greedyMatching bipartite_dupes (8#10) = [(4, 6)] ∧
  greedyMatching bipartite_dupes 1 = [] ∧ test_greedy_matching = true.
Proof. split_and!; by vm_compute. Qed.

(** The assertions of [test_hungarian] at [τ = 0], [0.8] and [1]
    hold of the maximum-weight matching: {1,6}, {2,7}, {3,8}, {4,5};
    then {4,6}; then nothing. *)
Theorem test_hungarian_holds :
  clusterConstrained bipartite_dupes 0 = [(1, 6); (2, 7); (3, 8); (4, 5)] ∧
  clusterConstrained bipartite_dupes (8#10) = [(4, 6)] ∧
  clusterConstrained bipartite_dupes 1 = [].
Proof. split_and!; by vm_compute. Qed.

(** C19: the assertion of [test_hungarian] at [τ = 0.5] contradicts the
    specified maximum-weight matching: the model returns {1,6}, {2,7},
    {3,8}, {4,5}, a matching of the edges [≥ 0.5] of weight 2.72 that
    no such matching exceeds, while every matching of those edges with
    the test's pairs {3,8}, {4,6}, {2,7} weighs 2.33. *)
Theorem test_hungarian_half_not_maximum :
  clusterConstrained bipartite_dupes (1#2) = [(1, 6); (2, 7); (3, 8); (4, 5)] ∧
  (∃ mb, clusterConstrained bipartite_dupes (1#2) = e_ids <$> mb ∧
     mb `sublist_of` above (1#2) bipartite_dupes ∧ is_matching (e_ids <$> mb) ∧
     (weight mb == 272#100)%Q ∧
     ∀ m, m `sublist_of` above (1#2) bipartite_dupes → is_matching (e_ids <$> m) →
       (weight m <= weight mb)%Q) ∧
  (∀ m, m `sublist_of` above (1#2) bipartite_dupes → is_matching (e_ids <$> m) →
    e_ids <$> m ≡ₚ hungarian_half_expected → (weight m == 233#100)%Q) ∧
  test_hungarian = false.
Proof.
  split_and!; [by vm_compute| | |by vm_compute].
  - exists (best [] (matchings [] (above (1#2) bipartite_dupes))).
    destruct (best_matchings_sound (above (1#2) bipartite_dupes)).
    split_and!; [done|done|done|by vm_compute|]. apply best_matchings_max.
  - intros m Hsub Hm Hp.
    assert (Hin : m ∈ matchings [] (above (1#2) bipartite_dupes)).
    { apply matchings_complete; [done|]. unfold avoids, is_matching in *. by rewrite app_nil_r. }
    assert (Hf : filter (λ m', e_ids <$> m' ≡ₚ hungarian_half_expected)
                   (matchings [] (above (1#2) bipartite_dupes))
                 = [[((2, 7), 72#100); ((3, 8), 65#100); ((4, 6), 96#100)]]) by (by vm_compute).
    assert (Hin' : m ∈ filter (λ m', e_ids <$> m' ≡ₚ hungarian_half_expected)
                     (matchings [] (above (1#2) bipartite_dupes))) by (by apply list_elem_of_filter).
    rewrite Hf in Hin'. apply list_elem_of_singleton in Hin' as ->. by vm_compute.
Qed.

(** C20: for every threshold [τ ≥ 0], the greedy matching of
    [self.bipartite_dupes] weighs at least half of every matching of
    its edges [≥ τ] (each edge taken at most once, with its score), in
    particular of the maximum-weight matching [clusterConstrained]
    returns. *)
Theorem greedy_half_of_hungarian τ :
  (0 <= τ)%Q →
  greedyMatching bipartite_dupes τ = e_ids <$> greedy_edges bipartite_dupes τ ∧
  (∀ m, m `sublist_of` above τ bipartite_dupes → is_matching (e_ids <$> m) →
     (weight m <= 2 * weight (greedy_edges bipartite_dupes τ))%Q) ∧
  ∃ mb, clusterConstrained bipartite_dupes τ = e_ids <$> mb ∧ mb `sublist_of` above τ bipartite_dupes ∧
    (weight mb <= 2 * weight (greedy_edges bipartite_dupes τ))%Q.
Proof.
  intros Hτ. assert (Hhalf : ∀ m, m `sublist_of` above τ bipartite_dupes → is_matching (e_ids <$> m) →
    (weight m <= 2 * weight (greedy_edges bipartite_dupes τ))%Q).
  { intros m Hsub Hm. apply greedy_half; [done|apply bipartite_no_loops|done|done]. }
  destruct (clusterConstrained_spec bipartite_dupes τ) as (mb & Hmb & Hsub & Hm & _).
  split_and!; [done|done|]. exists mb. split_and!; [done|done|]. by apply Hhalf.
Qed.

Lemma greedy_half_of_hungarian_witness :
  (0 <= 0)%Q ∧ greedyMatching bipartite_dupes 0 = e_ids <$> greedy_edges bipartite_dupes 0 ∧
  (∀ m, m `sublist_of` above 0 bipartite_dupes → is_matching (e_ids <$> m) →
     (weight m <= 2 * weight (greedy_edges bipartite_dupes 0))%Q) ∧
  ∃ mb, clusterConstrained bipartite_dupes 0 = e_ids <$> mb ∧ mb `sublist_of` above 0 bipartite_dupes ∧
    (weight mb <= 2 * weight (greedy_edges bipartite_dupes 0))%Q.
Proof. split; [apply Qle_refl|]. apply (greedy_half_of_hungarian 0). apply Qle_refl. Defined.

(** For every threshold [τ], the greedy matching of
    [self.bipartite_dupes] is a matching of edges [≥ τ] to which no
    edge [≥ τ] can be added. *)
Theorem greedy_bipartite_maximal τ :
  is_matching (greedyMatching bipartite_dupes τ) ∧
  pairs_of (above τ bipartite_dupes) (greedyMatching bipartite_dupes τ) ∧
  ∀ a b s, ((a, b), s) ∈ above τ bipartite_dupes →
    a ∈ endpoints (greedyMatching bipartite_dupes τ) ∨ b ∈ endpoints (greedyMatching bipartite_dupes τ).
Proof. apply greedyMatching_spec, bipartite_no_loops. Qed.

(** C21: for every threshold [τ], hierarchical clustering of
    [self.dupes] stops, within its fuel, at a partition of the five ids
    into clusters whose members pairwise score [≥ τ], with no
    permissible merge left; [cluster] returns its clusters of at least
    two ids. *)
Theorem cluster_dupes_partition τ :
  let P := hier_partition dupes τ in
  concat P ≡ₚ [1; 2; 3; 4; 5] ∧ hier_inv dupes τ P ∧ best_merge dupes τ P = None ∧
  (∀ i j ci cj, i < j → P !! i = Some ci → P !! j = Some cj → ¬ mergeable dupes τ ci cj) ∧
  cluster dupes τ = filter (λ c, 2 ≤ length c) P.
Proof.
  destruct (hier_partition_spec dupes τ) as (Hp & Hrest). split; [|done].
  rewrite Hp. by vm_compute.
Qed.


(** The fixtures' scores are probabilities, so behind the validation of
    spec section 7 every operation gives on them, for every threshold in
    [[0, 1]], what the theorems above state. *)
Lemma fixtures_validated τ :
  (0 <= τ <= 1)%Q →
  validated cluster dupes τ = inr (cluster dupes τ) ∧
  validated greedyMatching bipartite_dupes τ = inr (greedyMatching bipartite_dupes τ) ∧
  validated clusterConstrained bipartite_dupes τ = inr (clusterConstrained bipartite_dupes τ).
Proof.
  intros Hτ. split_and!; apply validated_spec; (split; [done|]);
    apply valid_scores; by vm_compute.
Qed.

(** Spec 4.7 says that at [τ = 0] a whole connected component
    collapses into one cluster, but its complete-linkage rule needs a
    score [≥ τ] for every pair of members: on the path [1 - 2 - 3],
    which has no edge [1 - 3], only one edge merges, and [3] stays a
    singleton, which is dropped. *)
Lemma cluster_tau0_path :
  cluster [((1, 2), 1#2); ((2, 3), 1#2)] 0 = [[1; 2]] ∧
  hier_partition [((1, 2), 1#2); ((2, 3), 1#2)] 0 = [[1; 2]; [3]].
Proof. split; by vm_compute. Qed.
End ClusteringTest.
