(* ===== verification/AffineGap.v ===== *)
(** * Affine-gap string distance (spec section 4.5)

    [dedupe.affinegap] is not under [src/]: the comparator is modelled
    from the specification.  Its cost model: aligning two characters
    costs [match_w] if they are equal and [mismatch_w] otherwise; a run
    of [k] characters aligned against a gap costs [gap_w + k * space_w]
    (opening, then extending).  An alignment is a list of columns
    ([OSub], [ODel]: a character of the first string against a gap,
    [OIns]: a gap against a character of the second) and [acost] is its
    cost, the opening of a run charged at its last column.

    - [T a b] is the three-state recurrence on suffixes: the least cost
      of an alignment of [a] and [b] whose first column is a
      substitution, a deletion, an insertion, or that is empty.
    - [dp_rows] is the [O(|a|·|b|)] dynamic program: one row of cells
      per suffix of [a], built from the row below it, left to right.
    - [affineGapDistance] returns the sentinel [None] (Python's [nan])
      when an operand is empty and the last cell's value otherwise;
      [normalizedAffineGapDistance] divides it by [|a| + |b|].

    The theorems: the program computes the recurrence ([dp_value_spec]);
    the recurrence's value is the cost of an alignment no alignment
    undercuts, when opening a gap costs [≥ 0] ([T_optimal]); it equals
    the exhaustive minimum over all alignments ([brute]).  Module
    [AffineGapTest] checks the assertions of [AffineGapTest]. *)

From S2P Require Import Prelude.
From Stdlib Require Import QArith Lqa Ascii.
Local Open Scope nat_scope.

(** The comparator's parameters, in the order of the Python signature
    [affineGapDistance(s1, s2, matchWeight, mismatchWeight, gapWeight,
    spaceWeight)]. *)
Record AGParams := { match_w : Q; mismatch_w : Q; gap_w : Q; space_w : Q }.

(** The columns of an alignment. *)
Inductive op := OSub | ODel | OIns.

#[global] Instance op_eq_dec : EqDecision op.
Proof. solve_decision. Defined.

(** ** Minima and sums over [option Q] ([None] is [+∞]) *)

Definition qmin (x y : Q) : Q := if decide (x <= y)%Q then x else y.

Definition omin (x y : option Q) : option Q :=
  match x, y with
  | Some a, Some b => Some (qmin a b)
  | Some a, None => Some a
  | None, b => b
  end.

Definition oadd (k : Q) (o : option Q) : option Q := (λ c, k + c)%Q <$> o.

(** One cell of the recurrence: the least cost of an alignment starting
    with each kind of column, or of the empty alignment. *)
Record cell := { c_sub : option Q; c_del : option Q; c_ins : option Q; c_nil : option Q }.

Definition V (c : cell) : option Q := omin (omin (omin (c_sub c) (c_del c)) (c_ins c)) (c_nil c).

(** The component of a cell for a first column ([None]: no column). *)
Definition comp (s : option op) (c : cell) : option Q :=
  match s with
  | None => c_nil c
  | Some OSub => c_sub c
  | Some ODel => c_del c
  | Some OIns => c_ins c
  end.

Section Costs.
Context (p : AGParams).
Implicit Types a b : list ascii.

Definition sc (x y : ascii) : Q := if decide (x = y) then match_w p else mismatch_w p.

(** The opening cost of a gap column of kind [k]: due unless the next
    column continues the run. *)
Definition opening (k : op) (ops : list op) : Q :=
  match ops with
  | k' :: _ => if decide (k' = k) then 0%Q else gap_w p
  | [] => gap_w p
  end.

(** The cost of an alignment of [a] and [b]; [None] if [ops] is not an
    alignment of them. *)
Fixpoint acost a b (ops : list op) : option Q :=
  match ops with
  | [] => match a, b with [], [] => Some 0%Q | _, _ => None end
  | OSub :: ops' =>
      match a, b with
      | x :: a', y :: b' => oadd (sc x y) (acost a' b' ops')
      | _, _ => None
      end
  | ODel :: ops' =>
      match a with
      | _ :: a' => oadd (space_w p + opening ODel ops')%Q (acost a' b ops')
      | [] => None
      end
  | OIns :: ops' =>
      match b with
      | _ :: b' => oadd (space_w p + opening OIns ops')%Q (acost a b' ops')
      | [] => None
      end
  end.

(** ** The recurrence *)

Definition empty_cell : cell := {| c_sub := None; c_del := None; c_ins := None; c_nil := Some 0%Q |}.

(** A gap column: extend the run that follows ([run]), or end the run
    here and pay its opening before any continuation ([total]). *)
Definition step_gap (run total : option Q) : option Q :=
  oadd (space_w p) (omin run (oadd (gap_w p) total)).
Definition step_del (up : cell) : option Q := step_gap (c_del up) (V up).
Definition step_ins (left : cell) : option Q := step_gap (c_ins left) (V left).
Definition step_sub (x y : ascii) (diag : cell) : option Q := oadd (sc x y) (V diag).

Definition cell_at (x y : ascii) (diag up left : cell) : cell :=
  {| c_sub := step_sub x y diag; c_del := step_del up; c_ins := step_ins left; c_nil := None |}.
Definition col0 (up : cell) : cell :=
  {| c_sub := None; c_del := step_del up; c_ins := None; c_nil := None |}.
Definition row0_cell (left : cell) : cell :=
  {| c_sub := None; c_del := None; c_ins := step_ins left; c_nil := None |}.

Fixpoint T a : list ascii → cell :=
  match a with
  | [] => fix Tb b := match b with [] => empty_cell | _ :: b' => row0_cell (Tb b') end
  | x :: a' => fix Tb b :=
      match b with
      | [] => col0 (T a' [])
      | y :: b' => cell_at x y (T a' b') (T a' b) (Tb b')
      end
  end.

(** ** The dynamic program

    A row lists the cells of one suffix of [a] against the suffixes of
    [b] by increasing length; [bs] is [b] reversed, the order in which
    those suffixes grow. *)

Fixpoint row0_from (bs : list ascii) (left : cell) : list cell :=
  match bs with
  | [] => []
  | _ :: bs' => let c := row0_cell left in c :: row0_from bs' c
  end.

Definition row0 (bs : list ascii) : list cell := empty_cell :: row0_from bs empty_cell.

Fixpoint next_cells (x : ascii) (bs : list ascii) (olds : list cell) (left : cell) : list cell :=
  match bs, olds with
  | y :: bs', diag :: olds' =>
      match olds' with
      | up :: _ => let c := cell_at x y diag up left in c :: next_cells x bs' olds' c
      | [] => []
      end
  | _, _ => []
  end.

Definition next_row (x : ascii) (bs : list ascii) (old : list cell) : list cell :=
  match old with
  | o0 :: _ => let c0 := col0 o0 in c0 :: next_cells x bs old c0
  | [] => []
  end.

Definition dp_rows a b : list cell := foldr (λ x row, next_row x (reverse b) row) (row0 (reverse b)) a.

Definition dp_value a b : option Q := last (dp_rows a b) ≫= V.

(** [affineGapDistance]: the sentinel [None] on an empty operand. *)
Definition affineGapDistance (s1 s2 : string) : option Q :=
  match String.list_ascii_of_string s1, String.list_ascii_of_string s2 with
  | [], _ | _, [] => None
  | a, b => dp_value a b
  end.

Definition normalizedAffineGapDistance (s1 s2 : string) : option Q :=
  (λ d, d / inject_Z (Z.of_nat (String.length s1 + String.length s2)))%Q <$> affineGapDistance s1 s2.

(** ** The exhaustive reference: every alignment, then the least cost *)

Fixpoint alignments a : list ascii → list (list op) :=
  match a with
  | [] => fix Ab b := match b with [] => [[]] | _ :: b' => cons OIns <$> Ab b' end
  | _ :: a' => fix Ab b :=
      match b with
      | [] => cons ODel <$> alignments a' []
      | _ :: b' => (cons OSub <$> alignments a' b') ++ (cons ODel <$> alignments a' b)
                   ++ (cons OIns <$> Ab b')
      end
  end.

Definition brute a b : option Q := foldr omin None (acost a b <$> alignments a b).
End Costs.

(** ** Lemmas on [omin] and [oadd] *)

Lemma qmin_cases x y : qmin x y = x ∨ qmin x y = y.
Proof. unfold qmin. case_decide; auto. Qed.

Lemma qmin_le_l x y : (qmin x y <= x)%Q.
Proof. unfold qmin. case_decide; lra. Qed.

Lemma qmin_le_r x y : (qmin x y <= y)%Q.
Proof. unfold qmin. case_decide; lra. Qed.

Lemma omin_some x y m : omin x y = Some m → x = Some m ∨ y = Some m.
Proof.
  destruct x as [a|], y as [b|]; simpl; intros [= <-]; auto.
  destruct (qmin_cases a b) as [->| ->]; auto.
Qed.

Lemma omin_le_l x y a : x = Some a → ∃ m, omin x y = Some m ∧ (m <= a)%Q.
Proof.
  intros ->. destruct y as [b|]; simpl; eexists; split; [done|apply qmin_le_l|done|lra].
Qed.

Lemma omin_le_r x y b : y = Some b → ∃ m, omin x y = Some m ∧ (m <= b)%Q.
Proof.
  intros ->. destruct x as [a|]; simpl; eexists; split; [done|apply qmin_le_r|done|lra].
Qed.

Lemma oadd_some k o m : oadd k o = Some m → ∃ v, o = Some v ∧ m = (k + v)%Q.
Proof. destruct o as [v|]; simpl; [intros [= <-]; by exists v|done]. Qed.

(** A component of a cell bounds its value [V] from above, and [V] is
    one of the components. *)
Lemma V_le c v :
  c_sub c = Some v ∨ c_del c = Some v ∨ c_ins c = Some v ∨ c_nil c = Some v →
  ∃ w, V c = Some w ∧ (w <= v)%Q.
Proof.
  unfold V. intros [H|[H|[H|H]]].
  - destruct (omin_le_l _ (c_del c) _ H) as (m1 & H1 & ?).
    destruct (omin_le_l _ (c_ins c) _ H1) as (m2 & H2 & ?).
    destruct (omin_le_l _ (c_nil c) _ H2) as (m3 & -> & ?). eexists; split; [done|lra].
  - destruct (omin_le_r (c_sub c) _ _ H) as (m1 & H1 & ?).
    destruct (omin_le_l _ (c_ins c) _ H1) as (m2 & H2 & ?).
    destruct (omin_le_l _ (c_nil c) _ H2) as (m3 & -> & ?). eexists; split; [done|lra].
  - destruct (omin_le_r (omin (c_sub c) (c_del c)) _ _ H) as (m2 & H2 & ?).
    destruct (omin_le_l _ (c_nil c) _ H2) as (m3 & -> & ?). eexists; split; [done|lra].
  - destruct (omin_le_r (omin (omin (c_sub c) (c_del c)) (c_ins c)) _ _ H) as (m3 & -> & ?).
    eexists; split; [done|lra].
Qed.

Lemma V_some c w :
  V c = Some w → c_sub c = Some w ∨ c_del c = Some w ∨ c_ins c = Some w ∨ c_nil c = Some w.
Proof.
  unfold V. intros [[[H|H]%omin_some|H]%omin_some|H]%omin_some; tauto.
Qed.

Section Recurrence.
Context (p : AGParams).
Implicit Types a b : list ascii.

Lemma T_nil_nil : T p [] [] = empty_cell.
Proof. done. Qed.
Lemma T_nil_cons y b : T p [] (y :: b) = row0_cell p (T p [] b).
Proof. done. Qed.
Lemma T_cons_nil x a : T p (x :: a) [] = col0 p (T p a []).
Proof. done. Qed.
Lemma T_cons_cons x y a b : T p (x :: a) (y :: b) = cell_at p x y (T p a b) (T p a (y :: b)) (T p (x :: a) b).
Proof. done. Qed.

(** The components of [T] by shape of the operands. *)
Lemma T_del x a b : c_del (T p (x :: a) b) = step_del p (T p a b).
Proof. by destruct b. Qed.
Lemma T_ins a y b : c_ins (T p a (y :: b)) = step_ins p (T p a b).
Proof. by destruct a. Qed.
Lemma T_sub x y a b : c_sub (T p (x :: a) (y :: b)) = step_sub p x y (T p a b).
Proof. done. Qed.
Lemma T_del_nil b : c_del (T p [] b) = None.
Proof. by destruct b. Qed.
Lemma T_ins_nil a : c_ins (T p a []) = None.
Proof. by destruct a. Qed.
Lemma T_sub_nil a b : a = [] ∨ b = [] → c_sub (T p a b) = None.
Proof. intros [->| ->]; [by destruct b|by destruct a]. Qed.
Lemma T_nil a b : c_nil (T p a b) = if decide (a = [] ∧ b = []) then Some 0%Q else None.
Proof. destruct a, b; simpl; try case_decide; naive_solver. Qed.

(** ** The dynamic program computes the recurrence *)

(** The suffixes of [b] by increasing length, from the suffix [r]
    on, when [bs] lists the characters before [r] from the last. *)
Fixpoint rpre (bs r : list ascii) : list (list ascii) :=
  match bs with
  | [] => [r]
  | y :: bs' => r :: rpre bs' (y :: r)
  end.

Lemma rpre_head bs r : rpre bs r = r :: drop 1 (rpre bs r).
Proof. by destruct bs. Qed.

Lemma last_rpre bs r : last (rpre bs r) = Some (reverse bs ++ r).
Proof.
  revert r. induction bs as [|y bs IH]; intros r; [done|].
  simpl rpre. rewrite (rpre_head bs (y :: r)), last_cons_cons, <-rpre_head, IH.
  by rewrite reverse_cons, <-app_assoc.
Qed.

Lemma row0_from_spec bs r : row0_from p bs (T p [] r) = T p [] <$> drop 1 (rpre bs r).
Proof.
  revert r. induction bs as [|y bs IH]; intros r; [done|].
  cbn [row0_from rpre drop]. rewrite <-(T_nil_cons y r), (rpre_head bs (y :: r)), drop_0, fmap_cons.
  f_equal. apply IH.
Qed.

Lemma next_cells_spec x a bs r :
  next_cells p x bs (T p a <$> rpre bs r) (T p (x :: a) r) = T p (x :: a) <$> drop 1 (rpre bs r).
Proof.
  revert r. induction bs as [|y bs IH]; intros r; [done|].
  cbn [rpre drop]. rewrite (rpre_head bs (y :: r)), drop_0, !fmap_cons. cbn [next_cells].
  rewrite <-T_cons_cons. f_equal. rewrite <-fmap_cons, <-rpre_head. apply IH.
Qed.

Lemma next_row_spec x a bs : next_row p x bs (T p a <$> rpre bs []) = T p (x :: a) <$> rpre bs [].
Proof.
  rewrite (rpre_head bs []), fmap_cons. cbn [next_row].
  rewrite <-(T_cons_nil x a), <-fmap_cons, <-rpre_head, next_cells_spec.
  symmetry. rewrite (rpre_head bs []) at 1. by rewrite fmap_cons.
Qed.

Lemma dp_rows_spec a b : dp_rows p a b = T p a <$> rpre (reverse b) [].
Proof.
  induction a as [|x a IH]; unfold dp_rows in *; cbn [foldr].
  - unfold row0. rewrite (rpre_head (reverse b) []), fmap_cons. f_equal.
    apply (row0_from_spec (reverse b) []).
  - rewrite IH. apply next_row_spec.
Qed.

(** The program's value is the recurrence's. *)
Lemma dp_value_spec a b : dp_value p a b = V (T p a b).
Proof.
  unfold dp_value. rewrite dp_rows_spec, last_fmap, last_rpre.
  by rewrite reverse_involutive, app_nil_r.
Qed.
End Recurrence.

Lemma comp_V s c v : comp s c = Some v → ∃ w, V c = Some w ∧ (w <= v)%Q.
Proof. intros H. apply V_le. destruct s as [[]|]; simpl in H; tauto. Qed.

Lemma V_comp c w : V c = Some w → ∃ s, comp s c = Some w.
Proof.
  intros [H|[H|[H|H]]]%V_some; [exists (Some OSub)|exists (Some ODel)|exists (Some OIns)|exists None];
    exact H.
Qed.

(** ** The recurrence is the least cost of an alignment *)

Section Optimality.
Context (p : AGParams).
Implicit Types a b : list ascii.

Lemma opening_cases k ops :
  (∃ ops', ops = k :: ops') ∧ opening p k ops = 0%Q ∨ opening p k ops = gap_w p.
Proof.
  destruct ops as [|k' ops]; simpl; [by right|]. case_decide; [subst; left; eauto|by right].
Qed.

(** A gap column costs at least the recurrence's gap step. *)
Lemma step_gap_lower k (c0 : cell) ops c' :
  (∃ v', comp (head ops) c0 = Some v' ∧ (v' <= c')%Q) →
  ∃ v, step_gap p (comp (Some k) c0) (V c0) = Some v ∧ (v <= space_w p + opening p k ops + c')%Q.
Proof.
  intros (v' & Hv' & Hle). unfold step_gap.
  destruct (opening_cases k ops) as [[[ops' ->] Ho]|Ho]; rewrite Ho.
  - destruct (omin_le_l (comp (Some k) c0) (oadd (gap_w p) (V c0)) v' Hv') as (m & -> & ?).
    eexists; split; [done|]. simpl. lra.
  - destruct (comp_V _ _ _ Hv') as (w & Hw & ?).
    destruct (omin_le_r (comp (Some k) c0) (oadd (gap_w p) (V c0)) (gap_w p + w)) as (m & -> & ?);
      [by rewrite Hw|].
    eexists; split; [done|]. simpl. lra.
Qed.

(** Every alignment costs at least the recurrence's value for its
    first column. *)
Lemma T_lower a b ops c :
  acost p a b ops = Some c → ∃ v, comp (head ops) (T p a b) = Some v ∧ (v <= c)%Q.
Proof.
  revert a b c. induction ops as [|k ops IH]; intros a b c H.
  - destruct a, b; simpl in H; try done. injection H as <-. exists 0%Q. split; [done|lra].
  - destruct k; simpl in H.
    + destruct a as [|x a], b as [|y b]; try done.
      apply oadd_some in H as (c' & Hc' & ->).
      destruct (IH _ _ _ Hc') as (v' & Hv' & ?). destruct (comp_V _ _ _ Hv') as (w & Hw & ?).
      exists (sc p x y + w)%Q. cbn [head comp]. rewrite T_sub. unfold step_sub. rewrite Hw. split; [done|lra].
    + destruct a as [|x a]; [done|]. apply oadd_some in H as (c' & Hc' & ->).
      cbn [head comp]. rewrite T_del. unfold step_del. by apply (step_gap_lower ODel), IH.
    + destruct b as [|y b]; [done|]. apply oadd_some in H as (c' & Hc' & ->).
      cbn [head comp]. rewrite T_ins. unfold step_ins. by apply (step_gap_lower OIns), IH.
Qed.

Corollary V_lower a b ops c : acost p a b ops = Some c → ∃ w, V (T p a b) = Some w ∧ (w <= c)%Q.
Proof.
  intros (v & Hv & ?)%T_lower. destruct (comp_V _ _ _ Hv) as (w & ? & ?).
  exists w. split; [done|lra].
Qed.
End Optimality.

Section Attainment.
Context (p : AGParams).
Hypothesis gap_nonneg : (0 <= gap_w p)%Q.
Implicit Types a b : list ascii.

(** Some alignment of the kind [s] costs at most the recurrence's value. *)
Definition attained (c0 : cell) (cost : list op → option Q) : Prop :=
  ∀ s v, comp s c0 = Some v → ∃ ops c, head ops = s ∧ cost ops = Some c ∧ (c <= v)%Q.

Lemma opening_le k ops : (opening p k ops <= gap_w p)%Q.
Proof. destruct (opening_cases p k ops) as [[_ ->]| ->]; [done|lra]. Qed.

Lemma V_attain c0 cost w :
  attained c0 cost → V c0 = Some w → ∃ ops c, cost ops = Some c ∧ (c <= w)%Q.
Proof.
  intros Hat (s & Hs)%V_comp. destruct (Hat _ _ Hs) as (ops & c & _ & ? & ?). eauto.
Qed.

(** A gap step is attained by a gap column in front of an alignment of
    the rest. *)
Lemma gap_attain k (inner outer : list op → option Q) c0 v :
  (∀ ops', outer (k :: ops') = oadd (space_w p + opening p k ops')%Q (inner ops')) →
  attained c0 inner →
  step_gap p (comp (Some k) c0) (V c0) = Some v →
  ∃ ops c, head ops = Some k ∧ outer ops = Some c ∧ (c <= v)%Q.
Proof.
  intros Hout Hat (m & Hm & ->)%oadd_some.
  apply omin_some in Hm as [Hm|(w & Hw & ->)%oadd_some].
  - destruct (Hat _ _ Hm) as (ops' & c' & Hh & Hc' & ?).
    destruct ops' as [|k' ops']; simplify_eq/=.
    exists (k :: k :: ops'), (space_w p + 0 + c')%Q. split_and!; [done| |lra].
    rewrite Hout, Hc'. simpl. by rewrite decide_True.
  - destruct (V_attain _ _ _ Hat Hw) as (ops' & c' & Hc' & ?).
    pose proof (opening_le k ops').
    exists (k :: ops'), (space_w p + opening p k ops' + c')%Q. split_and!; [done| |lra].
    by rewrite Hout, Hc'.
Qed.

Lemma T_attain a b : attained (T p a b) (acost p a b).
Proof.
  revert b. induction a as [|x a IHa]; intros b; induction b as [|y b IHb];
    intros [k|] v H.
  - by destruct k.
  - injection H as <-. exists [], 0%Q. split_and!; [done|done|lra].
  - destruct k; try done. by apply (gap_attain OIns (acost p [] b) (acost p [] (y :: b)) (T p [] b)).
  - done.
  - destruct k; try done. by apply (gap_attain ODel (acost p a []) (acost p (x :: a) []) (T p a [])).
  - done.
  - destruct k.
    + cbn [comp] in H. rewrite T_sub in H. apply oadd_some in H as (w & Hw & ->).
      destruct (V_attain _ _ _ (IHa b) Hw) as (ops' & c' & Hc' & ?).
      exists (OSub :: ops'), (sc p x y + c')%Q. split_and!; [done| |lra].
      simpl. by rewrite Hc'.
    + cbn [comp] in H. rewrite T_del in H.
      by apply (gap_attain ODel (acost p a (y :: b)) (acost p (x :: a) (y :: b)) (T p a (y :: b))).
    + cbn [comp] in H. rewrite T_ins in H.
      by apply (gap_attain OIns (acost p (x :: a) b) (acost p (x :: a) (y :: b)) (T p (x :: a) b)).
  - done.
Qed.

(** Deleting all of [a] and inserting all of [b] is an alignment. *)
Lemma acost_canonical a b : ∃ c, acost p a b (replicate (length a) ODel ++ replicate (length b) OIns) = Some c.
Proof.
  induction a as [|x a IHa].
  - induction b as [|y b IHb]; [by eexists|]. destruct IHb as [c Hc]. simpl in Hc.
    eexists. simpl. by rewrite Hc.
  - destruct IHa as [c Hc]. eexists. simpl. by rewrite Hc.
Qed.

(** The recurrence's value is the least cost of an alignment: some
    alignment costs it and none costs less. *)
Lemma T_optimal a b :
  ∃ w, V (T p a b) = Some w ∧ (∃ ops c, acost p a b ops = Some c ∧ (c == w)%Q) ∧
    ∀ ops c, acost p a b ops = Some c → (w <= c)%Q.
Proof.
  destruct (acost_canonical a b) as [c0 Hc0].
  destruct (V_lower p _ _ _ _ Hc0) as (w & Hw & _).
  exists w. split; [done|]. split.
  - destruct (V_attain _ _ _ (T_attain a b) Hw) as (ops & c & Hc & ?).
    exists ops, c. split; [done|]. destruct (V_lower p _ _ _ _ Hc) as (w' & Hw' & ?).
    rewrite Hw in Hw'. injection Hw' as <-. lra.
  - intros ops c Hc. destruct (V_lower p _ _ _ _ Hc) as (w' & Hw' & ?).
    rewrite Hw in Hw'. by injection Hw' as <-.
Qed.
End Attainment.

(** ** The program equals the exhaustive minimum *)

Lemma foldr_omin_le (l : list (option Q)) v :
  Some v ∈ l → ∃ m, foldr omin None l = Some m ∧ (m <= v)%Q.
Proof.
  induction l as [|o l IH]; intros Hin; [by apply not_elem_of_nil in Hin|].
  apply elem_of_cons in Hin as [<-|Hin]; cbn [foldr].
  - by apply omin_le_l.
  - destruct (IH Hin) as (m & Hm & ?). destruct (omin_le_r o _ _ Hm) as (m' & ? & ?).
    exists m'. split; [done|lra].
Qed.

Lemma foldr_omin_elem (l : list (option Q)) m : foldr omin None l = Some m → Some m ∈ l.
Proof.
  induction l as [|o l IH]; cbn [foldr]; [done|].
  intros [->|Hm]%omin_some; [left|right; by apply IH].
Qed.

Section Brute.
Context (p : AGParams).
Implicit Types a b : list ascii.

Lemma cons_in_fmap (k : op) ops (l : list (list op)) : ops ∈ l → k :: ops ∈ cons k <$> l.
Proof. intros H. apply list_elem_of_fmap. by exists ops. Qed.

Lemma alignments_complete a b ops c : acost p a b ops = Some c → ops ∈ alignments a b.
Proof.
  revert a b c. induction ops as [|k ops IH]; intros a b c H.
  - destruct a, b; simpl in H; try done. by left.
  - destruct k; simpl in H.
    + destruct a as [|x a], b as [|y b]; try done. apply oadd_some in H as (c' & Hc' & _).
      apply elem_of_app. left. by apply cons_in_fmap, (IH _ _ _ Hc').
    + destruct a as [|x a]; [done|]. apply oadd_some in H as (c' & Hc' & _).
      destruct b as [|y b].
      * by apply cons_in_fmap, (IH _ _ _ Hc').
      * apply elem_of_app. right. apply elem_of_app. left.
        by apply cons_in_fmap, (IH _ _ _ Hc').
    + destruct b as [|y b]; [done|]. apply oadd_some in H as (c' & Hc' & _).
      destruct a as [|x a].
      * by apply cons_in_fmap, (IH _ _ _ Hc').
      * apply elem_of_app. right. apply elem_of_app. right.
        by apply cons_in_fmap, (IH _ _ _ Hc').
Qed.

(** When opening a gap costs [≥ 0], the dynamic program and the
    exhaustive minimum agree (up to [==] on [Q]). *)
Lemma dp_brute a b :
  (0 <= gap_w p)%Q →
  ∃ w m, dp_value p a b = Some w ∧ brute p a b = Some m ∧ (w == m)%Q.
Proof.
  intros Hg. rewrite dp_value_spec.
  destruct (T_optimal p Hg a b) as (w & Hw & (ops & c & Hc & Hcw) & Hmin).
  assert (Hin : Some c ∈ acost p a b <$> alignments a b).
  { apply list_elem_of_fmap. exists ops. split; [done|]. by eapply alignments_complete. }
  destruct (foldr_omin_le _ _ Hin) as (m & Hm & ?).
  exists w, m. split_and!; [done|done|].
  apply foldr_omin_elem, list_elem_of_fmap in Hm as (ops' & Hops' & _).
  specialize (Hmin ops' m (eq_sym Hops')). lra.
Qed.
End Brute.

(** ** Bounds *)

Definition qn (n : nat) : Q := inject_Z (Z.of_nat n).

Lemma qn_S n : qn (S n) = (qn n + 1)%Q.
Proof. unfold qn. by rewrite Nat2Z.inj_succ, <-Z.add_1_r, inject_Z_plus. Qed.

Lemma qn_nonneg n : (0 <= qn n)%Q.
Proof. unfold qn, Qle. simpl. lia. Qed.

Section Bounds.
Context (p : AGParams).
Hypothesis gap_nonneg : (0 <= gap_w p)%Q.
Implicit Types a b : list ascii.

(** The least cost per character: half a substitution, or a gap
    extension. *)
Definition lo : Q := qmin (qmin (match_w p) (mismatch_w p)) (2 * space_w p).

Lemma lo_le_sc x y : (lo <= sc p x y)%Q.
Proof.
  unfold lo, sc. pose proof (qmin_le_l (qmin (match_w p) (mismatch_w p)) (2 * space_w p)).
  case_decide; [pose proof (qmin_le_l (match_w p) (mismatch_w p))|pose proof (qmin_le_r (match_w p) (mismatch_w p))]; lra.
Qed.

Lemma opening_nonneg k ops : (0 <= opening p k ops)%Q.
Proof. destruct (opening_cases p k ops) as [[_ ->]| ->]; [lra|done]. Qed.

Lemma acost_lower a b ops c :
  acost p a b ops = Some c → (qn (length a + length b) * lo <= 2 * c)%Q.
Proof.
  pose proof (qmin_le_r (qmin (match_w p) (mismatch_w p)) (2 * space_w p)) as Hlo.
  fold lo in Hlo.
  revert a b c. induction ops as [|k ops IH]; intros a b c H.
  - destruct a, b; simpl in H; try done. injection H as <-.
    change (qn (length [] + length [])) with 0%Q. lra.
  - destruct k; simpl in H.
    + destruct a as [|x a], b as [|y b]; try done. apply oadd_some in H as (c' & Hc' & ->).
      specialize (IH _ _ _ Hc'). pose proof (lo_le_sc x y).
      replace (length (x :: a) + length (y :: b)) with (S (S (length a + length b))) by (simpl; lia).
      rewrite !qn_S. nra.
    + destruct a as [|x a]; [done|]. apply oadd_some in H as (c' & Hc' & ->).
      specialize (IH _ _ _ Hc'). pose proof (opening_nonneg ODel ops).
      replace (length (x :: a) + length b) with (S (length a + length b)) by (simpl; lia).
      rewrite qn_S. nra.
    + destruct b as [|y b]; [done|]. apply oadd_some in H as (c' & Hc' & ->).
      specialize (IH _ _ _ Hc'). pose proof (opening_nonneg OIns ops).
      replace (length a + length (y :: b)) with (S (length a + length b)) by (simpl; lia).
      rewrite qn_S. nra.
Qed.
Lemma qn_add n m : qn (n + m) = (qn n + qn m)%Q.
Proof. unfold qn. by rewrite Nat2Z.inj_add, inject_Z_plus. Qed.

Lemma opening_same k ops : opening p k (k :: ops) = 0%Q.
Proof. simpl. by rewrite decide_True. Qed.

(** Inserting all of [b]: one opening, one extension per character. *)
Lemma ins_upper b : ∃ c, acost p [] b (replicate (length b) OIns) = Some c ∧
  (c <= gap_w p + qn (length b) * space_w p)%Q.
Proof.
  induction b as [|y b IH].
  - exists 0%Q. split; [done|]. change (qn (length [])) with 0%Q. lra.
  - destruct IH as (c' & Hc' & Hle). cbn [length replicate acost]. rewrite Hc'.
    eexists; split; [done|]. rewrite qn_S. pose proof (qn_nonneg (length b)).
    destruct b as [|z b]; simpl in Hc'.
    + injection Hc' as <-. simpl. change (qn 0) with 0%Q. lra.
    + cbn [length replicate] in *. rewrite opening_same. nra.
Qed.

Lemma del_upper a b R cR : acost p [] b R = Some cR →
  ∃ c, acost p a b (replicate (length a) ODel ++ R) = Some c ∧
    (c <= gap_w p + qn (length a) * space_w p + cR)%Q.
Proof.
  intros HR. induction a as [|x a IH].
  - exists cR. split; [done|]. change (qn (length [])) with 0%Q. lra.
  - destruct IH as (c' & Hc' & Hle). cbn [length replicate app acost]. rewrite Hc'.
    eexists; split; [done|]. rewrite qn_S. simpl.
    destruct a as [|z a].
    + simpl in Hc' |- *. rewrite HR in Hc'. injection Hc' as <-.
      pose proof (opening_le p gap_nonneg ODel R). change (qn 0) with 0%Q. lra.
    + cbn [length replicate app] in *. rewrite opening_same. nra.
Qed.

(** The recurrence's value lies between [lo] per character (half) and
    two openings plus one extension per character. *)
Lemma V_bounds a b : ∃ w, V (T p a b) = Some w ∧
  (qn (length a + length b) * lo <= 2 * w)%Q ∧
  (w <= 2 * gap_w p + qn (length a + length b) * space_w p)%Q.
Proof.
  destruct (ins_upper b) as (cR & HR & ?).
  destruct (del_upper a b _ _ HR) as (c & Hc & ?).
  destruct (V_lower p _ _ _ _ Hc) as (w & Hw & ?).
  destruct (V_attain _ _ _ (T_attain p gap_nonneg a b) Hw) as (ops & c' & Hc' & ?).
  pose proof (acost_lower _ _ _ _ Hc').
  exists w. split_and!; [done| |]; [nra|]. rewrite qn_add. nra.
Qed.
End Bounds.

(** ** The comparator on strings *)

Abbreviation chars := String.list_ascii_of_string.

Lemma chars_nil s : chars s = [] ↔ s = "".
Proof. destruct s; simpl; split; done. Qed.

Lemma chars_length s : String.length s = length (chars s).
Proof. induction s as [|x s IH]; simpl; congruence. Qed.

Lemma qn_mono k n : k ≤ n → (qn k <= qn n)%Q.
Proof. intros H. unfold qn. rewrite <-Zle_Qle. lia. Qed.

Lemma V_total p a b : ∃ w, V (T p a b) = Some w.
Proof.
  destruct (acost_canonical p a b) as [c Hc].
  destruct (V_lower p _ _ _ _ Hc) as (w & ? & _). eauto.
Qed.

Lemma affineGapDistance_empty p s1 s2 : s1 = "" ∨ s2 = "" → affineGapDistance p s1 s2 = None.
Proof. unfold affineGapDistance. intros [->| ->]; [done|]. by destruct (chars s1). Qed.

Lemma affineGapDistance_value p s1 s2 :
  s1 ≠ "" → s2 ≠ "" → affineGapDistance p s1 s2 = V (T p (chars s1) (chars s2)).
Proof.
  intros H1 H2. rewrite <-dp_value_spec. unfold affineGapDistance.
  destruct (chars s1) eqn:E1; [by apply chars_nil in E1|].
  destruct (chars s2) eqn:E2; [by apply chars_nil in E2|]. done.
Qed.

Lemma normalized_value p s1 s2 :
  normalizedAffineGapDistance p s1 s2 =
  (λ d, d / qn (length (chars s1) + length (chars s2)))%Q <$> affineGapDistance p s1 s2.
Proof. unfold normalizedAffineGapDistance, qn. by rewrite !chars_length. Qed.

(** ** The assertions of [AffineGapTest] *)

Module AffineGapTest.

(** The weights every assertion passes: [matchWeight = -5],
    [mismatchWeight = 5], [gapWeight = 5], [spaceWeight = 1] (the
    seventh argument, [0.5], has no counterpart in spec 4.5). *)
Definition test_params : AGParams := {| match_w := -5; mismatch_w := 5; gap_w := 5; space_w := 1 |}.

Lemma test_gap_nonneg : (0 <= gap_w test_params)%Q.
Proof. by vm_compute. Qed.

(** Python's [d == q] on a distance ([nan == q] is false) and
    [numpy.isnan(d)]. *)
Definition eqq (d : option Q) (q : Q) : bool := match d with Some x => Qeq_bool x q | None => false end.
Definition isnan (d : option Q) : bool := if d is None then true else false.

(** [test_affine_gap_correctness]: its fifteen assertions. *)
Definition test_affine_gap_correctness : bool :=
  let agd := affineGapDistance test_params in
  eqq (agd "a" "b") 5 && eqq (agd "ab" "cd") 10 && eqq (agd "ab" "cde") 13 &&
  eqq (agd "a" "cde") (17#2) && eqq (agd "a" "cd") 8 && eqq (agd "b" "a") 5 &&
  eqq (agd "a" "a") (-5) && isnan (agd "a" "") && isnan (agd "" "") &&
  eqq (agd "aba" "aaa") (-5) && eqq (agd "aaa" "aba") (-5) && eqq (agd "aaa" "aa") (-7) &&
  eqq (agd "aaa" "a") (-3#2) && isnan (agd "aaa" "") && eqq (agd "aaa" "abba") 1.

(** [test_normalized_affine_gap_correctness]. *)
Definition test_normalized_affine_gap_correctness : bool :=
  isnan (normalizedAffineGapDistance test_params "" "").

(** The assertions of [test_affine_gap_correctness] that spec 4.5
    and section 8 determine hold: 5 for ("a","b") and ("b","a"), 10 for
    ("ab","cd"), -5 for ("a","a"), ("aba","aaa") and ("aaa","aba"), 1
    for ("aaa","abba"), and the sentinel for an empty operand, also
    for the normalized distance of ("",""), whose test passes. *)
Theorem test_affine_gap_holds :
  affineGapDistance test_params "a" "b" = Some 5%Q ∧
  affineGapDistance test_params "ab" "cd" = Some 10%Q ∧
  affineGapDistance test_params "b" "a" = Some 5%Q ∧
  affineGapDistance test_params "a" "a" = Some (-5)%Q ∧
  affineGapDistance test_params "a" "" = None ∧
  affineGapDistance test_params "" "" = None ∧
  affineGapDistance test_params "aba" "aaa" = Some (-5)%Q ∧
  affineGapDistance test_params "aaa" "aba" = Some (-5)%Q ∧
  affineGapDistance test_params "aaa" "" = None ∧
  affineGapDistance test_params "aaa" "abba" = Some 1%Q ∧
  normalizedAffineGapDistance test_params "" "" = None ∧
  test_normalized_affine_gap_correctness = true.
Proof. split_and!; by vm_compute. Qed.

(** C22: five assertions of [test_affine_gap_correctness] expect less
    than any alignment costs under the spec's affine-gap model: the
    model gives 15, 12, 11, -4 and 2 where the test expects 13, 8.5, 8,
    -7 and -1.5, and every alignment of those operands costs more than
    the test's value; so the test fails. *)
Theorem test_affine_gap_below_optimum :
  affineGapDistance test_params "ab" "cde" = Some 15%Q ∧
  affineGapDistance test_params "a" "cde" = Some 12%Q ∧
  affineGapDistance test_params "a" "cd" = Some 11%Q ∧
  affineGapDistance test_params "aaa" "aa" = Some (-4)%Q ∧
  affineGapDistance test_params "aaa" "a" = Some 2%Q ∧
  (∀ ops c,
    (acost test_params (chars "ab") (chars "cde") ops = Some c → 13 < c)%Q ∧
    (acost test_params (chars "a") (chars "cde") ops = Some c → 17#2 < c)%Q ∧
    (acost test_params (chars "a") (chars "cd") ops = Some c → 8 < c)%Q ∧
    (acost test_params (chars "aaa") (chars "aa") ops = Some c → -7 < c)%Q ∧
    (acost test_params (chars "aaa") (chars "a") ops = Some c → -3#2 < c)%Q) ∧
  test_affine_gap_correctness = false.
Proof.
  split_and!; try by vm_compute. intros ops c.
  split_and!; intros Hc; destruct (V_lower _ _ _ _ _ Hc) as (w & Hw & Hle);
    vm_compute in Hw; injection Hw as <-; (eapply Qlt_le_trans; [|exact Hle]); by vm_compute.
Qed.
(** With the test's weights, on non-empty operands
    [affineGapDistance] returns the least cost of an alignment: some
    alignment costs it and none costs less. *)
Theorem affineGap_optimal s1 s2 :
  s1 ≠ "" → s2 ≠ "" →
  ∃ d, affineGapDistance test_params s1 s2 = Some d ∧
    (∃ ops c, acost test_params (chars s1) (chars s2) ops = Some c ∧ (c == d)%Q) ∧
    ∀ ops c, acost test_params (chars s1) (chars s2) ops = Some c → (d <= c)%Q.
Proof.
  intros H1 H2. rewrite affineGapDistance_value by done.
  destruct (T_optimal test_params test_gap_nonneg (chars s1) (chars s2)) as (w & Hw & Hat & Hmin).
  eauto.
Qed.

Lemma affineGap_optimal_witness :
  "ab" ≠ "" ∧ "cd" ≠ "" ∧
  ∃ d, affineGapDistance test_params "ab" "cd" = Some d ∧
    (∃ ops c, acost test_params (chars "ab") (chars "cd") ops = Some c ∧ (c == d)%Q) ∧
    ∀ ops c, acost test_params (chars "ab") (chars "cd") ops = Some c → (d <= c)%Q.
Proof. split; [done|split; [done|]]. apply affineGap_optimal; done. Defined.

(** C23: with the test's weights, [affineGapDistance] and
    [normalizedAffineGapDistance] return the sentinel exactly when an
    operand is empty, and a number otherwise. *)
Theorem affineGap_sentinel s1 s2 :
  (affineGapDistance test_params s1 s2 = None ↔ s1 = "" ∨ s2 = "") ∧
  (normalizedAffineGapDistance test_params s1 s2 = None ↔ s1 = "" ∨ s2 = "").
Proof.
  rewrite normalized_value, fmap_None.
  assert (affineGapDistance test_params s1 s2 = None ↔ s1 = "" ∨ s2 = "") as H; [|done].
  split; [|apply affineGapDistance_empty].
  intros Hn. destruct (decide (s1 = "")), (decide (s2 = "")); [tauto..|].
  rewrite affineGapDistance_value in Hn by done.
  destruct (V_total test_params (chars s1) (chars s2)) as [w Hw]. congruence.
Qed.

(** With the test's weights, the [O(|a|·|b|)] dynamic program
    computes the same distance as the exhaustive minimum over every
    alignment of the two strings. *)
Theorem dp_equals_exhaustive a b :
  ∃ w m, dp_value test_params a b = Some w ∧ brute test_params a b = Some m ∧ (w == m)%Q.
Proof. apply dp_brute, test_gap_nonneg. Qed.

(** With the test's weights, the normalized distance of two
    non-empty strings lies in [[-5/2, 6]] whatever their lengths. *)
Theorem normalized_bounds s1 s2 :
  s1 ≠ "" → s2 ≠ "" →
  ∃ d, normalizedAffineGapDistance test_params s1 s2 = Some d ∧ (-5#2 <= d)%Q ∧ (d <= 6)%Q.
Proof.
  intros H1 H2. rewrite normalized_value, affineGapDistance_value by done.
  destruct (V_bounds test_params test_gap_nonneg (chars s1) (chars s2)) as (w & -> & Hlo & Hhi).
  set (n := length (chars s1) + length (chars s2)) in *.
  assert (Hn : (2 <= qn n)%Q).
  { change 2%Q with (qn 2). apply qn_mono. subst n.
    destruct (chars s1) eqn:E1; [by apply chars_nil in E1|].
    destruct (chars s2) eqn:E2; [by apply chars_nil in E2|]. simpl. lia. }
  assert (Hlo' : lo test_params = (-5)%Q) by (by vm_compute). rewrite Hlo' in Hlo.
  simpl in Hhi. eexists; split; [done|]. split.
  - apply Qle_shift_div_l; [lra|]. lra.
  - apply Qle_shift_div_r; [lra|]. lra.
Qed.

Lemma normalized_bounds_witness :
  "a" ≠ "" ∧ "b" ≠ "" ∧
  ∃ d, normalizedAffineGapDistance test_params "a" "b" = Some d ∧ (-5#2 <= d)%Q ∧ (d <= 6)%Q.
Proof. split; [done|split; [done|]]. apply normalized_bounds; done. Defined.
End AffineGapTest.
