(* ===== verification/DataModel.v ===== *)
(** * The DataModel constructor (spec sections 4.3 and 7)

    [dedupe.datamodel] is not under [src/]: [DataModel(fields)] is
    modelled from the specification.  Its argument, a Python dict from
    field names to spec dicts, is an association list of [SVal]s in
    declaration order; the result is the model's fields (an
    [OrderedDict] of entries) and its bias, or the exception raised.

    Per field, in declaration order: the name may not contain the
    separator [":"] of derived names; the spec must be a dict with a
    known ['type']; ['Has Missing'] defaults to false; a ['comparator']
    must be a function (a [Custom] field requires one; [String],
    [LatLong] and [Set] fields get their default comparator);
    [Interaction] fields need ['Interaction Fields'] naming declared
    fields and inherit [Has Missing] from them; [Categorical] and
    [Source] fields need their level lists.  A field with [Has Missing]
    is followed by its indicator column ["F: not_missing"].  The
    expansions of [Categorical] and [Source] fields into derived columns
    depend on the levels observed in the data and are not modelled. *)

From S2P Require Import Prelude PyDict.
From Stdlib Require Import QArith Ascii.
Local Open Scope string_scope.

(** ** Data *)

(** The Python values a field spec is written with. *)
Inductive SVal :=
  | SStr (s : string)
  | SBool (b : bool)
  | SList (l : list string)
  | SFun (name : string)
  | SDict (d : list (string * SVal)).

Inductive FType := FString | FLatLong | FSet | FCategorical | FSource | FCustom | FInteraction | FMissing.

#[global] Instance FType_eq_dec : EqDecision FType.
Proof. solve_decision. Defined.

Inductive Comparator := NormalizedAffineGap | CompareLatLong | CompareJaccard | CustomComp (name : string).

#[global] Instance Comparator_eq_dec : EqDecision Comparator.
Proof. solve_decision. Defined.

(** An entry of [model['fields']]: [None] for a key the entry lacks. *)
Record FEntry := {
  e_missing : option bool;
  e_type : FType;
  e_comp : option Comparator;
  e_fields : option (list string);
  e_levels : option (list string)
}.

#[global] Instance FEntry_eq_dec : EqDecision FEntry.
Proof. solve_decision. Defined.

Record DataModelD := { dm_fields : list (string * FEntry); dm_bias : Q }.

(** ** Results that may raise *)

Definition rbind {A B} (r : exn + A) (k : A → exn + B) : exn + B :=
  match r with inl e => inl e | inr a => k a end.

Notation "x <-? r ;; k" := (rbind r (λ x, k))
  (at level 100, r at next level, right associativity) : dedupe_scope.
Local Open Scope dedupe_scope.

(** ** Construction *)

Definition field_type (t : string) : option FType :=
  match t with
  | "String" => Some FString
  | "LatLong" => Some FLatLong
  | "Set" => Some FSet
  | "Categorical" => Some FCategorical
  | "Source" => Some FSource
  | "Custom" => Some FCustom
  | "Interaction" => Some FInteraction
  | _ => None
  end.

Definition default_comp (t : FType) : option Comparator :=
  match t with
  | FString => Some NormalizedAffineGap
  | FLatLong => Some CompareLatLong
  | FSet => Some CompareJaccard
  | _ => None
  end.

(** The separator of derived names may not occur in a field name. *)
Definition reserved (name : string) : bool :=
  existsb (λ c, bool_decide (c = ":"%char)) (String.list_ascii_of_string name).

(** One field's entry; [names] are the declared field names.  In
    order: the name, the spec's shape, its ['type'], ['Has Missing'],
    ['comparator'], then the keys its type requires. *)
Definition field_entry (names : list string) (name : string) (v : SVal) : exn + FEntry :=
  let read_list key d :=
    match dget key d with Some (SList l) => inr l | _ => inl (ValueError key) end in
  if reserved name then inl (ValueError name) else
  match v with
  | SDict d =>
      match dget "type" d with
      | Some (SStr t) =>
          match field_type t with
          | None => inl (ValueError t)
          | Some ty =>
              hm <-? match dget "Has Missing" d with
                     | None => inr false
                     | Some (SBool b) => inr b
                     | Some _ => inl (ValueError "Has Missing")
                     end ;;
              cmp <-? match dget "comparator" d with
                      | Some (SFun f) => inr (Some (CustomComp f))
                      | Some _ => inl (ValueError "comparator")
                      | None => if decide (ty = FCustom) then inl (ValueError "comparator")
                                else inr (default_comp ty)
                      end ;;
              match ty with
              | FInteraction =>
                  fs <-? read_list "Interaction Fields" d ;;
                  if forallb (λ f, bool_decide (f ∈ names)) fs
                  then inr {| e_missing := Some hm; e_type := ty; e_comp := cmp;
                              e_fields := Some fs; e_levels := None |}
                  else inl (ValueError "Interaction Fields")
              | FCategorical =>
                  ls <-? read_list "Categories" d ;;
                  inr {| e_missing := Some hm; e_type := ty; e_comp := cmp; e_fields := None; e_levels := Some ls |}
              | FSource =>
                  ls <-? read_list "Source Names" d ;;
                  inr {| e_missing := Some hm; e_type := ty; e_comp := cmp; e_fields := None; e_levels := Some ls |}
              | _ => inr {| e_missing := Some hm; e_type := ty; e_comp := cmp; e_fields := None; e_levels := None |}
              end
          end
      | _ => inl (ValueError "type")
      end
  | _ => inl (ValueError name)
  end.

Fixpoint field_entries (names : list string) (spec : list (string * SVal)) : exn + list (string * FEntry) :=
  match spec with
  | [] => inr []
  | (name, v) :: spec' =>
      e <-? field_entry names name v ;;
      es <-? field_entries names spec' ;;
      inr ((name, e) :: es)
  end.

Definition has_missing (e : FEntry) : bool := default false (e_missing e).

(** An interaction has missing data when it or a component does. *)
Definition inherit (es : list (string * FEntry)) (e : FEntry) : FEntry :=
  match e_fields e with
  | Some fs =>
      let m := has_missing e || existsb (λ f, default false (has_missing <$> dget f es)) fs in
      {| e_missing := Some m; e_type := e_type e; e_comp := e_comp e; e_fields := e_fields e;
         e_levels := e_levels e |}
  | None => e
  end.

Definition missing_entry : FEntry :=
  {| e_missing := None; e_type := FMissing; e_comp := None; e_fields := None; e_levels := None |}.

(** A field, then its indicator column if it has missing data. *)
Definition columns (f : string * FEntry) : list (string * FEntry) :=
  f :: (if has_missing f.2 then [(f.1 +:+ ": not_missing", missing_entry)] else []).

(** [DataModel(fields)]; [None] is the call without an argument. *)
Definition DataModel (arg : option (list (string * SVal))) : exn + DataModelD :=
  match arg with
  | None => inl (TypeError "DataModel")
  | Some spec =>
      es <-? field_entries (fst <$> spec) spec ;;
      let es' := (λ '(n, e), (n, inherit es e)) <$> es in
      inr {| dm_fields := es' ≫= columns; dm_bias := 0%Q |}
  end.

(** ** Lemmas *)

Lemma rbind_inr {A B} (r : exn + A) (k : A → exn + B) b :
  rbind r k = inr b → ∃ a, r = inr a ∧ k a = inr b.
Proof. destruct r; simpl; [done|eauto]. Qed.

(** [field_entries] keeps the declared names in order, and fails exactly
    with the exception of its first failing field. *)
Lemma field_entries_names names spec es :
  field_entries names spec = inr es → fst <$> es = fst <$> spec.
Proof.
  revert es. induction spec as [|[n v] spec IH]; intros es; simpl; [by intros [= <-]|].
  intros (e & _ & (es' & Hes' & [= <-])%rbind_inr)%rbind_inr. simpl. f_equal. by apply IH.
Qed.


Definition column_names (es0 : list (string * FEntry)) (f : string * FEntry) : list string :=
  f.1 :: (if has_missing (inherit es0 f.2) then [f.1 +:+ ": not_missing"] else []).

Lemma columns_names es0 l :
  fst <$> (((λ '(n, e), (n, inherit es0 e)) <$> l) ≫= columns) = l ≫= column_names es0.
Proof.
  induction l as [|[n e] l IH]; [done|]. rewrite fmap_cons, !bind_cons, fmap_app, IH.
  unfold columns, column_names. simpl. by destruct (has_missing _).
Qed.

(** The columns of a model: each declared field in declaration order,
    followed by its indicator column when it has missing data; the
    bias is 0. *)
Lemma DataModel_layout spec dm :
  DataModel (Some spec) = inr dm →
  ∃ es, field_entries (fst <$> spec) spec = inr es ∧ fst <$> es = fst <$> spec ∧
    fst <$> dm_fields dm = es ≫= column_names es ∧ dm_bias dm = 0%Q.
Proof.
  simpl. intros (es & Hes & [= <-])%rbind_inr. exists es.
  split_and!; [done|by eapply field_entries_names|apply columns_names|done].
Qed.


(** No declared field is an indicator column: those are only derived. *)
Lemma field_type_not_missing t : field_type t ≠ Some FMissing.
Proof. unfold field_type. repeat case_match; done. Qed.

Lemma field_entry_type names n v e : field_entry names n v = inr e → e_type e ≠ FMissing.
Proof.
  unfold field_entry. destruct (reserved n); [done|]. destruct v as [| | | |d]; try done.
  destruct (dget "type" d) as [[t| | | |]|]; try done.
  destruct (field_type t) as [ty|] eqn:Ht; [|done].
  pose proof (field_type_not_missing t) as Hnm. intros He.
  unfold rbind in He. repeat (case_match; simplify_eq/=); first [discriminate|congruence].
Qed.

Lemma field_entries_types names spec es :
  field_entries names spec = inr es → Forall (λ c, e_type c.2 ≠ FMissing) es.
Proof.
  revert es. induction spec as [|[n v] spec IH]; intros es; simpl; [by intros [= <-]|].
  intros (e & He & (es' & Hes' & [= <-])%rbind_inr)%rbind_inr.
  constructor; [by eapply field_entry_type|by apply IH].
Qed.

(** The model's columns are its entries, interactions with their
    inherited [Has Missing], each followed by its indicator column. *)
Lemma DataModel_columns spec dm :
  DataModel (Some spec) = inr dm →
  ∃ es, Forall (λ c, e_type c.2 ≠ FMissing) es ∧ dm_fields dm = es ≫= columns.
Proof.
  simpl. intros (es & Hes & [= <-])%rbind_inr. eexists. split; [|done].
  apply Forall_fmap. eapply Forall_impl; [by eapply field_entries_types|].
  intros [n e] He. unfold inherit. simpl. by destruct (e_fields e).
Qed.

(** ** The assertions of [DataModelTest.test_data_model] *)

(** ** Where an indicator column goes, and what validation raises *)

Lemma string_length_app (s t : string) : String.length (s +:+ t) = (String.length s + String.length t)%nat.
Proof. induction s as [|c s IH]; simpl; [done|by rewrite IH]. Qed.

Lemma string_app_inj_r (s1 s2 t : string) : s1 +:+ t = s2 +:+ t → s1 = s2.
Proof.
  revert s2. induction s1 as [|c1 s1 IH]; intros [|c2 s2] H; simpl in H; [done| | |].
  - apply (f_equal String.length) in H. rewrite ?string_length_app in H. simpl in H. rewrite ?string_length_app in H. lia.
  - apply (f_equal String.length) in H. rewrite ?string_length_app in H. simpl in H. rewrite ?string_length_app in H. lia.
  - injection H as -> H. f_equal. by apply IH.
Qed.

Lemma reserved_indicator (n : string) : reserved (n +:+ ": not_missing") = true.
Proof. induction n as [|c n IH]; [done|]. unfold reserved in *. simpl. by rewrite IH, orb_true_r. Qed.

Lemma field_entry_unreserved names n v e : field_entry names n v = inr e → reserved n = false.
Proof. unfold field_entry. by destruct (reserved n). Qed.

Lemma field_entries_unreserved names spec es :
  field_entries names spec = inr es → Forall (λ f, reserved f.1 = false) es.
Proof.
  revert es. induction spec as [|[n v] spec IH]; intros es; simpl; [by intros [= <-]|].
  intros (e & He & (es' & Hes' & [= <-])%rbind_inr)%rbind_inr.
  constructor; [by eapply field_entry_unreserved|by apply IH].
Qed.

(** Every indicator column [n: not_missing] comes right after the
    column [n]. *)
Definition follows_field (l : list string) : Prop :=
  ∀ i n, l !! S i = Some (n +:+ ": not_missing") → l !! i = Some n.

Definition head_unreserved (l : list string) : Prop := ∀ y, l !! 0%nat = Some y → reserved y = false.

Lemma follows_field_cons x l :
  follows_field l → head_unreserved l → follows_field (x :: l).
Proof.
  intros Hf Hh [|i] n H; simpl in *.
  - specialize (Hh _ H). by rewrite reserved_indicator in Hh.
  - by apply Hf.
Qed.

Lemma follows_field_indicator x l :
  follows_field l → head_unreserved l → follows_field (x :: (x +:+ ": not_missing") :: l).
Proof.
  intros Hf Hh [|[|i]] n H; simpl in *.
  - injection H as H. f_equal. symmetry. by eapply string_app_inj_r.
  - specialize (Hh _ H). by rewrite reserved_indicator in Hh.
  - by apply Hf.
Qed.

Lemma column_names_follow es0 l :
  Forall (λ f, reserved f.1 = false) l →
  follows_field (l ≫= column_names es0) ∧ head_unreserved (l ≫= column_names es0).
Proof.
  induction l as [|f l IH]; intros Hl.
  { split; [intros i n H|intros y H]; done. }
  apply Forall_cons in Hl as [Hf Hl]. destruct (IH Hl) as [IHf IHh].
  rewrite bind_cons. unfold column_names.
  split; [|intros y [= <-]; done].
  destruct (has_missing _); simpl; [by apply follows_field_indicator|by apply follows_field_cons].
Qed.



Lemma DataModel_follows spec dm : DataModel (Some spec) = inr dm → follows_field (fst <$> dm_fields dm).
Proof.
  intros Hdm. destruct (DataModel_layout spec dm Hdm) as (es & Hes & _ & Hnames & _).
  rewrite Hnames. apply column_names_follow. by eapply field_entries_unreserved.
Qed.

Module DataModelTest.

Local Notation str_e m :=
  {| e_missing := Some m; e_type := FString; e_comp := Some NormalizedAffineGap;
     e_fields := None; e_levels := None |}.
Local Notation inter_e m :=
  {| e_missing := Some m; e_type := FInteraction; e_comp := None;
     e_fields := Some ["a"; "b"]; e_levels := None |}.
Local Notation str_s := (SDict [("type", SStr "String")]).
Local Notation inter_s := (SDict [("type", SStr "Interaction"); ("Interaction Fields", SList ["a"; "b"])]).

(** The specs the test expects [ValueError] for. *)
Definition invalid_specs : list (list (string * SVal)) :=
  [[("a", SStr "String")];
   [("a", SDict [("foo", SStr "bar")])];
   [("a", SDict [("type", SStr "bar")])];
   [("a-b", SDict [("type", SStr "Interaction")])];
   [("a-b", SDict [("type", SStr "Custom")])];
   [("a-b", SDict [("type", SStr "String"); ("comparator", SStr "foo")])]].


(** The specs the test builds, with the fields it expects. *)
Definition valid_cases : list (list (string * SVal) * list (string * FEntry)) :=
  [([("a", str_s)], [("a", str_e false)]);
   ([("a", SDict [("type", SStr "LatLong")])],
    [("a", {| e_missing := Some false; e_type := FLatLong; e_comp := Some CompareLatLong;
              e_fields := None; e_levels := None |})]);
   ([("a", SDict [("type", SStr "Set")])],
    [("a", {| e_missing := Some false; e_type := FSet; e_comp := Some CompareJaccard;
              e_fields := None; e_levels := None |})]);
   ([("a", SDict [("type", SStr "String"); ("Has Missing", SBool true)])],
    [("a", str_e true); ("a: not_missing", missing_entry)]);
   ([("a", SDict [("type", SStr "String"); ("Has Missing", SBool false)])], [("a", str_e false)]);
   ([("a", str_s); ("b", str_s)], [("a", str_e false); ("b", str_e false)]);
   ([("a", str_s); ("b", str_s); ("a-b", inter_s)],
    [("a", str_e false); ("b", str_e false); ("a-b", inter_e false)])].

Definition interaction_plain_case : list (string * SVal) * list (string * FEntry) :=
  ([("a", SDict [("type", SStr "String"); ("Has Missing", SBool false)]); ("b", str_s); ("a-b", inter_s)],
   [("a", str_e false); ("b", str_e false); ("a-b", inter_e false)]).

(** A field with missing data and an interaction over it; the test
    expects the indicator columns after all fields. *)
Definition interaction_missing_spec : list (string * SVal) :=
  [("a", SDict [("type", SStr "String"); ("Has Missing", SBool true)]); ("b", str_s); ("a-b", inter_s)].

Definition interaction_missing_expected : list (string * FEntry) :=
  [("a", str_e true); ("b", str_e false); ("a-b", inter_e true);
   ("a: not_missing", missing_entry); ("a-b: not_missing", missing_entry)].

(** The model of a result, or an empty model if it raised. *)
Definition DataModelD_of (r : exn + DataModelD) : DataModelD :=
  match r with inr dm => dm | inl _ => {| dm_fields := []; dm_bias := 0 |} end.




(** The assertions of [test_data_model] that agree with the spec
    hold: no argument raises [TypeError]; [{}] gives an empty model;
    the six invalid specs raise [ValueError]; the String, LatLong, Set,
    [Has Missing] and interaction specs give the expected fields, in
    particular a String field with [Has Missing] gives exactly its
    column then its indicator; the bias is 0. *)
Theorem test_data_model_holds :
  (∃ w, DataModel None = inl (TypeError w)) ∧
  DataModel (Some []) = inr {| dm_fields := []; dm_bias := 0 |} ∧
  Forall (λ s, ∃ w, DataModel (Some s) = inl (ValueError w)) invalid_specs ∧
  Forall (λ c, DataModel (Some c.1) = inr {| dm_fields := c.2; dm_bias := 0 |})
    (valid_cases ++ [interaction_plain_case]).
Proof.
  split_and!; [by eexists|done| |].
  - repeat constructor; eexists; by vm_compute.
  - repeat constructor; by vm_compute.
Qed.

(** With a field that has missing data and an interaction over it,
    the model puts each indicator column right after its field, while
    [test_data_model] expects both indicators after all fields: the
    same columns in another order. *)
Lemma interaction_missing_model :
  DataModel (Some interaction_missing_spec) =
    inr {| dm_fields := [("a", str_e true); ("a: not_missing", missing_entry); ("b", str_e false);
                         ("a-b", inter_e true); ("a-b: not_missing", missing_entry)];
           dm_bias := 0 |} ∧
  [("a", str_e true); ("a: not_missing", missing_entry); ("b", str_e false);
   ("a-b", inter_e true); ("a-b: not_missing", missing_entry)] ≡ₚ interaction_missing_expected.
Proof. split; [by vm_compute|]. unfold interaction_missing_expected. solve_Permutation. Qed.

(** C25: in every model [DataModel] builds, each indicator column
    [n: not_missing] comes right after the column of field [n] (spec
    4.3), for any spec; so no spec whatsoever yields the fields
    [test_data_model] expects for a field with missing data and an
    interaction over it, which put [a: not_missing] after [a-b]. *)
Theorem test_data_model_indicator_order spec dm :
  DataModel (Some spec) = inr dm →
  (∀ i n, (fst <$> dm_fields dm) !! S i = Some (n +:+ ": not_missing") →
     (fst <$> dm_fields dm) !! i = Some n) ∧
  dm_fields dm ≠ interaction_missing_expected.
Proof.
  intros Hdm. pose proof (DataModel_follows spec dm Hdm) as Hf. split; [exact Hf|].
  intros Heq. rewrite Heq in Hf. specialize (Hf 2%nat "a" eq_refl). by vm_compute in Hf.
Qed.

Lemma test_data_model_indicator_order_witness :
  DataModel (Some interaction_missing_spec) = inr (DataModelD_of (DataModel (Some interaction_missing_spec))) ∧
  (∀ i n, (fst <$> dm_fields (DataModelD_of (DataModel (Some interaction_missing_spec)))) !! S i
            = Some (n +:+ ": not_missing") →
     (fst <$> dm_fields (DataModelD_of (DataModel (Some interaction_missing_spec)))) !! i = Some n) ∧
  dm_fields (DataModelD_of (DataModel (Some interaction_missing_spec))) ≠ interaction_missing_expected.
Proof.
  assert (H : DataModel (Some interaction_missing_spec)
              = inr (DataModelD_of (DataModel (Some interaction_missing_spec)))) by (by vm_compute).
  split; [exact H|]. exact (test_data_model_indicator_order _ _ H).
Defined.

End DataModelTest.
