(* ===== verification/Scoring.v ===== *)
(** * Field distances and scoring (spec sections 4.4 and 4.6)

    [dedupe.core.fieldDistances] and [dedupe.core.scoreDuplicates] are
    not under [src/]: they are modelled from the specification, over a
    model built by [DataModel] (file [DataModel]) and the affine-gap
    comparator (file [AffineGap]).

    - A record is a Python dict from field names to strings; a value is
      present when the key is there and the string is non-empty.
    - [distance_row] computes one row of the matrix, column by column
      along [dm_fields]: a field with a comparator gets the comparator's
      value on the two records' values, [0] when either is missing or
      the comparator returns its sentinel; an indicator column
      ["F: not_missing"] is [1] when [F] (every component of [F], for an
      interaction) is present in both records; an interaction column is
      the product of its components' base values.  Models with
      [Categorical] or [Source] fields, whose derived columns are not
      modelled, give [None].
    - [scoreDuplicates] consumes the id pairs and record pairs in
      lockstep and pairs each id pair with [σ (w · row + bias)]; the
      logistic function [σ] is a parameter ([exp] is not in [Q]). *)

From S2P Require Import Prelude PyDict AffineGap DataModel.
From Stdlib Require Import QArith Lqa.
Local Open Scope string_scope.

Definition Record := list (string * string).

Section Distances.
(** The weights of the String comparator and the other comparators,
    which are not modelled. *)
Context (ag : AGParams) (other : Comparator → string → string → option Q).

Definition present (r : Record) (f : string) : bool :=
  match dget f r with Some v => bool_decide (v ≠ "") | None => false end.

(** The value of a field with a comparator, the sentinel replaced by 0. *)
Definition base_value (r1 r2 : Record) (f : string) (e : FEntry) : Q :=
  let compare c := match c with
                   | NormalizedAffineGap => normalizedAffineGapDistance ag
                   | c => other c
                   end in
  match e_comp e, dget f r1, dget f r2 with
  | Some c, Some v1, Some v2 =>
      if present r1 f && present r2 f then default 0%Q (compare c v1 v2) else 0%Q
  | _, _, _ => 0%Q
  end.

(** The fields an indicator or interaction column stands for. *)
Definition components (f : string) (e : FEntry) : list string := default [f] (e_fields e).

Definition column_value (fs : list (string * FEntry)) (r1 r2 : Record) (c : string * FEntry) : option Q :=
  let '(n, e) := c in
  match e_type e with
  | FCategorical | FSource => None
  | FMissing =>
      match list_find (λ g, g.1 +:+ ": not_missing" = n) fs with
      | Some (_, (g, eg)) =>
          Some (if forallb (λ h, present r1 h && present r2 h) (components g eg) then 1%Q else 0%Q)
      | None => None
      end
  | FInteraction =>
      Some (foldr (λ h acc, (acc * default 0%Q ((λ eh, base_value r1 r2 h eh) <$> dget h fs))%Q) 1%Q
              (components n e))
  | _ => Some (base_value r1 r2 n e)
  end.

Definition distance_row (dm : DataModelD) (p : Record * Record) : option (list Q) :=
  mapM (column_value (dm_fields dm) p.1 p.2) (dm_fields dm).

Definition fieldDistances (pairs : list (Record * Record)) (dm : DataModelD) : option (list (list Q)) :=
  mapM (distance_row dm) pairs.

(** ** Scoring *)

Context (σ : Q → Q).

Fixpoint dot (w x : list Q) : Q :=
  match w, x with
  | a :: w', b :: x' => (a * b + dot w' x')%Q
  | _, _ => 0%Q
  end.

(** [scoreDuplicates(ids, records, model)]: both streams in lockstep. *)
Definition scoreDuplicates {Id} (ids : list Id) (recs : list (Record * Record)) (dm : DataModelD)
    (weights : list Q) : option (list (Id * Q)) :=
  mapM (λ '(i, p), (λ row, (i, σ (dot weights row + dm_bias dm)%Q)) <$> distance_row dm p) (zip ids recs).
End Distances.

(** ** Lemmas *)

Section Facts.
Context (ag : AGParams) (other : Comparator → string → string → option Q) (σ : Q → Q).

(** The distance of a String column: the normalized affine-gap
    distance when both values are present, 0 otherwise. *)
Definition string_distance (r1 r2 : Record) (f : string) : Q :=
  if present r1 f && present r2 f
  then default 0%Q (normalizedAffineGapDistance ag (default "" (dget f r1)) (default "" (dget f r2)))
  else 0%Q.

Definition indicator (r1 r2 : Record) (fs : list string) : Q :=
  if forallb (λ h, present r1 h && present r2 h) fs then 1%Q else 0%Q.

Lemma base_value_string r1 r2 f e :
  e_comp e = Some NormalizedAffineGap → base_value ag other r1 r2 f e = string_distance r1 r2 f.
Proof.
  intros He. unfold base_value, string_distance. rewrite He.
  unfold present. destruct (dget f r1), (dget f r2); simpl; try done.
  by rewrite !andb_false_r.
Qed.

(** Every row has one value per column, and a model has one row per pair. *)
Lemma distance_row_length dm p row :
  distance_row ag other dm p = Some row → length row = length (dm_fields dm).
Proof. intros H%mapM_Some_1. symmetry. by eapply Forall2_length. Qed.

Lemma fieldDistances_shape pairs dm rows :
  fieldDistances ag other pairs dm = Some rows →
  length rows = length pairs ∧ Forall (λ row, length row = length (dm_fields dm)) rows.
Proof.
  intros H%mapM_Some_1. split; [symmetry; by eapply Forall2_length|].
  induction H as [|p row pairs rows Hp _ IH]; constructor; [|done].
  by apply (distance_row_length dm p).
Qed.

Lemma mapM_fst {A B C} (f : A * B → option (A * C)) l out :
  (∀ x y, f x = Some y → y.1 = x.1) → mapM f l = Some out → fst <$> out = fst <$> l.
Proof.
  intros Hf H%mapM_Some_1. induction H as [|x y l out Hxy _ IH]; [done|].
  rewrite !fmap_cons, IH. f_equal. by apply Hf.
Qed.

(** The scored pairs carry the id pairs, in the order given. *)
Lemma scoreDuplicates_ids {Id} (ids : list Id) recs dm weights out :
  scoreDuplicates ag other σ ids recs dm weights = Some out → fst <$> out = fst <$> zip ids recs.
Proof.
  apply mapM_fst. intros [i p] y Hy. simpl in Hy. by destruct (distance_row ag other dm p); simplify_eq/=.
Qed.

(** Every column of a model built from entries that are not indicator,
    [Categorical] or [Source] columns has a value: an indicator column
    finds its governing field, which precedes it. *)
Lemma distance_row_total es r1 r2 :
  Forall (λ c, e_type c.2 ≠ FMissing ∧ e_type c.2 ≠ FCategorical ∧ e_type c.2 ≠ FSource) es →
  is_Some (mapM (column_value ag other (es ≫= columns) r1 r2) (es ≫= columns)).
Proof.
  intros Hes. apply mapM_is_Some_2, Forall_forall. intros c (f & Hc & Hf)%list_elem_of_bind.
  rewrite Forall_forall in Hes. destruct (Hes f Hf) as (Hm & Hcat & Hsrc).
  assert (Hfs : f ∈ es ≫= columns) by (apply list_elem_of_bind; exists f; split; [left|done]).
  unfold columns in Hc. destruct f as [n e]. simpl in *.
  apply elem_of_cons in Hc as [->|Hc].
  - simpl. destruct (e_type e); done.
  - destruct (has_missing e); [|by apply elem_of_nil in Hc]. apply list_elem_of_singleton in Hc as ->.
    simpl. destruct (list_find_elem_of (λ g : string * FEntry, g.1 +:+ ": not_missing" = n +:+ ": not_missing")
                       (es ≫= columns) (n, e) Hfs eq_refl) as [[i [g eg]] ->].
    done.
Qed.

Lemma fieldDistances_total spec dm pairs :
  DataModel (Some spec) = inr dm →
  Forall (λ c, e_type c.2 ≠ FCategorical ∧ e_type c.2 ≠ FSource) (dm_fields dm) →
  ∃ rows, fieldDistances ag other pairs dm = Some rows.
Proof.
  intros (es & Hes & Hdm)%DataModel_columns Hcs. apply mapM_is_Some_2, Forall_forall. intros [r1 r2] _.
  unfold distance_row. rewrite Hdm. apply distance_row_total. rewrite Forall_forall in Hes |- *.
  intros f Hf. split; [by apply Hes|]. rewrite Forall_forall, Hdm in Hcs. apply Hcs.
  apply list_elem_of_bind. exists f. split; [left|done].
Qed.
End Facts.

(** ** The fixtures of [CoreTest.test_score_duplicates] *)

Module ScoringTest.

Definition score_ids : list (string * string) :=
  [("1", "2"); ("2", "3"); ("4", "5"); ("6", "7"); ("8", "9")].

Definition score_records : list (Record * Record) :=
  [([("name", "Margret"); ("age", "32")], [("name", "Marga"); ("age", "33")]);
   ([("name", "Marga"); ("age", "33")], [("name", "Maria"); ("age", "19")]);
   ([("name", "Maria"); ("age", "19")], [("name", "Monica"); ("age", "39")]);
   ([("name", "Monica"); ("age", "39")], [("name", "Mira"); ("age", "47")]);
   ([("name", "Mira"); ("age", "47")], [("name", "Mona"); ("age", "9")])].

Definition score_model_spec : list (string * SVal) := [("name", SDict [("type", SStr "String")])].

(** [data_model['fields']['name']['weight'] = -1.0302742719650269] and
    [data_model['bias'] = 4.76], as exact rationals. *)
Definition score_weights : list Q := [(-10302742719650269) # 10000000000000000].
Definition score_bias : Q := 476 # 100.

Definition score_model : exn + DataModelD :=
  match DataModel (Some score_model_spec) with
  | inr dm => inr {| dm_fields := dm_fields dm; dm_bias := score_bias |}
  | inl e => inl e
  end.

Local Notation name_entry :=
  {| e_missing := Some false; e_type := FString; e_comp := Some NormalizedAffineGap;
     e_fields := None; e_levels := None |}.

Lemma score_model_eq : score_model = inr {| dm_fields := [("name", name_entry)]; dm_bias := score_bias |}.
Proof. by vm_compute. Qed.

Lemma name_row ag other bias r1 r2 :
  distance_row ag other {| dm_fields := [("name", name_entry)]; dm_bias := bias |} (r1, r2) =
  Some [string_distance ag r1 r2 "name"].
Proof. unfold distance_row. simpl. by rewrite base_value_string. Qed.

(** The first [CoreTest] class builds the same streams in [setUp], and
    the model by hand: the field dict with its weight, and the bias. *)
Definition setup_ids : list (string * string) :=
  [("1", "2"); ("2", "3"); ("4", "5"); ("6", "7"); ("8", "9")].

Definition setup_records : list (Record * Record) :=
  [([("name", "Margret"); ("age", "32")], [("name", "Marga"); ("age", "33")]);
   ([("name", "Marga"); ("age", "33")], [("name", "Maria"); ("age", "19")]);
   ([("name", "Maria"); ("age", "19")], [("name", "Monica"); ("age", "39")]);
   ([("name", "Monica"); ("age", "39")], [("name", "Mira"); ("age", "47")]);
   ([("name", "Mira"); ("age", "47")], [("name", "Mona"); ("age", "9")])].

Definition setup_model : DataModelD := {| dm_fields := [("name", name_entry)]; dm_bias := 476 # 100 |}.

Definition setup_weights : list Q := [(-10302742719650269) # 10000000000000000].

(** [fieldDistances] is total and well-shaped on every model
    [DataModel] builds without [Categorical] or [Source] fields: one row
    per pair, one value per column (an indicator column always finds its
    field).  In particular the model of [test_score_duplicates] has one
    column, and on any record pairs [fieldDistances] gives one row per
    pair holding the normalized affine-gap distance of the names, 0
    when a name is missing. *)
Theorem score_model_rows ag other pairs :
  (∀ spec dm (pairs' : list (Record * Record)), DataModel (Some spec) = inr dm →
     Forall (λ c, e_type c.2 ≠ FCategorical ∧ e_type c.2 ≠ FSource) (dm_fields dm) →
     ∃ rows, fieldDistances ag other pairs' dm = Some rows ∧ length rows = length pairs' ∧
       Forall (λ row, length row = length (dm_fields dm)) rows) ∧
  ∃ dm rows, score_model = inr dm ∧ length (dm_fields dm) = 1%nat ∧
    fieldDistances ag other pairs dm = Some rows ∧
    Forall2 (λ p row, row = [string_distance ag p.1 p.2 "name"]) pairs rows.
Proof.
  split.
  { intros spec dm pairs' Hdm Hcs. destruct (fieldDistances_total ag other spec dm pairs' Hdm Hcs) as [rows Hr].
    exists rows. split; [done|]. by apply (fieldDistances_shape ag other pairs'). }
  rewrite score_model_eq. eexists _, ((λ p, [string_distance ag p.1 p.2 "name"]) <$> pairs).
  split_and!; [done|done| |].
  - apply mapM_Some_2. induction pairs as [|[r1 r2] pairs IH]; constructor; [|done].
    apply name_row.
  - induction pairs; constructor; [done|done].
Qed.


Lemma name_scores ag other σ bias w {Id} (ids : list Id) recs :
  scoreDuplicates ag other σ ids recs {| dm_fields := [("name", name_entry)]; dm_bias := bias |} w =
  Some (zip ids ((λ p, σ (dot w [string_distance ag p.1 p.2 "name"] + bias)%Q) <$> recs)).
Proof.
  unfold scoreDuplicates. revert recs.
  induction ids as [|i ids IH]; intros [|[r1 r2] recs]; [done..|].
  cbn [zip mapM]. rewrite name_row, IH. reflexivity.
Qed.

(** [scoreDuplicates] on the test's streams pairs each id pair,
    in order, with [σ] of the weighted name distance plus the bias, so
    the test's assertion on the pairs holds whatever [σ] and the
    comparator's weights are; the first [CoreTest]'s fixtures, built by
    hand in [setUp], give the same scored pairs. *)
Theorem test_score_duplicates_pairs ag other σ :
  ∃ dm out, score_model = inr dm ∧
    scoreDuplicates ag other σ score_ids score_records dm score_weights = Some out ∧
    fst <$> out = [("1", "2"); ("2", "3"); ("4", "5"); ("6", "7"); ("8", "9")] ∧
    snd <$> out = (λ p, σ (dot score_weights [string_distance ag p.1 p.2 "name"] + score_bias)%Q) <$> score_records ∧
    scoreDuplicates ag other σ setup_ids setup_records setup_model setup_weights = Some out.
Proof.
  rewrite score_model_eq. eexists _, _. split_and!; [done|apply name_scores|done|done|apply name_scores].
Qed.
(** For the model of [test_data_model]'s spec with a field [a] that
    has missing data, a field [b] and their interaction, the row of any
    record pair is: the distance of [a], the indicator of [a], the
    distance of [b], the product of both distances, and the indicator
    of [a] and [b] together. *)
Theorem interaction_missing_row ag other r1 r2 :
  ∃ dm row, DataModel (Some DataModelTest.interaction_missing_spec) = inr dm ∧
    distance_row ag other dm (r1, r2) = Some row ∧
    Forall2 Qeq row
      [string_distance ag r1 r2 "a"; indicator r1 r2 ["a"]; string_distance ag r1 r2 "b";
       (string_distance ag r1 r2 "a" * string_distance ag r1 r2 "b")%Q; indicator r1 r2 ["a"; "b"]].
Proof.
  eexists _, _. split; [vm_compute; reflexivity|]. split.
  - unfold distance_row. cbv -[base_value present Qmult]. reflexivity.
  - rewrite !base_value_string by done. unfold indicator.
    repeat constructor; destruct (present r1 "a"), (present r2 "a"), (present r1 "b"), (present r2 "b");
      simpl; try reflexivity; ring.
Qed.

End ScoringTest.
