(* ===== verification/Sampling.v ===== *)
(** * Pair sampling: [randomPairs] and [randomPairsMatch]

    [convenience.dataSample] draws its index pairs from
    [dedupe.core.randomPairs] (one population) and
    [dedupe.core.randomPairsMatch] (two populations), code that is not
    under [src/]; they are modelled from spec sections 6-8.  A sample
    of [k] of the [m] possible pairs is drawn by [random.sample]
    (the class [Sampler], with the laws the client proofs use) from the
    pair indices [0 .. m-1]; an index is decoded into a pair in closed
    form, with an integer square root.  Requesting more pairs than
    exist raises [ValueError] when there is no pair at all and
    otherwise truncates to all [m] pairs with one warning reporting
    [m].  The random generator's state and the warning log are threaded
    through the [PyM] monad of the prelude. *)

From S2P Require Import Prelude PyDict Convenience.
From Stdlib Require Import NArith.
Local Open Scope N_scope.

(** ** Triangular numbers and the pair index *)

(** [n_records * (n_records - 1) / 2], the number of pairs. *)
Definition tri (n : N) : N := n * (n - 1) / 2.

(** Pair [(i, j)], [i < j], has index [tri j + i]: pairs are numbered
    by their larger element, then by the smaller one. *)
Definition index_of_pair (p : N * N) : N := tri p.2 + p.1.

(** The decoding: [j] is the largest with [tri j <= k], computed as
    [(1 + isqrt (8k + 1)) / 2]. *)
Definition pair_of_index (k : N) : N * N :=
  let j := (1 + N.sqrt (8 * k + 1)) / 2 in (k - tri j, j).

(** The pairs of [range(n_a) x range(n_b)], numbered row by row. *)
Definition match_pair_of_index (nb k : N) : N * N := (k / nb, k mod nb).

(** The reference enumeration: [for j in range(n): for i in range(j)]. *)
Fixpoint all_pairs (n : nat) : list (N * N) :=
  match n with
  | O => []
  | S n' => all_pairs n' ++ ((λ i, (N.of_nat i, N.of_nat n')) <$> seq 0 n')
  end.

Lemma tri_double n : 2 * tri n = n * (n - 1).
Proof.
  unfold tri. destruct (N.Even_or_Odd n) as [[a ->]|[a ->]].
  - replace (2 * a * (2 * a - 1)) with ((a * (2 * a - 1)) * 2) by lia.
    rewrite N.div_mul by lia. lia.
  - replace ((2 * a + 1) * (2 * a + 1 - 1)) with ((a * (2 * a + 1)) * 2) by lia.
    rewrite N.div_mul by lia. lia.
Qed.

Lemma tri_succ n : tri (n + 1) = tri n + n.
Proof. pose proof (tri_double n). pose proof (tri_double (n + 1)). nia. Qed.

Lemma tri_mono j j' : j < j' → tri (j + 1) ≤ tri j'.
Proof. intros. pose proof (tri_double (j + 1)). pose proof (tri_double j'). nia. Qed.

(** The square root brackets [k] between consecutive triangular numbers. *)
Lemma pair_of_index_bracket k :
  tri ((1 + N.sqrt (8 * k + 1)) / 2) ≤ k < tri ((1 + N.sqrt (8 * k + 1)) / 2 + 1).
Proof.
  pose proof (N.sqrt_spec (8 * k + 1) ltac:(lia)) as [Hlo Hhi].
  set (s := N.sqrt (8 * k + 1)) in *. set (j := (1 + s) / 2).
  assert (2 * j ≤ 1 + s ≤ 2 * j + 1) as [Hj1 Hj2].
  { unfold j. pose proof (N.div_mod (1 + s) 2 ltac:(lia)). pose proof (N.mod_lt (1 + s) 2 ltac:(lia)).
    set (q := (1 + s) / 2) in *. set (r := (1 + s) mod 2) in *. clearbody q r. lia. }
  clearbody j s.
  pose proof (tri_double j). pose proof (tri_double (j + 1)).
  split.
  - assert (j * (j - 1) ≤ 2 * k); [|lia].
    destruct (decide (j = 0)) as [->|Hj0]; [lia|].
    assert ((2 * j - 1) * (2 * j - 1) ≤ s * s) by (apply N.mul_le_mono; lia). nia.
  - assert (2 * k < (j + 1) * j); [|replace (j + 1 - 1) with j in * by lia; nia].
    assert (N.succ s * N.succ s ≤ (2 * j + 1) * (2 * j + 1)) by (apply N.mul_le_mono; lia). nia.
Qed.

(** [pair_of_index] is determined by the bracket. *)
Lemma pair_of_index_char k j : tri j ≤ k < tri (j + 1) → pair_of_index k = (k - tri j, j).
Proof.
  intros [Hlo Hhi]. unfold pair_of_index.
  pose proof (pair_of_index_bracket k) as [Hlo' Hhi'].
  set (j' := (1 + N.sqrt (8 * k + 1)) / 2) in *.
  assert (j' = j) as ->; [|done].
  destruct (N.lt_trichotomy j' j) as [Hlt|[Heq|Hgt]]; [|done|].
  - pose proof (tri_mono j' j Hlt). lia.
  - pose proof (tri_mono j j' Hgt). lia.
Qed.

Lemma length_all_pairs n : length (all_pairs n) = N.to_nat (tri (N.of_nat n)).
Proof.
  induction n as [|n IH]; [done|]. simpl. rewrite length_app, length_fmap, length_seq, IH.
  replace (N.of_nat (S n)) with (N.of_nat n + 1) by lia. rewrite tri_succ. lia.
Qed.

(** ** The sampler and the sampling state *)

(** [random.sample(range(m), k)] for [k <= m], drawn from the
    generator's state [R]: [k] distinct indices below [m].  The laws
    are what [random.sample] promises; the client proofs use nothing
    else of it. *)
Class Sampler (R : Type) := {
  rsample : N → N → R → list N * R;
  rsample_length m k r : k ≤ m → length (rsample m k r).1 = N.to_nat k;
  rsample_NoDup m k r : k ≤ m → NoDup (rsample m k r).1;
  rsample_range m k r : k ≤ m → Forall (λ x, x < m) (rsample m k r).1
}.

(** The interpreter state the samplers touch: the global random
    generator and the warnings emitted so far. *)
Record SampSt (R : Type) := mkSampSt { ss_rng : R; ss_warnings : list string }.
Arguments mkSampSt {R}.
Arguments ss_rng {R}.
Arguments ss_warnings {R}.

(** The warning [test_data_sample] expects (line 86). *)
Definition truncation_warning (k m : N) : string :=
  "Requested sample of size " +:+ pretty k +:+ ", only returning " +:+ pretty m +:+ " possible pairs".

Section Sampling.
Context `{Sampler R}.
Local Open Scope dedupe_scope.

(** [k] of the pair indices [0 .. m-1]: more than [m] truncates to all
    of them with one warning, unless there is none, which raises. *)
Definition sample_indices (m k : N) : PyM (SampSt R) (list N) :=
  if decide (m < k) then
    if decide (m = 0) then praise (ValueError "sample larger than population")
    else pmodify (λ s, mkSampSt (ss_rng s) (ss_warnings s ++ [truncation_warning k m])) ;;;
         pret (N.of_nat <$> seq 0 (N.to_nat m))
  else λ s, let '(xs, r) := rsample m k (ss_rng s) in (mkSampSt r (ss_warnings s), inr xs).

(** [dedupe.core.randomPairs(n_records, sample_size)]. *)
Definition randomPairs (n k : N) : PyM (SampSt R) (list (N * N)) :=
  ks <- sample_indices (tri n) k ;; pret (pair_of_index <$> ks).

(** [dedupe.core.randomPairsMatch(n_records_A, n_records_B, sample_size)]. *)
Definition randomPairsMatch (na nb k : N) : PyM (SampSt R) (list (N * N)) :=
  ks <- sample_indices (na * nb) k ;; pret (match_pair_of_index nb <$> ks).
End Sampling.

(** ** The pair index *)

Lemma tri_le n n' : n ≤ n' → tri n ≤ tri n'.
Proof. intros. pose proof (tri_double n). pose proof (tri_double n'). nia. Qed.

Lemma tri_zero n : tri n = 0 ↔ n ≤ 1.
Proof. pose proof (tri_double n). nia. Qed.

Lemma index_of_pair_of_index k : index_of_pair (pair_of_index k) = k.
Proof.
  unfold index_of_pair, pair_of_index. simpl.
  pose proof (pair_of_index_bracket k) as [? _]. lia.
Qed.

Lemma pair_of_index_of_pair i j : i < j → pair_of_index (index_of_pair (i, j)) = (i, j).
Proof.
  intros Hij. unfold index_of_pair. simpl. rewrite (pair_of_index_char _ j).
  - f_equal. lia.
  - rewrite tri_succ. lia.
Qed.

Lemma pair_of_index_lt k : (pair_of_index k).1 < (pair_of_index k).2.
Proof.
  unfold pair_of_index. simpl. pose proof (pair_of_index_bracket k) as [? Hhi].
  rewrite tri_succ in Hhi. lia.
Qed.

Lemma pair_of_index_range n k : k < tri n ↔ (pair_of_index k).2 < n.
Proof.
  unfold pair_of_index. simpl. pose proof (pair_of_index_bracket k) as [Hlo Hhi].
  set (j := (1 + N.sqrt (8 * k + 1)) / 2) in *. split; intros Hk.
  - destruct (N.lt_ge_cases j n) as [|Hn]; [done|]. pose proof (tri_le n j Hn). lia.
  - pose proof (tri_mono j n Hk). lia.
Qed.

#[export] Instance pair_of_index_inj : Inj (=) (=) pair_of_index.
Proof. intros k k' E. by rewrite <-(index_of_pair_of_index k), E, index_of_pair_of_index. Qed.

Lemma all_pairs_lookup n p :
  (p < length (all_pairs n))%nat → all_pairs n !! p = Some (pair_of_index (N.of_nat p)).
Proof.
  induction n as [|n IH]; simpl; [lia|]. intros Hp.
  destruct (decide (p < length (all_pairs n)))%nat as [Hl|Hl].
  { rewrite lookup_app_l by done. by apply IH. }
  rewrite lookup_app_r by lia. rewrite length_all_pairs in *.
  rewrite length_app, length_fmap, length_seq, length_all_pairs in Hp.
  rewrite list_lookup_fmap, lookup_seq_lt by lia. simpl. f_equal.
  rewrite (pair_of_index_char _ (N.of_nat n)); [f_equal; lia|].
  rewrite tri_succ. lia.
Qed.

Lemma match_pair_of_index_range na nb k :
  k < na * nb → (match_pair_of_index nb k).1 < na ∧ (match_pair_of_index nb k).2 < nb.
Proof.
  intros Hk. assert (nb ≠ 0) by lia. unfold match_pair_of_index. simpl. split.
  - apply N.Div0.div_lt_upper_bound. lia.
  - by apply N.mod_lt.
Qed.

Lemma match_pair_of_index_inj nb k k' :
  nb ≠ 0 → match_pair_of_index nb k = match_pair_of_index nb k' → k = k'.
Proof.
  unfold match_pair_of_index. intros Hnb [= Hd Hm].
  rewrite (N.div_mod k nb Hnb), (N.div_mod k' nb Hnb), Hd, Hm. done.
Qed.

(** ** Sampling *)

Section SamplingFacts.
Context `{Sampler R}.

(** What a successful draw of [k] of [m] indices gives: [min k m]
    distinct indices below [m], and the truncation warning exactly when
    [k > m]. *)
Definition drawn (m k : N) (s s' : SampSt R) (xs : list N) : Prop :=
  length xs = N.to_nat (N.min k m) ∧ NoDup xs ∧ Forall (λ x, x < m) xs ∧
  ss_warnings s' = ss_warnings s ++ (if decide (m < k) then [truncation_warning k m] else []).

Lemma sample_indices_spec m k s :
  (m = 0 ∧ 0 < k ∧ sample_indices m k s = (s, inl (ValueError "sample larger than population"))) ∨
  (¬ (m = 0 ∧ 0 < k) ∧ ∃ s' xs, sample_indices m k s = (s', inr xs) ∧ drawn m k s s' xs).
Proof.
  unfold sample_indices, drawn. destruct (decide (m < k)) as [Hlt|Hge].
  - destruct (decide (m = 0)) as [->|Hm]; [left; split_and!; [done|lia|done]|].
    right. split; [lia|]. pysimpl. eexists _, _. split; [done|]. simpl. split_and!.
    + rewrite length_fmap, length_seq. lia.
    + apply NoDup_fmap_2; [apply _|apply NoDup_seq].
    + apply Forall_fmap, Forall_seq. intros x Hx. simpl. lia.
    + done.
  - right. split; [lia|]. destruct (rsample m k (ss_rng s)) as [xs r] eqn:E.
    pose proof (rsample_length m k (ss_rng s)) as Hl. pose proof (rsample_NoDup m k (ss_rng s)) as Hn.
    pose proof (rsample_range m k (ss_rng s)) as Hr. rewrite E in Hl, Hn, Hr. simpl in *.
    eexists _, _. split; [done|]. split_and!; [rewrite Hl; lia|apply Hn; lia|apply Hr; lia|].
    simpl. by rewrite app_nil_r.
Qed.

(** A draw decoded by an injective map keeps its count and distinctness. *)
Lemma drawn_fmap {A} (f : N → A) m k s s' xs :
  (∀ x y, x < m → y < m → f x = f y → x = y) → drawn m k s s' xs →
  length (f <$> xs) = N.to_nat (N.min k m) ∧ NoDup (f <$> xs).
Proof.
  intros Hf (Hl & Hn & Hr & _). rewrite length_fmap. split; [done|]. clear Hl.
  induction xs as [|x xs IH]; simpl; [constructor|].
  apply NoDup_cons in Hn as [Hx Hn]. apply Forall_cons in Hr as [Hxm Hr].
  constructor; [|by apply IH].
  intros (y & Hy & Hin)%list_elem_of_fmap. apply Hx.
  rewrite Forall_forall in Hr. by rewrite (Hf x y Hxm (Hr y Hin) Hy).
Qed.

Lemma randomPairs_cases n k s :
  (n ≤ 1 ∧ 0 < k ∧ randomPairs n k s = (s, inl (ValueError "sample larger than population"))) ∨
  (¬ (n ≤ 1 ∧ 0 < k) ∧ ∃ s' ps, randomPairs n k s = (s', inr ps) ∧
     length ps = N.to_nat (N.min k (tri n)) ∧ NoDup ps ∧ (∀ i j, (i, j) ∈ ps → i < j < n) ∧
     ss_warnings s' = ss_warnings s ++ (if decide (tri n < k) then [truncation_warning k (tri n)] else [])).
Proof.
  unfold randomPairs, pbind. rewrite <-(tri_zero n).
  destruct (sample_indices_spec (tri n) k s) as [(Hm & Hk & ->)|(Hne & s' & xs & -> & Hd)].
  { by left. }
  right. split; [done|]. exists s', (pair_of_index <$> xs). split; [done|].
  destruct (drawn_fmap pair_of_index _ _ _ _ _ (λ x y _ _, inj pair_of_index x y) Hd) as [Hl Hn].
  destruct Hd as (_ & _ & Hr & Hw). split_and!; [done|done| |done].
  intros i j (x & Hx & Hin)%list_elem_of_fmap. rewrite Forall_forall in Hr.
  pose proof (pair_of_index_lt x). pose proof (proj1 (pair_of_index_range n x) (Hr x Hin)).
  rewrite <-Hx in *. simpl in *. lia.
Qed.

Lemma randomPairsMatch_cases na nb k s :
  (na * nb = 0 ∧ 0 < k ∧ randomPairsMatch na nb k s = (s, inl (ValueError "sample larger than population"))) ∨
  (¬ (na * nb = 0 ∧ 0 < k) ∧ ∃ s' ps, randomPairsMatch na nb k s = (s', inr ps) ∧
     length ps = N.to_nat (N.min k (na * nb)) ∧ NoDup ps ∧ (∀ i j, (i, j) ∈ ps → i < na ∧ j < nb) ∧
     ss_warnings s' = ss_warnings s ++ (if decide (na * nb < k) then [truncation_warning k (na * nb)] else [])).
Proof.
  unfold randomPairsMatch, pbind.
  destruct (sample_indices_spec (na * nb) k s) as [(Hm & Hk & ->)|(Hne & s' & xs & -> & Hd)].
  { by left. }
  right. split; [done|]. exists s', (match_pair_of_index nb <$> xs). split; [done|].
  destruct (drawn_fmap (match_pair_of_index nb) (na * nb) k s s' xs
              (λ x y Hx _, match_pair_of_index_inj nb x y ltac:(nia)) Hd) as [Hl Hn].
  destruct Hd as (_ & _ & Hr & Hw). split_and!; [done|done| |done].
  intros i j (x & Hx & Hin)%list_elem_of_fmap. rewrite Forall_forall in Hr.
  pose proof (match_pair_of_index_range na nb x (Hr x Hin)). by rewrite <-Hx in *.
Qed.
End SamplingFacts.

(** ** The pair index and the samplers *)

(** Decoding the indices [0 .. n(n-1)/2 - 1] in order with the
    square-root formula gives exactly the reference enumeration
    [for j in range(n): for i in range(j): (i, j)]. *)
Theorem pair_of_index_enumeration n :
  pair_of_index <$> (N.of_nat <$> seq 0 (N.to_nat (tri (N.of_nat n)))) = all_pairs n.
Proof.
  apply list_eq. intros p. rewrite !list_lookup_fmap.
  destruct (decide (p < N.to_nat (tri (N.of_nat n))))%nat as [Hp|Hp].
  - rewrite lookup_seq_lt by done. simpl. rewrite all_pairs_lookup; [done|].
    by rewrite length_all_pairs.
  - rewrite lookup_seq_ge by lia. symmetry. apply lookup_ge_None. rewrite length_all_pairs. lia.
Qed.

Section SamplingSpec.
Context `{Sampler R}.

(** C18: [randomPairs(n, k)] raises [ValueError] exactly when there is
    no pair ([n <= 1]) and [k > 0], leaving the state unchanged;
    otherwise it returns [min(k, n(n-1)/2)] distinct pairs [(i, j)],
    [i < j < n], and emits the truncation warning reporting
    [n(n-1)/2] exactly when [k] exceeds it.  [randomPairsMatch(na, nb, k)]
    does the same with the [na * nb] pairs of [range(na) x range(nb)]. *)
Theorem sampling_spec n na nb k s :
  ((n ≤ 1 ∧ 0 < k ∧ randomPairs n k s = (s, inl (ValueError "sample larger than population"))) ∨
   (¬ (n ≤ 1 ∧ 0 < k) ∧ ∃ s' ps, randomPairs n k s = (s', inr ps) ∧
      length ps = N.to_nat (N.min k (tri n)) ∧ NoDup ps ∧ (∀ i j, (i, j) ∈ ps → i < j < n) ∧
      ss_warnings s' = ss_warnings s ++
        (if decide (tri n < k) then [truncation_warning k (tri n)] else []))) ∧
  ((na * nb = 0 ∧ 0 < k ∧ randomPairsMatch na nb k s = (s, inl (ValueError "sample larger than population"))) ∨
   (¬ (na * nb = 0 ∧ 0 < k) ∧ ∃ s' ps, randomPairsMatch na nb k s = (s', inr ps) ∧
      length ps = N.to_nat (N.min k (na * nb)) ∧ NoDup ps ∧ (∀ i j, (i, j) ∈ ps → i < na ∧ j < nb) ∧
      ss_warnings s' = ss_warnings s ++
        (if decide (na * nb < k) then [truncation_warning k (na * nb)] else []))).
Proof. split; [apply randomPairs_cases|apply randomPairsMatch_cases]. Qed.
End SamplingSpec.

(** ** [dataSample] with the samplers *)

Section DataSampleRun.
Context `{Sampler R} {Id : Type}.
Local Open Scope dedupe_scope.

(** The sampled pairs as the [int(k1), int(k2)] of lines 30 and 34 read them. *)
Definition nat_pairs (ps : list (N * N)) : list (nat * nat) := (λ p, (N.to_nat p.1, N.to_nat p.2)) <$> ps.

(** The call of line 32, [dedupe.core.randomPairs(len(data_list), sample_size)],
    in the random state [s]. *)
Definition rp_py (s : SampSt R) (n k : nat) : exn + list (nat * nat) :=
  match (randomPairs (N.of_nat n) (N.of_nat k) s).2 with
  | inl e => inl e
  | inr ps => inr (nat_pairs ps)
  end.

(** The call of line 28, [dedupe.core.randomPairsMatch(len(data_list_A), len(data_list_B), sample_size)]. *)
Definition rpm_py (s : SampSt R) (na nb k : nat) : exn + list (nat * nat) :=
  match (randomPairsMatch (N.of_nat na) (N.of_nat nb) (N.of_nat k) s).2 with
  | inl e => inl e
  | inr ps => inr (nat_pairs ps)
  end.

(** [dataSample] run in the interpreter's state: the random generator
    the sampler advances and the warnings it emits. *)
Definition dataSampleM (data : DataD Id PRec) (sample_size : nat) : PyM (SampSt R) (list (PRec * PRec)) :=
  let data_list := dvalues (dd_items data) in
  match dd_constrained data with
  | None => praise (AttributeError "constrained")
  | Some true =>
      ab <- plift (split_datasets data_list) ;;
      ps <- randomPairsMatch (N.of_nat (length ab.1)) (N.of_nat (length ab.2)) (N.of_nat sample_size) ;;
      plift (pair_up ab.1 ab.2 (nat_pairs ps))
  | Some false =>
      ps <- randomPairs (N.of_nat (length data_list)) (N.of_nat sample_size) ;;
      plift (pair_up data_list data_list (nat_pairs ps))
  end.

(** The run's result is [dataSample] with the samplers fixed at the
    state the run starts in: [dataSample] calls one sampler, once. *)
Lemma dataSampleM_result data k s :
  (dataSampleM data k s).2 = dataSample (rp_py s) (rpm_py s) data k.
Proof.
  unfold dataSampleM, dataSample, rp_py, rpm_py. pysimpl.
  destruct (dd_constrained data) as [[]|]; [|by destruct (randomPairs _ _ s) as [? []]|done].
  destruct (split_datasets _) as [e|[a b]]; [done|]. simpl.
  by destruct (randomPairsMatch _ _ _ s) as [? []].
Qed.

Lemma nat_pairs_NoDup ps : NoDup ps → NoDup (nat_pairs ps).
Proof.
  apply NoDup_fmap_2. intros [i j] [i' j'] [= Hi Hj]. f_equal; lia.
Qed.

(** Index pairs in range make [pair_up] return one pair per index pair. *)
Lemma pair_up_nat_pairs {V} (xs ys : list V) ps :
  (∀ i j, (i, j) ∈ ps → N.to_nat i < length xs ∧ N.to_nat j < length ys)%nat →
  ∃ out, pair_up xs ys (nat_pairs ps) = inr out ∧ length out = length ps ∧
    ∀ p i j, nat_pairs ps !! p = Some (i, j) →
      ∃ a b, out !! p = Some (a, b) ∧ xs !! i = Some a ∧ ys !! j = Some b.
Proof.
  intros Hin. destruct (pair_up_total xs ys (nat_pairs ps)) as [out Hout].
  { intros i j ([i' j'] & [= -> ->] & Hp)%list_elem_of_fmap. by apply Hin. }
  destruct (pair_up_ok _ _ _ _ Hout) as [Hl Hn]. exists out. split_and!; [done| |done].
  by rewrite Hl; unfold nat_pairs; rewrite length_fmap.
Qed.
End DataSampleRun.

(** The closed-form decoding of a pair index and [index_of_pair]
    are inverse: every index is the index of its pair, every pair
    [i < j] is the pair of its index, and the indices below
    [n(n-1)/2] are exactly those of the pairs [i < j < n].  So the
    literal [randomPairs(10, 5)] of [test_random_pair] (lines 55-59) is
    what [randomPairs] returns when [random.sample] answers the five
    distinct indices of its pairs, all below 45. *)
Theorem pair_index_roundtrip n :
  (∀ k, index_of_pair (pair_of_index k) = k) ∧
  (∀ i j, i < j → pair_of_index (index_of_pair (i, j)) = (i, j)) ∧
  (∀ k, k < tri n ↔ (pair_of_index k).1 < (pair_of_index k).2 < n) ∧
  (∀ ps, Fixtures.random_pairs_10_5 10 5 = inr ps →
     let ks := index_of_pair <$> ((λ p, (N.of_nat p.1, N.of_nat p.2)) <$> ps) in
     NoDup ks ∧ Forall (λ k, k < tri 10) ks ∧ nat_pairs (pair_of_index <$> ks) = ps).
Proof.
  split_and!; [apply index_of_pair_of_index|apply pair_of_index_of_pair| |].
  - intros k. rewrite pair_of_index_range. pose proof (pair_of_index_lt k). lia.
  - intros ps [= <-]. cbv zeta. split_and!.
    + apply (bool_decide_unpack _ (dec := NoDup_dec _)). by vm_compute.
    + apply Forall_forall. intros k Hk. vm_compute in Hk. change (tri 10) with 45. set_solver.
    + by vm_compute.
Qed.

Section Composition.
Context `{Sampler R} {Id : Type}.

Lemma dataSampleM_unconstrained (data : DataD Id PRec) k s :
  dd_constrained data = Some false →
  let L := dvalues (dd_items data) in
  ((length L ≤ 1 ∧ 0 < k)%nat ∧ dataSampleM data k s = (s, inl (ValueError "sample larger than population")) ∨
   ¬ (length L ≤ 1 ∧ 0 < k)%nat ∧
   ∃ s' out idx, dataSampleM data k s = (s', inr out) ∧
     length out = N.to_nat (N.min (N.of_nat k) (tri (N.of_nat (length L)))) ∧
     NoDup idx ∧ length idx = length out ∧
     (∀ p i j, idx !! p = Some (i, j) →
        (i < j)%nat ∧ ∃ a b, out !! p = Some (a, b) ∧ L !! i = Some a ∧ L !! j = Some b) ∧
     ss_warnings s' = ss_warnings s ++
       (if decide (tri (N.of_nat (length L)) < N.of_nat k) then
          [truncation_warning (N.of_nat k) (tri (N.of_nat (length L)))] else [])).
Proof.
  intros Hc L.
  unfold dataSampleM. rewrite Hc. fold L. unfold pbind.
  destruct (randomPairs_cases (N.of_nat (length L)) (N.of_nat k) s)
    as [(Hn & Hk & ->)|(Hne & s' & ps & -> & Hl & Hnd & Hr & Hw)].
  { left. split; [lia|done]. }
  right. split; [lia|].
  destruct (pair_up_nat_pairs L L ps) as (out & Hout & Hlo & Hp).
  { intros i j Hij. pose proof (Hr i j Hij). lia. }
  exists s', out, (nat_pairs ps). simpl. rewrite Hout. split_and!; [done|lia|by apply nat_pairs_NoDup| | |done].
  - unfold nat_pairs. by rewrite length_fmap.
  - intros p i j Hpij. split; [|by apply Hp].
    unfold nat_pairs in Hpij. apply list_lookup_fmap_Some_1 in Hpij as ([i' j'] & [= -> ->] & Hin).
    apply list_elem_of_lookup_2 in Hin. pose proof (Hr i' j' Hin). simpl. lia.
Qed.
(** C17: [dataSample] on unconstrained data, with [randomPairs] drawing
    from any generator that keeps [random.sample]'s promises: it is the
    pure model with the samplers fixed at the starting state; it raises
    [ValueError] exactly when there are at most one record and at least
    one requested pair; otherwise it never raises (no [IndexError]) and
    returns [min(sample_size, n(n-1)/2)] pairs of records at positions
    [i < j] of [data.values()], no two at the same positions, emitting
    the truncation warning exactly when more pairs are requested than
    exist. *)
Theorem dataSample_random_pairs (data : DataD Id PRec) k s :
  dd_constrained data = Some false →
  (dataSampleM data k s).2 = dataSample (rp_py s) (rpm_py s) data k ∧
  let L := dvalues (dd_items data) in
  ((length L ≤ 1 ∧ 0 < k)%nat ∧ dataSampleM data k s = (s, inl (ValueError "sample larger than population")) ∨
   ¬ (length L ≤ 1 ∧ 0 < k)%nat ∧
   ∃ s' out idx, dataSampleM data k s = (s', inr out) ∧
     length out = N.to_nat (N.min (N.of_nat k) (tri (N.of_nat (length L)))) ∧
     NoDup idx ∧ length idx = length out ∧
     (∀ p i j, idx !! p = Some (i, j) →
        (i < j)%nat ∧ ∃ a b, out !! p = Some (a, b) ∧ L !! i = Some a ∧ L !! j = Some b) ∧
     ss_warnings s' = ss_warnings s ++
       (if decide (tri (N.of_nat (length L)) < N.of_nat k) then
          [truncation_warning (N.of_nat k) (tri (N.of_nat (length L)))] else [])).
Proof. intros Hc. split; [apply dataSampleM_result|]. by apply dataSampleM_unconstrained. Qed.


(** C24: [dataSample] on constrained data, with [randomPairsMatch]
    drawing from any generator that keeps [random.sample]'s promises:
    it raises [KeyError 'dataset'] when a record has no [dataset];
    otherwise, with [A] the records of dataset 0 and [B] the others, it
    raises [ValueError] exactly when one of them is empty and pairs are
    requested, and else returns [min(sample_size, |A| * |B|)] pairs of a
    record of [A] and a record of [B], no two at the same positions,
    emitting the truncation warning exactly when more are requested. *)
Theorem dataSample_random_pairs_match (data : DataD Id PRec) k s :
  dd_constrained data = Some true →
  let L := dvalues (dd_items data) in
  let A := filter is_A L in
  let B := filter (λ r, ¬ is_A r) L in
  ((∃ r, r ∈ L ∧ r !! "dataset" = None) ∧ dataSampleM data k s = (s, inl (KeyError "dataset"))) ∨
  (Forall (λ r, is_Some (r !! "dataset")) L ∧ (length A * length B = 0 ∧ 0 < k)%nat ∧
     dataSampleM data k s = (s, inl (ValueError "sample larger than population"))) ∨
  (Forall (λ r, is_Some (r !! "dataset")) L ∧ ¬ (length A * length B = 0 ∧ 0 < k)%nat ∧
   ∃ s' out idx, dataSampleM data k s = (s', inr out) ∧
     length out = N.to_nat (N.min (N.of_nat k) (N.of_nat (length A) * N.of_nat (length B))) ∧
     NoDup idx ∧ length idx = length out ∧
     (∀ p i j, idx !! p = Some (i, j) → ∃ a b, out !! p = Some (a, b) ∧ A !! i = Some a ∧ B !! j = Some b) ∧
     ss_warnings s' = ss_warnings s ++
       (if decide (N.of_nat (length A) * N.of_nat (length B) < N.of_nat k) then
          [truncation_warning (N.of_nat k) (N.of_nat (length A) * N.of_nat (length B))] else [])).
Proof.
  intros Hc L A B. unfold dataSampleM. rewrite Hc. fold L. unfold pbind, plift.
  destruct (split_datasets L) as [e|[a b]] eqn:Hs.
  { left. destruct (split_datasets_err _ _ Hs) as [-> ?]. by split. }
  destruct (split_datasets_ok _ _ _ Hs) as (-> & -> & Hall). fold A B. simpl.
  destruct (randomPairsMatch_cases (N.of_nat (length A)) (N.of_nat (length B)) (N.of_nat k) s)
    as [(Hn & Hk & ->)|(Hne & s' & ps & -> & Hl & Hnd & Hr & Hw)].
  { right; left. split_and!; [done|nia|lia|done]. }
  right; right. split; [done|]. split; [nia|].
  destruct (pair_up_nat_pairs A B ps) as (out & Hout & Hlo & Hp).
  { intros i j Hij. pose proof (Hr i j Hij). lia. }
  exists s', out, (nat_pairs ps). rewrite Hout. split_and!; [done|lia|by apply nat_pairs_NoDup| |done|done].
  unfold nat_pairs. by rewrite length_fmap.
Qed.
End Composition.

(** ** The sampling tests of [src/test/test_dedupe.py] *)

Module SamplingTest.
Import Fixtures.
Local Open Scope dedupe_scope.

(** [numpy.ndarray.any()] of the returned array: some entry is not 0. *)
Definition any_pairs (r : exn + list (N * N)) : bool :=
  match r with
  | inr ps => existsb (λ p, bool_decide (p.1 ≠ 0 ∨ p.2 ≠ 0)) ps
  | inl _ => false
  end.

(** [assertRaises(ValueError, ...)]. *)
Definition raises_ValueError {A} (r : exn + A) : bool :=
  match r with inl (ValueError _) => true | _ => false end.

(** [test_random_pair] (lines 258-262, and lines 50-53 of the shadowed
    first [CoreTest]): the calls in order, each in the state the
    previous one left.  The last assertion compares with a literal that
    only the generator's seed determines and is not modelled. *)
Definition test_random_pair `{Sampler R} (s : SampSt R) : bool :=
  let '(s1, r1) := randomPairs 1 10 s in
  let '(s2, r2) := randomPairs 10 10 s1 in
  let '(_, r3) := randomPairs (10 * 1000000000) 10 s2 in
  raises_ValueError r1 && any_pairs r2 && any_pairs r3.

(** The tuple [test_data_sample] expects from [dataSample(DATA, 5)] (lines 76-80). *)
Definition expected_sample : list (PRec * PRec) :=
  [(prec "Kyle" "27", prec "Bob" "50"); (prec "Kyle" "27", prec "William" "35");
   (prec "Sue" "10", prec "William" "35"); (prec "Kyle" "27", prec "Jimmy" "20");
   (prec "Charlie" "75", prec "Jimbo" "21")].

(** [test_data_sample] (lines 73-86): the sample, then the warnings
    recorded while sampling 10000 pairs. *)
Definition test_data_sample `{Sampler R} (data : DataD nat PRec) (s : SampSt R) : bool :=
  let '(s1, r1) := dataSampleM data 5 s in
  bool_decide (r1 = inr expected_sample) &&
  let '(s2, _) := dataSampleM data 10000 s1 in
  bool_decide (drop (length (ss_warnings s1)) (ss_warnings s2) =
               ["Requested sample of size 10000, only returning 45 possible pairs"]).

(** [DedupeClassTest.setUp] (lines 217-223): [dataSample(DATA, 6)]
    after [random.seed(123)], the sample the Dedupe object is built on. *)
Definition dedupe_class_sample `{Sampler R} (s : SampSt R) : exn + list (PRec * PRec) :=
  (dataSampleM DATA_P 6 s).2.

Lemma any_pairs_ok (n : N) ps :
  ps ≠ [] → (∀ i j, (i, j) ∈ ps → i < j < n) → any_pairs (inr ps) = true.
Proof.
  destruct ps as [|[i j] ps]; [done|]. intros _ Hr. simpl.
  pose proof (Hr i j (list_elem_of_here _ _)). apply orb_true_intro. left.
  apply bool_decide_eq_true. right. simpl. lia.
Qed.

Lemma randomPairs_any `{Sampler R} n k s : 1 < n → 0 < k → any_pairs (randomPairs n k s).2 = true.
Proof.
  intros Hn Hk. destruct (randomPairs_cases n k s) as [(? & _)|(_ & s' & ps & -> & Hl & _ & Hr & _)]; [lia|].
  apply (any_pairs_ok n); [|done]. intros ->. simpl in Hl.
  pose proof (tri_le 2 n ltac:(lia)). assert (tri 2 = 1) by reflexivity. lia.
Qed.

(** C28: [test_random_pair]'s assertions that do not depend on the seed
    hold whatever generator keeps [random.sample]'s promises;
    [test_data_sample] fails, since [dataSample(DATA, 5)] raises
    [AttributeError] on the plain [dict] [DATA], and so does the
    [setUp] of [DedupeClassTest]; on [DATA] with
    [constrained = False], the data [dataSample] is written for,
    sampling 10000 pairs returns the 45 pairs and records exactly the
    one warning the test expects. *)
Theorem sampling_tests `{Sampler R} (s : SampSt R) :
  test_random_pair s = true ∧
  (dataSampleM DATA_P 5 s).2 = inl (AttributeError "constrained") ∧ test_data_sample DATA_P s = false ∧
  dedupe_class_sample s = inl (AttributeError "constrained") ∧
  ∃ out, dataSampleM (mkDataD (dd_items DATA_P) (Some false)) 10000 s =
    (mkSampSt (ss_rng s) (ss_warnings s ++ ["Requested sample of size 10000, only returning 45 possible pairs"]),
     inr out) ∧ length out = 45%nat.
Proof.
  split_and!; [|done|done|done|].
  - unfold test_random_pair.
    destruct (randomPairs_cases 1 10 s) as [(_ & _ & ->)|[Hc _]]; [|lia].
    pose proof (randomPairs_any 10 10 s ltac:(lia) ltac:(lia)) as A2.
    destruct (randomPairs 10 10 s) as [s2 r2]. simpl in A2.
    pose proof (randomPairs_any (10 * 1000000000) 10 s2 ltac:(lia) ltac:(lia)) as A3.
    destruct (randomPairs (10 * 1000000000) 10 s2) as [s3 r3]. simpl in *. by rewrite A2, A3.
  - set (L := dvalues (dd_items DATA_P)). set (ps := pair_of_index <$> (N.of_nat <$> seq 0 45)).
    assert (Hrp : randomPairs 10 10000 s =
              (mkSampSt (ss_rng s) (ss_warnings s ++ [truncation_warning 10000 45]), inr ps)) by reflexivity.
    destruct (pair_up_nat_pairs L L ps) as (out & Hout & Hl & _).
    { intros i j (y & Hx & (x & -> & Hin)%list_elem_of_fmap)%list_elem_of_fmap.
      apply elem_of_seq in Hin.
      pose proof (pair_of_index_lt (N.of_nat x)).
      pose proof (proj1 (pair_of_index_range 10 (N.of_nat x)) ltac:(change (tri 10) with 45; lia)).
      rewrite <-Hx in *. change (length L) with 10%nat. simpl in *. lia. }
    exists out. split; [|rewrite Hl; unfold ps; by rewrite !length_fmap, length_seq].
    assert (Hw : truncation_warning 10000 45 = "Requested sample of size 10000, only returning 45 possible pairs")
      by (vm_compute; reflexivity).
    unfold dataSampleM, pbind. cbn [dd_constrained dd_items]. fold L.
    change (N.of_nat (length L)) with 10. change (N.of_nat 10000%nat) with 10000.
    rewrite Hrp. cbv beta iota. unfold plift. rewrite Hout, Hw. reflexivity.
Qed.

(** A generator for the witnesses: [random.sample] answering the first
    [k] indices. *)
Definition prefix_sample (m k : N) (r : unit) : list N * unit := (N.of_nat <$> seq 0 (N.to_nat k), r).

Lemma prefix_sample_laws m k r : k ≤ m →
  length (prefix_sample m k r).1 = N.to_nat k ∧ NoDup (prefix_sample m k r).1 ∧
  Forall (λ x, x < m) (prefix_sample m k r).1.
Proof.
  intros Hk. simpl. split_and!.
  - by rewrite length_fmap, length_seq.
  - apply NoDup_fmap_2; [apply _|apply NoDup_seq].
  - apply Forall_fmap, Forall_seq. intros x Hx. simpl. lia.
Qed.

#[local] Instance prefix_sampler : Sampler unit := {|
  rsample := prefix_sample;
  rsample_length m k r Hk := proj1 (prefix_sample_laws m k r Hk);
  rsample_NoDup m k r Hk := proj1 (proj2 (prefix_sample_laws m k r Hk));
  rsample_range m k r Hk := proj2 (proj2 (prefix_sample_laws m k r Hk))
|}.

Lemma dataSample_random_pairs_witness :
  dd_constrained (mkDataD (dd_items DATA_P) (Some false)) = Some false ∧
  ∃ s' out, dataSampleM (mkDataD (dd_items DATA_P) (Some false)) 5 (mkSampSt tt []) = (s', inr out) ∧
    length out = 5%nat.
Proof.
  split; [done|].
  pose proof (dataSample_random_pairs (mkDataD (dd_items DATA_P) (Some false)) 5 (mkSampSt tt []) eq_refl)
    as [_ HL].
  cbv zeta in HL. destruct HL as [[[Hn _] _]|(_ & s' & out & idx & Hrun & Hl & _)].
  - simpl in Hn. lia.
  - exists s', out. split; [done|]. rewrite Hl. reflexivity.
Defined.

Lemma dataSample_random_pairs_match_witness :
  dd_constrained DATA_D = Some true ∧
  ∃ s' out, dataSampleM DATA_D 3 (mkSampSt tt []) = (s', inr out) ∧ length out = 3%nat.
Proof.
  split; [done|].
  pose proof (dataSample_random_pairs_match DATA_D 3 (mkSampSt tt []) eq_refl) as HL.
  cbv zeta in HL. destruct HL as [[_ Hrun]|[(_ & _ & Hrun)|(_ & _ & s' & out & idx & Hrun & Hl & _)]].
  - apply (f_equal (λ r, is_ok r.2)) in Hrun. vm_compute in Hrun. discriminate.
  - apply (f_equal (λ r, is_ok r.2)) in Hrun. vm_compute in Hrun. discriminate.
  - exists s', out. split; [done|]. rewrite Hl. reflexivity.
Defined.

(** With [DATA] in its declaration order, no generator makes
    [dataSample] return the tuple [test_data_sample] expects: its first
    pair has [Kyle], the last record, before [Bob], the first, while
    every pair is of positions [i < j]. *)
Lemma expected_sample_unreachable `{Sampler R} s :
  (dataSampleM (mkDataD (dd_items DATA_P) (Some false)) 5 s).2 ≠ inr expected_sample.
Proof.
  pose proof (dataSampleM_unconstrained (mkDataD (dd_items DATA_P) (Some false)) 5 s eq_refl) as HL.
  cbv zeta in HL. destruct HL as [[[Hn _] _]|(_ & s' & out & idx & Hrun & Hl & _ & Hidx & Hp & _)].
  { simpl in Hn. lia. }
  rewrite Hrun. simpl. intros [= ->].
  destruct (lookup_lt_is_Some_2 idx 0%nat) as [[i j] Hij]; [rewrite Hidx; simpl; lia|].
  destruct (Hp 0%nat i j Hij) as (Hlt & a & b & Ha & Hi & Hj).
  change (expected_sample !! 0%nat) with (Some (prec "Kyle" "27", prec "Bob" "50")) in Ha. injection Ha as <- <-.
  cbn [dd_items] in Hi, Hj.
  assert (Hn : (λ r : PRec, r !! "name") <$> dvalues (dd_items DATA_P) !! i = Some (Some (PStr "Kyle")))
    by (rewrite Hi; reflexivity).
  apply lookup_lt_Some in Hj. change (length (dvalues (dd_items DATA_P))) with 10%nat in Hj.
  do 9 (destruct i as [|i]; [vm_compute in Hn; discriminate|]). lia.
Qed.
End SamplingTest.
