(* ===== verification/Lifecycle.v ===== *)
(** * The Blocker's lifecycle as a state machine

    A [Blocker] object lives on after [__init__]: the caller indexes
    and unindexes field values, indexes whole datasets and resets the
    indices between phases, in any order, and a method that raises
    leaves the object with the mutations it made before the exception,
    as Python does.  [step] is one such call, whatever its outcome;
    the states reachable from the object [__init__] built are those of
    [rtc step].  By rule induction, every reachable state keeps the
    invariant [wf_state], the compound predicates (so the ordinal
    [str(i)] in every block key is stable for the object's lifetime,
    spec section 3), the index predicates and the field and kind of
    every predicate object; [index_fields] only grows.  And from every
    reachable state, whatever happened before, [indexAll] on data
    with every indexed field makes every canopy predicate search-ready,
    after which [__call__] never raises. *)

From S2P Require Import Prelude PyDict CanopyIndex Predicates Blocker BlockerCall.
Local Open Scope dedupe_scope.

Section Lifecycle.
Context {I : Type} `{!CanopyIndex I} `{!CanopyIndexLaws I} {Id : Type}.
Implicit Types s : St I.

(** The calls that change a Blocker's state. *)
Inductive op :=
  | OIndex (data : list string) (field : string)
  | OUnindex (data : list string) (field : string)
  | OIndexAll (data_d : dict Id Rec)
  | OResetIndices.

Definition run_op (o : op) : PyM (St I) unit :=
  match o with
  | OIndex data f => index data f
  | OUnindex data f => unindex data f
  | OIndexAll data_d => indexAll data_d
  | OResetIndices => resetIndices
  end.

(** One call, returning or raising. *)
Inductive step : relation (St I) :=
  | step_op o s s' r : run_op o s = (s', r) → step s s'.

(** What a call keeps: the invariant, the compound predicates, the
    index predicates and the shapes of the predicate objects; the
    fields of [index_fields] are kept (new ones may be added). *)
Definition evolves s s' : Prop :=
  wf_state s' ∧ predicates (st_bl s') = predicates (st_bl s) ∧
  index_predicates (st_bl s') = index_predicates (st_bl s) ∧ shape_map s' = shape_map s ∧
  dkeys (index_fields (st_bl s)) ⊆ dkeys (index_fields (st_bl s')).

Lemma evolves_refl s : wf_state s → evolves s s.
Proof. intros Hwf. split_and!; done. Qed.

Lemma evolves_trans s1 s2 s3 : evolves s1 s2 → evolves s2 s3 → evolves s1 s3.
Proof.
  intros (_ & P1 & I1 & S1 & K1) (W2 & P2 & I2 & S2 & K2).
  split_and!; [done|congruence|congruence|congruence|set_solver].
Qed.

Lemma updated_evolves op finish data f s s' ids :
  wf_state s → updated op finish data f s s' ids → evolves s s'.
Proof.
  intros Hwf Hup. pose proof (up_bl _ _ _ _ _ _ _ Hup) as Hb.
  split_and!; [by eapply update_wf|by rewrite Hb|by rewrite Hb|by eapply updated_shape|].
  rewrite Hb. simpl. rewrite dkeys_dget_default. case_decide; [done|set_solver].
Qed.

Lemma update_evolves op finish data f s s' r :
  wf_state s → update op finish data f s = (s', r) → evolves s s'.
Proof.
  intros Hwf. destruct (update_run op finish data f s Hwf) as (s'' & ids & -> & Hup).
  intros [= <- _]. by eapply updated_evolves.
Qed.

Lemma reset_evolves s s' r : wf_state s → resetIndices s = (s', r) → evolves s s'.
Proof.
  intros Hwf. destruct (resetIndices_run s Hwf) as (s'' & -> & Hwf' & Hb & _ & _ & Hip & Hother).
  intros [= <- _]. split_and!; [done|by rewrite Hb|by rewrite Hb| |by rewrite Hb].
  apply map_eq. intros l. unfold shape_map. rewrite !lookup_fmap.
  destruct (decide (l ∈ index_predicates (st_bl s))) as [Hl|Hl]; [|by rewrite Hother].
  destruct (ipreds_alloc s l Hwf Hl) as [p Hp].
  destruct (Hip l p (conj Hl Hp)) as [_ ->]. by rewrite Hp.
Qed.

Lemma indexAll_loop_evolves (data_d : dict Id Rec) fs s s' r :
  wf_state s → pfor fs (indexAll_body data_d) s = (s', r) → evolves s s'.
Proof.
  revert s. induction fs as [|f fs IH]; intros s Hwf; simpl; [intros [= <- _]; by apply evolves_refl|].
  unfold pbind at 1. destruct (decide (has_field f data_d)) as [Hf|Hf].
  - destruct (indexAll_body_ok data_d f s Hwf Hf) as (s1 & ids & -> & Hup). intros Hrun.
    pose proof (updated_evolves _ _ _ _ _ _ _ Hwf Hup) as E1.
    apply (evolves_trans _ _ _ E1). apply (IH s1); [apply E1|done].
  - rewrite (indexAll_body_err data_d f s Hf). intros [= <- _]. by apply evolves_refl.
Qed.

Lemma step_evolves s s' : wf_state s → step s s' → evolves s s'.
Proof.
  intros Hwf Hst. inversion_clear Hst as [o ? ? r Hrun]. destruct o as [data f|data f|data_d|]; simpl in Hrun.
  - rewrite index_update in Hrun. by eapply update_evolves.
  - rewrite unindex_update in Hrun. by eapply update_evolves.
  - apply (indexAll_loop_evolves data_d (dkeys (index_fields (st_bl s))) s s' r Hwf). exact Hrun.
  - by eapply reset_evolves.
Qed.

(** Rule induction over a run of calls. *)
Lemma reachable_evolves s0 s : wf_state s0 → rtc step s0 s → evolves s0 s.
Proof.
  intros Hwf Hr. revert Hwf. induction Hr as [s|s1 s2 s3 H12 _ IH]; intros Hwf; [by apply evolves_refl|].
  pose proof (step_evolves s1 s2 Hwf H12) as E. apply (evolves_trans _ _ _ E), IH, E.
Qed.
End Lifecycle.

Section LifecycleTheorem.
Context {I : Type} `{!CanopyIndex I} `{!CanopyIndexLaws I} {Id : Type}.

(** C27: in every state a Blocker reaches from [__init__] (over
    allocated, not yet indexed predicate objects) by any sequence of
    [index], [unindex], [indexAll] and [resetIndices] calls, returning
    or raising: the invariant holds; the compound predicates are those
    given to [__init__], so the ordinal in every block key is stable;
    the index predicates and the field and kind of every predicate
    object are unchanged; the fields of [index_fields] are kept.  From
    every such state, [indexAll] on records having every field of
    [index_fields] returns, and afterwards [__call__] never raises. *)
Theorem blocker_lifecycle (preds : gmap loc Pred) cps b (s : St I) :
  fresh_preds preds cps = true → blocker_init preds cps = inr b →
  rtc (step (Id:=Id)) (mkSt b preds ∅ 0) s →
  wf_state s ∧ predicates (st_bl s) = cps ∧ index_predicates (st_bl s) = index_predicates b ∧
  shape_map s = pred_shape <$> preds ∧ dkeys (index_fields b) ⊆ dkeys (index_fields (st_bl s)) ∧
  ∀ data_d : dict Id Rec, (∀ f, f ∈ dkeys (index_fields (st_bl s)) → has_field f data_d) →
    ∃ s', indexAll data_d s = (s', inr tt) ∧ rtc (step (Id:=Id)) s s' ∧
      ∀ (recs : list (Id * Rec)) target, (blocker_call s' recs target).2 = None.
Proof.
  intros Hf Hb Hr.
  destruct (blocker_init_ok (I:=I) preds cps (fresh_preds_spec preds cps Hf)) as (b' & Hb' & Hp & Hwf0).
  rewrite Hb in Hb'. injection Hb' as <-.
  destruct (reachable_evolves _ s Hwf0 Hr) as (Hwf & Hps & Hips & Hsh & Hks).
  split_and!; [done|by rewrite Hps|done|done|done|].
  intros data_d Hall. destruct (indexAll_ready s data_d Hwf Hall) as (s' & Hrun & Hwf' & Hrd).
  exists s'. split_and!; [done| |].
  - apply rtc_once. by apply (step_op (OIndexAll data_d) s s' (inr tt)).
  - intros recs target. by apply call_total.
Qed.
End LifecycleTheorem.

Import TfIdf.

Lemma blocker_lifecycle_witness :
  let s1 := (indexAll Scenario.DATA Scenario.st0).1 in
  let s2 := (resetIndices s1).1 in
  fresh_preds Scenario.preds Scenario.cps = true ∧
  blocker_init Scenario.preds Scenario.cps = inr Scenario.bl ∧
  rtc (step (Id:=nat)) (mkSt Scenario.bl Scenario.preds ∅ 0) s2 ∧
  predicates (st_bl s2) = Scenario.cps.
Proof.
  intros s1 s2.
  assert (Hf : fresh_preds Scenario.preds Scenario.cps = true) by (vm_compute; reflexivity).
  assert (Hb : blocker_init Scenario.preds Scenario.cps = inr Scenario.bl) by (vm_compute; reflexivity).
  assert (Hr : rtc (step (Id:=nat)) (mkSt Scenario.bl Scenario.preds ∅ 0) s2).
  { eapply rtc_l; [apply (step_op (OIndexAll Scenario.DATA) _ s1 (indexAll Scenario.DATA Scenario.st0).2);
                   apply surjective_pairing|].
    eapply rtc_l; [apply (step_op OResetIndices s1 s2 (resetIndices s1).2); apply surjective_pairing|].
    apply rtc_refl. }
  split_and!; [done|done|done|].
  exact (proj1 (proj2 (blocker_lifecycle _ _ _ s2 Hf Hb Hr))).
Defined.
