(* ===== verification/Logging.v ===== *)
(** * The console output and progress log of [Blocker.__call__]

    [src/dedupe/blocking.py] lines 44-62.  Besides the pairs it yields,
    the generator prints a banner and its predicate list once, then for
    each record the record and, per compound predicate, the keys it
    returned; after the record's last pair it calls [logger.info] with
    the record's ordinal [i] when [i and i % 10000 == 0].  [call_trace]
    is the whole run as a list of events in the order the program emits
    them (prints and log calls as structured events: the text of
    [repr] and the elapsed time are not modelled), and how it ended.

    The theorems: erasing the console events from the trace gives the
    trace [blocker_call] of file [BlockerCall] and the same ending (the
    output is a hook that does not change the blocks); a stream that
    ends normally logs exactly the ordinals [10000 * k] for [1 <= k <=
    (n - 1) / 10000]; and each progress entry [i] comes after exactly
    [i + 1] records. *)

From S2P Require Import Prelude PyDict CanopyIndex Predicates Blocker BlockerCall.
Local Open Scope dedupe_scope.

(** ** The progress schedule *)

(** The period of the progress log. *)
Definition progress_every : nat := 10000.

(** [if i and i % 10000 == 0]. *)
Definition progress_due (i : nat) : bool :=
  bool_decide (i ≠ 0) && bool_decide (i `mod` progress_every = 0).

(** Passing from [n - 1] to [n]: the quotient by the period grows by
    one exactly at a multiple of it. *)
Lemma div_progress_step n :
  n ≠ 0 →
  (n `mod` progress_every = 0 ∧ n `div` progress_every = S ((n - 1) `div` progress_every) ∧
     n = progress_every * (n `div` progress_every)) ∨
  (n `mod` progress_every ≠ 0 ∧ n `div` progress_every = (n - 1) `div` progress_every).
Proof.
  intros Hn. assert (HP : progress_every ≠ 0) by done.
  generalize dependent progress_every. intros P HP.
  pose proof (Nat.div_mod_eq n P) as E1. pose proof (Nat.mod_upper_bound n P HP) as B1.
  set (q1 := n `div` P) in *. set (r1 := n `mod` P) in *. clearbody q1 r1.
  destruct (decide (r1 = 0)) as [->|Hr]; [left|right]; split_and!; try done.
  - assert (q1 ≠ 0) by (intros ->; lia).
    enough ((n - 1) `div` P = q1 - 1) by lia.
    symmetry. apply (Nat.div_unique _ _ _ (P - 1)); nia.
  - lia.
  - apply (Nat.div_unique _ _ _ (r1 - 1)); lia.
Qed.

(** The ordinals [0 .. n-1] that are logged: the positive multiples of
    the period below [n]. *)
Lemma progress_schedule n :
  filter progress_due (seq 0 n) =
  (λ k, progress_every * k) <$> seq 1 ((n - 1) `div` progress_every).
Proof.
  induction n as [|n IH]; [done|].
  rewrite seq_S, filter_app, IH, Nat.add_0_l. replace (S n - 1) with n by lia.
  destruct (decide (n = 0)) as [->|Hn]; [done|].
  rewrite filter_cons, filter_nil. unfold progress_due.
  destruct (div_progress_step n Hn) as [(Hm & Hq & Hn') | (Hm & Hq)].
  - rewrite !bool_decide_true by done. rewrite Hq, seq_S, fmap_app. cbn [fmap list_fmap].
    do 3 f_equal. rewrite Hn' at 1. f_equal. lia.
  - rewrite (bool_decide_false (_ = 0)) by done. rewrite andb_false_r, app_nil_r. by rewrite Hq.
Qed.

(** ** Events *)

Section Trace.
Context {I : Type} `{!CanopyIndex I} {Id : Type}.
Implicit Types s : St I.

(** What one run of the generator emits. *)
Inductive log_event :=
  | LCall                                  (** [print("blocking.Blocker.__call__")] *)
  | LPredicates (ps : list (string * list loc))  (** [print(f"Predicates: {predicates}")] *)
  | LRecord (rid : Id) (inst : Rec)        (** [print(f"Record: {record}")] *)
  | LBlockKeys (ks : list string)          (** [print(f"Block keys: {block_keys}")] *)
  | LYield (key : string) (rid : Id)       (** [yield block_key + pred_id, record_id] *)
  | LProgress (i : nat).                   (** [logger.info(..., {'iteration': i, ...})] *)

(** The inner loop for one record: per predicate, its keys are printed,
    then yielded; a predicate that raises ends the loop. *)
Fixpoint record_trace s (inst : Rec) (rid : Id) (target : bool)
    (ps : list (string * list loc)) : list log_event * option exn :=
  match ps with
  | [] => ([], None)
  | (pid, cp) :: ps' =>
      match compound_keys (st_preds s) (st_idx s) cp inst target with
      | inl e => ([], Some e)
      | inr ks =>
          let '(t, stop) := record_trace s inst rid target ps' in
          (LBlockKeys ks :: ((λ k, LYield (k +:+ pid) rid) <$> ks) ++ t, stop)
      end
  end.

(** The progress log after record [i] (the elapsed time it reports is
    not modelled). *)
Definition progress_log (i : nat) : list log_event :=
  if progress_due i then [LProgress i] else [].

(** The outer loop, [i] the ordinal of the first record of [recs]. *)
Fixpoint trace_records s (target : bool) (ps : list (string * list loc)) (i : nat)
    (recs : list (Id * Rec)) : list log_event * option exn :=
  match recs with
  | [] => ([], None)
  | (rid, inst) :: recs' =>
      let '(t1, st1) := record_trace s inst rid target ps in
      match st1 with
      | Some e => (LRecord rid inst :: t1, Some e)
      | None =>
          let '(t2, st2) := trace_records s target ps (S i) recs' in
          (LRecord rid inst :: t1 ++ progress_log i ++ t2, st2)
      end
  end.

(** The whole output of [blocker(records, target)] run to its end. *)
Definition call_trace s (records : list (Id * Rec)) (target : bool) : list log_event * option exn :=
  let ps := enum_preds (predicates (st_bl s)) in
  let '(t, stop) := trace_records s target ps 0 records in
  (LCall :: LPredicates ps :: t, stop).

(** The pairs the consumer receives, the progress log, and the records
    printed. *)
Definition yields_of : list log_event → list (string * Id) :=
  omap (λ ev, match ev with LYield k rid => Some (k, rid) | _ => None end).

Definition progress_of : list log_event → list nat :=
  omap (λ ev, match ev with LProgress i => Some i | _ => None end).

Definition records_of : list log_event → list Id :=
  omap (λ ev, match ev with LRecord rid _ => Some rid | _ => None end).

(** ** Erasure: the output does not change what is yielded *)

Lemma split_at_event {A} (l1 l2 t1 t2 : list A) x :
  l1 ++ l2 = t1 ++ x :: t2 →
  (∃ k, l1 = t1 ++ x :: k) ∨ (∃ k, t1 = l1 ++ k ∧ l2 = k ++ x :: t2).
Proof.
  intros [(k & -> & Hk)|(k & -> & Hk)]%app_eq_inv.
  - destruct k as [|y k]; simpl in Hk.
    + right. exists []. by rewrite !app_nil_r.
    + injection Hk as <- ->. left. by exists k.
  - right. by exists k.
Qed.

Lemma yields_of_tags (ks : list string) pid (rid : Id) :
  yields_of ((λ k, LYield (k +:+ pid) rid) <$> ks) = (λ k, (k +:+ pid, rid)) <$> ks.
Proof. induction ks as [|k ks IH]; [done|]. revert IH. unfold yields_of. simpl. intros IH. f_equal. exact IH. Qed.

Lemma omap_tags {B} (f : log_event → option B) (ks : list string) pid (rid : Id) :
  (∀ k, f (LYield k rid) = None) → omap f ((λ k, LYield (k +:+ pid) rid) <$> ks) = [].
Proof. intros Hf. induction ks as [|k ks IH]; [done|]. simpl. rewrite Hf. exact IH. Qed.

Lemma record_trace_spec s inst (rid : Id) target ps :
  yields_of (record_trace s inst rid target ps).1 = (record_keys s inst rid target ps).1 ∧
  (record_trace s inst rid target ps).2 = (record_keys s inst rid target ps).2 ∧
  progress_of (record_trace s inst rid target ps).1 = [] ∧
  records_of (record_trace s inst rid target ps).1 = [].
Proof.
  induction ps as [|[pid cp] ps IH]; [done|]. simpl.
  destruct (compound_keys _ _ cp inst target) as [e|ks]; [done|].
  destruct (record_trace s inst rid target ps) as [t st].
  destruct (record_keys s inst rid target ps) as [o st']. simpl in *.
  destruct IH as (Hy & -> & Hp & Hr). unfold yields_of, progress_of, records_of in *.
  simpl. rewrite !omap_app, Hy, Hp, Hr, (omap_tags (B:=nat)), (omap_tags (B:=Id)) by (by intros). split_and!; [|done..].
  f_equal. apply yields_of_tags.
Qed.

Lemma progress_log_of i :
  progress_of (progress_log i) = (if progress_due i then [i] else []) ∧ records_of (progress_log i) = [].
Proof. unfold progress_log. by destruct (progress_due i). Qed.

Lemma trace_records_spec s target ps i (recs : list (Id * Rec)) :
  yields_of (trace_records s target ps i recs).1 = (call_records s target ps recs).1 ∧
  (trace_records s target ps i recs).2 = (call_records s target ps recs).2 ∧
  ((call_records s target ps recs).2 = None →
     progress_of (trace_records s target ps i recs).1 = filter progress_due (seq i (length recs))).
Proof.
  revert i. induction recs as [|[rid inst] recs IH]; intros i; [done|]. simpl.
  destruct (record_trace_spec s inst rid target ps) as (Hy & Hs & Hp & _).
  destruct (record_trace s inst rid target ps) as [t1 st1].
  destruct (record_keys s inst rid target ps) as [o1 st1']. simpl in *. subst st1'.
  destruct st1 as [e|]; [done|].
  destruct (IH (S i)) as (Hy2 & Hs2 & Hp2).
  destruct (trace_records s target ps (S i) recs) as [t2 st2].
  destruct (call_records s target ps recs) as [o2 st2']. simpl in *. subst st2'.
  destruct (progress_log_of i) as [Hpl _]. unfold yields_of, progress_of in *.
  simpl. rewrite !omap_app, Hy, Hy2, Hp, Hpl. split_and!; [|done|].
  - unfold progress_log. by destruct (progress_due i).
  - intros Hn. rewrite Hp2 by done. rewrite filter_cons. by destruct (progress_due i).
Qed.

Lemma progress_free (l t1 t2 : list log_event) j :
  progress_of l = [] → l = t1 ++ LProgress j :: t2 → False.
Proof. intros Hp ->. revert Hp. unfold progress_of. rewrite omap_app. simpl. by intros [_ ?]%app_eq_nil. Qed.

(** Each progress entry [j] of the outer loop started at ordinal [i]
    comes after exactly [j + 1 - i] records. *)
Lemma trace_records_order s target ps i (recs : list (Id * Rec)) t1 j t2 :
  (trace_records s target ps i recs).1 = t1 ++ LProgress j :: t2 →
  i ≤ j ∧ length (records_of t1) = S j - i.
Proof.
  revert i t1. induction recs as [|[rid inst] recs IH]; intros i t1; simpl; [by destruct t1|].
  destruct (record_trace_spec s inst rid target ps) as (_ & _ & Hp & Hr).
  destruct (record_trace s inst rid target ps) as [rt [e|]]; simpl in *.
  - destruct t1 as [|e0 t1]; [by intros [=]|intros [= _ H]]. by destruct (progress_free rt t1 t2 j Hp H).
  - specialize (IH (S i)).
    destruct (trace_records s target ps (S i) recs) as [rest st2]. simpl in *.
    destruct t1 as [|e0 t1]; [by intros [=]|intros [= <- H]].
    apply split_at_event in H as [(k & Hk)|(k & -> & H)]; [by destruct (progress_free rt t1 k j Hp Hk)|].
    destruct (progress_log_of i) as [_ Hpl].
    apply split_at_event in H as [(k' & Hk)|(k' & -> & H)].
    + revert Hk. unfold progress_log. destruct (progress_due i); [|by destruct k].
      intros Hk. destruct k as [|? k]; simpl in Hk; injection Hk as Hij Hk; [subst j|by destruct k].
      unfold records_of in *. simpl. rewrite omap_app, Hr. simpl. lia.
    + destruct (IH k' H) as [Hle Hlen].
      unfold records_of in *. simpl. rewrite !omap_app, Hr, Hpl. simpl. lia.
Qed.
End Trace.

Arguments log_event : clear implicits.

Section LogTheorem.
Context {I : Type} `{!CanopyIndex I} {Id : Type}.

(** C13: the console output and progress log of [Blocker.__call__].
    Erasing everything but the yielded pairs from the events a run
    emits gives the trace of [blocker_call], and the run ends the same
    way: the output does not change the blocks.  A stream of [n]
    records that ends normally logs exactly the ordinals [10000 * k],
    [1 <= k <= (n - 1) / 10000], in order; and every progress entry
    [i], normal end or not, is emitted after exactly [i + 1] records
    were printed, so after the pairs of record [i] and before any of
    record [i + 1]. *)
Theorem call_trace_log (s : St I) (recs : list (Id * Rec)) target :
  yields_of (call_trace s recs target).1 = (blocker_call s recs target).1 ∧
  (call_trace s recs target).2 = (blocker_call s recs target).2 ∧
  ((blocker_call s recs target).2 = None →
     progress_of (call_trace s recs target).1 =
       (λ k, progress_every * k) <$> seq 1 ((length recs - 1) `div` progress_every)) ∧
  ∀ t1 i t2, (call_trace s recs target).1 = t1 ++ LProgress i :: t2 → length (records_of t1) = S i.
Proof.
  unfold call_trace, blocker_call.
  set (ps := enum_preds (predicates (st_bl s))).
  destruct (trace_records_spec s target ps 0 recs) as (Hy & Hs & Hp).
  pose proof (trace_records_order s target ps 0 recs) as Ho.
  destruct (trace_records s target ps 0 recs) as [t st]. cbn [fst snd] in *.
  split_and!; [done|done| |].
  - intros Hn. rewrite <-progress_schedule, <-(Hp Hn). reflexivity.
  - intros [|e1 [|e2 t1]] i t2; [by intros [=]|by intros [=]|intros [= <- <- H]].
    destruct (Ho t1 i t2 H) as [_ Hlen]. transitivity (length (records_of t1)); [done|lia].
Qed.
End LogTheorem.
